(** * Lattigo: RNS ring layer and homomorphic evaluators (bfv, ckks)

    A shallow embedding of the parts of the repository that the
    specification's properties talk about:

    - [U64]: Go's [uint64] arithmetic, as [Z] with the wrap-around written out;
    - [Ring]: the ring context ([SetParameters], [GenNTTParams], [AllowsNTT],
      [Equal]) and the number-theoretic transform ([Butterfly], [InvButterfly],
      [NTT], [InvNTT]) of package [ring];
    - [Bfv]: the Scheme-I evaluator (binary operations, rotations, key switch);
    - [Ckks]: the Scheme-A evaluator (binary operations, [MulRelin], [Rescale],
      rotations, key switch);
    - [Coeffs], [Crt], [Merging]: the coefficients of a polynomial
      ([SetCoefficientsUint64], [SetCoefficientsBigint], [PolyToBigint],
      [GetCenteredCoefficients]), the CRT reconstruction and [Merge];
    - [Plaintext]: the Scheme-I plaintext ([setCoefficientsInt64],
      [setCoefficientsUint64], [Lift], [EMB], [EMBInv]);
    - [Unary]: the Scheme-I unary operations ([Neg], [Reduce]);
    - [CkksElement]: [ckksElement.NTT] and [ckksElement.InvNTT].

    Go pointers are locations in a store; a run-time panic (nil dereference,
    index out of range) is [None]; a returned [error] is an [option string]
    whose [None] is Go's [nil]. *)

From Stdlib Require Import ZArith Lia List Bool String Znumtheory Zmod.
From stdpp Require Import base option list gmap.

Local Open Scope Z_scope.

(** ** Machine words *)

Module U64.

Definition modulus : Z := 2 ^ 64.

Definition wrap (x : Z) : Z := x mod modulus.

Definition add (a b : Z) : Z := wrap (a + b).
Definition sub (a b : Z) : Z := wrap (a - b).
Definition mul (a b : Z) : Z := wrap (a * b).

(** [x << s] and [x >> s] on [uint64]: a shift count of 64 or more gives 0. *)
Definition shl (x s : Z) : Z := if 64 <=? s then 0 else wrap (Z.shiftl x s).
Definition shr (x s : Z) : Z := if 64 <=? s then 0 else Z.shiftr x s.

(** High and low words of the 128-bit product ([bits.Mul64]). *)
Definition mulhi (a b : Z) : Z := (a * b) / modulus.
Definition mullo (a b : Z) : Z := (a * b) mod modulus.

(** [bits.Len64]: the number of bits needed to write [x]. *)
Definition len64 (x : Z) : Z := if x <=? 0 then 0 else Z.log2 x + 1.

Definition inrange (x : Z) : Prop := 0 <= x < modulus.

End U64.

(** Lookup at a [uint64] index: [None] is the index-out-of-range panic. *)
Definition at_ {A} (l : list A) (i : Z) : option A := l !! Z.to_nat i.

(** Store at a [uint64] index, panicking out of range. *)
Definition set_ {A} (l : list A) (i : Z) (x : A) : option (list A) :=
  if decide (Z.to_nat i < length l)%nat then Some (<[Z.to_nat i := x]> l) else None.

(** [for i := lo; i < hi; i++ { s = body(i, s) }] where the body may panic. *)
Fixpoint for_nat {S} (n : nat) (lo : Z) (body : Z -> S -> option S) (s : S) : option S :=
  match n with
  | O => Some s
  | Datatypes.S n' => s' ← body lo s; for_nat n' (lo + 1) body s'
  end.

Definition for_range {S} (lo hi : Z) (body : Z -> S -> option S) (s : S) : option S :=
  for_nat (Z.to_nat (hi - lo)) lo body s.

(** ** Package ring *)

Module Ring.

(** *** Modular arithmetic primitives

    The files of package [ring] that hold the word-level primitives are not
    among the sources; they are modelled from the specification (section
    4.1), which fixes their results. *)

(** Modelled from the spec: [ring.MRedParams], "precompute q^{-1} mod 2^64". *)
Definition MRedParams (q : Z) : Z := Z.invmod q U64.modulus.

(** Modelled from the spec: [ring.BRedParams], "precompute a two-word
    reciprocal" of the modulus, the high and low words of 2^128 / q. *)
Definition BRedParams (q : Z) : list Z :=
  [ (2 ^ 128 / q) / U64.modulus; (2 ^ 128 / q) mod U64.modulus ].

(** Modelled from the spec: [ring.MRedConstant], Montgomery reduction with
    the precomputed q^{-1} mod 2^64 and no final correction, "returning
    [0, 2q) for lazy-reduction inner loops". *)
Definition MRedConstant (x y q qInv : Z) : Z :=
  let ahi := U64.mulhi x y in
  let alo := U64.mullo x y in
  let R := U64.mul alo qInv in
  let H := U64.mulhi R q in
  U64.add (U64.sub ahi H) q.

(** Modelled from the spec: [ring.MRed], "x*y*R^{-1} mod q returning [0, q)". *)
Definition MRed (x y q qInv : Z) : Z :=
  let r := MRedConstant x y q qInv in
  if q <=? r then U64.sub r q else r.

(** Modelled from the spec: [ring.BRedAdd], "x mod q ... for a single
    residue in [0, 2^64)" (the Barrett reciprocal only speeds it up). *)
Definition BRedAdd (x q : Z) (bredParams : list Z) : Z := x mod q.

(** Modelled from the spec: [ring.MForm], "x*R mod q (R = 2^64)". *)
Definition MForm (x q : Z) (bredParams : list Z) : Z := (x * U64.modulus) mod q.

(** Modelled from the spec: [ring.ModExp], "by square-and-multiply". *)
Definition ModExp (base e q : Z) : Z :=
  match e with
  | Zpos p => Pos.iter_op (fun a b => (a * b) mod q) p (base mod q)
  | _ => 1 mod q
  end.

(** Modelled from the spec: [ring.IsPrime], a primality test "sufficient for
    64-bit integers", that is, one that decides primality of every [uint64];
    modelled by what it decides. *)
Definition IsPrime (q : Z) : bool :=
  (1 <? q) && forallb (fun d => negb (q mod Z.of_nat d =? 0)) (seq 2 (Z.to_nat q - 2)).

(** Modelled from the spec: [ring.bitReverse64], the index map of the
    "bit-reversed tables": the low [bitLen] bits of [index], reversed. *)
Definition bitReverse64 (index bitLen : Z) : Z :=
  fold_left
    (fun acc i =>
       if Z.testbit index (Z.of_nat i)
       then Z.lor acc (U64.shl 1 (bitLen - 1 - Z.of_nat i)) else acc)
    (seq 0 (Z.to_nat bitLen)) 0.

(** *** Polynomials and contexts *)

(** [ring.Poly]: its only field is [Coeffs [][]uint64], one row per modulus. *)
Abbreviation Poly := (list (list Z)).

Record Context : Type := mkContext {
  N : Z;
  Modulus : option (list Z);    (* [None] is the nil slice *)
  mask : list Z;
  allowsNTT : bool;
  ModulusBigint : Z;
  CrtReconstruction : list Z;
  bredParams : list (list Z);
  mredParams : list Z;
  psiMont : list Z;
  psiInvMont : list Z;
  nttPsi : list (list Z);
  nttPsiInv : list (list Z);
  nttNInv : list Z
}.

(** [range context.Modulus]: ranging over a nil slice does nothing. *)
Definition moduli (context : Context) : list Z := default [] (Modulus context).

(** [NewContext]: the zero value of the struct. *)
Definition NewContext : Context :=
  mkContext 0 None [] false 0 [] [] [] [] [] [] [] [].

Definition SetParameters (context : Context) (N0 : Z) (Modulus0 : list Z)
  : Context * option string :=
  if negb (Z.land N0 (U64.sub N0 1) =? 0) && negb (N0 =? 0)
  then (context, Some "invalid ring degree (must be a power of 2)"%string)
  else
    let mask' :=
      map (fun qi => U64.sub (U64.shl 1 (U64.len64 qi)) 1) Modulus0 in
    let big := fold_left Z.mul Modulus0 1 in
    let bred := map BRedParams Modulus0 in
    let mred :=
      map (fun qi => if negb (Z.land qi (U64.sub qi 1) =? 0) && negb (qi =? 0)
                     then MRedParams qi else 0) Modulus0 in
    (mkContext N0 (Some Modulus0) mask' false big
       (CrtReconstruction context) bred mred
       (psiMont context) (psiInvMont context)
       (nttPsi context) (nttPsiInv context) (nttNInv context),
     None).

Definition AllowsNTT (context : Context) : bool := allowsNTT context.

Section GenNTTParams.

(** [ring.primitiveRoot] is not among the sources: the generator it
    returns is a parameter of the model. *)
Variable primitiveRoot : Z -> Z.

(** The test of [GenNTTParams] on one modulus:
    [IsPrime(qi) == false || qi&((context.N<<1)-1) != 1]. *)
Definition failsNTT (N0 qi : Z) : bool :=
  negb (IsPrime qi) || negb (Z.land qi (U64.sub (U64.shl N0 1) 1) =? 1).

(** The body of the loop over [j] that fills the two bit-reversed tables. *)
Definition psiStep (context : Context) (i : nat)
    (bitLenofN PsiMont PsiInvMont qi : Z) (j : Z)
    (tabs : list Z * list Z) : option (list Z * list Z) :=
  let indexReversePrev := bitReverse64 (U64.sub j 1) bitLenofN in
  let indexReverseNext := bitReverse64 j bitLenofN in
  a ← at_ tabs.1 indexReversePrev;
  mred ← mredParams context !! i;
  psi' ← set_ tabs.1 indexReverseNext (MRed a PsiMont qi mred);
  b ← at_ tabs.2 indexReversePrev;
  psiInv' ← set_ tabs.2 indexReverseNext (MRed b PsiInvMont qi mred);
  Some (psi', psiInv').

Record nttRow : Type := mkRow {
  rowCrt : Z; rowNInv : Z; rowPsiMont : Z; rowPsiInvMont : Z;
  rowPsi : list Z; rowPsiInv : list Z
}.

(** The body of the loop over the moduli that computes the parameters. *)
Definition genRow (context : Context) (bitLenofN : Z) (i : nat) (qi : Z)
  : option nttRow :=
  bred ← bredParams context !! i;
  let crt0 := ModulusBigint context / qi in
  let tmp := Z.invmod crt0 qi mod qi in
  let nInv := MForm (ModExp (N context) (U64.sub qi 2) qi) qi bred in
  let g := primitiveRoot qi in
  let _2n := U64.shl (N context) 1 in
  if _2n =? 0 then None else
  let power := U64.sub qi 1 / _2n in
  let powerInv := U64.sub (U64.sub qi 1) power in
  let PsiMont := MForm (ModExp g power qi) qi bred in
  let PsiInvMont := MForm (ModExp g powerInv qi) qi bred in
  let zeros := replicate (Z.to_nat (N context)) 0 in
  psi0 ← set_ zeros 0 (MForm 1 qi bred);
  psiInv0 ← set_ zeros 0 (MForm 1 qi bred);
  tabs ← for_range 1 (N context)
            (psiStep context i bitLenofN PsiMont PsiInvMont qi) (psi0, psiInv0);
  Some (mkRow (crt0 * tmp) nInv PsiMont PsiInvMont tabs.1 tabs.2).

Definition GenNTTParams (context : Context) : option (Context * option string) :=
  if allowsNTT context then Some (context, None)
  else if (N context =? 0) || bool_decide (Modulus context = None)
  then Some (context, Some "error : invalid context parameters (missing)"%string)
  else if existsb (failsNTT (N context)) (moduli context)
  then Some (context, Some "warning : provided modulus does not allow NTT"%string)
  else
    let bitLenofN := U64.wrap (U64.len64 (N context) - 1) in
    rows ← mapM (fun iq => genRow context bitLenofN iq.1 iq.2)
                (imap pair (moduli context));
    Some (mkContext (N context) (Modulus context) (mask context) true
            (ModulusBigint context) (map rowCrt rows)
            (bredParams context) (mredParams context)
            (map rowPsiMont rows) (map rowPsiInvMont rows)
            (map rowPsi rows) (map rowPsiInv rows) (map rowNInv rows),
          None).

End GenNTTParams.

(** *** Row-wise operations

    The file of package [ring] with the coefficient-wise operations is not
    among the sources. Each of them runs over [range context.Modulus] and
    over [j < context.N], reads row [i] of its operands and writes row [i]
    of its receiver. *)

(** [for j := 0; j < N; j++ { dst[j] = f(src[j]) }]. *)
Definition rowMap (f : Z -> Z) (N0 : Z) (src dst : list Z) : option (list Z) :=
  if decide (Z.to_nat N0 <= length src /\ Z.to_nat N0 <= length dst)%nat
  then Some (map f (take (Z.to_nat N0) src) ++ drop (Z.to_nat N0) dst)
  else None.

(** [for j := 0; j < N; j++ { dst[j] = f(a[j], b[j]) }]. *)
Definition rowZip (f : Z -> Z -> Z) (N0 : Z) (a b dst : list Z) : option (list Z) :=
  if decide (Z.to_nat N0 <= length a /\ Z.to_nat N0 <= length b
             /\ Z.to_nat N0 <= length dst)%nat
  then Some (zip_with f (take (Z.to_nat N0) a) (take (Z.to_nat N0) b)
               ++ drop (Z.to_nat N0) dst)
  else None.

(** [for i, qi := range context.Modulus { p.Coeffs[i] = row(i, qi, p.Coeffs[i]) }]:
    one row per modulus; the rows of the receiver past the last modulus of
    the context are left as they are. An operand that is the same memory as
    the receiver is read row by row before that row is written. *)
Definition forModuliStep (row : nat -> Z -> list Z -> option (list Z))
    (acc : option Poly) (xq : nat * Z) : option Poly :=
  p ← acc;
  r ← p !! xq.1;
  r' ← row xq.1 xq.2 r;
  Some (<[xq.1 := r']> p).

Definition forModuli (context : Context)
    (row : nat -> Z -> list Z -> option (list Z)) (p : Poly) : option Poly :=
  foldl (forModuliStep row) (Some p) (imap pair (moduli context)).

Definition polyMap (context : Context) (f : nat -> Z -> option (Z -> Z))
    (p1 p2 : Poly) : option Poly :=
  forModuli context
    (fun i q dst => g ← f i q; src ← p1 !! i; rowMap g (N context) src dst) p2.

Definition polyZip (context : Context) (f : nat -> Z -> option (Z -> Z -> Z))
    (p1 p2 p3 : Poly) : option Poly :=
  forModuli context
    (fun i q dst =>
       g ← f i q; a ← p1 !! i; b ← p2 !! i; rowZip g (N context) a b dst) p3.

(** Modelled from the spec: [Context.Reduce], "canonicalize to [0,q_i)";
    [p2] receives the reduction of [p1]. *)
Definition Reduce (context : Context) (p1 p2 : Poly) : option Poly :=
  polyMap context
    (fun i q => bred ← bredParams context !! i; Some (fun x => BRedAdd x q bred))
    p1 p2.

(** Modelled from the spec: [Context.Add], [Context.Sub] and [Context.Neg],
    the "row-wise component-wise operations" with canonical results, and
    their [NoMod] variants, which skip the reduction. *)
Definition Add (context : Context) (p1 p2 p3 : Poly) : option Poly :=
  polyZip context (fun _ q => Some (fun x y => U64.add x y mod q)) p1 p2 p3.

Definition AddNoMod (context : Context) (p1 p2 p3 : Poly) : option Poly :=
  polyZip context (fun _ q => Some (fun x y => U64.add x y)) p1 p2 p3.

Definition Sub (context : Context) (p1 p2 p3 : Poly) : option Poly :=
  polyZip context (fun _ q => Some (fun x y => U64.sub (U64.add x q) y mod q)) p1 p2 p3.

Definition SubNoMod (context : Context) (p1 p2 p3 : Poly) : option Poly :=
  polyZip context (fun _ q => Some (fun x y => U64.sub (U64.add x q) y)) p1 p2 p3.

Definition Neg (context : Context) (p1 p2 : Poly) : option Poly :=
  polyMap context (fun _ q => Some (fun x => U64.sub q x mod q)) p1 p2.

(** Modelled from the spec: [Context.Copy], the receiver takes the
    coefficients of the operand on the rows of the context. *)
Definition Copy (context : Context) (p1 p2 : Poly) : option Poly :=
  polyMap context (fun _ _ => Some (fun x => x)) p1 p2.

(** Modelled from the spec: [Context.MulByPow2], multiplication of every
    residue by a power of two. *)
Definition MulByPow2 (context : Context) (p1 : Poly) (pow2 : Z) (p2 : Poly)
  : option Poly :=
  polyMap context (fun _ q => Some (fun x => (x * 2 ^ pow2) mod q)) p1 p2.

(** Modelled from the spec: [Context.MForm], every residue to Montgomery form. *)
Definition Poly_MForm (context : Context) (p1 p2 : Poly) : option Poly :=
  polyMap context
    (fun i q => bred ← bredParams context !! i; Some (fun x => MForm x q bred))
    p1 p2.

(** Modelled from the spec: [Context.MulCoeffsMontgomery] ("requires one
    operand in Montgomery form") and [Context.MulCoeffsMontgomeryAndAddNoMod],
    which adds the products to the receiver without reducing the sums. *)
Definition MulCoeffsMontgomery (context : Context) (p1 p2 p3 : Poly) : option Poly :=
  polyZip context
    (fun i q => mred ← mredParams context !! i; Some (fun x y => MRed x y q mred))
    p1 p2 p3.

Definition MulCoeffsMontgomeryAndAddNoMod (context : Context) (p1 p2 p3 : Poly)
  : option Poly :=
  forModuli context
    (fun i q dst =>
       mred ← mredParams context !! i;
       a ← p1 !! i; b ← p2 !! i;
       prod ← rowZip (fun x y => MRed x y q mred) (N context) a b dst;
       rowZip U64.add (N context) dst prod dst)
    p3.

(** [Poly.Zero] and [Poly.Copy], on all the rows of the polynomial. Modelled
    from the spec ("the tail coefficients of the larger operand are
    copied ... into the receiver"): the receiver must have room for every
    coefficient it is given. *)
Definition Zero (p : Poly) : Poly := map (map (fun _ => 0)) p.

Definition Poly_Copy (Pol p1 : Poly) : option Poly :=
  if decide (length p1 <= length Pol)%nat then
    rows ← mapM (fun ab : list Z * list Z =>
                   if decide (length ab.1 <= length ab.2)%nat
                   then Some (ab.1 ++ drop (length ab.1) ab.2) else None)
                (zip p1 Pol);
    Some (rows ++ drop (length p1) Pol)
  else None.

(** [Context.NewPoly] creates a new polynomial with all coefficients set to 0. *)
Definition NewPoly (context : Context) : Poly :=
  replicate (length (moduli context)) (replicate (Z.to_nat (N context)) 0).

(** The first loop of [Equal]: does some row of [p1] differ in length from
    the same row of [p2]? *)
Fixpoint lenDiffers (n : nat) (i : nat) (p1 p2 : Poly) : option bool :=
  match n with
  | O => Some false
  | S n' =>
      r1 ← p1 !! i; r2 ← p2 !! i;
      if decide (length r1 = length r2) then lenDiffers n' (S i) p1 p2
      else Some true
  end.

(** The inner loop of the comparison of [Equal], over [j < context.N]. *)
Fixpoint rowDiffers (n : nat) (j : Z) (r1 r2 : list Z) : option bool :=
  match n with
  | O => Some false
  | S n' =>
      x ← at_ r1 j; y ← at_ r2 j;
      if x =? y then rowDiffers n' (j + 1) r1 r2 else Some true
  end.

(** The outer loop of the comparison, over the moduli. *)
Fixpoint coeffDiffers (n : nat) (i : nat) (N0 : Z) (p1 p2 : Poly) : option bool :=
  match n with
  | O => Some false
  | S n' =>
      r1 ← p1 !! i; r2 ← p2 !! i;
      d ← rowDiffers (Z.to_nat N0) 0 r1 r2;
      if (d : bool) then Some true else coeffDiffers n' (S i) N0 p1 p2
  end.

(** [Context.Equal(p1, p2)]. The two polynomials are pointers: they are
    locations of a store of polynomials, and may be the same location. The
    result is the returned boolean and the store after the call. *)
Definition Equal (context : Context) (h : gmap nat Poly) (p1 p2 : nat)
  : option (bool * gmap nat Poly) :=
  a ← h !! p1; b ← h !! p2;
  d ← lenDiffers (length (moduli context)) 0 a b;
  if (d : bool) then Some (false, h) else
  a' ← Reduce context a a;
  let h1 := <[p1 := a']> h in
  b1 ← h1 !! p2;
  b' ← Reduce context b1 b1;
  let h2 := <[p2 := b']> h1 in
  a2 ← h2 !! p1; b2 ← h2 !! p2;
  d ← coeffDiffers (length (moduli context)) 0 (N context) a2 b2;
  Some (negb d, h2).

(** *** The number-theoretic transform (ring/ntt.go) *)

(** [Butterfly] computes X, Y = U + V*Psi, U - V*Psi mod Q. *)
Definition Butterfly (U V Psi Q Qinv : Z) : Z * Z :=
  let U := if U64.mul 2 Q <? U then U64.sub U (U64.mul 2 Q) else U in
  let V := MRedConstant V Psi Q Qinv in
  (U64.add U V, U64.sub (U64.add U (U64.mul 2 Q)) V).

(** [InvButterfly] computes X, Y = U + V, (U - V) * Psi mod Q. *)
Definition InvButterfly (U V Psi Q Qinv : Z) : Z * Z :=
  let X := U64.add U V in
  let X := if U64.mul 2 Q <? X then U64.sub X (U64.mul 2 Q) else X in
  let Y := MRedConstant (U64.sub (U64.add U (U64.mul 2 Q)) V) Psi Q Qinv in
  (X, Y).

(** [out[j], out[j+t] = f(src[j], src[j+t])]. When the two slices are the
    same memory the source is the current receiver; the first round of the
    transforms reads a pair of the input before it writes that pair and no
    other, so there it is the input as it was on entry in both cases. *)
Definition pairStep (f : Z -> Z -> Z * Z) (t : Z) (src : list Z) (j : Z)
    (out : list Z) : option (list Z) :=
  u ← at_ src j;
  v ← at_ src (U64.add j t);
  out' ← set_ out j (f u v).1;
  set_ out' (U64.add j t) (f u v).2.

(** [for j := j1; j <= j2; j++ { out[j], out[j+t] = f(out[j], out[j+t]) }].
    With [j2] the largest word the loop can only end by a panic, as the
    range then runs past every slice. *)
Definition pairLoop (f : Z -> Z -> Z * Z) (t j1 j2 : Z) (out : list Z)
  : option (list Z) :=
  for_range j1 (j2 + 1) (fun j (out : list Z) => pairStep f t out j out) out.

Section NTT.

Variables (N0 : Z) (psi : list Z) (Q Qinv : Z).

(** The loop [for m := 2; m < N; m <<= 1] of [NTT]; it runs at most 64
    times before [m] wraps to 0, after which it would never end. *)
Fixpoint nttRounds (fuel : nat) (m t : Z) (out : list Z) : option (list Z) :=
  if m <? N0 then
    match fuel with
    | O => None
    | S fuel' =>
        let t := U64.shr t 1 in
        out' ← for_range 0 m
                 (fun i (out : list Z) =>
                    let j1 := U64.shl (U64.mul i t) 1 in
                    let j2 := U64.sub (U64.add j1 t) 1 in
                    F ← at_ psi (U64.add m i);
                    pairLoop (fun U V => Butterfly U V F Q Qinv) t j1 j2 out)
                 out;
        nttRounds fuel' (U64.shl m 1) t out'
    end
  else Some out.

(** The loop over [i < h] of [InvNTT], which carries [j1] along. *)
Definition invRound (h t : Z) (first : option (list Z)) (out : list Z)
  : option (list Z) :=
  r ← for_range 0 h
        (fun i (s : Z * list Z) =>
           let j1 := s.1 in
           let j2 := match first with
                     | Some _ => j1
                     | None => U64.sub (U64.add j1 t) 1
                     end in
           F ← at_ psi (U64.add h i);
           out' ← for_range j1 (j2 + 1)
                    (fun j (out : list Z) =>
                       pairStep (fun U V => InvButterfly U V F Q Qinv) t
                         (default out first) j out)
                    s.2;
           Some (U64.add j1 (U64.shl t 1), out'))
        (0, out);
  Some r.2.

(** The loop [for m := N >> 1; m > 1; m >>= 1] of [InvNTT]. *)
Fixpoint invRounds (fuel : nat) (m t : Z) (out : list Z) : option (list Z) :=
  if 1 <? m then
    match fuel with
    | O => None
    | S fuel' =>
        let h := U64.shr m 1 in
        out' ← invRound h t None out;
        invRounds fuel' (U64.shr m 1) (U64.shl t 1) out'
    end
  else Some out.

End NTT.

(** [NTT] computes the NTT transformation on the input coefficients given
    the provided params; the result is the receiver [coeffsOut]. *)
Definition NTT (coeffsIn coeffsOut : list Z) (N0 : Z) (nttPsi0 : list Z)
    (Q mredParams0 : Z) (bredParams0 : list Z) : option (list Z) :=
  let t := U64.shr N0 1 in
  let j2 := U64.sub t 1 in
  F ← at_ nttPsi0 1;
  out ← for_range 0 (j2 + 1)
          (fun j (out : list Z) =>
             pairStep (fun U V => Butterfly U V F Q mredParams0) t coeffsIn j out)
          coeffsOut;
  out ← nttRounds N0 nttPsi0 Q mredParams0 64 2 t out;
  for_range 0 N0
    (fun i (out : list Z) => x ← at_ out i; set_ out i (BRedAdd x Q bredParams0))
    out.

(** [InvNTT] computes the InvNTT transformation on the input coefficients
    given the provided params. *)
Definition InvNTT (coeffsIn coeffsOut : list Z) (N0 : Z) (nttPsiInv0 : list Z)
    (nttNInv0 Q mredParams0 : Z) : option (list Z) :=
  let t := 1 in
  let h := U64.shr N0 1 in
  out ← invRound nttPsiInv0 Q mredParams0 h t (Some coeffsIn) coeffsOut;
  let t := U64.shl t 1 in
  out ← invRounds nttPsiInv0 Q mredParams0 64 (U64.shr N0 1) t out;
  for_range 0 N0
    (fun j (out : list Z) => x ← at_ out j; set_ out j (MRed x nttNInv0 Q mredParams0))
    out.

(** [Context.NTT(p1, p2)]: [p2] receives the transform of [p1]. *)
Definition Context_NTT (context : Context) (p1 p2 : Poly) : option Poly :=
  forModuli context
    (fun x q r2 =>
       r1 ← p1 !! x;
       psi ← nttPsi context !! x;
       mred ← mredParams context !! x;
       bred ← bredParams context !! x;
       NTT r1 r2 (N context) psi q mred bred)
    p2.

(** [Context.InvNTT(p1, p2)]. *)
Definition Context_InvNTT (context : Context) (p1 p2 : Poly) : option Poly :=
  forModuli context
    (fun x q r2 =>
       r1 ← p1 !! x;
       psiInv ← nttPsiInv context !! x;
       nInv ← nttNInv context !! x;
       mred ← mredParams context !! x;
       InvNTT r1 r2 (N context) psiInv nInv q mred)
    p2.

End Ring.

(** ** Pointers

    Operands ([*bfvElement], [*ckksElement]) are locations of a heap of
    elements; a [*ring.Poly] is either a component of an element of the heap
    or one of the evaluator's pool polynomials. Operations read their
    operands from the current store and write their receiver to it, so an
    operand that is also the receiver is updated in place. *)

Module Mem.

Import Ring.

Definition loc : Type := nat.

(** What the two schemes' elements have in common: the slice [value],
    which can be replaced without touching the other fields. *)
Class Element (E : Type) : Type := {
  value : E -> list Poly;
  withValue : list Poly -> E -> E;
  value_withValue : forall v e, value (withValue v e) = v
}.

Record Store (E : Type) : Type := mkStore {
  heap : gmap loc E;
  pool : list Poly
}.
Arguments mkStore {E} _ _.
Arguments heap {E} _.
Arguments pool {E} _.

Inductive polyRef : Type :=
| Val (l : loc) (i : Z)     (* [el.value[i]] of the element at [l] *)
| Pool (i : nat).           (* [evaluator.polypool[i]] *)

(** An operand as the [Operand] interface sees it: the nil interface, or a
    pointer to a ciphertext or plaintext, which may itself be nil. *)
Inductive Operand : Type :=
| OpNil
| OpPtr (p : option loc).

Definition isNil (op : Operand) : bool :=
  match op with OpNil => true | OpPtr _ => false end.

Section Store.

Context {E : Type} `{Element E}.

Definition getEl (st : Store E) (l : loc) : option E := heap st !! l.

Definition setEl (st : Store E) (l : loc) (el : E) : Store E :=
  mkStore (<[l := el]> (heap st)) (pool st).

Definition readPoly (st : Store E) (r : polyRef) : option Poly :=
  match r with
  | Val l i => el ← getEl st l; at_ (value el) i
  | Pool i => pool st !! i
  end.

Definition writePoly (st : Store E) (r : polyRef) (p : Poly) : option (Store E) :=
  match r with
  | Val l i =>
      el ← getEl st l;
      v ← set_ (value el) i p;
      Some (setEl st l (withValue v el))
  | Pool i =>
      if decide (i < length (pool st))%nat
      then Some (mkStore (heap st) (<[i := p]> (pool st))) else None
  end.

(** [op(src, dst)] and [op(a, b, dst)] through pointers. *)
Definition apply1 (op : Poly -> Poly -> option Poly) (src dst : polyRef)
    (st : Store E) : option (Store E) :=
  a ← readPoly st src; d ← readPoly st dst;
  r ← op a d; writePoly st dst r.

Definition apply2 (op : Poly -> Poly -> Poly -> option Poly) (a b dst : polyRef)
    (st : Store E) : option (Store E) :=
  x ← readPoly st a; y ← readPoly st b; d ← readPoly st dst;
  r ← op x y d; writePoly st dst r.

(** [el.Degree()] is [uint64(len(el.value) - 1)]. *)
Definition Degree (el : E) : Z := U64.wrap (Z.of_nat (length (value el)) - 1).

(** A method call through the interface: a nil interface and a nil
    pointer both panic. *)
Definition deref (st : Store E) (op : Operand) : option (loc * E) :=
  match op with
  | OpPtr (Some l) => el ← getEl st l; Some (l, el)
  | _ => None
  end.

Definition opDegree (st : Store E) (op : Operand) : option Z :=
  le ← deref st op; Some (Degree le.2).

End Store.

(** The outcome of the checks on the operands of a binary operation. *)
Inductive checked (A : Type) : Type :=
| Rejected (err : string)
| Accepted (a : A).
Arguments Rejected {A} _.
Arguments Accepted {A} _.

(** [getElemAndCheckBinary], the same function in the two evaluators. *)
Definition getElemAndCheckBinary {E} `{Element E} (st : Store E)
    (op0 op1 opOut : Operand) (opOutMinDegree : Z)
  : option (checked (loc * loc * loc)) :=
  if isNil op0 || isNil op1 || isNil opOut
  then Some (Rejected "operands cannot be nil")
  else
    d0 ← opDegree st op0;
    d1 ← opDegree st op1;
    if U64.add d0 d1 =? 0
    then Some (Rejected "operands cannot be both plaintext")
    else
      dOut ← opDegree st opOut;
      if dOut <? opOutMinDegree
      then Some (Rejected "receiver operand degree is too small")
      else
        el0 ← deref st op0; el1 ← deref st op1; elOut ← deref st opOut;
        Some (Accepted (el0.1, el1.1, elOut.1)).

(** Switching keys and rotation keys (the same shape in both schemes). *)
Record SwitchingKey : Type := mkSwitchingKey {
  bitDecomp : Z;
  evakey : list (list (Poly * Poly))
}.

Record RotationKeys : Type := mkRotationKeys {
  evakeyRotColLeft : gmap Z SwitchingKey;
  evakeyRotColRight : gmap Z SwitchingKey;
  evakeyRotRows : option SwitchingKey
}.

(** [hammingWeight64] is not among the sources: the number of set bits. *)
Definition hammingWeight64 (x : Z) : Z :=
  Z.of_nat (length (filter (fun i => Z.testbit x (Z.of_nat i) = true) (seq 0 64))).

Section SwitchKeys.

Context {E : Type} `{Element E}.

(** The loop common to [bfv.Evaluator.switchKeys] and
    [ckks.Evaluator.switchKeysInPlace]: [c2] is the polynomial to absorb,
    out of the NTT domain, [c2qiw] the scratch polynomial of the pool. *)

(** [c2qiw.Coeffs[v][u] = (c2.Coeffs[i][u] >> (j * bitDecomp)) & mask]
    for [u < n] and [v] over the moduli. *)
Definition extractDigit (context : Context) (n : Z) (c2 : Poly) (i : nat)
    (j bitDecomp0 mask0 : Z) (c2qiw : Poly) : option Poly :=
  forModuli context
    (fun v _ dst =>
       src ← c2 !! i;
       rowMap (fun x => Z.land (U64.shr x (U64.mul j bitDecomp0)) mask0) n src dst)
    c2qiw.

Definition reduceBoth (context : Context) (ctOut : loc) (st : Store E)
  : option (Store E) :=
  st ← apply1 (Reduce context) (Val ctOut 0) (Val ctOut 0) st;
  apply1 (Reduce context) (Val ctOut 1) (Val ctOut 1) st.

(** The body of the loop over [j < bitLog]; the state carries [reduce]. *)
Definition switchKeysStep (context : Context) (n : Z) (c2 c2qiw : polyRef)
    (key : SwitchingKey) (ctOut : loc) (mask0 : Z) (i : nat) (j : Z)
    (s : Store E * Z) : option (Store E * Z) :=
  let st := s.1 in
  let reduce := s.2 in
  c ← readPoly st c2;
  w ← readPoly st c2qiw;
  w' ← extractDigit context n c i j (bitDecomp key) mask0 w;
  st ← writePoly st c2qiw w';
  st ← apply1 (Context_NTT context) c2qiw c2qiw st;
  row ← evakey key !! i;
  k ← at_ row j;
  w ← readPoly st c2qiw;
  d0 ← readPoly st (Val ctOut 0);
  r0 ← MulCoeffsMontgomeryAndAddNoMod context k.1 w d0;
  st ← writePoly st (Val ctOut 0) r0;
  d1 ← readPoly st (Val ctOut 1);
  r1 ← MulCoeffsMontgomeryAndAddNoMod context k.2 w d1;
  st ← writePoly st (Val ctOut 1) r1;
  st ← (if Z.land reduce 7 =? 7 then reduceBoth context ctOut st else Some st);
  Some (st, U64.add reduce 1).

(** The loop over [i := range context.Modulus]. *)
Definition switchKeysLoop (context : Context) (n : Z) (c2 c2qiw : polyRef)
    (key : SwitchingKey) (ctOut : loc) (st : Store E) : option (Store E) :=
  let mask0 := U64.sub (U64.shl 1 (bitDecomp key)) 1 in
  s ← foldl
        (fun acc (iq : nat * Z) =>
           s ← acc;
           row ← evakey key !! iq.1;
           let bitLog := Z.of_nat (length row) in
           for_range 0 bitLog
             (switchKeysStep context n c2 c2qiw key ctOut mask0 iq.1) s)
        (Some (st, 0)) (imap pair (moduli context));
  if negb (Z.land (U64.sub s.2 1) 7 =? 7)
  then reduceBoth context ctOut s.1
  else Some s.1.

End SwitchKeys.

(** The loop [for k > 0 { if k&1 == 1 { permute(...) }; generator *= generator;
    generator &= mask; evakeyIndex <<= 1; k >>= 1 }] of the two
    [rotateColumnsPow2], by recursion on the binary digits of [k];
    [rotate generator key] is the call of [permute] on the receiver. *)
Fixpoint pow2Loop {S : Type} (rotate : Z -> option SwitchingKey -> S -> option S)
    (k : positive) (generator mask0 evakeyIndex : Z)
    (evakeyRotCol : gmap Z SwitchingKey) (st : S) : option S :=
  let next := Z.land (U64.mul generator generator) mask0 in
  match k with
  | xH => rotate generator (evakeyRotCol !! evakeyIndex) st
  | xO k' => pow2Loop rotate k' next mask0 (U64.shl evakeyIndex 1) evakeyRotCol st
  | xI k' =>
      st ← rotate generator (evakeyRotCol !! evakeyIndex) st;
      pow2Loop rotate k' next mask0 (U64.shl evakeyIndex 1) evakeyRotCol st
  end.

(** The loop [for i := 1; i < n>>1; i <<= 1] of the two [RotateColumns]
    that looks for the power of two rotation keys; [i] wraps to 0 after 64
    doublings, and the loop then never ends. *)
Fixpoint hasPow2Rotations (half : Z) (fuel : nat) (i : Z) (evakey0 : RotationKeys)
  : option bool :=
  if i <? half then
    match fuel with
    | O => None
    | S fuel' =>
        if bool_decide (evakeyRotColLeft evakey0 !! i = None)
           || bool_decide (evakeyRotColRight evakey0 !! i = None)
        then Some false
        else hasPow2Rotations half fuel' (U64.shl i 1) evakey0
    end
  else Some true.

End Mem.

(** ** Package bfv: the Scheme-I evaluator *)

Module Bfv.

Import Mem.

(** [bfvElement]: the polynomials of a ciphertext or plaintext and the flag
    that says whether they are in the NTT domain. *)
Record bfvElement : Type := mkElement {
  value : list Ring.Poly;
  isNTT : bool
}.

#[global] Instance bfvElement_Element : Element bfvElement :=
  {| Mem.value := value; withValue v el := mkElement v (isNTT el);
     value_withValue := fun _ _ => eq_refl |}.

(** The fields of [bfv.Context] that the evaluator reads. *)
Record Context : Type := mkContext {
  n : Z;
  contextQ : Ring.Context;
  gen : Z;
  genInv : Z;
  galElRotColLeft : list Z;
  galElRotRow : Z
}.

(** The evaluator: its context; its [polypool] is the pool of the store. *)
Record Evaluator : Type := mkEvaluator {
  bfvcontext : Context
}.

Definition State : Type := Store bfvElement.

Definition getElemAndCheckBinary (evaluator : Evaluator) (st : State)
    (op0 op1 opOut : Operand) (opOutMinDegree : Z)
  : option (checked (loc * loc * loc)) :=
  Mem.getElemAndCheckBinary st op0 op1 opOut opOutMinDegree.

(** [evaluateInPlaceBinary] applies the provided function in place on el0
    and el1 and returns the result in elOut. *)
Definition evaluateInPlaceBinary (el0 el1 elOut : loc)
    (evaluate : Ring.Poly -> Ring.Poly -> Ring.Poly -> option Ring.Poly)
    (st : State) : option State :=
  e0 ← getEl st el0; e1 ← getEl st el1;
  let maxDegree := Z.max (Degree e0) (Degree e1) in
  let minDegree := Z.min (Degree e0) (Degree e1) in
  st ← for_range 0 (U64.add minDegree 1)
         (fun i st => apply2 evaluate (Val el0 i) (Val el1 i) (Val elOut i) st) st;
  e0 ← getEl st el0; e1 ← getEl st el1;
  let largest :=
    if Degree e1 <? Degree e0 then Some el0
    else if Degree e0 <? Degree e1 then Some el1
    else None in
  match largest with
  | Some lg =>
      if bool_decide (lg <> elOut)
      then for_range (U64.add minDegree 1) (U64.add maxDegree 1)
             (fun i st =>
                apply1 (fun src dst => Ring.Poly_Copy dst src)
                  (Val lg i) (Val elOut i) st) st
      else Some st
  | None => Some st
  end.

(** The four additive entry points differ in the ring operation only. The
    minimal degree of the receiver, [max(op0.Degree(), op1.Degree())], is
    an argument of the call of [getElemAndCheckBinary]: it is evaluated
    before the checks run. *)
Definition binary (evaluator : Evaluator)
    (evaluate : Ring.Poly -> Ring.Poly -> Ring.Poly -> option Ring.Poly)
    (op0 op1 : Operand) (ctOut : option loc) (st : State)
  : option (State * option string) :=
  d0 ← opDegree st op0;
  d1 ← opDegree st op1;
  c ← getElemAndCheckBinary evaluator st op0 op1 (OpPtr ctOut) (Z.max d0 d1);
  match c with
  | Rejected err => Some (st, Some err)
  | Accepted (el0, el1, elOut) =>
      st' ← evaluateInPlaceBinary el0 el1 elOut evaluate st;
      Some (st', None)
  end.

Definition Add (evaluator : Evaluator) :=
  binary evaluator (Ring.Add (contextQ (bfvcontext evaluator))).
Definition AddNoMod (evaluator : Evaluator) :=
  binary evaluator (Ring.AddNoMod (contextQ (bfvcontext evaluator))).
Definition Sub (evaluator : Evaluator) :=
  binary evaluator (Ring.Sub (contextQ (bfvcontext evaluator))).
Definition SubNoMod (evaluator : Evaluator) :=
  binary evaluator (Ring.SubNoMod (contextQ (bfvcontext evaluator))).

(** Modelled from the spec: [bfvElement.Copy] ("If k = 0, copy"), after
    [ckksElement.Copy] of the sibling package: component by component,
    then the flag; nothing to do when the two are the same element. *)
Definition Copy (el ctxCopy : loc) (st : State) : option State :=
  if bool_decide (el <> ctxCopy) then
    src ← getEl st ctxCopy;
    st ← for_range 0 (Z.of_nat (length (value src)))
           (fun i st =>
              apply1 (fun src dst => Ring.Poly_Copy dst src)
                (Val ctxCopy i) (Val el i) st) st;
    e ← getEl st el;
    Some (setEl st el (mkElement (value e) (isNTT src)))
  else Some st.

Section Evaluator.

(** The Galois permutations of package [ring] and the tensoring of [Mul]
    (which needs the basis extender and the complex scaler) are not
    among the sources: they are parameters. *)
Variable PermuteNTT : Ring.Poly -> Z -> Ring.Poly -> option Ring.Poly.
Variable Permute : Ring.Context -> Ring.Poly -> Z -> Ring.Poly -> option Ring.Poly.
Variable tensorAndRescale : Evaluator -> loc -> loc -> loc -> State -> option State.

Variable evaluator : Evaluator.

Let context : Ring.Context := contextQ (bfvcontext evaluator).

(** [Mul] multiplies op0 by op1 and returns the result on ctOut. *)
Definition Mul (op0 : option loc) (op1 : Operand) (ctOut : option loc) (st : State)
  : option (State * option string) :=
  d0 ← opDegree st (OpPtr op0);
  d1 ← opDegree st op1;
  c ← getElemAndCheckBinary evaluator st (OpPtr op0) op1 (OpPtr ctOut) (U64.add d0 d1);
  match c with
  | Rejected err => Some (st, Some err)
  | Accepted (el0, el1, elOut) =>
      st' ← tensorAndRescale evaluator el0 el1 elOut st;
      Some (st', None)
  end.

(** [switchKeys] computes ctOut = [ctOut[0] + c2*evakey[0],
    ctOut[1] + c2*evakey[1]], for c2 not in NTT and ctOut in NTT. *)
Definition switchKeys (c2 : polyRef) (evakey0 : option SwitchingKey) (ctOut : loc)
    (st : State) : option State :=
  key ← evakey0;
  switchKeysLoop context (n (bfvcontext evaluator)) c2 (Pool 3) key ctOut st.

Definition switchKeysInNTTDomain (el0 el1 : polyRef)
    (switchkey : option SwitchingKey) (ctOut : loc) (st : State) : option State :=
  st ← apply1 (Ring.Copy context) el0 (Val ctOut 0) st;
  st ← apply1 (Ring.Copy context) el1 (Val ctOut 1) st;
  st ← apply1 (Ring.Context_InvNTT context) el1 (Pool 1) st;
  switchKeys (Pool 1) switchkey ctOut st.

Definition switchKeysOutOfNTTDomain (el0 el1 : polyRef)
    (switchKey : option SwitchingKey) (ctOut : loc) (st : State) : option State :=
  st ← apply1 (Ring.Copy context) el1 (Pool 1) st;
  st ← apply1 (Ring.Context_NTT context) el0 (Val ctOut 0) st;
  st ← apply1 (Ring.Context_NTT context) el1 (Val ctOut 1) st;
  st ← switchKeys (Pool 1) switchKey ctOut st;
  st ← apply1 (Ring.Context_InvNTT context) (Val ctOut 0) (Val ctOut 0) st;
  apply1 (Ring.Context_InvNTT context) (Val ctOut 1) (Val ctOut 1) st.

(** [permute] operates a column rotation on ct0 and returns the result on ctOut. *)
Definition permute (ct0 : loc) (isNTT0 : bool) (generator : Z)
    (evakey0 : option SwitchingKey) (ctOut : loc) (st : State) : option State :=
  let '(el0, el1) :=
    if bool_decide (ct0 <> ctOut) then (Val ctOut 0, Val ctOut 1)
    else (Pool 0%nat, Pool 1%nat) in
  if isNTT0 then
    st ← apply1 (fun src dst => PermuteNTT src generator dst) (Val ct0 0) el0 st;
    st ← apply1 (fun src dst => PermuteNTT src generator dst) (Val ct0 1) el1 st;
    switchKeysInNTTDomain el0 el1 evakey0 ctOut st
  else
    st ← apply1 (fun src dst => Permute context src generator dst) (Val ct0 0) el0 st;
    st ← apply1 (fun src dst => Permute context src generator dst) (Val ct0 1) el1 st;
    switchKeysOutOfNTTDomain el0 el1 evakey0 ctOut st.

(** [rotateColumnsPow2] rotates ct0 by k position (left or right depending
    on the input), decomposing k as a sum of power of 2 rotations, and
    returns the result on ctOut. *)
Definition rotateColumnsPow2 (ct0 : loc) (generator k : Z)
    (evakeyRotCol : gmap Z SwitchingKey) (ctOut : loc) (st : State)
  : option State :=
  let mask0 := U64.sub (U64.shl (n (bfvcontext evaluator)) 1) 1 in
  e0 ← getEl st ct0;
  st ← (if isNTT e0 then Copy ctOut ct0 st
        else
          st ← apply1 (Ring.Context_NTT context) (Val ct0 0) (Val ctOut 0) st;
          apply1 (Ring.Context_NTT context) (Val ct0 1) (Val ctOut 1) st);
  st ← match k with
       | Zpos p =>
           pow2Loop (fun g key st => permute ctOut true g key ctOut st)
             p generator mask0 1 evakeyRotCol st
       | _ => Some st
       end;
  e0 ← getEl st ct0;
  if negb (isNTT e0) then
    st ← apply1 (Ring.Context_InvNTT context) (Val ctOut 0) (Val ctOut 0) st;
    apply1 (Ring.Context_InvNTT context) (Val ctOut 1) (Val ctOut 1) st
  else Some st.

Definition rotateColumnsLPow2 (ct0 : loc) (k : Z) (evakey0 : RotationKeys)
    (ctOut : loc) (st : State) : option State :=
  rotateColumnsPow2 ct0 (gen (bfvcontext evaluator)) k
    (evakeyRotColLeft evakey0) ctOut st.

Definition rotateColumnsRPow2 (ct0 : loc) (k : Z) (evakey0 : RotationKeys)
    (ctOut : loc) (st : State) : option State :=
  rotateColumnsPow2 ct0 (genInv (bfvcontext evaluator)) k
    (evakeyRotColRight evakey0) ctOut st.

(** [RotateColumns] rotates the columns of ct0 by k positions to the left
    and returns the result on ctOut. *)
Definition RotateColumns (ct0 : loc) (k : Z) (evakey0 : RotationKeys)
    (ctOut : loc) (st : State) : option (State * option string) :=
  let half := U64.shr (n (bfvcontext evaluator)) 1 in
  let k := Z.land k (U64.sub half 1) in
  if k =? 0 then st' ← Copy ctOut ct0 st; Some (st', None) else
  e0 ← getEl st ct0; eOut ← getEl st ctOut;
  if negb (Degree e0 =? 1) || negb (Degree eOut =? 1)
  then Some (st, Some "cannot rotate -> input and or output must be of degree 1"%string)
  else
    match evakeyRotColLeft evakey0 !! k with
    | Some key =>
        g ← at_ (galElRotColLeft (bfvcontext evaluator)) k;
        st' ← permute ct0 (isNTT e0) g (Some key) ctOut st;
        Some (st', None)
    | None =>
        has ← hasPow2Rotations half 65 1 evakey0;
        if (has : bool) then
          st' ← (if hammingWeight64 k <=? hammingWeight64 (U64.sub half k)
                 then rotateColumnsLPow2 ct0 k evakey0 ctOut st
                 else rotateColumnsRPow2 ct0 (U64.sub half k) evakey0 ctOut st);
          Some (st', None)
        else
          Some (st, Some "cannot rotate -> specific rotation and pow2 rotations have not been generated"%string)
    end.

End Evaluator.

End Bfv.

(** ** Package ckks: the Scheme-A evaluator (ckks/operand.go) *)

Module Ckks.

Import Mem.

Record ckksElement : Type := mkElement {
  value : list Ring.Poly;
  scale : Z;
  currentModulus : Z;       (* a [*ring.Int] *)
  isNTT : bool
}.

#[global] Instance ckksElement_Element : Element ckksElement :=
  {| Mem.value := value;
     withValue v el := mkElement v (scale el) (currentModulus el) (isNTT el);
     value_withValue := fun _ _ => eq_refl |}.

(** The fields of [ckks.Context] that the evaluator reads. *)
Record Context : Type := mkContext {
  n : Z;
  levels : Z;
  logScale : Z;
  moduli : list Z;
  scalechain : list Z;
  contextLevel : list Ring.Context;
  rescalParams : list (list Z);
  gen : Z;
  genInv : Z;
  galElRotColLeft : list Z;
  galElRotRow : Z
}.

(** The evaluator: its context and the location of its pool ciphertext;
    its [ringpool] is the pool of the store. *)
Record Evaluator : Type := mkEvaluator {
  ckkscontext : Context;
  ctxpool : loc
}.

Record EvaluationKey : Type := mkEvaluationKey {
  evakey : option SwitchingKey
}.

Definition State : Type := Store ckksElement.

(** [el.Level()] is [uint64(len(el.value[0].Coeffs) - 1)]. *)
Definition Level (el : ckksElement) : option Z :=
  p ← value el !! 0%nat; Some (U64.wrap (Z.of_nat (length p) - 1)).

Definition SetScale (el : loc) (scale0 : Z) (st : State) : option State :=
  e ← getEl st el;
  Some (setEl st el (mkElement (value e) scale0 (currentModulus e) (isNTT e))).

Definition SetCurrentModulus (el : loc) (modulus : Z) (st : State) : option State :=
  e ← getEl st el;
  Some (setEl st el (mkElement (value e) (scale e) modulus (isNTT e))).

Definition SetIsNTT (el : loc) (b : bool) (st : State) : option State :=
  e ← getEl st el;
  Some (setEl st el (mkElement (value e) (scale e) (currentModulus e) b)).

(** [CopyParams] copies the input element parameters on the target element. *)
Definition CopyParams (el ckkselement : loc) (st : State) : option State :=
  src ← getEl st ckkselement;
  st ← SetCurrentModulus el (currentModulus src) st;
  src ← getEl st ckkselement;
  st ← SetScale el (scale src) st;
  src ← getEl st ckkselement;
  SetIsNTT el (isNTT src) st.

(** [Copy] copies the input element and its parameters on the target element. *)
Definition Copy (el ctxCopy : loc) (st : State) : option State :=
  if bool_decide (el <> ctxCopy) then
    src ← getEl st ctxCopy;
    st ← for_range 0 (Z.of_nat (length (value src)))
           (fun i st =>
              apply1 (fun src dst => Ring.Poly_Copy dst src)
                (Val ctxCopy i) (Val el i) st) st;
    CopyParams el ctxCopy st
  else Some st.

(** Modelled from the spec: [ring.Int.DivRound], the rounded quotient of
    the "running product-of-moduli book-keeping". *)
Definition DivRound (a b : Z) : Z := (2 * a + b) / (2 * b).

Section Evaluator.

(** [ring.CRed] and [ring.PermuteNTT] are not among the sources: they are
    parameters. *)
Variable CRed : Z -> Z -> Z.
Variable PermuteNTT : Ring.Poly -> Z -> Ring.Poly -> option Ring.Poly.

Variable evaluator : Evaluator.

Let ctx : Context := ckkscontext evaluator.

(** [Resize]: truncate, or append new polynomials of the element's level. *)
Definition Resize (el : loc) (degree : Z) (st : State) : option State :=
  e ← getEl st el;
  if degree <? Degree e then
    if decide (Z.to_nat (U64.add degree 1) <= length (value e))%nat
    then Some (setEl st el (withValue (take (Z.to_nat (U64.add degree 1)) (value e)) e))
    else None
  else if Degree e <? degree then
    for_range (Degree e) degree
      (fun _ st =>
         e ← getEl st el;
         l ← Level e;
         c ← at_ (contextLevel ctx) l;
         Some (setEl st el (withValue (value e ++ [Ring.NewPoly c]) e))) st
  else Some st.

(** [DropLevel] reduces the level of ct0 by levels and returns the result
    on ct0. A slice expression past the length of the slice panics. *)
Definition DropLevel (ct0 : loc) (levels0 : Z) (st : State)
  : option (State * option string) :=
  e ← getEl st ct0;
  l ← Level e;
  if l =? 0
  then Some (st, Some "cannot drop level -> ciphertext already at level 0"%string)
  else
    let level := l in
    let k := Z.to_nat (U64.sub (U64.add level 1) levels0) in
    v ← mapM (fun p : Ring.Poly =>
                if decide (k <= length p)%nat then Some (take k p) else None)
             (value e);
    let st := setEl st ct0 (withValue v e) in
    st ← for_range 0 levels0
           (fun i st =>
              e ← getEl st ct0;
              q ← at_ (moduli ctx) (U64.sub level i);
              SetCurrentModulus ct0 (DivRound (currentModulus e) q) st) st;
    Some (st, None).

(** [MulByPow2] multiplies ct0 by 2^pow2 and returns the result on ctOut;
    the receiver is a pointer that may be nil. *)
Definition MulByPow2 (ct0 : loc) (pow2 : Z) (ctOut : option loc) (st : State)
  : option (State * option string) :=
  e0 ← getEl st ct0;
  l0 ← Level e0;
  out ← ctOut;
  eOut ← getEl st out;
  lOut ← Level eOut;
  let level := Z.min l0 lOut in
  st ← for_range 0 (Z.of_nat (length (value eOut)))
         (fun i st =>
            c ← at_ (contextLevel ctx) level;
            apply1 (fun src dst => Ring.MulByPow2 c src pow2 dst)
              (Val ct0 i) (Val out i) st) st;
  Some (st, None).

(** [el.Ciphertext()] panics on an element with a single polynomial. *)
Definition Ciphertext (el : loc) (st : State) : option loc :=
  e ← getEl st el;
  if decide (length (value e) = 1%nat) then None else Some el.

(** The alignment of the scales in [evaluateInPlace]: the operand with the
    smaller scale is multiplied by a power of two, in place when it is the
    receiver and into the pool ciphertext otherwise; the result is the
    store and the two elements [tmp0] and [tmp1] to combine, which may be
    nil. *)
Definition alignScales (c0 c1 ctOut : loc) (st : State)
  : option (State * option loc * option loc) :=
  e0 ← getEl st c0; e1 ← getEl st c1;
  (if bool_decide (ctOut = c0) then
     if scale e1 <? scale e0 then
       let tmp1 := ctxpool evaluator in
       r ← MulByPow2 c1 (U64.sub (scale e0) (scale e1)) (Some tmp1) st;
       Some (r.1, Some c0, Some tmp1)
     else if scale e0 <? scale e1 then
       r ← MulByPow2 c0 (U64.sub (scale e1) (scale e0)) (Some c0) st;
       e1 ← getEl r.1 c1;
       st ← SetScale c0 (scale e1) r.1;
       Some (st, Some c0, Some c1)
     else Some (st, Some c0, Some c1)
   else if bool_decide (ctOut = c1) then
     if scale e0 <? scale e1 then
       let tmp0 := ctxpool evaluator in
       r ← MulByPow2 c0 (U64.sub (scale e1) (scale e0)) (Some tmp0) st;
       Some (r.1, Some tmp0, Some c1)
     else if scale e1 <? scale e0 then
       r ← MulByPow2 c1 (U64.sub (scale e0) (scale e1)) (Some ctOut) st;
       e0 ← getEl r.1 c0;
       st ← SetScale ctOut (scale e0) r.1;
       Some (st, Some c0, Some c1)
     else Some (st, Some c0, Some c1)
   else
     if scale e0 <? scale e1 then
       let tmp0 := ctxpool evaluator in
       r ← MulByPow2 c0 (U64.sub (scale e1) (scale e0)) (Some tmp0) st;
       Some (r.1, Some tmp0, Some c1)
     else if scale e1 <? scale e0 then
       (* [tmp1] is still nil here *)
       r ← MulByPow2 c1 (U64.sub (scale e0) (scale e1)) None st;
       Some (r.1, Some c0, None)
     else Some (st, Some c0, Some c1)).

Definition evaluateInPlace (c0 c1 ctOut : loc)
    (evaluate : Ring.Poly -> Ring.Poly -> Ring.Poly -> option Ring.Poly)
    (st : State) : option (State * option string) :=
  e0 ← getEl st c0; e1 ← getEl st c1;
  let maxDegree := Z.max (Degree e0) (Degree e1) in
  let minDegree := Z.min (Degree e0) (Degree e1) in
  st ← Resize ctOut maxDegree st;
  ct ← Ciphertext ctOut st;
  eOut ← getEl st ctOut; e0 ← getEl st c0; e1 ← getEl st c1;
  lOut ← Level eOut; l0 ← Level e0; l1 ← Level e1;
  r ← DropLevel ct (U64.sub lOut (Z.min l0 l1)) st;
  let st := r.1 in
  tmps ← alignScales c0 c1 ctOut st;
  let '(st, tmp0, tmp1) := tmps in
  st ← for_range 0 (U64.add minDegree 1)
         (fun i st =>
            t0 ← tmp0; t1 ← tmp1;
            apply2 evaluate (Val t0 i) (Val t1 i) (Val ctOut i) st) st;
  e0 ← getEl st c0; e1 ← getEl st c1;
  st ← SetScale ctOut (Z.max (scale e0) (scale e1)) st;
  eOut ← getEl st ctOut;
  lOut ← Level eOut;
  context ← at_ (contextLevel ctx) lOut;
  e0 ← getEl st c0; e1 ← getEl st c1;
  st ←
    (if (Degree e1 <? Degree e0) && bool_decide (tmp0 <> Some ctOut) then
       for_range (U64.add minDegree 1) (U64.add maxDegree 1)
         (fun i st => t0 ← tmp0; apply1 (Ring.Copy context) (Val t0 i) (Val ctOut i) st)
         st
     else if (Degree e0 <? Degree e1) && bool_decide (tmp1 <> Some ctOut) then
       for_range (U64.add minDegree 1) (U64.add maxDegree 1)
         (fun i st => t1 ← tmp1; apply1 (Ring.Copy context) (Val t1 i) (Val ctOut i) st)
         st
     else Some st);
  Some (st, None).

(** The prologue common to the binary entry points: the minimal degree
    of the receiver is evaluated before [getElemAndCheckBinary] is called. *)
Definition getElemAndCheckBinary (st : State) (op0 op1 opOut : Operand)
    (opOutMinDegree : Z) : option (checked (loc * loc * loc)) :=
  Mem.getElemAndCheckBinary st op0 op1 opOut opOutMinDegree.

Definition minLevel3 (el0 el1 elOut : loc) (st : State) : option Z :=
  e0 ← getEl st el0; e1 ← getEl st el1; eOut ← getEl st elOut;
  l0 ← Level e0; l1 ← Level e1; lOut ← Level eOut;
  Some (Z.min (Z.min l0 l1) lOut).

(** [Add] and [AddNoMod]. *)
Definition additive
    (evaluate : Ring.Context -> Ring.Poly -> Ring.Poly -> Ring.Poly -> option Ring.Poly)
    (op0 op1 : Operand) (ctOut : option loc) (st : State)
  : option (State * option string) :=
  d0 ← opDegree st op0;
  d1 ← opDegree st op1;
  c ← getElemAndCheckBinary st op0 op1 (OpPtr ctOut) (Z.max d0 d1);
  match c with
  | Rejected err => Some (st, Some err)
  | Accepted (el0, el1, elOut) =>
      minLevel ← minLevel3 el0 el1 elOut st;
      context ← at_ (contextLevel ctx) minLevel;
      evaluateInPlace el0 el1 elOut (evaluate context) st
  end.

Definition Add := additive Ring.Add.
Definition AddNoMod := additive Ring.AddNoMod.

(** [Sub] and [SubNoMod]. *)
Definition subtractive
    (evaluate : Ring.Context -> Ring.Poly -> Ring.Poly -> Ring.Poly -> option Ring.Poly)
    (op0 op1 : Operand) (ctOut : option loc) (st : State)
  : option (State * option string) :=
  d0 ← opDegree st op0;
  d1 ← opDegree st op1;
  c ← getElemAndCheckBinary st op0 op1 (OpPtr ctOut) (Z.max d0 d1);
  match c with
  | Rejected err => Some (st, Some err)
  | Accepted (el0, el1, elOut) =>
      minLevel ← minLevel3 el0 el1 elOut st;
      context ← at_ (contextLevel ctx) minLevel;
      r ← evaluateInPlace el0 el1 elOut (evaluate context) st;
      match r.2 with
      | Some err => Some (r.1, Some err)
      | None =>
          let st := r.1 in
          e0 ← getEl st el0; e1 ← getEl st el1;
          st ←
            (if Degree e0 <? Degree e1 then
               for_range (U64.add (Degree e0) 1) (U64.add (Degree e1) 1)
                 (fun i st =>
                    c ← at_ (contextLevel ctx) minLevel;
                    apply1 (Ring.Neg c) (Val elOut i) (Val elOut i) st) st
             else Some st);
          Some (st, None)
      end
  end.

Definition Sub := subtractive Ring.Sub.
Definition SubNoMod := subtractive Ring.SubNoMod.

(** [rescale] performs a modulus switching: starts with a base
    Q = {q0, ..., qL}, ends up with a base Q = {q0, ..., qL-1}; the output
    is also divided by the removed modulus. Its only call passes the same
    polynomial as input [p0] and as receiver [p1]. *)
Definition rescaleRow (context : Ring.Context) (level : nat) (i : Z)
    (s : Ring.Poly * Ring.Poly) : option (Ring.Poly * Ring.Poly) :=
  let '(p, pTmp) := s in
  top ← p !! level;
  tmp0 ← pTmp !! 0%nat;
  psi ← at_ (Ring.nttPsi context) i;
  q ← at_ (Ring.moduli context) i;
  mred ← at_ (Ring.mredParams context) i;
  bred ← at_ (Ring.bredParams context) i;
  tmp0' ← Ring.NTT top tmp0 (Ring.N context) psi q mred bred;
  Qi ← at_ (moduli ctx) i;
  params ← rescalParams ctx !! (level - 1)%nat;
  InvQl ← at_ params i;
  row ← at_ p i;
  row' ← Ring.rowZip
            (fun x t => Ring.MRed (CRed (U64.add x (U64.sub Qi t)) Qi) InvQl Qi mred)
            (n ctx) row tmp0' row;
  p' ← set_ p i row';
  Some (p', <[0%nat := tmp0']> pTmp).

Definition rescale (p0 : polyRef) (st : State) : option State :=
  p ← readPoly st p0;
  match length p with
  | O => None
  | S level =>
      context ← contextLevel ctx !! level;
      pTmp ← readPoly st (Pool 0);
      top ← p !! level;
      psiInv ← Ring.nttPsiInv context !! level;
      nInv ← Ring.nttNInv context !! level;
      q ← Ring.moduli context !! level;
      mred ← Ring.mredParams context !! level;
      top' ← Ring.InvNTT top top (Ring.N context) psiInv nInv q mred;
      s ← for_range 0 (Z.of_nat level) (rescaleRow context level)
            (<[level := top']> p, pTmp);
      st ← writePoly st (Pool 0) s.2;
      writePoly st p0 (take level s.1)
  end.

(** The loop of [Rescale]; every turn drops a level, so the current level
    plus one bounds the number of turns. *)
Fixpoint rescaleLoop (fuel : nat) (c1 : loc) (st : State) : option State :=
  e ← getEl st c1;
  l ← Level e;
  sc ← at_ (scalechain ctx) l;
  if (U64.add (logScale ctx) sc <=? scale e) && (0 <? l) then
    match fuel with
    | O => None
    | S fuel' =>
        st ← SetScale c1 (U64.sub (scale e) sc) st;
        e ← getEl st c1;
        q ← at_ (moduli ctx) l;
        st ← SetCurrentModulus c1 (DivRound (currentModulus e) q) st;
        st ← for_range 0 (Z.of_nat (length (value e)))
               (fun i st => rescale (Val c1 i) st) st;
        rescaleLoop fuel' c1 st
    end
  else Some st.

(** [Rescale] divides ct0 by the last modulus in the modulus chain,
    repeats this procedure (each time consuming a level) until the scale
    reaches the original scale or would go below it, and returns the
    result on c1. *)
Definition Rescale (ct0 c1 : loc) (st : State) : option (State * option string) :=
  e0 ← getEl st ct0;
  l0 ← Level e0;
  if l0 =? 0
  then Some (st, Some "cannot rescale -> input ciphertext already at level 0"%string)
  else
    e1 ← getEl st c1;
    l1 ← Level e1;
    if negb (l0 =? l1)
    then Some (st, Some "cannot rescale -> reciever ciphertext does not match input ciphertext level"%string)
    else
      sc ← at_ (scalechain ctx) l1;
      if U64.add sc (logScale ctx) <=? scale e0 then
        if negb (isNTT e0)
        then Some (st, Some "cannot rescale -> input ciphertext not in NTT"%string)
        else
          st ← Copy c1 ct0 st;
          st ← rescaleLoop (S (Z.to_nat l1)) c1 st;
          Some (st, None)
      else
        st ← Copy c1 ct0 st;
        Some (st, None).

(** [switchKeysInPlace] applies the general keyswitching procedure of the
    form [ctOut[0] + cx*evakey[0], ctOut[0] + cx*evakey[1]]. *)
Definition switchKeysInPlace (cx : polyRef) (evakey0 : option SwitchingKey)
    (ctOut : loc) (st : State) : option State :=
  eOut ← getEl st ctOut;
  lOut ← Level eOut;
  context ← at_ (contextLevel ctx) lOut;
  st ← apply1 (Ring.Context_InvNTT context) cx (Pool 4) st;
  key ← evakey0;
  switchKeysLoop context (n ctx) (Pool 4) (Pool 5) key ctOut st.

(** The multiplication of two ciphertexts of degree 1, of [MulRelin]. *)
Definition mulCtCt (context : Ring.Context) (el0 el1 elOut : loc)
    (evakey0 : option EvaluationKey) (st : State) : option State :=
  let c00 := Pool 0 in
  let c01 := Pool 1 in
  direct ← Some (bool_decide (elOut <> el0) && bool_decide (elOut <> el1));
  r ← (if (direct : bool) then
         match evakey0 with
         | None =>
             st ← Resize elOut 2 st;
             Some (st, Val elOut 0, Val elOut 1, Val elOut 2)
         | Some _ => Some (st, Val elOut 0, Val elOut 1, Pool 4)
         end
       else Some (st, Pool 2, Pool 3, Pool 4));
  let '(st, c0, c1, c2) := r in
  st ← apply1 (Ring.Poly_MForm context) (Val el0 0) c00 st;
  st ← apply1 (Ring.Poly_MForm context) (Val el0 1) c01 st;
  st ← (if bool_decide (el0 = el1) then
          st ← apply2 (Ring.MulCoeffsMontgomery context) c00 (Val el1 0) c0 st;
          st ← apply2 (Ring.MulCoeffsMontgomery context) c00 (Val el1 1) c1 st;
          st ← apply2 (Ring.Add context) c1 c1 c1 st;
          apply2 (Ring.MulCoeffsMontgomery context) c01 (Val el1 1) c2 st
        else
          st ← apply2 (Ring.MulCoeffsMontgomery context) c00 (Val el1 0) c0 st;
          st ← apply2 (Ring.MulCoeffsMontgomery context) c00 (Val el1 1) c1 st;
          st ← apply2 (Ring.MulCoeffsMontgomeryAndAddNoMod context) c01 (Val el1 0) c1 st;
          apply2 (Ring.MulCoeffsMontgomery context) c01 (Val el1 1) c2 st);
  match evakey0 with
  | Some key =>
      st ← apply1 (Ring.Copy context) c0 (Val elOut 0) st;
      st ← apply1 (Ring.Copy context) c1 (Val elOut 1) st;
      ct ← Ciphertext elOut st;
      switchKeysInPlace c2 (evakey key) ct st
  | None =>
      if bool_decide (elOut = el0) || bool_decide (elOut = el1) then
        st ← Resize elOut 2 st;
        st ← apply1 (Ring.Copy context) c0 (Val elOut 0) st;
        st ← apply1 (Ring.Copy context) c1 (Val elOut 1) st;
        apply1 (Ring.Copy context) c2 (Val elOut 2) st
      else Some st
  end.

(** The multiplication of a plaintext and a ciphertext, of [MulRelin]. *)
Definition mulPtCt (context : Ring.Context) (el0 el1 elOut : loc) (st : State)
  : option State :=
  e0 ← getEl st el0;
  let '(tmp0, tmp1) := if Degree e0 =? 1 then (el1, el0) else (el0, el1) in
  c00 ← readPoly st (Pool 0);
  st ← writePoly st (Pool 0) (Ring.Zero c00);
  st ← apply1 (Ring.Poly_MForm context) (Val tmp0 0) (Pool 0) st;
  st ← apply2 (Ring.MulCoeffsMontgomery context) (Pool 0) (Val tmp1 0) (Val elOut 0) st;
  apply2 (Ring.MulCoeffsMontgomery context) (Pool 0) (Val tmp1 1) (Val elOut 1) st.

(** [MulRelin] multiplies ct0 by ct1 and returns the result on ctOut. *)
Definition MulRelin (op0 op1 : Operand) (evakey0 : option EvaluationKey)
    (ctOut : option loc) (st : State) : option (State * option string) :=
  d0 ← opDegree st op0;
  d1 ← opDegree st op1;
  c ← getElemAndCheckBinary st op0 op1 (OpPtr ctOut) (Z.max d0 d1);
  match c with
  | Rejected err => Some (st, Some err)
  | Accepted (el0, el1, elOut) =>
      minLevel ← minLevel3 el0 el1 elOut st;
      eOut ← getEl st elOut;
      lOut ← Level eOut;
      st ← (if minLevel <? lOut then
              ct ← Ciphertext elOut st;
              r ← DropLevel ct (U64.sub lOut minLevel) st;
              Some r.1
            else Some st);
      e0 ← getEl st el0; e1 ← getEl st el1;
      if (1 <? Degree e0) || (1 <? Degree e1)
      then Some (st, Some "cannont mul -> input element and output element must be of degree 0 or 1"%string)
      else if negb (isNTT e0)
      then Some (st, Some "cannot mul -> op0 must be in NTT to multiply"%string)
      else if negb (isNTT e1)
      then Some (st, Some "cannot mul -> op1 must be in NTT to multiply"%string)
      else
        st ← SetScale elOut (U64.add (scale e0) (scale e1)) st;
        context ← at_ (contextLevel ctx) minLevel;
        st ← (if U64.add (Degree e0) (Degree e1) =? 2
              then mulCtCt context el0 el1 elOut evakey0 st
              else mulPtCt context el0 el1 elOut st);
        Some (st, None)
  end.

(** [permuteNTT]: the Galois permutation, then the key switch. *)
Definition permuteNTT (ct0 : loc) (generator : Z) (evakey0 : option SwitchingKey)
    (ctOut : loc) (st : State) : option State :=
  let '(el0, el1) :=
    if bool_decide (ct0 <> ctOut) then (Val ctOut 0, Val ctOut 1)
    else (Pool 0%nat, Pool 1%nat) in
  st ← apply1 (fun src dst => PermuteNTT src generator dst) (Val ct0 0) el0 st;
  st ← apply1 (fun src dst => PermuteNTT src generator dst) (Val ct0 1) el1 st;
  eOut ← getEl st ctOut; lOut ← Level eOut;
  context ← at_ (contextLevel ctx) lOut;
  st ← apply1 (Ring.Copy context) el0 (Val ctOut 0) st;
  eOut ← getEl st ctOut; lOut ← Level eOut;
  context ← at_ (contextLevel ctx) lOut;
  st ← apply1 (Ring.Copy context) el1 (Val ctOut 1) st;
  switchKeysInPlace (Val ctOut 1) evakey0 ctOut st.

Definition rotateColumnsPow2 (ct0 : loc) (generator k : Z)
    (evakeyRotCol : gmap Z SwitchingKey) (ctOut : loc) (st : State)
  : option State :=
  let mask0 := U64.sub (U64.shl (n ctx) 1) 1 in
  eOut ← getEl st ctOut; lOut ← Level eOut;
  context ← at_ (contextLevel ctx) lOut;
  st ← apply1 (Ring.Copy context) (Val ct0 0) (Val ctOut 0) st;
  eOut ← getEl st ctOut; lOut ← Level eOut;
  context ← at_ (contextLevel ctx) lOut;
  st ← apply1 (Ring.Copy context) (Val ct0 1) (Val ctOut 1) st;
  match k with
  | Zpos p =>
      pow2Loop (fun g key st => permuteNTT ctOut g key ctOut st)
        p generator mask0 1 evakeyRotCol st
  | _ => Some st
  end.

Definition rotateColumnsLPow2 (ct0 : loc) (k : Z) (evakey0 : RotationKeys)
    (ctOut : loc) (st : State) : option State :=
  rotateColumnsPow2 ct0 (gen ctx) k (evakeyRotColLeft evakey0) ctOut st.

Definition rotateColumnsRPow2 (ct0 : loc) (k : Z) (evakey0 : RotationKeys)
    (ctOut : loc) (st : State) : option State :=
  rotateColumnsPow2 ct0 (genInv ctx) k (evakeyRotColRight evakey0) ctOut st.

(** [RotateColumns] rotates the columns of ct0 by k position to the left
    and returns the result on the provided receiver. *)
Definition RotateColumns (ct0 : loc) (k : Z) (evakey0 : RotationKeys)
    (ctOut : loc) (st : State) : option (State * option string) :=
  e0 ← getEl st ct0; eOut ← getEl st ctOut;
  if negb (Degree e0 =? 1) || negb (Degree eOut =? 1)
  then Some (st, Some "cannot rotate -> input and output ciphertext must be of degree 1"%string)
  else
    let half := U64.shr (n ctx) 1 in
    let k := Z.land k (U64.sub half 1) in
    if k =? 0 then st' ← Copy ctOut ct0 st; Some (st', None) else
    match evakeyRotColLeft evakey0 !! k with
    | Some key =>
        g ← at_ (galElRotColLeft ctx) k;
        st' ← permuteNTT ct0 g (Some key) ctOut st;
        Some (st', None)
    | None =>
        has ← hasPow2Rotations half 65 1 evakey0;
        if (has : bool) then
          st' ← (if hammingWeight64 k <=? hammingWeight64 (U64.sub half k)
                 then rotateColumnsLPow2 ct0 k evakey0 ctOut st
                 else rotateColumnsRPow2 ct0 (U64.sub half k) evakey0 ctOut st);
          Some (st', None)
        else
          Some (st, Some "cannot rotate -> specific rotation and pow2 rotations have not been generated"%string)
    end.

End Evaluator.

End Ckks.

(** ** What the properties are stated with *)

Module Claims.

Import Mem.

(** The error of the nil check of [getElemAndCheckBinary]. *)
Definition errNil : string := "operands cannot be nil".

(** What a binary entry point does with a nil input: it panics when either
    input is the nil interface, and never returns the nil-operand error. *)
Definition panicsOnNil {S : Type}
    (f : Operand -> Operand -> option loc -> S -> option (S * option string))
  : Prop :=
  (forall op1 ctOut st, f OpNil op1 ctOut st = None) /\
  (forall op0 ctOut st, f op0 OpNil ctOut st = None) /\
  (forall op0 op1 ctOut st st', f op0 op1 ctOut st <> Some (st', Some errNil)).

End Claims.

(** ** Small instances, for closed examples *)

Module Examples.

Import Mem.

(** Ring contexts of degree 2 over the chains (17) and (17, 97). *)
Definition ring17 : Ring.Context :=
  match Ring.GenNTTParams (fun _ => 3)
          (Ring.SetParameters Ring.NewContext 2 [17]).1 with
  | Some (c, _) => c
  | None => Ring.NewContext
  end.

Definition ring17_97 : Ring.Context :=
  match Ring.GenNTTParams (fun _ => 5)
          (Ring.SetParameters Ring.NewContext 2 [17; 97]).1 with
  | Some (c, _) => c
  | None => Ring.NewContext
  end.

(** A Scheme-I evaluator, a plaintext, a ciphertext and a receiver. *)
Definition bfvEvaluator : Bfv.Evaluator :=
  Bfv.mkEvaluator (Bfv.mkContext 2 ring17 5 13 [] 3).

Definition bfvPlain : Bfv.bfvElement := Bfv.mkElement [ [[5; 6]] ] false.
Definition bfvCipher : Bfv.bfvElement := Bfv.mkElement [ [[1; 2]]; [[3; 4]] ] false.
Definition bfvReceiver : Bfv.bfvElement := Bfv.mkElement [ [[0; 0]]; [[0; 0]] ] false.

Definition bfvState : Bfv.State :=
  mkStore {[ 0%nat := bfvPlain; 1%nat := bfvCipher; 2%nat := bfvReceiver ]} [].

(** A Scheme-A evaluator with two levels; its pool ciphertext is at 9. *)
Definition ckksEvaluator : Ckks.Evaluator :=
  Ckks.mkEvaluator
    (Ckks.mkContext 2 2 4 [17; 97] [4; 6] [ring17; ring17_97] [[6]] 5 13 [] 3)
    9%nat.

(** A ciphertext at level 0 that is not in the NTT domain, one that is,
    and a receiver at level 1. *)
Definition ckksCoeff : Ckks.ckksElement :=
  Ckks.mkElement [ [[1; 2]]; [[3; 4]] ] 4 17 false.
Definition ckksCipher : Ckks.ckksElement :=
  Ckks.mkElement [ [[1; 2]]; [[3; 4]] ] 4 17 true.
Definition ckksReceiver : Ckks.ckksElement :=
  Ckks.mkElement [ [[0; 0]; [0; 0]]; [[0; 0]; [0; 0]] ] 4 (17 * 97) true.

Definition ckksState : Ckks.State :=
  mkStore {[ 0%nat := ckksCoeff; 1%nat := ckksCipher; 2%nat := ckksReceiver ]} [].

(** Two polynomials that are equal modulo 17 and not reduced. *)
Definition equalStore : gmap nat Ring.Poly :=
  {[ 1%nat := [[18; 2]]; 2%nat := [[1; 19]] ]}.

(** A switching key with one digit for the modulus 17, and a store whose
    receiver holds accumulators that are not reduced; the polynomial to
    absorb is the pool polynomial 1. *)
Definition ksKey : SwitchingKey := mkSwitchingKey 5 [[ ([[3; 4]], [[5; 6]]) ]].

Definition ksState : Bfv.State :=
  mkStore {[ 2%nat := Bfv.mkElement [ [[20; 3]]; [[4; 35]] ] true ]}
    [ [[0; 0]]; [[7; 9]]; [[0; 0]]; [[0; 0]] ].

Definition ksResult : Bfv.State :=
  default ksState (Bfv.switchKeys bfvEvaluator (Pool 1) (Some ksKey) 2%nat ksState).

(** For [Rescale]: the conditional subtraction [ring.CRed], two inputs at
    level 1, one in the NTT domain with a scale to rescale, one out of it
    with a base scale, and a store with the scratch polynomial of the pool. *)
Definition rescaleCRed (x q : Z) : Z := if q <=? x then x - q else x.

Definition ckksLevel1 : Ckks.ckksElement :=
  Ckks.mkElement [ [[1; 2]; [3; 4]]; [[5; 6]; [7; 9]] ] 12 (17 * 97) true.

Definition ckksLevel1Coeff : Ckks.ckksElement :=
  Ckks.mkElement [ [[1; 2]; [3; 4]]; [[5; 6]; [7; 9]] ] 4 (17 * 97) false.

Definition rescaleState : Ckks.State :=
  mkStore {[ 0%nat := ckksLevel1; 1%nat := ckksLevel1Coeff; 2%nat := ckksReceiver ]}
    [ [[0; 0]] ].

End Examples.

(** ** Polynomials of a context *)

Module Shape.

Import Ring.

(** A polynomial of the context: a row of [N] residues for every modulus
    (it may have more rows, which the context ignores). *)
Definition Shaped (context : Context) (p : Poly) : Prop :=
  (length (moduli context) <= length p)%nat /\
  forall i r, (i < length (moduli context))%nat -> p !! i = Some r ->
    length r = Z.to_nat (N context).

(** Every residue is in the canonical range [0, q_i). *)
Definition Canonical (context : Context) (p : Poly) : Prop :=
  forall i q r j x,
    moduli context !! i = Some q -> p !! i = Some r ->
    (j < Z.to_nat (N context))%nat -> r !! j = Some x -> 0 <= x < q.

(** The polynomial with every residue of the context reduced. *)
Definition reduced (context : Context) (p : Poly) : Poly :=
  imap (fun i r =>
          match moduli context !! i with
          | Some q =>
              map (fun x => x mod q) (take (Z.to_nat (N context)) r)
                ++ drop (Z.to_nat (N context)) r
          | None => r
          end) p.

(** The canonical residues of two polynomials agree, coefficient by
    coefficient, over every modulus of the context. *)
Definition Agree (context : Context) (p1 p2 : Poly) : Prop :=
  forall i q r1 r2 j x y,
    moduli context !! i = Some q -> p1 !! i = Some r1 -> p2 !! i = Some r2 ->
    (j < Z.to_nat (N context))%nat -> r1 !! j = Some x -> r2 !! j = Some y ->
    x mod q = y mod q.

(** The tables of reduction parameters cover the modulus chain, as they do
    after [SetParameters]. *)
Definition Parameterized (context : Context) : Prop :=
  (length (moduli context) <= length (bredParams context))%nat /\
  (length (moduli context) <= length (mredParams context))%nat.

End Shape.


(** ** The layers of the transforms

    One round of butterflies, as a function of the vector it is applied to:
    the blocks of [2t] entries are transformed pair by pair, block [i] with
    the entry [m + i] of the table. *)

Module Transform.

(** Entry [i] of a slice, 0 out of range (for properties only). *)
Definition get (l : list Z) (i : Z) : Z := default 0 (at_ l i).

Definition layerVal (bf : Z -> Z -> Z -> Z * Z) (tab : list Z) (m t : Z)
    (src : list Z) (idx : Z) : Z :=
  let F := get tab (m + idx / (2 * t)) in
  if idx mod (2 * t) <? t
  then (bf (get src idx) (get src (idx + t)) F).1
  else (bf (get src (idx - t)) (get src idx) F).2.

Definition layer (bf : Z -> Z -> Z -> Z * Z) (tab : list Z) (m t : Z)
    (src : list Z) : list Z :=
  map (layerVal bf tab m t src) (seqZ 0 (Z.of_nat (length src))).

(** The vector after the blocks before block [i] have been transformed. *)
Definition partial (bf : Z -> Z -> Z -> Z * Z) (tab : list Z) (m t : Z)
    (src out : list Z) (i idx : Z) : Z :=
  if idx <? 2 * t * i then layerVal bf tab m t src idx else get out idx.

(** The first [k] rounds of the forward transform of a vector of [2^L]
    entries: round [s] has [2^s] blocks. *)
Fixpoint forward (Q Qinv : Z) (psi : list Z) (L : Z) (k : nat) (p : list Z) : list Z :=
  match k with
  | O => p
  | S k' =>
      layer (fun U V F => Ring.Butterfly U V F Q Qinv) psi
        (2 ^ Z.of_nat k') (2 ^ (L - 1 - Z.of_nat k'))
        (forward Q Qinv psi L k' p)
  end.

(** The rounds [k - 1], ..., 0 of the inverse transform. *)
Fixpoint backward (Q Qinv : Z) (psiInv : list Z) (L : Z) (k : nat) (p : list Z) : list Z :=
  match k with
  | O => p
  | S k' =>
      backward Q Qinv psiInv L k'
        (layer (fun U V F => Ring.InvButterfly U V F Q Qinv) psiInv
           (2 ^ Z.of_nat k') (2 ^ (L - 1 - Z.of_nat k')) p)
  end.

(** Vectors of residues below a bound. *)
Definition bounded (B : Z) (v : list Z) : Prop :=
  forall idx, 0 <= idx < Z.of_nat (length v) -> 0 <= get v idx <= B.

(** A pair of entries of the tables of a modulus [q]: residues that are
    inverses of each other, in Montgomery form. *)
Definition goodPair (q a b : Z) : Prop :=
  0 <= a < q /\ 0 <= b < q /\
  Zdiv.eqm q (a * Z.invmod U64.modulus q * (b * Z.invmod U64.modulus q)) 1.

End Transform.

(** ** The accumulators of a key switch *)

Module KeySwitch.

Import Ring Mem Shape.

Section Accumulators.

Context {E : Type} `{Element E}.

(** The two components [ctOut.value[0]] and [ctOut.value[1]] hold
    canonical residues over the moduli of the context. *)
Definition OutCanonical (context : Context) (ctOut : loc) (st : Store E) : Prop :=
  exists e p0 p1,
    getEl st ctOut = Some e /\
    value e !! 0%nat = Some p0 /\ value e !! 1%nat = Some p1 /\
    Canonical context p0 /\ Canonical context p1.

(** The counter [reduce] after a step that was a reduction point. *)
Definition afterReduction (reduce : Z) : Prop :=
  Z.land (U64.sub reduce 1) 7 = 7.

(** The loop state after at least one step: the counter is a word, and
    after a reduction point the accumulators are canonical. *)
Definition stepped (context : Context) (ctOut : loc) (s : Store E * Z) : Prop :=
  U64.inrange s.2 /\ (afterReduction s.2 -> OutCanonical context ctOut s.1).

End Accumulators.

(** The key has a digit for some modulus of the context, so that the loop
    makes at least one multiply-accumulate step. *)
Definition HasDigit (context : Context) (key : SwitchingKey) : Prop :=
  exists (i : nat) row,
    (i < length (moduli context))%nat /\ evakey key !! i = Some row /\ row <> [].

End KeySwitch.


(** ** Rescaling: shapes and schedule *)

Module Rescaling.

Import Ring Mem.

(** A polynomial at a level: [level + 1] rows of [2^L] residues. *)
Definition polyOfLevel (L level : nat) (p : Poly) : Prop :=
  length p = S level /\
  Forall (fun r : list Z => Z.of_nat (length r) = 2 ^ Z.of_nat L) p.

(** A Scheme-A element all of whose polynomials are at the level. *)
Definition elementOfLevel (L level : nat) (e : Ckks.ckksElement) : Prop :=
  Ckks.value e <> [] /\ Forall (polyOfLevel L level) (Ckks.value e).

(** The scratch polynomial of the pool has a first row of [2^L] residues. *)
Definition scratchReady (L : nat) (pTmp : Poly) : Prop :=
  exists tmp0, pTmp !! 0%nat = Some tmp0 /\ Z.of_nat (length tmp0) = 2 ^ Z.of_nat L.

(** The pair of the polynomial being rescaled and the scratch polynomial,
    during the loop over the rows. *)
Definition rowsShape (L level : nat) (s : Poly * Poly) : Prop :=
  polyOfLevel L level s.1 /\ scratchReady L s.2.

(** The tables that [rescale] reads at a level above 0: the ring context
    of the level, of degree [2^L], with a table row for each of its
    [level + 1] moduli, and the constants of the modulus switching. *)
Definition levelReady (ctx : Ckks.Context) (L level : nat) : Prop :=
  exists context params,
    Ckks.contextLevel ctx !! level = Some context /\
    N context = 2 ^ Z.of_nat L /\
    (level < length (nttPsi context))%nat /\
    (level < length (nttPsiInv context))%nat /\
    (level < length (nttNInv context))%nat /\
    (level < length (moduli context))%nat /\
    (level < length (mredParams context))%nat /\
    (level < length (bredParams context))%nat /\
    Forall (fun r : list Z => Z.of_nat (length r) = 2 ^ Z.of_nat L) (nttPsi context) /\
    Forall (fun r : list Z => Z.of_nat (length r) = 2 ^ Z.of_nat L) (nttPsiInv context) /\
    (level <= length (Ckks.moduli ctx))%nat /\
    Ckks.rescalParams ctx !! (level - 1)%nat = Some params /\
    (level <= length params)%nat.

(** The pool holds the scratch polynomial of [rescale]. *)
Definition poolReady (L : nat) (pool0 : list Poly) : Prop :=
  exists pTmp, pool0 !! 0%nat = Some pTmp /\ scratchReady L pTmp.

(** An evaluator ready to rescale from the level [l0] down. *)
Definition rescaleReady (ctx : Ckks.Context) (L l0 : nat) : Prop :=
  (1 <= L <= 63)%nat /\ Ckks.n ctx = 2 ^ Z.of_nat L /\
  Z.of_nat l0 + 1 < U64.modulus /\
  (forall l, (l <= l0)%nat -> is_Some (Ckks.scalechain ctx !! l)) /\
  (forall l, (1 <= l <= l0)%nat ->
     levelReady ctx L l /\ is_Some (Ckks.moduli ctx !! l)).

(** The scale and the level that the loop of [Rescale] ends with: while
    the level is above 0 and the scale is at least the base scale plus the
    logarithm of the top modulus, the top modulus is dropped and its
    logarithm taken off the scale. *)
Fixpoint rescaleSchedule (logScale0 : Z) (scalechain0 : list Z) (level : nat)
    (scale0 : Z) : Z * nat :=
  match level with
  | O => (scale0, O)
  | S level' =>
      match scalechain0 !! level with
      | Some sc =>
          if U64.add logScale0 sc <=? scale0
          then rescaleSchedule logScale0 scalechain0 level' (U64.sub scale0 sc)
          else (scale0, level)
      | None => (scale0, level)
      end
  end.

Definition errLevel0 : string := "cannot rescale -> input ciphertext already at level 0".
Definition errLevel : string :=
  "cannot rescale -> reciever ciphertext does not match input ciphertext level".
Definition errNotNTT : string := "cannot rescale -> input ciphertext not in NTT".

(** A rescaling is due: the scale of the input is at least the logarithm of
    the top modulus of its level plus the base scale. *)
Definition due (ctx : Ckks.Context) (level : nat) (e : Ckks.ckksElement) : Prop :=
  exists sc, Ckks.scalechain ctx !! level = Some sc /\
             U64.add sc (Ckks.logScale ctx) <= Ckks.scale e.

End Rescaling.


(** ** Degrees and scales in a store *)

Module Meta.

Import Ring Mem.

(** The scale and the number of polynomials of the element at a location. *)
Definition scaleAt (st : Ckks.State) (l : loc) : option Z :=
  Ckks.scale <$> getEl st l.

Definition sizeAt (st : Ckks.State) (l : loc) : option nat :=
  (fun e => length (Ckks.value e)) <$> getEl st l.

(** Two stores whose elements have the same scales and sizes. *)
Definition sameMeta (st st' : Ckks.State) : Prop :=
  forall l, scaleAt st' l = scaleAt st l /\ sizeAt st' l = sizeAt st l.

(** Two stores whose elements have the same sizes. *)
Definition sameSizes (st st' : Ckks.State) : Prop :=
  forall l, sizeAt st' l = sizeAt st l.

(** Two stores whose elements have the same scales. *)
Definition sameScales (st st' : Ckks.State) : Prop :=
  forall l, scaleAt st' l = scaleAt st l.

End Meta.


(** ** Package ring: coefficients in and out

    [SetCoefficientsUint64], [SetCoefficientsBigint], [PolyToBigint] and
    [GetCenteredCoefficients] of the ring context. *)

Module I64.

(** Go's [int64] (and [int]): a conversion or a result wraps to
    [-2^63, 2^63). *)
Definition wrap (x : Z) : Z := (x + 2 ^ 63) mod 2 ^ 64 - 2 ^ 63.

Definition sub (a b : Z) : Z := wrap (a - b).

End I64.

Module Coeffs.

Import Ring.

Definition errDegree : string :=
  "error : invalid ring degree (does not match context)".

(** [p1.Coeffs[i][j] = v]: both index expressions can panic. *)
Definition setCoeff (p1 : Poly) (i : nat) (j : Z) (v : Z) : option Poly :=
  row ← p1 !! i;
  row' ← set_ row j v;
  Some (<[i := row']> p1).

(** [x % Qi] on words and [Int.Mod] by a word: division by zero panics. *)
Definition modWord (x Qi : Z) : option Z :=
  if Qi =? 0 then None else Some (x mod Qi).

(** [SetCoefficientsUint64]: the loop over the coefficients is the outer
    one, the loop over the moduli the inner one. *)
Definition SetCoefficientsUint64 (context : Context) (coeffs : list Z) (p1 : Poly)
  : option (Poly * option string) :=
  if bool_decide (Z.of_nat (length coeffs) <> I64.wrap (N context))
  then Some (p1, Some errDegree)
  else
    p ← foldl (fun acc ic =>
                 p ← acc;
                 foldl (fun acc jq =>
                          p ← acc;
                          v ← modWord ic.2 jq.2;
                          setCoeff p jq.1 (Z.of_nat ic.1) v)
                       (Some p) (imap pair (moduli context)))
              (Some p1) (imap pair coeffs);
    Some (p, None).

(** [SetCoefficientsBigint]: the coefficients are multi-precision integers
    of either sign; the loop over the moduli is the outer one. [Int.Mod] is
    the Euclidean modulus of [math/big], [ring.Int] being absent from the
    sources. *)
Definition SetCoefficientsBigint (context : Context) (coeffs : list Z) (p1 : Poly)
  : option (Poly * option string) :=
  if bool_decide (Z.of_nat (length coeffs) <> I64.wrap (N context))
  then Some (p1, Some errDegree)
  else
    p ← foldl (fun acc iq =>
                 p ← acc;
                 foldl (fun acc jc =>
                          p ← acc;
                          v ← modWord jc.2 iq.2;
                          setCoeff p iq.1 (Z.of_nat jc.1) v)
                       (Some p) (imap pair coeffs))
              (Some p1) (imap pair (moduli context));
    Some (p, None).

(** The inner loop of [PolyToBigint]: the sum of the residues of column
    [x], each times the reconstruction coefficient of its modulus. *)
Definition reconstruct (context : Context) (p1 : Poly) (x : Z) : option Z :=
  foldl (fun acc i =>
           a ← acc;
           row ← p1 !! i;
           c ← at_ row x;
           crt ← CrtReconstruction context !! i;
           Some (a + c * crt))
        (Some 0) (seq 0 (length (moduli context))).

(** [PolyToBigint(p1, coeffsBigint)]: the result is the receiver
    [coeffsBigint]. *)
Definition PolyToBigint (context : Context) (p1 : Poly) (coeffsBigint : list Z)
  : option (list Z) :=
  for_range 0 (N context)
    (fun x (out : list Z) =>
       out ← set_ out x 0;
       s ← reconstruct context p1 x;
       v ← modWord s (ModulusBigint context);
       set_ out x v)
    coeffsBigint.

(** One coefficient of [GetCenteredCoefficients], in [int64]. *)
Definition center (qi x : Z) : Z :=
  let qiHalf := I64.wrap (U64.shr qi 1) in
  let c := I64.wrap x in
  if qiHalf <? c then I64.sub c (I64.wrap qi) else c.

(** [GetCenteredCoefficients] returns a fresh slice of rows, one for each
    modulus, of [N] coefficients. *)
Definition GetCenteredCoefficients (context : Context) (p1 : Poly)
  : option (list (list Z)) :=
  mapM (fun iq : nat * Z =>
          mapM (fun j => row ← p1 !! iq.1; x ← at_ row j; Some (center iq.2 x))
               (seqZ 0 (N context)))
       (imap pair (moduli context)).

End Coeffs.
Module Stored.

Import Ring.

(** The polynomial whose rows of the context hold the residues of the
    coefficients, in their first entries. *)
Definition residues (context : Context) (coeffs : list Z) (p : Poly) : Poly :=
  imap (fun i row =>
          match moduli context !! i with
          | Some q => map (fun c => c mod q) coeffs ++ drop (length coeffs) row
          | None => row
          end) p.

End Stored.
(** ** Reconstruction from the residues *)

Module Crt.

Import Ring.

(** The product of a modulus chain, as [SetParameters] computes it. *)
Definition product (l : list Z) : Z := fold_left Z.mul l 1.

Definition PairwiseCoprime (l : list Z) : Prop :=
  forall (i j : nat) a b, i <> j -> l !! i = Some a -> l !! j = Some b ->
    Z.coprime a b.

(** The reconstruction coefficient of the modulus [qi] in the chain of
    product [big], as [GenNTTParams] and [Merge] compute it. *)
Definition coefficient (big qi : Z) : Z :=
  let crt0 := big / qi in crt0 * (Z.invmod crt0 qi mod qi).

(** A context that holds the reconstruction coefficients of a chain of
    pairwise coprime moduli. *)
Definition Reconstructing (context : Context) : Prop :=
  Forall (fun q => 1 < q) (moduli context) /\
  PairwiseCoprime (moduli context) /\
  ModulusBigint context = product (moduli context) /\
  CrtReconstruction context
  = map (coefficient (ModulusBigint context)) (moduli context).

End Crt.
Module Centered.

Import Ring Coeffs.

(** The rows of the context with every residue replaced by its centred
    representative. *)
Definition centered (context : Context) (p : Poly) : list (list Z) :=
  zip_with (fun q row => map (center q) row) (moduli context) p.

End Centered.
(** ** Merged contexts *)

Module Merging.

Import Ring Crt.

Definition errDegrees : string := "contexts ring degree to not match".

Definition errFlags : string :=
  "context need both to be allowsNTT or not allowsNTT".

(** The loop of [Merge] that recomputes the reconstruction coefficients,
    in place in the slice [crt]; [Int.Div] by zero panics. *)
Definition recompute (big : Z) (mods crt : list Z) : option (list Z) :=
  foldl (fun acc (iq : nat * Z) =>
           l ← acc;
           if iq.2 =? 0 then None
           else set_ l (Z.of_nat iq.1) (coefficient big iq.2))
        (Some crt) (imap pair mods).

(** [context.Merge(contextQ, contextP)]: the result is the receiver after
    the call and the returned error. The fields are read from the two
    arguments before the receiver's are written, so the receiver may be one
    of the arguments. [ModulusBigint] is a pointer, nil as long as [Modulus]
    is (both are set by [SetParameters] and by [Merge]); the product of two
    of them panics on a nil one. *)
Definition Merge (context contextQ contextP : Context)
  : option (Context * option string) :=
  if negb (N contextQ =? N contextP) then Some (context, Some errDegrees)
  else
    modQ ← Modulus contextQ;
    modP ← Modulus contextP;
    let mods := modQ ++ modP in
    let big := ModulusBigint contextQ * ModulusBigint contextP in
    crt ← recompute big mods
             (CrtReconstruction contextQ ++ CrtReconstruction contextP);
    let merged (ntt : bool) (psi psiInv : list (list Z)) (nInv : list Z) :=
      mkContext (N contextQ) (Some mods) (mask contextQ ++ mask contextP) ntt
        big crt
        (bredParams contextQ ++ bredParams contextP)
        (mredParams contextQ ++ mredParams contextP)
        (psiMont contextQ ++ psiMont contextP)
        (psiInvMont contextQ ++ psiInvMont contextP)
        psi psiInv nInv in
    if negb (allowsNTT contextQ) && negb (allowsNTT contextP) then
      Some (merged false (nttPsi context) (nttPsiInv context) (nttNInv context),
            None)
    else if allowsNTT contextQ && allowsNTT contextP then
      Some (merged true
              (nttPsi contextQ ++ nttPsi contextP)
              (nttPsiInv contextQ ++ nttPsiInv contextP)
              (nttNInv contextQ ++ nttNInv contextP),
            None)
    else
      Some (merged (allowsNTT context)
              (nttPsi context) (nttPsiInv context) (nttNInv context),
            Some errFlags).

End Merging.

(** ** Scheme-I plaintexts (bfv/plaintext.go) *)

Module Plaintext.

Import Ring Coeffs.

(** The fields of [bfv.Context] that the methods of a plaintext read. *)
Record Context : Type := mkContext {
  n : Z;
  t : Z;
  contextQ : Ring.Context;
  contextT : Ring.Context;
  deltaMont : list Z
}.

(** [uint64((coeff%int64(t))+int64(t)) % t]: the remainder of Go has the
    sign of the dividend, and a zero divisor panics. *)
Definition residueInt64 (coeff t0 : Z) : option Z :=
  let ti := I64.wrap t0 in
  if ti =? 0 then None
  else modWord (U64.wrap (I64.wrap (Z.rem coeff ti + ti))) t0.

(** [setCoefficientsInt64] and [setCoefficientsUint64]; [value] is the
    polynomial [P.value], and the result is what it holds afterwards. *)
Definition setCoefficientsInt64 (bfvcontext : Context) (coeffs : list Z)
    (value : Poly) : option Poly :=
  foldl (fun acc (ic : nat * Z) =>
           p ← acc;
           foldl (fun acc j =>
                    p ← acc; v ← residueInt64 ic.2 (t bfvcontext);
                    setCoeff p j (Z.of_nat ic.1) v)
                 (Some p) (seq 0 (length (moduli (contextQ bfvcontext)))))
        (Some value) (imap pair coeffs).

Definition setCoefficientsUint64 (bfvcontext : Context) (coeffs : list Z)
    (value : Poly) : option Poly :=
  foldl (fun acc (ic : nat * Z) =>
           p ← acc;
           foldl (fun acc j =>
                    p ← acc; v ← modWord ic.2 (t bfvcontext);
                    setCoeff p j (Z.of_nat ic.1) v)
                 (Some p) (seq 0 (length (moduli (contextQ bfvcontext)))))
        (Some value) (imap pair coeffs).

(** [Lift]: for every coefficient [j], the rows are written from the last
    one down to the first, each from the entry [j] of the first row. *)
Definition Lift (bfvcontext : Context) (value : Poly) : option Poly :=
  let context := contextQ bfvcontext in
  for_range 0 (n bfvcontext)
    (fun j (p : Poly) =>
       foldl (fun acc i =>
                p ← acc;
                row0 ← p !! 0%nat;
                x ← at_ row0 j;
                d ← deltaMont bfvcontext !! i;
                q ← moduli context !! i;
                mred ← mredParams context !! i;
                setCoeff p i j (MRed x d q mred))
             (Some p) (rev (seq 0 (length (moduli context)))))
    value.

(** [EMBInv] applies the NTT of the plaintext context, in place, and
    [EMB] its inverse NTT. *)
Definition EMBInv (bfvcontext : Context) (value : Poly)
  : option (Poly * option string) :=
  if negb (AllowsNTT (contextT bfvcontext))
  then Some (value, Some "plaintext context doesn't allow a valid NTT"%string)
  else p ← Context_NTT (contextT bfvcontext) value value; Some (p, None).

Definition EMB (bfvcontext : Context) (value : Poly)
  : option (Poly * option string) :=
  if negb (AllowsNTT (contextT bfvcontext))
  then Some (value, Some "plaintext context doesn't allow a valid InvNTT"%string)
  else p ← Context_InvNTT (contextT bfvcontext) value value; Some (p, None).

(** The polynomial whose rows of the chain hold, in their first entries,
    the residues of the coefficients modulo the plaintext modulus. *)
Definition encoded (bfvcontext : Context) (coeffs : list Z) (value : Poly) : Poly :=
  imap (fun (i : nat) row =>
          if decide (i < length (moduli (contextQ bfvcontext)))%nat
          then map (fun c => c mod t bfvcontext) coeffs ++ drop (length coeffs) row
          else row) value.

(** The polynomial whose rows of the chain hold the first row multiplied
    by [delta] modulo their modulus. *)
Definition lifted (bfvcontext : Context) (delta : Z) (value : Poly) : Poly :=
  imap (fun (i : nat) row =>
          match moduli (contextQ bfvcontext) !! i with
          | Some q => map (fun x => (x * delta) mod q) (default [] (value !! 0%nat))
          | None => row
          end) value.

End Plaintext.

(** ** Scheme-I unary operations *)

Module Unary.

Import Mem.

Definition errNil : string := "operand cannot be nil".
Definition errPlaintext : string := "operand cannot be plaintext".
Definition errDegree : string := "receiver operand degree is too small".

(** [getElemAndCheckUnary], the same function in the two evaluators. *)
Definition getElemAndCheckUnary {E} `{Element E} (st : Store E)
    (op0 opOut : Operand) (opOutMinDegree : Z) : option (checked (loc * loc)) :=
  if isNil op0 || isNil opOut
  then Some (Rejected errNil)
  else
    d0 ← opDegree st op0;
    if d0 =? 0
    then Some (Rejected errPlaintext)
    else
      dOut ← opDegree st opOut;
      if dOut <? opOutMinDegree
      then Some (Rejected errDegree)
      else
        el0 ← deref st op0; elOut ← deref st opOut;
        Some (Accepted (el0.1, elOut.1)).

(** [evaluateInPlaceUnary] applies the provided function on every
    polynomial of el0 and returns the results in elOut. *)
Definition evaluateInPlaceUnary (el0 elOut : loc)
    (evaluate : Ring.Poly -> Ring.Poly -> option Ring.Poly)
    (st : Bfv.State) : option Bfv.State :=
  e0 ← getEl st el0;
  for_range 0 (Z.of_nat (length (Bfv.value e0)))
    (fun i st => apply1 evaluate (Val el0 i) (Val elOut i) st) st.

(** [Neg] and [Reduce] differ in the ring operation only; the minimal
    degree of the receiver, [op.Degree()], is an argument of the call of
    [getElemAndCheckUnary]: it is evaluated before the checks run. *)
Definition unary (evaluator : Bfv.Evaluator)
    (evaluate : Ring.Poly -> Ring.Poly -> option Ring.Poly)
    (op : Operand) (ctOut : option loc) (st : Bfv.State)
  : option (Bfv.State * option string) :=
  d ← opDegree st op;
  c ← getElemAndCheckUnary st op (OpPtr ctOut) d;
  match c with
  | Rejected err => Some (st, Some err)
  | Accepted (el0, elOut) =>
      st' ← evaluateInPlaceUnary el0 elOut evaluate st;
      Some (st', None)
  end.

Definition Neg (evaluator : Bfv.Evaluator) :=
  unary evaluator (Ring.Neg (Bfv.contextQ (Bfv.bfvcontext evaluator))).

Definition Reduce (evaluator : Bfv.Evaluator) :=
  unary evaluator (Ring.Reduce (Bfv.contextQ (Bfv.bfvcontext evaluator))).

End Unary.

(** ** Scheme-A: what an operation leaves of an element *)

Module Outline.

Import Mem Ckks.

(** The degree and the scale of the element at a location. *)
Definition outline (st : State) (l : loc) : option (Z * Z) :=
  e ← getEl st l; Some (Degree e, scale e).

(** The degree of the element at a location. *)
Definition degreeAt (st : State) (l : loc) : option Z :=
  e ← getEl st l; Some (Degree e).

End Outline.

(** ** Rotation keys *)

Module Rotation.

Import Mem.

(** The left and the right switching key of the rotation by [i] are both
    in the set of rotation keys. *)
Definition present (evakey0 : RotationKeys) (i : Z) : Prop :=
  is_Some (evakeyRotColLeft evakey0 !! i) /\ is_Some (evakeyRotColRight evakey0 !! i).

(** The error of [RotateColumns] when it finds no key to rotate with. *)
Definition errKeys : string :=
  "cannot rotate -> specific rotation and pow2 rotations have not been generated".

End Rotation.

(** ** Scheme-A elements: into and out of the NTT domain *)

Module CkksElement.

Import Mem Ckks.

Definition errDegree : string :=
  "error : receiver element invalide degree (does not match)".

(** [NTT] puts the target element in the NTT domain and sets its isNTT
    flag to true. If it is already in the NTT domain, does nothing. *)
Definition NTT (ckkscontext : Context) (el c : loc) (st : State)
  : option (State * option string) :=
  e ← getEl st el; ec ← getEl st c;
  if negb (Degree e =? Degree ec) then Some (st, Some errDegree)
  else if negb (eqb (isNTT e) true) then
    st ← for_range 0 (Z.of_nat (length (value e)))
           (fun i st =>
              e ← getEl st el; l ← Level e;
              context ← at_ (contextLevel ckkscontext) l;
              apply1 (Ring.Context_NTT context) (Val el i) (Val c i) st) st;
    st ← SetIsNTT c true st;
    Some (st, None)
  else Some (st, None).

(** [InvNTT] puts the target element outside of the NTT domain, and sets
    its isNTT flag to false. If it is not in the NTT domain, does nothing. *)
Definition InvNTT (ckkscontext : Context) (el c : loc) (st : State)
  : option (State * option string) :=
  e ← getEl st el; ec ← getEl st c;
  if negb (Degree e =? Degree ec) then Some (st, Some errDegree)
  else if negb (eqb (isNTT e) false) then
    st ← for_range 0 (Z.of_nat (length (value e)))
           (fun i st =>
              e ← getEl st el; l ← Level e;
              context ← at_ (contextLevel ckkscontext) l;
              apply1 (Ring.Context_InvNTT context) (Val el i) (Val c i) st) st;
    st ← SetIsNTT c false st;
    Some (st, None)
  else Some (st, None).

End CkksElement.

(** ** Small instances for the rotations *)

Module RotationExamples.

Import Mem.

(** The ring context of degree 8 over the chain (17). *)
Definition ring8 : Ring.Context :=
  match Ring.GenNTTParams (fun _ => 3)
          (Ring.SetParameters Ring.NewContext 8 [17]).1 with
  | Some (c, _) => c
  | None => Ring.NewContext
  end.

Definition poly8 (a : Z) : Ring.Poly :=
  [[a; a + 1; a + 2; a + 3; a + 4; a + 5; a + 6; a + 7]].

(** A switching key with one digit for the modulus 17, the left and right
    keys of the rotations by 1 and 2, and a set of keys without any. *)
Definition rotKey : SwitchingKey := mkSwitchingKey 5 [[ (poly8 2, poly8 3) ]].

Definition rotKeys : RotationKeys :=
  mkRotationKeys {[ 1 := rotKey; 2 := rotKey ]} {[ 1 := rotKey; 2 := rotKey ]} None.

Definition noKeys : RotationKeys := mkRotationKeys ∅ ∅ None.

(** Evaluators of the two schemes of degree 8, with a ciphertext and a
    receiver of degree 1 at the locations 1 and 2. *)
Definition bfvRotEvaluator : Bfv.Evaluator :=
  Bfv.mkEvaluator (Bfv.mkContext 8 ring8 5 13 [] 3).

Definition ckksRotEvaluator : Ckks.Evaluator :=
  Ckks.mkEvaluator (Ckks.mkContext 8 1 4 [17] [4] [ring8] [] 5 13 [] 3) 9%nat.

Definition bfvRotCipher : Bfv.bfvElement := Bfv.mkElement [poly8 1; poly8 4] false.
Definition bfvRotReceiver : Bfv.bfvElement := Bfv.mkElement [poly8 0; poly8 0] false.

Definition bfvRotState : Bfv.State :=
  mkStore {[ 1%nat := bfvRotCipher; 2%nat := bfvRotReceiver ]}
    [poly8 0; poly8 0; poly8 0; poly8 0].

Definition ckksRotCipher : Ckks.ckksElement := Ckks.mkElement [poly8 1; poly8 4] 4 17 true.
Definition ckksRotReceiver : Ckks.ckksElement := Ckks.mkElement [poly8 0; poly8 0] 4 17 true.

Definition ckksRotState : Ckks.State :=
  mkStore {[ 1%nat := ckksRotCipher; 2%nat := ckksRotReceiver ]}
    [poly8 0; poly8 0; poly8 0; poly8 0; poly8 0; poly8 0].

(** A stand-in for the Galois permutations, which are not among the
    sources: the receiver takes the operand as it is. *)
Definition keep (src : Ring.Poly) (generator : Z) (dst : Ring.Poly) : option Ring.Poly :=
  Some src.

End RotationExamples.

(** * Properties *)

(** ** The checks on the operands of a binary operation *)

Section OperandChecks.

Import Mem.

Context {E : Type} `{Element E}.

(** A method call on a nil operand panics. *)
Lemma opDegree_nil (st : Store E) : opDegree st OpNil = None.
Proof. reflexivity. Qed.

Lemma opDegree_nil_ptr (st : Store E) : opDegree st (OpPtr None) = None.
Proof. reflexivity. Qed.

(** The helper itself reports a nil interface before anything else. *)
Lemma getElemAndCheckBinary_nil (st : Store E) op0 op1 opOut d :
  isNil op0 || isNil op1 || isNil opOut = true ->
  Mem.getElemAndCheckBinary st op0 op1 opOut d
  = Some (Rejected "operands cannot be nil").
Proof. intros Hn. unfold Mem.getElemAndCheckBinary. now rewrite Hn. Qed.

(** With operands that are not the nil interface, the three outcomes of the
    helper, in the order of the checks. *)
Lemma getElemAndCheckBinary_cases (st : Store E) op0 op1 opOut d r :
  isNil op0 || isNil op1 || isNil opOut = false ->
  Mem.getElemAndCheckBinary st op0 op1 opOut d = Some r ->
  exists l0 e0 l1 e1,
    deref st op0 = Some (l0, e0) /\ deref st op1 = Some (l1, e1) /\
    ((U64.add (Degree e0) (Degree e1) = 0 /\
      r = Rejected "operands cannot be both plaintext") \/
     (U64.add (Degree e0) (Degree e1) <> 0 /\
      exists lOut eOut, deref st opOut = Some (lOut, eOut) /\
        ((Degree eOut < d /\ r = Rejected "receiver operand degree is too small") \/
         (d <= Degree eOut /\ r = Accepted (l0, l1, lOut))))).
Proof.
  intros Hn. unfold Mem.getElemAndCheckBinary, opDegree. rewrite Hn.
  destruct (deref st op0) as [[l0 e0]|] eqn:H0; [|discriminate].
  destruct (deref st op1) as [[l1 e1]|] eqn:H1; [|discriminate].
  simpl. intros Hr. exists l0, e0, l1, e1. split; [done|]. split; [done|].
  destruct (U64.add (Degree e0) (Degree e1) =? 0) eqn:Hz.
  - left. apply Z.eqb_eq in Hz. split; [done|]. congruence.
  - right. apply Z.eqb_neq in Hz. split; [done|].
    destruct (deref st opOut) as [[lOut eOut]|] eqn:HO; [|discriminate].
    simpl in Hr. exists lOut, eOut. split; [done|].
    destruct (Degree eOut <? d) eqn:Hd.
    + left. apply Z.ltb_lt in Hd. split; [done|]. congruence.
    + right. apply Z.ltb_ge in Hd. split; [done|]. congruence.
Qed.

(** A receiver that came in as a pointer is never the nil interface: the
    helper cannot reject a call for a nil operand unless an input is the
    nil interface. *)
Lemma getElemAndCheckBinary_ptrs (st : Store E) p0 p1 pOut d :
  Mem.getElemAndCheckBinary st (OpPtr p0) (OpPtr p1) (OpPtr pOut) d
  <> Some (Rejected "operands cannot be nil").
Proof.
  intros Hr.
  destruct (getElemAndCheckBinary_cases st (OpPtr p0) (OpPtr p1) (OpPtr pOut) d _ eq_refl Hr)
    as (l0 & e0 & l1 & e1 & _ & _ & [[_ ?]|[_ (lO & eO & _ & [[_ ?]|[_ ?]])]]);
    discriminate.
Qed.

End OperandChecks.

Section EntryPoints.

Import Mem Claims.

(** The prologue of every binary entry point: the degrees of the two inputs
    are taken first, then the helper runs on a receiver that is a pointer. *)
Lemma prologue_never_nil {E} `{Element E} (st : Store E) op0 op1 ctOut
    (k : Z -> Z -> Z) :
  (d0 ← opDegree st op0; d1 ← opDegree st op1;
   Mem.getElemAndCheckBinary st op0 op1 (OpPtr ctOut) (k d0 d1))
  <> Some (Rejected errNil).
Proof.
  destruct op0 as [|p0]; [done|]. destruct op1 as [|p1].
  { simpl. destruct (opDegree st (OpPtr p0)); done. }
  destruct (opDegree st (OpPtr p0)) as [d0|]; [|done].
  destruct (opDegree st (OpPtr p1)) as [d1|]; [|done].
  simpl. apply getElemAndCheckBinary_ptrs.
Qed.

Lemma prologue_nil_input {E} `{Element E} (st : Store E) op0 op1 ctOut
    (k : Z -> Z -> Z) :
  isNil op0 || isNil op1 = true ->
  (d0 ← opDegree st op0; d1 ← opDegree st op1;
   Mem.getElemAndCheckBinary st op0 op1 (OpPtr ctOut) (k d0 d1)) = None.
Proof.
  destruct op0 as [|p0]; [done|]. destruct op1 as [|p1]; [|done].
  intros _. simpl. destruct (opDegree st (OpPtr p0)); done.
Qed.

End EntryPoints.

(** Peel the option monad off a hypothesis [Hr : run = Some _], keeping the
    last step of the run. *)
Ltac peel Hr :=
  repeat first
    [ discriminate Hr
    | apply bind_Some in Hr as (? & _ & Hr)
    | match type of Hr with
      | (match ?x with _ => _ end) = Some _ => destruct x
      | (if ?x then _ else _) = Some _ => destruct x
      | (let '(_, _) := ?x in _) = Some _ => destruct x
      end ].

(** The prologue of a binary entry point, in a hypothesis: either the call
    was rejected with an error that is not the nil-operand error, or the
    operands were accepted. *)
Ltac prologue Hr k :=
  let d0 := fresh "d0" in let d1 := fresh "d1" in let c := fresh "c" in
  let Hd0 := fresh "Hd0" in let Hd1 := fresh "Hd1" in let Hc := fresh "Hc" in
  let Hp := fresh "Hp" in
  apply bind_Some in Hr as (d0 & Hd0 & Hr);
  apply bind_Some in Hr as (d1 & Hd1 & Hr);
  apply bind_Some in Hr as (c & Hc & Hr);
  match type of Hc with
  | Mem.getElemAndCheckBinary ?st ?op0 ?op1 (Mem.OpPtr ?ctOut) _ = _ =>
      pose proof (prologue_never_nil st op0 op1 ctOut k) as Hp;
      rewrite Hd0, Hd1 in Hp; cbn [mbind option_bind] in Hp
  end;
  destruct c as [?err|[[?el0 ?el1] ?elOut]];
  [ exfalso; apply Hp; rewrite Hc; congruence | clear Hp ].

Section NilOperands.

Import Mem Claims.

Lemma bfv_binary_panicsOnNil ev f : panicsOnNil (Bfv.binary ev f).
Proof.
  split; [|split].
  - intros. reflexivity.
  - intros op0 ctOut st. unfold Bfv.binary.
    destruct (opDegree st op0); reflexivity.
  - intros op0 op1 ctOut st st' Hr.
    unfold Bfv.binary, Bfv.getElemAndCheckBinary in Hr.
    prologue Hr Z.max. peel Hr.
Qed.

Lemma evaluateInPlace_no_error ev c0 c1 ctOut f st st' e :
  Ckks.evaluateInPlace ev c0 c1 ctOut f st = Some (st', e) -> e = None.
Proof. intros Hr. unfold Ckks.evaluateInPlace in Hr. peel Hr. congruence. Qed.

Lemma ckks_additive_panicsOnNil ev f : panicsOnNil (Ckks.additive ev f).
Proof.
  split; [|split].
  - intros. reflexivity.
  - intros op0 ctOut st. unfold Ckks.additive.
    destruct (opDegree st op0); reflexivity.
  - intros op0 op1 ctOut st st' Hr.
    unfold Ckks.additive, Ckks.getElemAndCheckBinary in Hr.
    prologue Hr Z.max.
    apply bind_Some in Hr as (? & _ & Hr). apply bind_Some in Hr as (? & _ & Hr).
    apply evaluateInPlace_no_error in Hr. discriminate.
Qed.

Lemma ckks_subtractive_panicsOnNil ev f : panicsOnNil (Ckks.subtractive ev f).
Proof.
  split; [|split].
  - intros. reflexivity.
  - intros op0 ctOut st. unfold Ckks.subtractive.
    destruct (opDegree st op0); reflexivity.
  - intros op0 op1 ctOut st st' Hr.
    unfold Ckks.subtractive, Ckks.getElemAndCheckBinary in Hr.
    prologue Hr Z.max.
    apply bind_Some in Hr as (? & _ & Hr). apply bind_Some in Hr as (? & _ & Hr).
    apply bind_Some in Hr as ([st1 e1] & He & Hr).
    apply evaluateInPlace_no_error in He. subst e1.
    cbn [snd fst] in Hr. peel Hr.
Qed.

Lemma ckks_MulRelin_panicsOnNil ev key :
  panicsOnNil (fun op0 op1 ctOut => Ckks.MulRelin ev op0 op1 key ctOut).
Proof.
  split; [|split].
  - intros. reflexivity.
  - intros op0 ctOut st. unfold Ckks.MulRelin.
    destruct (opDegree st op0); reflexivity.
  - intros op0 op1 ctOut st st' Hr.
    unfold Ckks.MulRelin, Ckks.getElemAndCheckBinary in Hr.
    prologue Hr Z.max. peel Hr.
Qed.

Lemma bfv_Mul_never_nil tensor ev op0 op1 ctOut st st' :
  Bfv.Mul tensor ev op0 op1 ctOut st <> Some (st', Some errNil).
Proof.
  intros Hr. unfold Bfv.Mul, Bfv.getElemAndCheckBinary in Hr.
  prologue Hr U64.add. peel Hr.
Qed.

(** C7 (entry points, as the code has them). Every binary entry point of
    the two evaluators takes the degrees of its two inputs before the nil
    check of [getElemAndCheckBinary] runs: with a nil input it panics, and
    it never returns the error "operands cannot be nil". *)
Theorem C7_nil_operand_panics_at_entry :
  (forall ev,
      panicsOnNil (Bfv.Add ev) /\ panicsOnNil (Bfv.AddNoMod ev) /\
      panicsOnNil (Bfv.Sub ev) /\ panicsOnNil (Bfv.SubNoMod ev)) /\
  (forall tensor ev op1 ctOut st, Bfv.Mul tensor ev None op1 ctOut st = None) /\
  (forall tensor ev op0 ctOut st, Bfv.Mul tensor ev op0 OpNil ctOut st = None) /\
  (forall tensor ev op0 op1 ctOut st st',
      Bfv.Mul tensor ev op0 op1 ctOut st <> Some (st', Some errNil)) /\
  (forall ev key,
      panicsOnNil (Ckks.Add ev) /\ panicsOnNil (Ckks.AddNoMod ev) /\
      panicsOnNil (Ckks.Sub ev) /\ panicsOnNil (Ckks.SubNoMod ev) /\
      panicsOnNil (fun op0 op1 ctOut => Ckks.MulRelin ev op0 op1 key ctOut)).
Proof.
  split; [|split; [|split; [|split]]].
  - intros ev.
    unfold Bfv.Add, Bfv.AddNoMod, Bfv.Sub, Bfv.SubNoMod.
    split; [exact (bfv_binary_panicsOnNil ev _)|].
    split; [exact (bfv_binary_panicsOnNil ev _)|].
    split; exact (bfv_binary_panicsOnNil ev _).
  - reflexivity.
  - intros tensor ev op0 ctOut st. unfold Bfv.Mul.
    destruct (opDegree st (OpPtr op0)); reflexivity.
  - apply bfv_Mul_never_nil.
  - intros ev key.
    unfold Ckks.Add, Ckks.AddNoMod, Ckks.Sub, Ckks.SubNoMod.
    split; [exact (ckks_additive_panicsOnNil ev _)|].
    split; [exact (ckks_additive_panicsOnNil ev _)|].
    split; [exact (ckks_subtractive_panicsOnNil ev _)|].
    split; [exact (ckks_subtractive_panicsOnNil ev _)|].
    exact (ckks_MulRelin_panicsOnNil ev key).
Qed.

End NilOperands.

Section FailingInputs.

Import Mem Examples.

(** C1 (Scheme-I, at the failing input). [Sub] of a plaintext and a
    ciphertext of degree 1 into a fresh receiver: the component of index 1
    of the result is the component of the second operand as it is, where
    the property asks for its negation. *)
Theorem C1_bfv_Sub_tail_not_negated :
  exists st',
    Bfv.Sub bfvEvaluator (OpPtr (Some 0%nat)) (OpPtr (Some 1%nat)) (Some 2%nat)
      bfvState = Some (st', None) /\
    readPoly bfvState (Val 1%nat 1) = Some [[3; 4]] /\
    readPoly st' (Val 2%nat 1) = Some [[3; 4]] /\
    Ring.Neg ring17 [[3; 4]] [[3; 4]] = Some [[14; 13]].
Proof.
  eexists. split; [vm_compute; reflexivity|].
  split; [reflexivity|]. split; vm_compute; reflexivity.
Qed.

(** C2 (Scheme-A [MulRelin], at the failing input). The receiver is at
    level 1 and the inputs at level 0; the first input is not in the NTT
    domain. The call returns the error of the NTT check, and the receiver
    has lost a level (a row of every polynomial, and a factor of its
    modulus) on the way. *)
Theorem C2_MulRelin_drops_level_then_rejects :
  exists st' before after,
    Ckks.MulRelin ckksEvaluator (OpPtr (Some 0%nat)) (OpPtr (Some 1%nat)) None
      (Some 2%nat) ckksState
    = Some (st', Some "cannot mul -> op0 must be in NTT to multiply"%string) /\
    getEl ckksState 2%nat = Some before /\
    getEl st' 2%nat = Some after /\
    Ckks.Level before = Some 1 /\ Ckks.Level after = Some 0 /\
    Ckks.currentModulus before = 17 * 97 /\ Ckks.currentModulus after = 17 /\
    Ckks.value before <> Ckks.value after.
Proof.
  eexists. eexists. eexists.
  split; [vm_compute; reflexivity|].
  split; [vm_compute; reflexivity|].
  split; [vm_compute; reflexivity|].
  repeat (split; [vm_compute; reflexivity|]).
  vm_compute. discriminate.
Qed.

End FailingInputs.

(** ** Row-wise operations *)

Section RowWise.

Import Ring Shape.

Lemma forModuliStep_None row l : foldl (forModuliStep row) None l = None.
Proof. induction l; simpl; auto. Qed.

Lemma foldl_rows row (p : Poly) (l : list Z) (p' : Poly) :
  foldl (forModuliStep row) (Some p) (imap pair l) = Some p' <->
  length p' = length p /\
  (forall i q, l !! i = Some q ->
     exists r r', p !! i = Some r /\ row i q r = Some r' /\ p' !! i = Some r') /\
  (forall i, (length l <= i)%nat -> p' !! i = p !! i).
Proof.
  revert p'. induction l as [|q l IH] using rev_ind; intros p'.
  - simpl. split.
    + intros [= <-]. split; [done|]. split; [|done]. intros i q Hq. done.
    + intros (Hlen & _ & Hrest). f_equal. symmetry. apply list_eq. intros i. apply Hrest. simpl. lia.
  - rewrite imap_app, foldl_app. simpl.
    destruct (foldl (forModuliStep row) (Some p) (imap pair l)) as [p1|] eqn:Hf.
    + destruct (proj1 (IH p1) eq_refl) as (Hlen1 & Hrows1 & Hrest1).
      unfold forModuliStep at 1. simpl. rewrite Nat.add_0_r.
      split.
      * intros Hs. apply bind_Some in Hs as (r & Hr & Hs).
        apply bind_Some in Hs as (r' & Hr' & Hs). injection Hs as <-.
        assert (length l < length p1)%nat as Hlt by (eapply lookup_lt_Some; eauto).
        split; [rewrite length_insert; done|]. split.
        -- intros i q0 Hq0. destruct (decide (i = length l)) as [->|Hne].
           ++ rewrite lookup_app_r, Nat.sub_diag in Hq0 by lia. injection Hq0 as <-.
              exists r, r'. rewrite <- Hrest1 by lia. split; [done|]. split; [done|].
              apply list_lookup_insert_eq. done.
           ++ assert (i < length l)%nat as Hi.
              { apply lookup_lt_Some in Hq0. rewrite length_app in Hq0. simpl in Hq0. lia. }
              rewrite lookup_app_l in Hq0 by done.
              destruct (Hrows1 i q0 Hq0) as (r0 & r0' & ? & ? & ?).
              exists r0, r0'. split; [done|]. split; [done|].
              rewrite list_lookup_insert_ne by done. done.
        -- intros i Hi. rewrite length_app in Hi. simpl in Hi.
           rewrite list_lookup_insert_ne by lia. apply Hrest1. lia.
      * intros (Hlen & Hrows & Hrest).
        destruct (Hrows (length l) q) as (r & r' & Hr & Hr' & Hp').
        { rewrite lookup_app_r, Nat.sub_diag by lia. done. }
        rewrite Hrest1 by lia. rewrite Hr. simpl. rewrite Hr'. simpl. f_equal.
        apply list_eq. intros i. destruct (decide (i = length l)) as [->|Hne].
        -- rewrite Hp'. apply list_lookup_insert_eq. rewrite Hlen1.
           eapply lookup_lt_Some; eauto.
        -- rewrite list_lookup_insert_ne by done.
           destruct (decide (i < length l)%nat) as [Hi|Hi].
           ++ destruct (lookup_lt_is_Some_2 l i Hi) as [q0 Hq0].
              destruct (Hrows1 i q0 Hq0) as (r0 & r0' & H0 & H0' & H0'').
              destruct (Hrows i q0) as (r1 & r1' & H1 & H1' & H1'').
              { rewrite lookup_app_l by done. done. }
              congruence.
           ++ rewrite Hrest1 by lia. symmetry. apply Hrest. rewrite length_app. simpl. lia.
    + fold (forModuliStep row). split; [discriminate|].
      intros (Hlen & Hrows & Hrest). exfalso.
      assert (@None Poly = Some (take (length l) p' ++ drop (length l) p)) as Hc; [|discriminate].
      apply IH.
      assert (length l < length p)%nat as Hlp.
      { destruct (Hrows (length l) q) as (r & r' & Hr & _).
        { rewrite lookup_app_r, Nat.sub_diag by lia. done. }
        eapply lookup_lt_Some; eauto. }
      split; [rewrite length_app, length_take, length_drop; lia|]. split.
      * intros i q0 Hq0. assert (i < length l)%nat as Hi by (eapply lookup_lt_Some; eauto).
        destruct (Hrows i q0) as (r & r' & ? & ? & ?).
        { rewrite lookup_app_l by done. done. }
        exists r, r'. split; [done|]. split; [done|].
        rewrite lookup_app_l by (rewrite length_take; lia).
        rewrite lookup_take_lt by done. done.
      * intros i Hi. rewrite lookup_app_r by (rewrite length_take; lia).
        rewrite length_take, lookup_drop. f_equal. lia.
Qed.

Lemma forModuli_spec context row (p p' : Poly) :
  forModuli context row p = Some p' <->
  length p' = length p /\
  (forall i q, moduli context !! i = Some q ->
     exists r r', p !! i = Some r /\ row i q r = Some r' /\ p' !! i = Some r') /\
  (forall i, (length (moduli context) <= i)%nat -> p' !! i = p !! i).
Proof. apply foldl_rows. Qed.

End RowWise.

Section ReduceFacts.

Import Ring Shape.

Lemma rowMap_Some f N0 src dst r :
  rowMap f N0 src dst = Some r <->
  (Z.to_nat N0 <= length src)%nat /\ (Z.to_nat N0 <= length dst)%nat /\
  r = map f (take (Z.to_nat N0) src) ++ drop (Z.to_nat N0) dst.
Proof.
  unfold rowMap. destruct (decide _) as [[? ?]|Hn].
  - split; [intros [= <-]; done|]. intros (_ & _ & ->). done.
  - split; [discriminate|]. intros (? & ? & _). destruct Hn. done.
Qed.

Lemma rowMap_self f N0 r :
  length r = Z.to_nat N0 -> rowMap f N0 r r = Some (map f r).
Proof.
  intros Hl. apply rowMap_Some. rewrite <- Hl.
  rewrite firstn_all, drop_all, app_nil_r. done.
Qed.

Lemma polyMap_inv context f (p1 p2 p' : Poly) :
  polyMap context f p1 p2 = Some p' ->
  length p' = length p2 /\
  (forall i q, moduli context !! i = Some q ->
     exists g src dst,
       f i q = Some g /\ p1 !! i = Some src /\ p2 !! i = Some dst /\
       (Z.to_nat (N context) <= length src)%nat /\
       (Z.to_nat (N context) <= length dst)%nat /\
       p' !! i = Some (map g (take (Z.to_nat (N context)) src)
                         ++ drop (Z.to_nat (N context)) dst)) /\
  (forall i, (length (moduli context) <= i)%nat -> p' !! i = p2 !! i).
Proof.
  unfold polyMap. intros Hp. apply forModuli_spec in Hp as (Hlen & Hrows & Hrest).
  split; [done|]. split; [|done].
  intros i q Hq. destruct (Hrows i q Hq) as (r & r' & Hr & Hrow & Hp').
  apply bind_Some in Hrow as (g & Hg & Hrow).
  apply bind_Some in Hrow as (src & Hsrc & Hrow).
  apply rowMap_Some in Hrow as (? & ? & ->).
  exists g, src, r. done.
Qed.

Lemma Reduce_Canonical context (p1 p2 p' : Poly) :
  Forall (fun q => 0 < q) (moduli context) ->
  Reduce context p1 p2 = Some p' -> Canonical context p'.
Proof.
  intros Hpos Hr. apply polyMap_inv in Hr as (_ & Hrows & _).
  intros i q r j x Hq Hr Hj Hx.
  destruct (Hrows i q Hq) as (g & src & dst & Hg & _ & _ & Hs & _ & Hp').
  apply bind_Some in Hg as (bred & _ & [= <-]).
  rewrite Hr in Hp'. injection Hp' as ->.
  rewrite lookup_app_l in Hx by (rewrite length_map, length_take; lia).
  rewrite list_lookup_fmap in Hx.
  destruct (take _ src !! j) as [y|]; [|discriminate]. injection Hx as <-.
  unfold BRedAdd. apply Z.mod_pos_bound.
  rewrite Forall_forall in Hpos. apply Hpos.
  eapply list_elem_of_lookup_2; eauto.
Qed.

Lemma reduced_length context (p : Poly) : length (reduced context p) = length p.
Proof. unfold reduced. apply length_imap. Qed.

Lemma reduced_lookup_row context (p : Poly) i q r :
  moduli context !! i = Some q -> p !! i = Some r ->
  length r = Z.to_nat (N context) ->
  reduced context p !! i = Some (map (fun x => x mod q) r).
Proof.
  intros Hq Hr Hl. unfold reduced. rewrite list_lookup_imap, Hr. simpl. rewrite Hq.
  rewrite <- Hl, firstn_all, drop_all, app_nil_r. done.
Qed.

Lemma reduced_lookup_rest context (p : Poly) i :
  (length (moduli context) <= i)%nat -> reduced context p !! i = p !! i.
Proof.
  intros Hi. unfold reduced. rewrite list_lookup_imap.
  rewrite (lookup_ge_None_2 (moduli context)) by done.
  destruct (p !! i); done.
Qed.

Lemma reduced_Shaped context (p : Poly) :
  Shaped context p -> Shaped context (reduced context p).
Proof.
  intros [Hl Hr]. split; [rewrite reduced_length; done|].
  intros i r Hi Hri.
  destruct (lookup_lt_is_Some_2 (moduli context) i Hi) as [q Hq].
  destruct (lookup_lt_is_Some_2 p i) as [r0 Hr0]; [lia|].
  rewrite (reduced_lookup_row _ _ _ _ _ Hq Hr0 (Hr _ _ Hi Hr0)) in Hri.
  injection Hri as <-. rewrite length_map. eauto.
Qed.

Lemma reduced_idem context (p : Poly) :
  Shaped context p -> reduced context (reduced context p) = reduced context p.
Proof.
  intros Hs. pose proof (reduced_Shaped _ _ Hs) as Hs'.
  apply list_eq. intros i.
  destruct (decide (i < length (moduli context))%nat) as [Hi|Hi].
  - destruct (lookup_lt_is_Some_2 (moduli context) i Hi) as [q Hq].
    destruct Hs as [Hl Hr].
    destruct (lookup_lt_is_Some_2 p i) as [r0 Hr0]; [lia|].
    pose proof (reduced_lookup_row _ _ _ _ _ Hq Hr0 (Hr _ _ Hi Hr0)) as H1.
    rewrite (reduced_lookup_row _ _ _ _ _ Hq H1), H1.
    + f_equal. rewrite <- list_fmap_compose. apply list_fmap_ext.
      intros ? x _. simpl. apply Zmod_mod.
    + rewrite length_map. eauto.
  - rewrite !reduced_lookup_rest by lia. done.
Qed.

Lemma Reduce_self context (p : Poly) :
  Parameterized context -> Shaped context p ->
  Reduce context p p = Some (reduced context p).
Proof.
  intros [Hb _] [Hl Hr]. unfold Reduce, polyMap. apply forModuli_spec.
  split; [apply reduced_length|]. split; [|apply reduced_lookup_rest].
  intros i q Hq.
  assert (i < length (moduli context))%nat as Hi by (eapply lookup_lt_Some; eauto).
  destruct (lookup_lt_is_Some_2 p i) as [r Hri]; [lia|].
  destruct (lookup_lt_is_Some_2 (bredParams context) i) as [bred Hbred]; [lia|].
  exists r, (map (fun x => x mod q) r). split; [done|]. split.
  - rewrite Hbred. simpl. rewrite Hri. simpl. apply rowMap_self. eauto.
  - apply reduced_lookup_row; eauto.
Qed.

Lemma lenDiffers_Shaped context (a b : Poly) n i :
  Shaped context a -> Shaped context b ->
  (i + n <= length (moduli context))%nat ->
  lenDiffers n i a b = Some false.
Proof.
  intros [Hla Hra] [Hlb Hrb]. revert i. induction n as [|n IH]; intros i Hi; [done|].
  simpl.
  destruct (lookup_lt_is_Some_2 a i) as [ra Ha]; [lia|].
  destruct (lookup_lt_is_Some_2 b i) as [rb Hb]; [lia|].
  rewrite Ha, Hb. simpl.
  rewrite (Hra i ra), (Hrb i rb) by (done || lia).
  rewrite decide_True by done. apply IH. lia.
Qed.

Lemma rowDiffers_spec (r1 r2 : list Z) n j :
  0 <= j -> (Z.to_nat j + n <= length r1)%nat -> (Z.to_nat j + n <= length r2)%nat ->
  exists d, rowDiffers n j r1 r2 = Some d /\
    (d = false <->
     forall k, (Z.to_nat j <= k < Z.to_nat j + n)%nat -> r1 !! k = r2 !! k).
Proof.
  revert j. induction n as [|n IH]; intros j Hj H1 H2.
  - exists false. split; [done|]. split; [|done]. intros _ k Hk. lia.
  - simpl. unfold at_.
    destruct (lookup_lt_is_Some_2 r1 (Z.to_nat j)) as [x Hx]; [lia|].
    destruct (lookup_lt_is_Some_2 r2 (Z.to_nat j)) as [y Hy]; [lia|].
    rewrite Hx, Hy. simpl. destruct (x =? y) eqn:Hxy.
    + apply Z.eqb_eq in Hxy. subst y.
      destruct (IH (j + 1)) as (d & Hd & Hiff); [lia|rewrite Z2Nat.inj_add by lia; simpl; lia..|].
      exists d. split; [done|]. rewrite Hiff. rewrite Z2Nat.inj_add by lia.
      change (Z.to_nat 1) with 1%nat. split.
      * intros Hk k Hr. destruct (decide (k = Z.to_nat j)) as [->|]; [congruence|].
        apply Hk. lia.
      * intros Hk k Hr. apply Hk. lia.
    + apply Z.eqb_neq in Hxy. exists true. split; [done|]. split; [discriminate|].
      intros Hk. specialize (Hk (Z.to_nat j)). rewrite Hx, Hy in Hk.
      exfalso. apply Hxy. assert (Some x = Some y) as [= ->] by (apply Hk; lia). done.
Qed.

Lemma coeffDiffers_spec context (a b : Poly) n i :
  Shaped context a -> Shaped context b ->
  (i + n <= length (moduli context))%nat ->
  exists d, coeffDiffers n i (N context) a b = Some d /\
    (d = false <->
     forall k ra rb, (i <= k < i + n)%nat -> a !! k = Some ra -> b !! k = Some rb ->
       ra = rb).
Proof.
  intros [Hla Hra] [Hlb Hrb]. revert i. induction n as [|n IH]; intros i Hi.
  - exists false. split; [done|]. split; [|done]. intros _ k ra rb Hk. lia.
  - simpl.
    destruct (lookup_lt_is_Some_2 a i) as [ra Ha]; [lia|].
    destruct (lookup_lt_is_Some_2 b i) as [rb Hb]; [lia|].
    rewrite Ha, Hb. simpl.
    destruct (rowDiffers_spec ra rb (Z.to_nat (N context)) 0) as (d & Hd & Hiff);
      [lia|rewrite (Hra i ra) by (done || lia); simpl; lia
          |rewrite (Hrb i rb) by (done || lia); simpl; lia|].
    rewrite Hd. simpl. destruct d.
    + exists true. split; [done|]. split; [discriminate|]. intros Hk.
      assert (ra = rb) as -> by (apply (Hk i); (done || lia)).
      destruct Hiff as [_ Hiff]. apply Hiff. intros; done.
    + destruct (IH (S i)) as (d' & Hd' & Hiff'); [lia|].
      exists d'. split; [done|]. rewrite Hiff'. split.
      * intros Hk k ra' rb' Hr Ha' Hb'. destruct (decide (k = i)) as [->|].
        -- assert (ra' = ra) as -> by congruence. assert (rb' = rb) as -> by congruence.
           apply list_eq. intros j.
           destruct (decide (j < Z.to_nat (N context))%nat).
           ++ apply Hiff; [done|]. simpl. lia.
           ++ rewrite !lookup_ge_None_2; [done|rewrite (Hrb i rb) by (done || lia); lia
                                              |rewrite (Hra i ra) by (done || lia); lia].
        -- apply (Hk k); (done || lia).
      * intros Hk k ra' rb' Hr. apply Hk. lia.
Qed.


Lemma Agree_reduced context (a b : Poly) :
  Shaped context a -> Shaped context b ->
  Agree context a b <->
  forall k ra rb, (0 <= k < 0 + length (moduli context))%nat ->
    reduced context a !! k = Some ra -> reduced context b !! k = Some rb -> ra = rb.
Proof.
  intros [Hla Hra] [Hlb Hrb]. split.
  - intros Hag k ra rb Hk Ha Hb.
    destruct (lookup_lt_is_Some_2 (moduli context) k) as [q Hq]; [lia|].
    destruct (lookup_lt_is_Some_2 a k) as [r1 H1]; [lia|].
    destruct (lookup_lt_is_Some_2 b k) as [r2 H2]; [lia|].
    rewrite (reduced_lookup_row _ _ _ _ _ Hq H1) in Ha by (apply (Hra k); (done || lia)).
    rewrite (reduced_lookup_row _ _ _ _ _ Hq H2) in Hb by (apply (Hrb k); (done || lia)).
    injection Ha as <-. injection Hb as <-.
    apply list_eq. intros j. rewrite !list_lookup_fmap.
    destruct (decide (j < Z.to_nat (N context))%nat) as [Hj|Hj].
    + destruct (lookup_lt_is_Some_2 r1 j) as [x Hx]; [rewrite (Hra k r1) by (done || lia); done|].
      destruct (lookup_lt_is_Some_2 r2 j) as [y Hy]; [rewrite (Hrb k r2) by (done || lia); done|].
      rewrite Hx, Hy. simpl. f_equal. eapply Hag; eauto.
    + rewrite !lookup_ge_None_2; [done|rewrite (Hrb k r2) by (done || lia); lia
                                       |rewrite (Hra k r1) by (done || lia); lia].
  - intros Heq i q r1 r2 j x y Hq H1 H2 Hj Hx Hy.
    assert (i < length (moduli context))%nat as Hi by (eapply lookup_lt_Some; eauto).
    pose proof (reduced_lookup_row _ _ _ _ _ Hq H1 (Hra _ _ Hi H1)) as Ha.
    pose proof (reduced_lookup_row _ _ _ _ _ Hq H2 (Hrb _ _ Hi H2)) as Hb.
    assert (map (fun x => x mod q) r1 = map (fun x => x mod q) r2) as Hm
      by (apply (Heq i); (done || lia)).
    apply (f_equal (fun l => l !! j)) in Hm. rewrite !list_lookup_fmap, Hx, Hy in Hm.
    simpl in Hm. congruence.
Qed.

(** C10. [Equal] on two polynomials of the context: the call reduces the two
    polynomials in the store, where they stay reduced after it returns, and
    answers true exactly when their canonical residues agree, coefficient by
    coefficient, over every modulus of the context. *)
Theorem C10_Equal_reduces_its_arguments context (h : gmap nat Poly) p1 p2 a b :
  Parameterized context ->
  h !! p1 = Some a -> h !! p2 = Some b ->
  Shaped context a -> Shaped context b ->
  exists r,
    Equal context h p1 p2
    = Some (r, <[p2 := reduced context b]> (<[p1 := reduced context a]> h)) /\
    (r = true <-> Agree context a b).
Proof.
  intros Hpar H1 H2 Ha Hb. unfold Equal. rewrite H1, H2. simpl.
  rewrite (lenDiffers_Shaped context a b _ 0) by (done || lia). simpl.
  rewrite (Reduce_self _ _ Hpar Ha). simpl.
  pose proof (reduced_Shaped _ _ Ha) as Ha'. pose proof (reduced_Shaped _ _ Hb) as Hb'.
  destruct (decide (p1 = p2)) as [->|Hne].
  - assert (b = a) as -> by congruence.
    rewrite lookup_insert_eq. simpl.
    rewrite (Reduce_self _ _ Hpar Ha'), reduced_idem by done. simpl.
    rewrite lookup_insert_eq. simpl.
    destruct (coeffDiffers_spec context (reduced context a) (reduced context a)
                (length (moduli context)) 0) as (d & Hd & Hiff); [done..|lia|].
    rewrite Hd. simpl. exists (negb d). split; [done|].
    assert (d = false) as ->. { apply Hiff. intros; congruence. }
    split; [|done]. intros _ i q r1 r2 j x y ? ? ? ? ? ?. congruence.
  - rewrite lookup_insert_ne by done. rewrite H2. simpl.
    rewrite (Reduce_self _ _ Hpar Hb). simpl.
    rewrite (lookup_insert_ne _ p2 p1) by (intros Heq; apply Hne; symmetry; exact Heq). rewrite lookup_insert_eq. simpl.
    rewrite lookup_insert_eq. simpl.
    destruct (coeffDiffers_spec context (reduced context a) (reduced context b)
                (length (moduli context)) 0) as (d & Hd & Hiff); [done..|lia|].
    rewrite Hd. simpl. exists (negb d). split; [done|].
    rewrite (Agree_reduced _ _ _ Ha Hb), <- Hiff. destruct d; simpl; split; congruence.
Qed.

End ReduceFacts.


Section ReduceExamples.

Import Ring Shape Examples.

Lemma ring17_Parameterized : Parameterized ring17.
Proof. split; vm_compute; lia. Qed.

Lemma Shaped_ring17 (x y : Z) : Shaped ring17 [[x; y]].
Proof.
  split; [vm_compute; lia|].
  intros [|i] r Hi Hr; [injection Hr as <-; reflexivity|].
  vm_compute in Hi. lia.
Qed.

(** [Equal] on [[18, 2]] and [[1, 19]] over the chain (17): both are
    rewritten to [[1, 2]] in the store. *)
Lemma C10_Equal_witness :
  exists r,
    Equal ring17 equalStore 1%nat 2%nat
    = Some (r, <[2%nat := reduced ring17 [[1; 19]]]>
                 (<[1%nat := reduced ring17 [[18; 2]]]> equalStore)) /\
    (r = true <-> Agree ring17 [[18; 2]] [[1; 19]]).
Proof.
  apply (C10_Equal_reduces_its_arguments ring17 equalStore 1%nat 2%nat
           [[18; 2]] [[1; 19]]).
  - exact ring17_Parameterized.
  - reflexivity.
  - reflexivity.
  - apply Shaped_ring17.
  - apply Shaped_ring17.
Defined.

End ReduceExamples.


(** ** Loops and machine words *)

Section Loops.

Lemma for_nat_total {St} (Inv : Z -> St -> Prop) (body : Z -> St -> option St) n lo s :
  Inv lo s ->
  (forall j s, lo <= j < lo + Z.of_nat n -> Inv j s ->
     exists s', body j s = Some s' /\ Inv (j + 1) s') ->
  exists s', for_nat n lo body s = Some s' /\ Inv (lo + Z.of_nat n) s'.
Proof.
  revert lo s. induction n as [|n IH]; intros lo s Hs Hbody.
  - exists s. rewrite Z.add_0_r. done.
  - simpl. destruct (Hbody lo s) as (s1 & H1 & Hs1); [lia|done|].
    rewrite H1. simpl.
    destruct (IH (lo + 1) s1) as (s' & Hs' & Hinv); [done| |].
    + intros j s2 Hj. apply Hbody. lia.
    + exists s'. split; [done|]. replace (lo + Z.of_nat (S n)) with (lo + 1 + Z.of_nat n) by lia. done.
Qed.

Lemma for_nat_inv {St} (Inv : Z -> St -> Prop) (body : Z -> St -> option St) n lo s s' :
  for_nat n lo body s = Some s' ->
  Inv lo s ->
  (forall j s s1, lo <= j < lo + Z.of_nat n -> Inv j s -> body j s = Some s1 ->
     Inv (j + 1) s1) ->
  Inv (lo + Z.of_nat n) s'.
Proof.
  revert lo s. induction n as [|n IH]; intros lo s Hrun Hs Hbody.
  - injection Hrun as <-. rewrite Z.add_0_r. done.
  - simpl in Hrun. apply bind_Some in Hrun as (s1 & H1 & Hrun).
    replace (lo + Z.of_nat (S n)) with (lo + 1 + Z.of_nat n) by lia.
    apply (IH (lo + 1) s1); [done| |].
    + apply (Hbody lo s); [lia|done|done].
    + intros j s2 s3 Hj. apply Hbody. lia.
Qed.

Lemma for_range_total {St} (Inv : Z -> St -> Prop) (body : Z -> St -> option St) lo hi s :
  lo <= hi -> Inv lo s ->
  (forall j s, lo <= j < hi -> Inv j s ->
     exists s', body j s = Some s' /\ Inv (j + 1) s') ->
  exists s', for_range lo hi body s = Some s' /\ Inv hi s'.
Proof.
  intros Hle Hs Hbody. unfold for_range.
  destruct (for_nat_total Inv body (Z.to_nat (hi - lo)) lo s) as (s' & H1 & H2); [done| |].
  - intros j s0 Hj. apply Hbody. lia.
  - exists s'. split; [done|].
    replace (lo + Z.of_nat (Z.to_nat (hi - lo))) with hi in H2 by lia. exact H2.
Qed.

Lemma for_range_inv {St} (Inv : Z -> St -> Prop) (body : Z -> St -> option St) lo hi s s' :
  lo <= hi ->
  for_range lo hi body s = Some s' ->
  Inv lo s ->
  (forall j s s1, lo <= j < hi -> Inv j s -> body j s = Some s1 -> Inv (j + 1) s1) ->
  Inv hi s'.
Proof.
  intros Hle Hrun Hs Hbody. unfold for_range in Hrun.
  assert (Inv (lo + Z.of_nat (Z.to_nat (hi - lo))) s') as H2.
  { eapply for_nat_inv; eauto. intros j s0 s1 Hj. apply Hbody. lia. }
  replace (lo + Z.of_nat (Z.to_nat (hi - lo))) with hi in H2 by lia. exact H2.
Qed.

Lemma for_range_empty {St} (body : Z -> St -> option St) lo hi s :
  hi <= lo -> for_range lo hi body s = Some s.
Proof. intros. unfold for_range. replace (Z.to_nat (hi - lo)) with 0%nat by lia. done. Qed.

End Loops.

Section Words.

Lemma wrap_range x : U64.inrange (U64.wrap x).
Proof. unfold U64.inrange, U64.wrap, U64.modulus. apply Z.mod_pos_bound. lia. Qed.

Lemma wrap_small x : U64.inrange x -> U64.wrap x = x.
Proof. unfold U64.inrange, U64.wrap. intros. apply Z.mod_small. lia. Qed.

Lemma modulus_eq : U64.modulus = 18446744073709551616.
Proof. reflexivity. Qed.

(** A word [n] with [n & (n - 1) = 0] that is not 0 is a power of two. *)
Lemma land_pred_pow2 n :
  0 < n -> Z.land n (n - 1) = 0 -> n = 2 ^ Z.log2 n.
Proof.
  intros Hn Hl. destruct (Z.log2_spec n Hn) as [Hlo Hhi].
  destruct (Z.eq_dec n (2 ^ Z.log2 n)) as [|Hne]; [done|]. exfalso.
  assert (Z.testbit (Z.land n (n - 1)) (Z.log2 n) = true) as Hb.
  { assert (Z.log2 (n - 1) = Z.log2 n) as Hlog.
    { apply Z.log2_unique; [apply Z.log2_nonneg|].
      revert Hlo Hhi Hne. generalize (2 ^ Z.succ (Z.log2 n)) (2 ^ Z.log2 n). lia. }
    assert (Z.testbit (n - 1) (Z.log2 n) = true) as Hp.
    { rewrite <- Hlog. apply Z.bit_log2.
      assert (0 < 2 ^ Z.log2 n) as Hpos by (apply Z.pow_pos_nonneg; [lia|apply Z.log2_nonneg]).
      revert Hlo Hne Hpos. generalize (2 ^ Z.log2 n). lia. }
    rewrite Z.land_spec, Hp, Z.bit_log2 by done. done. }
  rewrite Hl, Z.bits_0 in Hb. discriminate.
Qed.

Lemma SetParameters_check_pow2 n :
  U64.inrange n ->
  negb (Z.land n (U64.sub n 1) =? 0) && negb (n =? 0) = false ->
  n = 0 \/ exists k, 0 <= k <= 63 /\ n = 2 ^ k.
Proof.
  intros Hr Hc. destruct (Z.eq_dec n 0) as [|Hn]; [left; done|right].
  apply andb_false_iff in Hc as [Hc|Hc].
  - apply negb_false_iff, Z.eqb_eq in Hc.
    unfold U64.sub in Hc. rewrite wrap_small in Hc by (unfold U64.inrange in *; lia).
    unfold U64.inrange in Hr.
    exists (Z.log2 n). split.
    + split; [apply Z.log2_nonneg|].
      assert (Z.log2 n < 64); [|lia]. apply Z.log2_lt_pow2; [lia|]. rewrite modulus_eq in Hr. lia.
    + apply land_pred_pow2; [lia|done].
  - apply negb_false_iff, Z.eqb_eq in Hc. done.
Qed.

(** The congruence test of [GenNTTParams], for a degree that is a power of two. *)
Lemma land_mask_mod k q :
  0 <= k <= 63 ->
  Z.land q (U64.sub (U64.shl (2 ^ k) 1) 1) = q mod (2 * 2 ^ k).
Proof.
  intros Hk. replace (2 * 2 ^ k) with (2 ^ (k + 1)) by (rewrite Z.pow_add_r, Z.pow_1_r by lia; lia).
  rewrite <- Z.land_ones by lia. f_equal.
  unfold U64.shl, U64.sub. change (64 <=? 1) with false. cbv iota.
  rewrite Z.shiftl_mul_pow2 by lia. rewrite Z.ones_equiv.
  replace (2 ^ k * 2 ^ 1) with (2 ^ (k + 1)) by (rewrite (Z.pow_add_r 2 k 1) by lia; reflexivity).
  destruct (Z.eq_dec k 63) as [->|Hne].
  - vm_compute. reflexivity.
  - assert (2 ^ (k + 1) <= 2 ^ 63) as Hle by (apply Z.pow_le_mono_r; lia).
    assert (0 < 2 ^ (k + 1)) as Hpos by (apply Z.pow_pos_nonneg; lia).
    change (2 ^ 63) with 9223372036854775808 in Hle.
    revert Hle Hpos. generalize (2 ^ (k + 1)). intros p Hle Hpos.
    rewrite (wrap_small p) by (unfold U64.inrange; rewrite modulus_eq; lia).
    rewrite wrap_small by (unfold U64.inrange; rewrite modulus_eq; lia). lia.
Qed.

End Words.

(** ** Primality test and bit reversal *)

Section Primality.

Import Ring.

Lemma IsPrime_spec q : IsPrime q = true <-> Z.prime q.
Proof.
  unfold IsPrime, Z.prime. rewrite andb_true_iff, Z.ltb_lt, forallb_forall.
  split; intros [Hq Hall]; (split; [done|]).
  - intros n Hn Hdiv.
    specialize (Hall (Z.to_nat n)). rewrite Z2Nat.id in Hall by lia.
    apply Z.mod_divide in Hdiv; [|lia].
    rewrite Hdiv in Hall. discriminate Hall. apply in_seq. lia.
  - intros d Hd%in_seq. apply negb_true_iff, Z.eqb_neq. intros Hmod.
    apply (Hall (Z.of_nat d)); [lia|]. apply Z.mod_divide; [lia|done].
Qed.

End Primality.

Ltac cmp :=
  repeat match goal with
    | |- context [Z.leb ?a ?b] => destruct (Z.leb_spec a b)
    | |- context [Z.ltb ?a ?b] => destruct (Z.ltb_spec a b)
    end; try done; try lia.

Section BitReversal.

Import Ring.

Lemma shl_one s : 0 <= s < 64 -> U64.shl 1 s = 2 ^ s.
Proof.
  intros Hs. unfold U64.shl. destruct (Z.leb_spec 64 s) as [|_]; [lia|].
  rewrite Z.shiftl_1_l. apply wrap_small. unfold U64.inrange, U64.modulus.
  split; [apply Z.pow_nonneg; lia|apply Z.pow_lt_mono_r; lia].
Qed.

Lemma bitReverse64_fold index bitLen (m : nat) n :
  0 <= bitLen <= 64 -> Z.of_nat m <= bitLen -> 0 <= n ->
  Z.testbit
    (fold_left
       (fun acc i =>
          if Z.testbit index (Z.of_nat i)
          then Z.lor acc (U64.shl 1 (bitLen - 1 - Z.of_nat i)) else acc)
       (seq 0 m) 0) n
  = (bitLen - Z.of_nat m <=? n) && (n <? bitLen) && Z.testbit index (bitLen - 1 - n).
Proof.
  intros Hb. induction m as [|m IH]; intros Hm Hn.
  - simpl. rewrite Z.bits_0. cmp.
  - rewrite seq_S, fold_left_app. cbn [fold_left Nat.add].
    destruct (Z.testbit index (Z.of_nat m)) eqn:Hbit.
    + rewrite Z.lor_spec, IH, shl_one by lia. rewrite Z.pow2_bits_eqb by lia.
      destruct (Z.eqb_spec (bitLen - 1 - Z.of_nat m) n) as [Heq|Hne].
      * replace (bitLen - 1 - n) with (Z.of_nat m) by lia. rewrite Hbit. cmp.
      * rewrite orb_false_r. cmp.
    + rewrite IH by lia. cmp.
      replace (bitLen - 1 - n) with (Z.of_nat m) by lia. rewrite Hbit. done.
Qed.

(** Bit [n] of the reversed index is bit [bitLen - 1 - n] of the index. *)
Lemma bitReverse64_testbit index bitLen n :
  0 <= bitLen <= 64 -> 0 <= n ->
  Z.testbit (bitReverse64 index bitLen) n
  = (n <? bitLen) && Z.testbit index (bitLen - 1 - n).
Proof.
  intros Hb Hn. unfold bitReverse64. rewrite bitReverse64_fold by lia.
  rewrite Z2Nat.id by lia.
  cmp.
Qed.

Lemma bitReverse64_mod index bitLen :
  0 <= bitLen <= 64 ->
  bitReverse64 index bitLen mod 2 ^ bitLen = bitReverse64 index bitLen.
Proof.
  intros Hb. apply Z.bits_inj'. intros n Hn.
  rewrite Z.testbit_mod_pow2 by lia.
  rewrite bitReverse64_testbit by lia.
  cmp.
Qed.

Lemma bitReverse64_bound index bitLen :
  0 <= bitLen <= 64 -> 0 <= bitReverse64 index bitLen < 2 ^ bitLen.
Proof.
  intros Hb. rewrite <- bitReverse64_mod by done.
  apply Z.mod_pos_bound. apply Z.pow_pos_nonneg; lia.
Qed.

End BitReversal.

(** ** The tables of [GenNTTParams] *)

Section Slices.

Lemma at_is_Some {A} (l : list A) i :
  0 <= i < Z.of_nat (length l) -> is_Some (at_ l i).
Proof. intros Hi. unfold at_. apply lookup_lt_is_Some. lia. Qed.

Lemma set_Some {A} (l : list A) i x :
  0 <= i < Z.of_nat (length l) -> set_ l i x = Some (<[Z.to_nat i := x]> l).
Proof. intros Hi. unfold set_. rewrite decide_True by lia. done. Qed.

Lemma set_inv {A} (l l' : list A) i x :
  set_ l i x = Some l' ->
  (Z.to_nat i < length l)%nat /\ l' = <[Z.to_nat i := x]> l.
Proof. unfold set_. destruct (decide _); [|done]. intros [= <-]. done. Qed.

End Slices.

Section Parameters.

Import Ring.

Variable primitiveRoot : Z -> Z.

Lemma SetParameters_inv c N0 Q ctx :
  SetParameters c N0 Q = (ctx, None) ->
  negb (Z.land N0 (U64.sub N0 1) =? 0) && negb (N0 =? 0) = false /\
  N ctx = N0 /\ Modulus ctx = Some Q /\ allowsNTT ctx = false /\
  length (bredParams ctx) = length Q /\ length (mredParams ctx) = length Q.
Proof.
  unfold SetParameters.
  destruct (negb (Z.land N0 (U64.sub N0 1) =? 0) && negb (N0 =? 0)); [done|].
  intros [= <-]. cbn. rewrite !length_map. done.
Qed.

Lemma failsNTT_spec k q :
  0 <= k <= 63 ->
  failsNTT (2 ^ k) q = true <-> ~ Z.prime q \/ q mod (2 * 2 ^ k) <> 1.
Proof.
  intros Hk. unfold failsNTT. rewrite orb_true_iff, !negb_true_iff, land_mask_mod by done.
  rewrite Z.eqb_neq, <- not_true_iff_false, IsPrime_spec. done.
Qed.

Lemma len64_pow2 k : 0 <= k <= 63 -> U64.wrap (U64.len64 (2 ^ k) - 1) = k.
Proof.
  intros Hk. unfold U64.len64.
  assert (0 < 2 ^ k) by (apply Z.pow_pos_nonneg; lia).
  destruct (Z.leb_spec (2 ^ k) 0); [lia|].
  rewrite Z.log2_pow2, Z.add_simpl_r by lia. apply wrap_small. unfold U64.inrange. rewrite modulus_eq. lia.
Qed.

Lemma psiStep_total context i k PsiMont PsiInvMont qi j tabs :
  0 <= k <= 63 -> is_Some (mredParams context !! i) ->
  length tabs.1 = Z.to_nat (2 ^ k) -> length tabs.2 = Z.to_nat (2 ^ k) ->
  exists tabs', psiStep context i k PsiMont PsiInvMont qi j tabs = Some tabs' /\
    length tabs'.1 = Z.to_nat (2 ^ k) /\ length tabs'.2 = Z.to_nat (2 ^ k).
Proof.
  intros Hk [mred Hmred] H1 H2. unfold psiStep.
  pose proof (bitReverse64_bound (U64.sub j 1) k ltac:(lia)) as Hprev.
  pose proof (bitReverse64_bound j k ltac:(lia)) as Hnext.
  destruct (at_is_Some tabs.1 (bitReverse64 (U64.sub j 1) k)) as [a ->]; [lia|].
  destruct (at_is_Some tabs.2 (bitReverse64 (U64.sub j 1) k)) as [b ->]; [lia|].
  rewrite Hmred. cbn [mbind option_bind].
  rewrite !set_Some by lia. cbn [mbind option_bind].
  eexists. split; [done|]. cbn [fst snd]. rewrite !length_insert. done.
Qed.

Lemma genRow_total context k i qi :
  0 <= k <= 62 -> N context = 2 ^ k ->
  is_Some (bredParams context !! i) -> is_Some (mredParams context !! i) ->
  is_Some (genRow primitiveRoot context k i qi).
Proof.
  intros Hk HN [bred Hbred] Hmred. unfold genRow. rewrite Hbred, HN. cbn [mbind option_bind].
  assert (0 < 2 ^ k) as Hpos by (apply Z.pow_pos_nonneg; lia).
  assert (U64.shl (2 ^ k) 1 = 2 * 2 ^ k) as ->.
  { unfold U64.shl. change (64 <=? 1) with false. cbv iota.
    rewrite Z.shiftl_mul_pow2, Z.pow_1_r by lia.
    assert (2 ^ k <= 2 ^ 62) as Hle by (apply Z.pow_le_mono_r; lia).
    change (2 ^ 62) with 4611686018427387904 in Hle.
    rewrite wrap_small by (unfold U64.inrange; rewrite modulus_eq; lia). lia. }
  destruct (Z.eqb_spec (2 * 2 ^ k) 0) as [|_]; [lia|].
  rewrite !set_Some by (rewrite length_replicate; lia). cbn [mbind option_bind].
  edestruct (for_range_total
    (fun (_ : Z) (tabs : list Z * list Z) =>
       length tabs.1 = Z.to_nat (2 ^ k) /\ length tabs.2 = Z.to_nat (2 ^ k)))
    as (tabs & -> & _); [| |intros j tabs0 _ [H1 H2]; apply psiStep_total; [lia|done..]|done].
  - lia.
  - cbn [fst snd]. rewrite !length_insert, length_replicate. done.
Qed.

End Parameters.

(** ** The NTT capability of a context *)

Section NTTCapability.

Import Ring.

Variable primitiveRoot : Z -> Z.

(** C9 (amended). On a context that [SetParameters] has just set ([N] and the
    moduli being [uint64]), [AllowsNTT] is false; [GenNTTParams] returns (it
    does not panic); it returns an error exactly when the degree is 0 or
    some modulus is not prime or not congruent to 1 modulo [2N]; and the
    context it leaves reports [AllowsNTT] exactly when no error is returned. *)
Theorem C9_GenNTTParams_after_SetParameters c N0 Q ctx :
  U64.inrange N0 -> Forall U64.inrange Q ->
  SetParameters c N0 Q = (ctx, None) ->
  AllowsNTT ctx = false /\
  exists ctx' err,
    GenNTTParams primitiveRoot ctx = Some (ctx', err) /\
    (err <> None <->
       N0 = 0 \/ Exists (fun q => ~ Z.prime q \/ q mod (2 * N0) <> 1) Q) /\
    (AllowsNTT ctx' = true <-> err = None).
Proof.
  intros HN HQ Hset.
  apply SetParameters_inv in Hset as (Hpow & HNc & HM & Hntt & Hbred & Hmred).
  split; [exact Hntt|].
  unfold GenNTTParams, moduli. rewrite Hntt, HNc, HM. change (default [] (Some Q)) with Q.
  rewrite bool_decide_false by done. rewrite orb_false_r.
  apply SetParameters_check_pow2 in Hpow; [|done].
  destruct (Z.eqb_spec N0 0) as [HN0|HN0].
  { eexists _, _. split; [reflexivity|]. split.
    - split; [intros _; left; exact HN0|done].
    - unfold AllowsNTT. rewrite Hntt. done. }
  destruct Hpow as [?|(k & Hk & ->)]; [done|].
  destruct (existsb (failsNTT (2 ^ k)) Q) eqn:Hex.
  { eexists _, _. split; [reflexivity|]. split.
    - split; [intros _; right|done].
      apply existsb_exists in Hex as (q & Hq & Hf).
      apply Exists_exists. exists q. split; [apply list_elem_of_In; exact Hq|].
      apply failsNTT_spec; done.
    - unfold AllowsNTT. rewrite Hntt. done. }
  rewrite len64_pow2 by done.
  assert (Forall (fun q => failsNTT (2 ^ k) q = false) Q) as Hpass.
  { apply Forall_forall. intros q Hq. apply not_true_iff_false. intros Hf.
    apply not_true_iff_false in Hex. apply Hex, existsb_exists.
    exists q. split; [apply list_elem_of_In; exact Hq|exact Hf]. }
  assert (is_Some (mapM (fun iq => genRow primitiveRoot ctx k iq.1 iq.2) (imap pair Q)))
    as [rows Hrows].
  { apply mapM_is_Some, Forall_forall. intros [i q] Hiq.
    apply list_elem_of_lookup in Hiq as [i' Hiq].
    rewrite list_lookup_imap in Hiq.
    destruct (Q !! i') as [q'|] eqn:Hq'; [|done]. injection Hiq as <- <-.
    assert (q' ∈ Q) as Hin by (eapply list_elem_of_lookup_2; exact Hq').
    apply lookup_lt_Some in Hq'.
    cbn [fst snd compose]. apply genRow_total; [|done|apply lookup_lt_is_Some; lia..].
    destruct (Z.eq_dec k 63) as [->|]; [exfalso|lia].
    rewrite Forall_forall in Hpass, HQ.
    specialize (Hpass _ Hin). specialize (HQ _ Hin).
    apply not_true_iff_false in Hpass. apply Hpass, failsNTT_spec; [lia|].
    destruct (Z.eq_dec (q' mod (2 * 2 ^ 63)) 1) as [Hone|]; [left|right; done].
    change (2 * 2 ^ 63) with U64.modulus in Hone.
    rewrite Z.mod_small in Hone by exact HQ. subst q'.
    intros [Hlt _]. lia. }
  rewrite Hrows. cbn [mbind option_bind].
  eexists _, _. split; [reflexivity|]. split; [|done].
  split; [done|]. intros [?|Hbad]; [done|].
  apply Exists_exists in Hbad as (q & Hq & Hbad).
  rewrite Forall_forall in Hpass. specialize (Hpass _ Hq).
  apply failsNTT_spec in Hbad; [|done]. congruence.
Qed.

End NTTCapability.

Section NTTCapabilityExamples.

Import Ring.

(** [GenNTTParams] on degree 2 and the chain (17): no error, and the
    context allows the NTT. *)
Lemma C9_GenNTTParams_witness :
  AllowsNTT (SetParameters NewContext 2 [17]).1 = false /\
  exists ctx' err,
    GenNTTParams (fun _ => 3) (SetParameters NewContext 2 [17]).1 = Some (ctx', err) /\
    (err <> None <->
       2 = 0 \/ Exists (fun q => ~ Z.prime q \/ q mod (2 * 2) <> 1) [17]) /\
    (AllowsNTT ctx' = true <-> err = None).
Proof.
  apply (C9_GenNTTParams_after_SetParameters (fun _ => 3) NewContext 2 [17]).
  - unfold U64.inrange. rewrite modulus_eq. lia.
  - apply Forall_cons_2; [unfold U64.inrange; rewrite modulus_eq; lia|apply Forall_nil_2].
  - reflexivity.
Defined.

(** C9, as stated, fails on a context whose parameters are missing: no
    modulus fails the test (there is none), and [GenNTTParams] returns an
    error all the same, after [NewContext] and after [SetParameters] with
    degree 0. *)
Lemma C9_error_without_failing_modulus :
  GenNTTParams (fun _ => 3) NewContext
    = Some (NewContext, Some "error : invalid context parameters (missing)"%string) /\
  SetParameters NewContext 0 [] = ((SetParameters NewContext 0 []).1, None) /\
  GenNTTParams (fun _ => 3) (SetParameters NewContext 0 []).1
    = Some ((SetParameters NewContext 0 []).1,
            Some "error : invalid context parameters (missing)"%string) /\
  ~ Exists (fun q => ~ Z.prime q \/ q mod (2 * 0) <> 1) (moduli NewContext) /\
  ~ Exists (fun q => ~ Z.prime q \/ q mod (2 * 0) <> 1)
      (moduli (SetParameters NewContext 0 []).1).
Proof.
  split; [reflexivity|]. split; [reflexivity|]. split; [reflexivity|].
  split; intros Hex; inversion Hex.
Qed.

End NTTCapabilityExamples.


(** ** Montgomery reduction and the butterflies *)

#[local] Existing Instances
  Zdiv.eqm_setoid Zdiv.Zplus_eqm Zdiv.Zminus_eqm Zdiv.Zmult_eqm Zdiv.Zopp_eqm.

(** Equal as ring expressions, hence congruent. *)
Ltac eqm_ring := unfold Zdiv.eqm; f_equal; ring.

Section Montgomery.

Import Ring.

(** A modulus below 2^63 with its Montgomery parameter: [qInv] is the
    inverse of [q] modulo 2^64, [Rinv] the inverse of 2^64 modulo [q]. *)
Variables (q qInv Rinv : Z).
Hypothesis Hq : 0 < q.
Hypothesis Hq63 : 2 * q <= U64.modulus.
Hypothesis HqInv : (qInv * q) mod U64.modulus = 1.
Hypothesis HRinv : (U64.modulus * Rinv) mod q = 1 mod q.

Lemma MRedConstant_spec x y :
  0 <= x * y < q * U64.modulus ->
  0 < MRedConstant x y q qInv < 2 * q /\
  Zdiv.eqm q (MRedConstant x y q qInv) (x * y * Rinv).
Proof.
  intros Hxy. unfold MRedConstant, U64.mulhi, U64.mullo, U64.mul, U64.add, U64.sub, U64.wrap.
  set (R := U64.modulus) in *.
  assert (0 < R) as HR by (unfold R; rewrite modulus_eq; lia).
  set (ahi := x * y / R). set (alo := (x * y) mod R).
  set (m := (alo * qInv) mod R). set (H := m * q / R).
  assert (x * y = R * ahi + alo) as Hxy' by (apply Z.div_mod; lia).
  assert ((m * q) mod R = alo) as Hlow.
  { unfold m. rewrite Z.mul_mod_idemp_l by lia.
    rewrite <- Z.mul_assoc, <- Z.mul_mod_idemp_r, HqInv, Z.mul_1_r by lia.
    unfold alo. apply Z.mod_mod. lia. }
  assert (m * q = R * H + alo) as Hmq.
  { rewrite <- Hlow. apply Z.div_mod. lia. }
  assert (0 <= alo < R) as Halo by (apply Z.mod_pos_bound; lia).
  assert (0 <= m < R) as Hm by (apply Z.mod_pos_bound; lia).
  assert (0 <= ahi < q) as Hahi.
  { split; [apply Z.div_pos; lia|]. apply Z.div_lt_upper_bound; lia. }
  assert (0 <= H < q) as HH.
  { split; [apply Z.div_pos; nia|]. apply Z.div_lt_upper_bound; nia. }
  rewrite Zplus_mod_idemp_l.
  rewrite (Z.mod_small (ahi - H + q)) by lia.
  split; [lia|].
  transitivity ((ahi - H + q) * (R * Rinv)).
  { transitivity ((ahi - H + q) * 1); [eqm_ring|].
    apply Zdiv.Zmult_eqm; [reflexivity|]. unfold Zdiv.eqm. rewrite HRinv. reflexivity. }
  transitivity ((x * y - m * q + q * R) * Rinv).
  { rewrite Hxy', Hmq. eqm_ring. }
  unfold Zdiv.eqm.
  replace ((x * y - m * q + q * R) * Rinv) with (x * y * Rinv + (R * Rinv - m * Rinv) * q) by ring.
  apply Z.mod_add. lia.
Qed.

Lemma MRed_spec x y :
  0 <= x * y < q * U64.modulus ->
  0 <= MRed x y q qInv < q /\ Zdiv.eqm q (MRed x y q qInv) (x * y * Rinv).
Proof.
  intros Hxy. destruct (MRedConstant_spec x y Hxy) as [Hr Hc].
  unfold MRed. destruct (Z.leb_spec q (MRedConstant x y q qInv)).
  - unfold U64.sub. rewrite wrap_small by (unfold U64.inrange; lia).
    split; [lia|]. rewrite <- Hc. unfold Zdiv.eqm.
    replace (MRedConstant x y q qInv - q) with (MRedConstant x y q qInv + (-1) * q) by ring.
    apply Z.mod_add. lia.
  - split; [lia|exact Hc].
Qed.

Hypothesis Hq62 : 4 * q < U64.modulus.

Lemma eqm_sub_q x k : Zdiv.eqm q (x - k * q) x.
Proof.
  unfold Zdiv.eqm. replace (x - k * q) with (x + (- k) * q) by ring.
  apply Z.mod_add. lia.
Qed.

Lemma Butterfly_spec U V F :
  0 <= U <= 4 * q -> 0 <= V <= 4 * q -> 0 <= F < q ->
  (0 <= (Butterfly U V F q qInv).1 <= 4 * q /\
   Zdiv.eqm q (Butterfly U V F q qInv).1 (U + V * F * Rinv)) /\
  (0 <= (Butterfly U V F q qInv).2 <= 4 * q /\
   Zdiv.eqm q (Butterfly U V F q qInv).2 (U - V * F * Rinv)).
Proof.
  intros HU HV HF. unfold Butterfly. cbn [fst snd].
  assert (0 <= V * F < q * U64.modulus) as HVF by nia.
  destruct (MRedConstant_spec V F HVF) as [Hr Hc].
  set (r := MRedConstant V F q qInv) in *.
  assert (U64.mul 2 q = 2 * q) as -> by (apply wrap_small; unfold U64.inrange; lia).
  set (U' := if 2 * q <? U then U64.sub U (2 * q) else U).
  assert (0 <= U' <= 2 * q /\ Zdiv.eqm q U' U) as [HU' HUc].
  { unfold U'. destruct (Z.ltb_spec (2 * q) U).
    - unfold U64.sub. rewrite wrap_small by (unfold U64.inrange; lia).
      split; [lia|]. apply (eqm_sub_q U 2).
    - split; [lia|reflexivity]. }
  clearbody U'. unfold U64.add, U64.sub.
  rewrite (wrap_small (U' + r)) by (unfold U64.inrange; lia).
  rewrite (wrap_small (U' + 2 * q)) by (unfold U64.inrange; lia).
  rewrite (wrap_small (U' + 2 * q - r)) by (unfold U64.inrange; lia).
  split; (split; [lia|]).
  - rewrite HUc, Hc. reflexivity.
  - replace (U' + 2 * q - r) with (U' - r - (-2) * q) by ring.
    rewrite eqm_sub_q, HUc, Hc. reflexivity.
Qed.

Lemma InvButterfly_spec U V F :
  0 <= U <= 2 * q -> 0 <= V <= 2 * q -> 0 <= F < q ->
  (0 <= (InvButterfly U V F q qInv).1 <= 2 * q /\
   Zdiv.eqm q (InvButterfly U V F q qInv).1 (U + V)) /\
  (0 <= (InvButterfly U V F q qInv).2 <= 2 * q /\
   Zdiv.eqm q (InvButterfly U V F q qInv).2 ((U - V) * F * Rinv)).
Proof.
  intros HU HV HF. unfold InvButterfly. cbn [fst snd].
  assert (U64.mul 2 q = 2 * q) as -> by (apply wrap_small; unfold U64.inrange; lia).
  unfold U64.add, U64.sub.
  rewrite (wrap_small (U + V)) by (unfold U64.inrange; lia).
  rewrite (wrap_small (U + 2 * q)) by (unfold U64.inrange; lia).
  rewrite (wrap_small (U + 2 * q - V)) by (unfold U64.inrange; lia).
  assert (0 <= (U + 2 * q - V) * F < q * U64.modulus) as HVF by nia.
  destruct (MRedConstant_spec _ F HVF) as [Hr Hc].
  split.
  - destruct (Z.ltb_spec (2 * q) (U + V)).
    + rewrite wrap_small by (unfold U64.inrange; lia). split; [lia|]. apply (eqm_sub_q _ 2).
    + split; [lia|reflexivity].
  - split; [lia|]. rewrite Hc.
    replace (U + 2 * q - V) with (U - V - (-2) * q) by ring.
    rewrite eqm_sub_q. reflexivity.
Qed.

End Montgomery.

(** ** Vectors and their entries *)

Section Vectors.

Import Transform.

Lemma get_lookup l i x : at_ l i = Some x -> get l i = x.
Proof. unfold get. intros ->. done. Qed.

Lemma at_get l i : 0 <= i < Z.of_nat (length l) -> at_ l i = Some (get l i).
Proof.
  intros Hi. destruct (at_is_Some l i Hi) as [x Hx]. rewrite (get_lookup _ _ _ Hx). done.
Qed.

Lemma get_insert l k x idx :
  0 <= k < Z.of_nat (length l) -> 0 <= idx ->
  get (<[Z.to_nat k := x]> l) idx = if decide (idx = k) then x else get l idx.
Proof.
  intros Hk Hidx. unfold get, at_. destruct (decide (idx = k)) as [->|Hne].
  - rewrite list_lookup_insert_eq by lia. done.
  - rewrite list_lookup_insert_ne by lia. done.
Qed.

Lemma list_eq_get (l1 l2 : list Z) :
  length l1 = length l2 ->
  (forall idx, 0 <= idx < Z.of_nat (length l1) -> get l1 idx = get l2 idx) ->
  l1 = l2.
Proof.
  intros Hlen Hget. apply list_eq. intros i.
  destruct (decide (i < length l1)%nat) as [Hi|Hi].
  - specialize (Hget (Z.of_nat i) ltac:(lia)).
    rewrite <- (Nat2Z.id i).
    change (at_ l1 (Z.of_nat i) = at_ l2 (Z.of_nat i)).
    rewrite !at_get by lia. congruence.
  - rewrite !lookup_ge_None_2 by lia. done.
Qed.

Lemma get_layer bf tab m t src idx :
  0 <= idx < Z.of_nat (length src) ->
  get (layer bf tab m t src) idx = layerVal bf tab m t src idx.
Proof.
  intros Hidx. apply get_lookup. unfold at_, layer.
  rewrite list_lookup_fmap, lookup_seqZ_lt by lia. cbn. f_equal. f_equal. lia.
Qed.

Lemma length_layer bf tab m t src : length (layer bf tab m t src) = length src.
Proof. unfold layer. rewrite length_map, length_seqZ. lia. Qed.

Lemma block_div_mod d i idx :
  0 < d -> d * i <= idx < d * i + d -> idx / d = i /\ idx mod d = idx - d * i.
Proof.
  intros Hd Hidx.
  assert (idx / d = i) as Hdiv.
  { symmetry. apply (Z.div_unique idx d i (idx - d * i)); lia. }
  split; [exact Hdiv|]. rewrite Z.mod_eq, Hdiv by lia. reflexivity.
Qed.

End Vectors.

(** ** The loop over one block of butterflies *)

Section Blocks.

Import Ring Transform.

Lemma pairStep_spec f t src j out :
  0 <= j -> 0 < t ->
  j + t < Z.of_nat (length src) -> j + t < Z.of_nat (length out) ->
  Z.of_nat (length out) <= U64.modulus ->
  pairStep f t src j out
  = Some (<[Z.to_nat (j + t) := (f (get src j) (get src (j + t))).2]>
            (<[Z.to_nat j := (f (get src j) (get src (j + t))).1]> out)).
Proof.
  intros Hj Ht Hsrc Hout Hlen. unfold pairStep.
  assert (U64.add j t = j + t) as -> by (apply wrap_small; unfold U64.inrange; lia).
  rewrite !at_get by lia. cbn [mbind option_bind].
  rewrite set_Some by lia. cbn [mbind option_bind].
  rewrite set_Some by (rewrite length_insert; lia). done.
Qed.

(** The loop over [j] of one block: the pairs [(j, j + t)] for
    [j1 <= j < j1 + t], read from the input when it is given apart
    ([first]) and from the receiver otherwise. *)
Lemma block_spec (bf : Z -> Z -> Z -> Z * Z) F t (first : option (list Z)) j1 out :
  0 <= j1 -> 0 < t -> j1 + 2 * t <= Z.of_nat (length out) ->
  length (default out first) = length out ->
  Z.of_nat (length out) <= U64.modulus ->
  exists out',
    for_range j1 (j1 + t)
      (fun j (cur : list Z) =>
         pairStep (fun U V => bf U V F) t (default cur first) j cur) out = Some out' /\
    length out' = length out /\
    forall idx, 0 <= idx ->
      get out' idx =
        if decide (j1 <= idx < j1 + t)
        then (bf (get (default out first) idx) (get (default out first) (idx + t)) F).1
        else if decide (j1 + t <= idx < j1 + 2 * t)
        then (bf (get (default out first) (idx - t)) (get (default out first) idx) F).2
        else get out idx.
Proof.
  intros Hj1 Ht Hlen Hsrc Hmod.
  set (src := default out first) in *.
  destruct (for_range_total
    (fun j (cur : list Z) =>
       j1 <= j <= j1 + t /\ length cur = length out /\
       forall idx, 0 <= idx ->
         get cur idx =
           if decide (j1 <= idx < j)
           then (bf (get src idx) (get src (idx + t)) F).1
           else if decide (j1 + t <= idx < j + t)
           then (bf (get src (idx - t)) (get src idx) F).2
           else get out idx)
    (fun j (cur : list Z) =>
       pairStep (fun U V => bf U V F) t (default cur first) j cur)
    j1 (j1 + t) out) as (out' & Hrun & _ & Hlen' & Hget).
  - lia.
  - split; [lia|]. split; [done|]. intros idx Hidx.
    rewrite decide_False by lia. rewrite decide_False by lia. done.
  - intros j cur Hj (_ & Hcl & Hcur).
    assert (length (default cur first) = length out) as Hsl.
    { destruct first; [exact Hsrc|exact Hcl]. }
    assert (get (default cur first) j = get src j) as Hu.
    { destruct first; [done|]. cbn. rewrite Hcur by lia.
      rewrite decide_False by lia. rewrite decide_False by lia. done. }
    assert (get (default cur first) (j + t) = get src (j + t)) as Hv.
    { destruct first; [done|]. cbn. rewrite Hcur by lia.
      rewrite decide_False by lia. rewrite decide_False by lia. done. }
    rewrite pairStep_spec by lia. rewrite Hu, Hv.
    eexists. split; [reflexivity|]. split; [lia|].
    split; [rewrite !length_insert; exact Hcl|].
    intros idx Hidx.
    rewrite get_insert by (rewrite ?length_insert; lia).
    rewrite get_insert by lia. rewrite Hcur by lia.
    repeat case_decide; subst; try lia; try done.
    replace (j + t - t) with j by lia. done.
  - exists out'. split; [exact Hrun|]. split; [exact Hlen'|].
    intros idx Hidx. rewrite Hget by lia.
    repeat case_decide; try lia; done.
Qed.

(** A block turns the vector with [i] transformed blocks into the one
    with [i + 1]. *)
Lemma block_partial bf tab m t first i out cur out' :
  0 <= i -> 0 < t -> 2 * t * (i + 1) <= Z.of_nat (length out) ->
  length cur = length out ->
  (forall idx, 0 <= idx ->
     get cur idx = partial bf tab m t (default out first) out i idx) ->
  (forall idx, 0 <= idx ->
     get out' idx =
       if decide (2 * t * i <= idx < 2 * t * i + t)
       then (bf (get (default cur first) idx) (get (default cur first) (idx + t))
               (get tab (m + i))).1
       else if decide (2 * t * i + t <= idx < 2 * t * i + 2 * t)
       then (bf (get (default cur first) (idx - t)) (get (default cur first) idx)
               (get tab (m + i))).2
       else get cur idx) ->
  forall idx, 0 <= idx ->
    get out' idx = partial bf tab m t (default out first) out (i + 1) idx.
Proof.
  intros Hi Ht Hlen Hcl Hcur Hout idx Hidx.
  assert (forall k, 2 * t * i <= k -> get (default cur first) k = get (default out first) k)
    as Hsrc.
  { intros k Hk. destruct first; [done|]. cbn. rewrite Hcur by lia.
    unfold partial. destruct (Z.ltb_spec k (2 * t * i)); [lia|done]. }
  rewrite Hout by lia. unfold partial.
  destruct (Z.ltb_spec idx (2 * t * (i + 1))) as [Hlt|Hge].
  - destruct (decide (2 * t * i <= idx)) as [Hblk|Hblk].
    + destruct (block_div_mod (2 * t) i idx) as [Hdiv Hmod]; [lia|lia|].
      unfold layerVal. rewrite Hdiv, Hmod.
      destruct (Z.ltb_spec (idx - 2 * t * i) t).
      * rewrite decide_True by lia. rewrite !Hsrc by lia. done.
      * rewrite decide_False by lia. rewrite decide_True by lia.
        rewrite !Hsrc by lia. done.
    + rewrite decide_False by lia. rewrite decide_False by lia.
      rewrite Hcur by lia. unfold partial.
      destruct (Z.ltb_spec idx (2 * t * i)); [done|lia].
  - rewrite decide_False by lia. rewrite decide_False by lia.
    rewrite Hcur by lia. unfold partial.
    destruct (Z.ltb_spec idx (2 * t * i)); [lia|done].
Qed.

(** With all its blocks transformed the vector is the layer. *)
Lemma partial_layer bf tab m t src out cur :
  0 < t -> 0 <= m -> Z.of_nat (length out) = 2 * t * m ->
  length cur = length out -> length src = length out ->
  (forall idx, 0 <= idx -> get cur idx = partial bf tab m t src out m idx) ->
  cur = layer bf tab m t src.
Proof.
  intros Ht Hm Hlen Hcl Hsl Hcur. apply list_eq_get.
  - rewrite length_layer. congruence.
  - intros idx Hidx. rewrite Hcur, get_layer by lia. unfold partial.
    destruct (Z.ltb_spec idx (2 * t * m)); [done|lia].
Qed.

End Blocks.

(** ** The rounds of the transforms *)

Section Rounds.

Import Ring Transform.

Variables (psi : list Z) (Q Qinv : Z).

Lemma pow2_pos k : 0 <= k -> 0 < 2 ^ k.
Proof. intros. apply Z.pow_pos_nonneg; lia. Qed.

Lemma pow2_succ k : 0 <= k -> 2 ^ (k + 1) = 2 * 2 ^ k.
Proof. intros. rewrite Z.pow_add_r, Z.pow_1_r by lia. lia. Qed.

Lemma pow2_le_modulus k : 0 <= k <= 63 -> 2 * 2 ^ k <= U64.modulus.
Proof.
  intros Hk. rewrite <- pow2_succ by lia. unfold U64.modulus.
  apply Z.pow_le_mono_r; lia.
Qed.

(** [for i := 0; i < N; i++ { out[i] = g(out[i]) }]. *)
Lemma for_range_map (g : Z -> Z) n (out : list Z) :
  n = Z.of_nat (length out) ->
  for_range 0 n (fun i (out : list Z) => x ← at_ out i; set_ out i (g x)) out
  = Some (map g out).
Proof.
  intros Hn.
  destruct (for_range_total
    (fun i (cur : list Z) =>
       length cur = length out /\
       forall idx, 0 <= idx -> get cur idx = if idx <? i then g (get out idx) else get out idx)
    (fun i (out : list Z) => x ← at_ out i; set_ out i (g x)) 0 n out)
    as (out' & Hrun & Hlen & Hget).
  - lia.
  - split; [done|]. intros idx Hidx. destruct (Z.ltb_spec idx 0); [lia|done].
  - intros j cur Hj [Hcl Hcur]. rewrite at_get by lia. cbn [mbind option_bind].
    rewrite set_Some by lia. eexists. split; [reflexivity|].
    split; [rewrite length_insert; exact Hcl|].
    intros idx Hidx. rewrite get_insert by lia. rewrite !Hcur by lia.
    destruct (decide (idx = j)) as [->|]; repeat case_match; try lia; try done.
  - rewrite Hrun. f_equal. apply list_eq_get; [rewrite length_map; exact Hlen|].
    intros idx Hidx. rewrite Hget by lia.
    destruct (Z.ltb_spec idx n); [|lia].
    symmetry. apply get_lookup. unfold at_. rewrite list_lookup_fmap.
    change (g <$> at_ out idx = Some (g (get out idx))). rewrite at_get by lia. done.
Qed.

(** One round of the forward transform, after the first. *)
Lemma forwardRound_spec m t out :
  0 < t -> 0 < m -> Z.of_nat (length out) = 2 * t * m ->
  Z.of_nat (length out) <= U64.modulus -> 2 * m <= Z.of_nat (length psi) ->
  for_range 0 m
    (fun i (out : list Z) =>
       let j1 := U64.shl (U64.mul i t) 1 in
       let j2 := U64.sub (U64.add j1 t) 1 in
       F ← at_ psi (U64.add m i);
       pairLoop (fun U V => Butterfly U V F Q Qinv) t j1 j2 out) out
  = Some (layer (fun U V F => Butterfly U V F Q Qinv) psi m t out).
Proof.
  intros Ht Hm Hlen Hmod Hpsi.
  set (bf := fun U V F => Butterfly U V F Q Qinv).
  edestruct (for_range_total
    (fun i (cur : list Z) =>
       length cur = length out /\
       forall idx, 0 <= idx -> get cur idx = partial bf psi m t out out i idx))
    as (out' & Hrun & Hlen' & Hget); [| |
      |rewrite Hrun; f_equal; apply (partial_layer bf psi m t out out out'); trivial; lia].
  - lia.
  - split; [done|]. intros idx Hidx. unfold partial.
    destruct (Z.ltb_spec idx (2 * t * 0)); [lia|done].
  - intros i cur Hi [Hcl Hcur]. cbn zeta.
    assert (2 * t * i + 2 * t <= 2 * t * m) as Hblk by nia.
    assert (0 <= i * t) as Hit by nia.
    assert (U64.mul i t = i * t) as -> by (apply wrap_small; unfold U64.inrange; nia).
    assert (U64.shl (i * t) 1 = 2 * t * i) as ->.
    { unfold U64.shl. change (64 <=? 1) with false. cbv iota.
      rewrite Z.shiftl_mul_pow2, Z.pow_1_r by lia.
      rewrite wrap_small by (unfold U64.inrange; nia). ring. }
    assert (U64.add (2 * t * i) t = 2 * t * i + t) as ->
      by (apply wrap_small; unfold U64.inrange; nia).
    assert (U64.sub (2 * t * i + t) 1 = 2 * t * i + t - 1) as ->
      by (apply wrap_small; unfold U64.inrange; nia).
    assert (U64.add m i = m + i) as -> by (apply wrap_small; unfold U64.inrange; nia).
    rewrite at_get by lia. cbn [mbind option_bind].
    destruct (block_spec bf (get psi (m + i)) t None (2 * t * i) cur)
      as (out' & Hrun & Hlen' & Hget); [nia|lia|lia|done|lia|].
    exists out'. split.
    + unfold pairLoop. replace (2 * t * i + t - 1 + 1) with (2 * t * i + t) by lia.
      exact Hrun.
    + split; [congruence|].
      apply (block_partial bf psi m t None i out cur out'); [lia|lia|nia|done|exact Hcur|].
      exact Hget.
Qed.

End Rounds.

Section InverseRounds.

Import Ring Transform.

Variables (psiInv : list Z) (Q Qinv : Z).

(** One round of the inverse transform; the first one reads the input and
    has blocks of one pair. *)
Lemma invRound_spec h t first out :
  0 < t -> 0 < h -> Z.of_nat (length out) = 2 * t * h ->
  Z.of_nat (length out) < U64.modulus -> 2 * h <= Z.of_nat (length psiInv) ->
  length (default out first) = length out ->
  (is_Some first -> t = 1) ->
  invRound psiInv Q Qinv h t first out
  = Some (layer (fun U V F => InvButterfly U V F Q Qinv) psiInv h t (default out first)).
Proof.
  intros Ht Hh Hlen Hmod Hpsi Hsrc Hfirst. unfold invRound.
  set (bf := fun U V F => InvButterfly U V F Q Qinv).
  edestruct (for_range_total
    (fun i (s : Z * list Z) =>
       s.1 = 2 * t * i /\ length s.2 = length out /\
       forall idx, 0 <= idx ->
         get s.2 idx = partial bf psiInv h t (default out first) out i idx))
    as (s' & Hrun & Hj & Hlen' & Hget); [| | |rewrite Hrun].
  - lia.
  - cbn [fst snd]. split; [lia|]. split; [done|]. intros idx Hidx. unfold partial.
    destruct (Z.ltb_spec idx (2 * t * 0)); [lia|done].
  - intros i [j1 cur] Hi (Hj1 & Hcl & Hcur). cbn [fst snd] in *. subst j1. cbn zeta.
    assert (2 * t * i + 2 * t <= 2 * t * h) as Hblk by nia.
    assert (U64.add h i = h + i) as -> by (apply wrap_small; unfold U64.inrange; nia).
    rewrite at_get by lia. cbn [mbind option_bind].
    assert (match first with
            | Some _ => 2 * t * i
            | None => U64.sub (U64.add (2 * t * i) t) 1
            end + 1 = 2 * t * i + t) as ->.
    { destruct first.
      - rewrite Hfirst by done. lia.
      - unfold U64.add. rewrite wrap_small by (unfold U64.inrange; nia).
        unfold U64.sub. rewrite wrap_small by (unfold U64.inrange; nia). lia. }
    destruct (block_spec bf (get psiInv (h + i)) t first (2 * t * i) cur)
      as (out' & Hrun & Hlen' & Hget); [nia|lia|lia| |lia|].
    { destruct first; [cbn in *; congruence|done]. }
    match goal with
    | |- context [for_range ?a ?b ?f cur] =>
        replace (for_range a b f cur) with (Some out') by (symmetry; exact Hrun)
    end.
    cbn [mbind option_bind]. eexists. split; [reflexivity|].
    cbn [fst snd]. split.
    + unfold U64.shl. change (64 <=? 1) with false. cbv iota.
      rewrite Z.shiftl_mul_pow2, Z.pow_1_r by lia.
      rewrite (wrap_small (t * 2)) by (unfold U64.inrange; nia).
      unfold U64.add. rewrite wrap_small by (unfold U64.inrange; nia). ring.
    + split; [congruence|].
      apply (block_partial bf psiInv h t first i out cur out'); [lia|lia|nia|done|exact Hcur|].
      exact Hget.
  - cbn [mbind option_bind]. f_equal.
    apply (partial_layer bf psiInv h t (default out first) out s'.2); trivial; lia.
Qed.

Lemma length_backward L k p :
  length (backward Q Qinv psiInv L k p) = length p.
Proof.
  revert p. induction k as [|k IH]; intros p; [done|].
  cbn [backward]. rewrite IH, length_layer. done.
Qed.

(** The rounds of the inverse transform after the first. *)
Lemma invRounds_spec (L : nat) fuel (k : nat) out :
  (k <= fuel)%nat -> (k < L)%nat -> (L <= 63)%nat ->
  Z.of_nat (length out) = 2 ^ Z.of_nat L ->
  Z.of_nat (length psiInv) = 2 ^ Z.of_nat L ->
  invRounds psiInv Q Qinv fuel (2 ^ Z.of_nat k) (2 ^ (Z.of_nat L - Z.of_nat k)) out
  = Some (backward Q Qinv psiInv (Z.of_nat L) k out).
Proof.
  revert fuel out. induction k as [|k IH]; intros fuel out Hfuel Hk HL Hlen Hpsi.
  - destruct fuel; done.
  - destruct fuel as [|fuel]; [lia|]. cbn [invRounds backward].
    assert (0 < 2 ^ Z.of_nat k) as Hpos by (apply pow2_pos; lia).
    assert (2 ^ Z.of_nat (S k) = 2 * 2 ^ Z.of_nat k) as Hm.
    { rewrite Nat2Z.inj_succ, <- Z.add_1_r. apply pow2_succ. lia. }
    rewrite Hm. destruct (Z.ltb_spec 1 (2 * 2 ^ Z.of_nat k)); [|lia].
    assert (U64.shr (2 * 2 ^ Z.of_nat k) 1 = 2 ^ Z.of_nat k) as ->.
    { unfold U64.shr. change (64 <=? 1) with false. cbv iota.
      rewrite Z.shiftr_div_pow2, Z.pow_1_r by lia.
      rewrite Z.mul_comm. apply Z.div_mul. lia. }
    replace (Z.of_nat L - Z.of_nat (S k)) with (Z.of_nat L - 1 - Z.of_nat k) by lia.
    set (t := 2 ^ (Z.of_nat L - 1 - Z.of_nat k)).
    assert (0 < t) as Ht by (apply pow2_pos; lia).
    assert (2 * t * 2 ^ Z.of_nat k = 2 ^ Z.of_nat L) as Hprod.
    { unfold t. rewrite <- Z.mul_assoc, <- Z.pow_add_r by lia.
      rewrite <- pow2_succ by lia. f_equal. lia. }
    assert (2 ^ Z.of_nat L < U64.modulus) as Hmod.
    { unfold U64.modulus. apply Z.pow_lt_mono_r; lia. }
    rewrite (invRound_spec (2 ^ Z.of_nat k) t None out) by (try done; nia).
    change (default out None) with out. cbn [mbind option_bind].
    assert (U64.shl t 1 = 2 ^ (Z.of_nat L - Z.of_nat k)) as ->.
    { unfold U64.shl. change (64 <=? 1) with false. cbv iota.
      rewrite Z.shiftl_mul_pow2, Z.pow_1_r by lia.
      rewrite wrap_small by (unfold U64.inrange; nia).
      unfold t. rewrite Z.mul_comm, <- pow2_succ by lia. f_equal. lia. }
    apply IH; [lia|lia|lia| |done].
    rewrite length_layer. done.
Qed.

(** [InvNTT] is the rounds from the last to the first, then the product
    by [nttNInv]. *)
Lemma InvNTT_spec (L : nat) coeffsIn coeffsOut nttNInv0 :
  (1 <= L <= 63)%nat ->
  Z.of_nat (length coeffsIn) = 2 ^ Z.of_nat L ->
  Z.of_nat (length coeffsOut) = 2 ^ Z.of_nat L ->
  Z.of_nat (length psiInv) = 2 ^ Z.of_nat L ->
  InvNTT coeffsIn coeffsOut (2 ^ Z.of_nat L) psiInv nttNInv0 Q Qinv
  = Some (map (fun x => MRed x nttNInv0 Q Qinv)
            (backward Q Qinv psiInv (Z.of_nat L) L coeffsIn)).
Proof.
  intros HL Hin Hout Hpsi. unfold InvNTT.
  destruct L as [|k]; [lia|].
  assert (0 < 2 ^ Z.of_nat k) as Hpos by (apply pow2_pos; lia).
  assert (2 ^ Z.of_nat (S k) = 2 * 2 ^ Z.of_nat k) as Hm.
  { rewrite Nat2Z.inj_succ, <- Z.add_1_r. apply pow2_succ. lia. }
  assert (2 ^ Z.of_nat (S k) < U64.modulus) as Hmod.
  { unfold U64.modulus. apply Z.pow_lt_mono_r; lia. }
  assert (U64.shr (2 ^ Z.of_nat (S k)) 1 = 2 ^ Z.of_nat k) as ->.
  { rewrite Hm. unfold U64.shr. change (64 <=? 1) with false. cbv iota.
    rewrite Z.shiftr_div_pow2, Z.pow_1_r by lia.
    rewrite Z.mul_comm. apply Z.div_mul. lia. }
  rewrite (invRound_spec (2 ^ Z.of_nat k) 1 (Some coeffsIn) coeffsOut);
    [|lia|lia|lia|lia|lia|cbn; lia|done].
  change (default coeffsOut (Some coeffsIn)) with coeffsIn. cbn [mbind option_bind].
  change (U64.shl 1 1) with 2.
  replace 2 with (2 ^ (Z.of_nat (S k) - Z.of_nat k)) at 2
    by (replace (Z.of_nat (S k) - Z.of_nat k) with 1 by lia; reflexivity).
  rewrite (invRounds_spec (S k) 64 k); [|lia|lia|lia|rewrite length_layer; lia|done].
  cbn [mbind option_bind].
  rewrite for_range_map by (rewrite length_backward, length_layer; lia).
  cbn [backward]. replace (Z.of_nat (S k) - 1 - Z.of_nat k) with 0 by lia. done.
Qed.

End InverseRounds.

Section ForwardRounds.

Import Ring Transform.

Variables (psi : list Z) (Q Qinv : Z).

Lemma length_forward L k p :
  length (forward Q Qinv psi L k p) = length p.
Proof.
  induction k as [|k IH]; [done|].
  cbn [forward]. rewrite length_layer. exact IH.
Qed.

(** The rounds of the forward transform after the first. *)
Lemma nttRounds_spec (L : nat) (d : nat) fuel (k : nat) p :
  (k + d = L)%nat -> (d <= fuel)%nat -> (L <= 63)%nat ->
  Z.of_nat (length p) = 2 ^ Z.of_nat L ->
  Z.of_nat (length psi) = 2 ^ Z.of_nat L ->
  nttRounds (2 ^ Z.of_nat L) psi Q Qinv fuel
    (2 ^ Z.of_nat k) (2 ^ (Z.of_nat L - Z.of_nat k)) (forward Q Qinv psi (Z.of_nat L) k p)
  = Some (forward Q Qinv psi (Z.of_nat L) L p).
Proof.
  revert fuel k. induction d as [|d IH]; intros fuel k Hkd Hfuel HL Hlen Hpsi.
  - replace k with L by lia. destruct fuel; cbn [nttRounds]; rewrite Z.ltb_irrefl; done.
  - destruct fuel as [|fuel]; [lia|]. cbn [nttRounds].
    assert (0 < 2 ^ Z.of_nat k) as Hpos by (apply pow2_pos; lia).
    assert (2 ^ Z.of_nat k < 2 ^ Z.of_nat L) as Hlt by (apply Z.pow_lt_mono_r; lia).
    destruct (Z.ltb_spec (2 ^ Z.of_nat k) (2 ^ Z.of_nat L)); [|lia].
    set (t := 2 ^ (Z.of_nat L - 1 - Z.of_nat k)).
    assert (0 < t) as Ht by (apply pow2_pos; lia).
    assert (2 ^ (Z.of_nat L - Z.of_nat k) = 2 * t) as Ht2.
    { unfold t. rewrite <- pow2_succ by lia. f_equal. lia. }
    assert (2 * t * 2 ^ Z.of_nat k = 2 ^ Z.of_nat L) as Hprod.
    { rewrite <- Ht2, <- Z.pow_add_r by lia. f_equal. lia. }
    assert (2 ^ Z.of_nat L < U64.modulus) as Hmod.
    { unfold U64.modulus. apply Z.pow_lt_mono_r; lia. }
    assert (U64.shr (2 ^ (Z.of_nat L - Z.of_nat k)) 1 = t) as ->.
    { rewrite Ht2. unfold U64.shr. change (64 <=? 1) with false. cbv iota.
      rewrite Z.shiftr_div_pow2, Z.pow_1_r by lia.
      rewrite Z.mul_comm. apply Z.div_mul. lia. }
    rewrite forwardRound_spec; [|lia|lia|rewrite length_forward; lia
                               |rewrite length_forward; lia|nia].
    cbn [mbind option_bind].
    assert (U64.shl (2 ^ Z.of_nat k) 1 = 2 ^ Z.of_nat (S k)) as ->.
    { unfold U64.shl. change (64 <=? 1) with false. cbv iota.
      rewrite Z.shiftl_mul_pow2, Z.pow_1_r by lia.
      rewrite wrap_small by (unfold U64.inrange; nia).
      rewrite Nat2Z.inj_succ, <- Z.add_1_r, pow2_succ by lia. ring. }
    replace t with (2 ^ (Z.of_nat L - Z.of_nat (S k))) at 1 by (unfold t; f_equal; lia).
    apply (IH fuel (S k)); [lia|lia|lia|done|done].
Qed.

(** [NTT] is the rounds from the first to the last, then the reduction. *)
Lemma NTT_spec (L : nat) coeffsIn coeffsOut bredParams0 :
  (1 <= L <= 63)%nat ->
  Z.of_nat (length coeffsIn) = 2 ^ Z.of_nat L ->
  Z.of_nat (length coeffsOut) = 2 ^ Z.of_nat L ->
  Z.of_nat (length psi) = 2 ^ Z.of_nat L ->
  NTT coeffsIn coeffsOut (2 ^ Z.of_nat L) psi Q Qinv bredParams0
  = Some (map (fun x => x mod Q) (forward Q Qinv psi (Z.of_nat L) L coeffsIn)).
Proof.
  intros HL Hin Hout Hpsi. unfold NTT.
  destruct L as [|k] eqn:HLk; [lia|]. rewrite <- HLk in *.
  assert (0 < 2 ^ Z.of_nat k) as Hpos by (apply pow2_pos; lia).
  assert (2 ^ Z.of_nat L = 2 * 2 ^ Z.of_nat k) as Hm.
  { rewrite HLk, Nat2Z.inj_succ, <- Z.add_1_r. apply pow2_succ. lia. }
  assert (2 ^ Z.of_nat L < U64.modulus) as Hmod.
  { unfold U64.modulus. apply Z.pow_lt_mono_r; lia. }
  assert (U64.shr (2 ^ Z.of_nat L) 1 = 2 ^ Z.of_nat k) as ->.
  { rewrite Hm. unfold U64.shr. change (64 <=? 1) with false. cbv iota.
    rewrite Z.shiftr_div_pow2, Z.pow_1_r by lia.
    rewrite Z.mul_comm. apply Z.div_mul. lia. }
  set (t := 2 ^ Z.of_nat k) in *.
  assert (U64.sub t 1 + 1 = 0 + t) as ->.
  { unfold U64.sub. rewrite wrap_small by (unfold U64.inrange; lia). lia. }
  rewrite at_get by lia. cbn [mbind option_bind].
  set (bf := fun U V F => Butterfly U V F Q Qinv).
  destruct (block_spec bf (get psi 1) t (Some coeffsIn) 0 coeffsOut)
    as (out1 & Hrun & Hlen1 & Hget1); [lia|lia|lia|cbn; lia|lia|].
  match goal with
  | |- context [for_range ?a ?b ?f coeffsOut] =>
      replace (for_range a b f coeffsOut) with (Some out1) by (symmetry; exact Hrun)
  end.
  cbn [mbind option_bind].
  assert (out1 = forward Q Qinv psi (Z.of_nat L) 1 coeffsIn) as ->.
  { cbn [forward]. change (2 ^ Z.of_nat 0) with 1.
    replace (Z.of_nat L - 1 - Z.of_nat 0) with (Z.of_nat k) by lia. fold t.
    apply (partial_layer bf psi 1 t coeffsIn coeffsOut out1); [lia|lia|lia|done|lia|].
    apply (block_partial bf psi 1 t (Some coeffsIn) 0 coeffsOut coeffsOut out1);
      [lia|lia|lia|done| |].
    - intros idx Hidx. unfold partial.
      destruct (Z.ltb_spec idx (2 * t * 0)); [lia|done].
    - intros idx Hidx. rewrite Hget1 by lia.
      replace (2 * t * 0) with 0 by lia. done. }
  change 2 with (2 ^ Z.of_nat 1) at 1.
  replace t with (2 ^ (Z.of_nat L - Z.of_nat 1)) at 1 by (unfold t; f_equal; lia).
  rewrite (nttRounds_spec L k 64 1); [|lia|lia|lia|done|done].
  cbn [mbind option_bind].
  apply for_range_map. rewrite length_forward. symmetry. exact Hin.
Qed.

End ForwardRounds.

(** ** The inverse rounds undo the forward rounds *)

Section Layers.

Import Ring Transform.

Lemma layerVal_lo bf tab m t src i o :
  0 < t -> 0 <= o < t ->
  layerVal bf tab m t src (2 * t * i + o)
  = (bf (get src (2 * t * i + o)) (get src (2 * t * i + o + t)) (get tab (m + i))).1.
Proof.
  intros Ht Ho. unfold layerVal.
  destruct (block_div_mod (2 * t) i (2 * t * i + o)) as [-> ->]; [lia|lia|].
  destruct (Z.ltb_spec (2 * t * i + o - 2 * t * i) t); [done|lia].
Qed.

Lemma layerVal_hi bf tab m t src i o :
  0 < t -> 0 <= o < t ->
  layerVal bf tab m t src (2 * t * i + o + t)
  = (bf (get src (2 * t * i + o)) (get src (2 * t * i + o + t)) (get tab (m + i))).2.
Proof.
  intros Ht Ho. unfold layerVal.
  destruct (block_div_mod (2 * t) i (2 * t * i + o + t)) as [-> ->]; [lia|lia|].
  destruct (Z.ltb_spec (2 * t * i + o + t - 2 * t * i) t); [lia|].
  replace (2 * t * i + o + t - t) with (2 * t * i + o) by lia. done.
Qed.

Lemma index_split m t idx :
  0 < t -> 0 <= idx < 2 * t * m ->
  exists i o, 0 <= i < m /\ 0 <= o < t /\
    (idx = 2 * t * i + o \/ idx = 2 * t * i + o + t).
Proof.
  intros Ht Hidx.
  pose proof (Z.div_mod idx (2 * t) ltac:(lia)) as Hdm.
  pose proof (Z.mod_pos_bound idx (2 * t) ltac:(lia)) as Hr.
  assert (0 <= idx / (2 * t) < m) as Hi.
  { split; [apply Z.div_pos; lia|]. apply Z.div_lt_upper_bound; lia. }
  destruct (Z.ltb_spec (idx mod (2 * t)) t).
  - exists (idx / (2 * t)), (idx mod (2 * t)). split; [done|]. split; [lia|]. left. lia.
  - exists (idx / (2 * t)), (idx mod (2 * t) - t). split; [done|]. split; [lia|]. right. lia.
Qed.

End Layers.

Section Cancellation.

Import Ring Transform.

Variables (q qInv Rinv : Z).
Hypothesis Hq : 0 < q.
Hypothesis Hq62 : 4 * q < U64.modulus.
Hypothesis HqInv : (qInv * q) mod U64.modulus = 1.
Hypothesis HRinv : (U64.modulus * Rinv) mod q = 1 mod q.

Variables (psi psiInv : list Z) (N0 : Z).

(** Every entry of the two tables past the first is a residue, and the
    entries of the same index are inverses of each other (in Montgomery
    form). *)
Hypothesis Htab : forall k, 1 <= k < N0 ->
  0 <= get psi k < q /\ 0 <= get psiInv k < q /\
  Zdiv.eqm q (get psi k * Rinv * (get psiInv k * Rinv)) 1.

Lemma forward_layer_bounded m t x :
  0 < t -> 0 < m -> Z.of_nat (length x) = 2 * t * m -> 2 * m <= N0 ->
  bounded (4 * q) x -> bounded (4 * q) (layer (fun U V F => Butterfly U V F q qInv) psi m t x).
Proof.
  intros Ht Hm Hlen HN Hx idx Hidx. rewrite length_layer in Hidx.
  rewrite get_layer by lia.
  destruct (index_split m t idx) as (i & o & Hi & Ho & [->| ->]); [lia|lia| |].
  - rewrite layerVal_lo by lia.
    destruct (Htab (m + i)) as (HF & _); [lia|].
    apply (Butterfly_spec q qInv Rinv); try done; try lia; apply Hx; nia.
  - rewrite layerVal_hi by lia.
    destruct (Htab (m + i)) as (HF & _); [lia|].
    apply (Butterfly_spec q qInv Rinv); try done; try lia; apply Hx; nia.
Qed.

(** An inverse round undoes the forward round with the same blocks, up to
    a factor of 2. *)
Lemma inverse_layer_cancels m t c x y :
  0 < t -> 0 < m -> Z.of_nat (length x) = 2 * t * m -> 2 * m <= N0 ->
  length y = length x ->
  bounded (4 * q) x -> bounded (2 * q) y ->
  (forall idx, 0 <= idx < 2 * t * m ->
     Zdiv.eqm q (get y idx) (c * get (layer (fun U V F => Butterfly U V F q qInv) psi m t x) idx)) ->
  bounded (2 * q) (layer (fun U V F => InvButterfly U V F q qInv) psiInv m t y) /\
  (forall idx, 0 <= idx < 2 * t * m ->
     Zdiv.eqm q (get (layer (fun U V F => InvButterfly U V F q qInv) psiInv m t y) idx) (2 * c * get x idx)).
Proof.
  intros Ht Hm Hlen HN Hylen Hx Hy Hc.
  assert (forall i o, 0 <= i < m -> 0 <= o < t ->
    (0 <= get (layer (fun U V F => InvButterfly U V F q qInv) psiInv m t y) (2 * t * i + o) <= 2 * q /\
     Zdiv.eqm q (get (layer (fun U V F => InvButterfly U V F q qInv) psiInv m t y) (2 * t * i + o))
       (2 * c * get x (2 * t * i + o))) /\
    (0 <= get (layer (fun U V F => InvButterfly U V F q qInv) psiInv m t y) (2 * t * i + o + t) <= 2 * q /\
     Zdiv.eqm q (get (layer (fun U V F => InvButterfly U V F q qInv) psiInv m t y) (2 * t * i + o + t))
       (2 * c * get x (2 * t * i + o + t)))) as Hpair.
  { intros i o Hi Ho.
    assert (0 <= 2 * t * i + o /\ 2 * t * i + o + t < 2 * t * m) as Hrange by nia.
    destruct (Htab (m + i)) as (HF & HFi & Hinv); [lia|].
    pose proof (Hc (2 * t * i + o) ltac:(lia)) as Hlo.
    pose proof (Hc (2 * t * i + o + t) ltac:(lia)) as Hhi.
    rewrite get_layer in Hlo, Hhi by lia.
    rewrite layerVal_lo in Hlo by lia. rewrite layerVal_hi in Hhi by lia.
    destruct (Butterfly_spec q qInv Rinv Hq ltac:(lia) HqInv HRinv Hq62
                (get x (2 * t * i + o)) (get x (2 * t * i + o + t)) (get psi (m + i)))
      as [[_ HX] [_ HY]]; [apply Hx; lia|apply Hx; lia|done|].
    cbv beta in Hlo, Hhi. rewrite HX in Hlo. rewrite HY in Hhi.
    rewrite !get_layer by lia.
    rewrite layerVal_lo, layerVal_hi by lia. cbv beta.
    destruct (InvButterfly_spec q qInv Rinv Hq ltac:(lia) HqInv HRinv Hq62
                (get y (2 * t * i + o)) (get y (2 * t * i + o + t)) (get psiInv (m + i)))
      as [[HbX HcX] [HbY HcY]]; [apply Hy; lia|apply Hy; lia|done|].
    split; (split; [done|]).
    - rewrite HcX, Hlo, Hhi. eqm_ring.
    - rewrite HcY, Hlo, Hhi.
      transitivity (2 * c * get x (2 * t * i + o + t)
                    * (get psi (m + i) * Rinv * (get psiInv (m + i) * Rinv))); [eqm_ring|].
      rewrite Hinv. eqm_ring. }
  split.
  - intros idx Hidx. rewrite length_layer in Hidx.
    destruct (index_split m t idx) as (i & o & Hi & Ho & [->| ->]); [lia|lia| |];
      apply Hpair; lia.
  - intros idx Hidx.
    destruct (index_split m t idx) as (i & o & Hi & Ho & [->| ->]); [lia|lia| |];
      apply Hpair; lia.
Qed.

End Cancellation.

Section RoundTrip.

Import Ring Transform.

Variables (q qInv Rinv : Z).
Hypothesis Hq : 0 < q.
Hypothesis Hq62 : 4 * q < U64.modulus.
Hypothesis HqInv : (qInv * q) mod U64.modulus = 1.
Hypothesis HRinv : (U64.modulus * Rinv) mod q = 1 mod q.

Variables (psi psiInv : list Z) (L : nat).
Hypothesis HL : (1 <= L <= 63)%nat.
Hypothesis Hpsi : Z.of_nat (length psi) = 2 ^ Z.of_nat L.
Hypothesis HpsiInv : Z.of_nat (length psiInv) = 2 ^ Z.of_nat L.
Hypothesis Htab : forall k, 1 <= k < 2 ^ Z.of_nat L ->
  0 <= get psi k < q /\ 0 <= get psiInv k < q /\
  Zdiv.eqm q (get psi k * Rinv * (get psiInv k * Rinv)) 1.

Lemma pow2_split (k : nat) :
  (k < L)%nat ->
  2 * 2 ^ (Z.of_nat L - 1 - Z.of_nat k) * 2 ^ Z.of_nat k = 2 ^ Z.of_nat L.
Proof.
  intros Hk. rewrite <- pow2_succ, <- Z.pow_add_r by lia. f_equal. lia.
Qed.

Lemma forward_bounded (k : nat) p :
  (k <= L)%nat -> Z.of_nat (length p) = 2 ^ Z.of_nat L ->
  bounded (4 * q) p -> bounded (4 * q) (forward q qInv psi (Z.of_nat L) k p).
Proof.
  intros Hk Hlen Hp. induction k as [|k IH]; [exact Hp|].
  cbn [forward].
  pose proof (pow2_split k ltac:(lia)) as Hsplit.
  assert (0 < 2 ^ Z.of_nat k) by (apply pow2_pos; lia).
  assert (0 < 2 ^ (Z.of_nat L - 1 - Z.of_nat k)) by (apply pow2_pos; lia).
  apply (forward_layer_bounded q qInv Rinv Hq Hq62 HqInv HRinv psi psiInv (2 ^ Z.of_nat L) Htab);
    [lia|lia|rewrite length_forward; lia|nia|apply IH; lia].
Qed.

(** The last [k] rounds of the inverse transform undo the first [k]
    rounds of the forward transform, up to the factor [2^k]. *)
Lemma backward_forward (k : nat) p :
  (k <= L)%nat -> Z.of_nat (length p) = 2 ^ Z.of_nat L ->
  bounded (4 * q) p ->
  forall y c,
    Z.of_nat (length y) = 2 ^ Z.of_nat L -> bounded (2 * q) y ->
    (forall idx, 0 <= idx < 2 ^ Z.of_nat L ->
       Zdiv.eqm q (get y idx) (c * get (forward q qInv psi (Z.of_nat L) k p) idx)) ->
    bounded (2 * q) (backward q qInv psiInv (Z.of_nat L) k y) /\
    (forall idx, 0 <= idx < 2 ^ Z.of_nat L ->
       Zdiv.eqm q (get (backward q qInv psiInv (Z.of_nat L) k y) idx)
         (c * 2 ^ Z.of_nat k * get p idx)).
Proof.
  intros Hk Hlen Hp. induction k as [|k IH]; intros y c Hylen Hy Hc.
  - cbn [backward forward] in *. split; [exact Hy|].
    intros idx Hidx. rewrite Hc by done. change (2 ^ Z.of_nat 0) with 1. eqm_ring.
  - cbn [backward]. cbn [forward] in Hc.
    pose proof (pow2_split k ltac:(lia)) as Hsplit.
    assert (0 < 2 ^ Z.of_nat k) by (apply pow2_pos; lia).
    assert (0 < 2 ^ (Z.of_nat L - 1 - Z.of_nat k)) by (apply pow2_pos; lia).
    destruct (inverse_layer_cancels q qInv Rinv Hq Hq62 HqInv HRinv psi psiInv
                (2 ^ Z.of_nat L) Htab
                (2 ^ Z.of_nat k) (2 ^ (Z.of_nat L - 1 - Z.of_nat k)) c
                (forward q qInv psi (Z.of_nat L) k p) y) as [Hb Hcong];
      [lia|lia|rewrite length_forward; lia|nia|rewrite length_forward; lia
      |apply forward_bounded; [lia|done|done]|done| |].
    { intros idx Hidx. apply Hc. lia. }
    set (y' := layer (fun U V F => InvButterfly U V F q qInv) psiInv
                 (2 ^ Z.of_nat k) (2 ^ (Z.of_nat L - 1 - Z.of_nat k)) y) in *.
    assert (Z.of_nat (length y') = 2 ^ Z.of_nat L) as Hll
      by (unfold y'; rewrite length_layer; exact Hylen).
    destruct (IH ltac:(lia) y' (2 * c) Hll Hb) as [Hb' Hc'].
    { intros idx Hidx. apply Hcong. lia. }
    split; [exact Hb'|]. intros idx Hidx. rewrite Hc' by done.
    rewrite Nat2Z.inj_succ, <- Z.add_1_r, pow2_succ by lia. eqm_ring.
Qed.

Lemma get_map (g : Z -> Z) v idx :
  0 <= idx < Z.of_nat (length v) -> get (map g v) idx = g (get v idx).
Proof.
  intros Hidx. apply get_lookup. unfold at_. rewrite list_lookup_fmap.
  change (g <$> at_ v idx = Some (g (get v idx))). rewrite at_get by lia. done.
Qed.

(** The round trip on one row. *)
Lemma roundtrip_row p out1 out2 nttNInv0 bredParams0 :
  Z.of_nat (length p) = 2 ^ Z.of_nat L ->
  Z.of_nat (length out1) = 2 ^ Z.of_nat L ->
  Z.of_nat (length out2) = 2 ^ Z.of_nat L ->
  (forall idx, 0 <= idx < 2 ^ Z.of_nat L -> 0 <= get p idx < q) ->
  0 <= nttNInv0 < q ->
  Zdiv.eqm q (2 ^ Z.of_nat L * (nttNInv0 * Rinv)) 1 ->
  exists y,
    NTT p out1 (2 ^ Z.of_nat L) psi q qInv bredParams0 = Some y /\
    InvNTT y out2 (2 ^ Z.of_nat L) psiInv nttNInv0 q qInv = Some p.
Proof.
  intros Hp Ho1 Ho2 Hcanon HnInv HN.
  rewrite (NTT_spec psi q qInv L) by done.
  eexists. split; [reflexivity|].
  set (y := map (fun x => x mod q) (forward q qInv psi (Z.of_nat L) L p)).
  assert (Z.of_nat (length y) = 2 ^ Z.of_nat L) as Hylen.
  { unfold y. rewrite length_map, length_forward. done. }
  rewrite (InvNTT_spec psiInv q qInv L) by done. f_equal.
  destruct (backward_forward L p ltac:(lia) Hp) with (y := y) (c := 1) as [Hb Hc].
  - intros idx Hidx. specialize (Hcanon idx ltac:(lia)). lia.
  - done.
  - intros idx Hidx. unfold y. rewrite get_map by (rewrite length_forward; lia).
    pose proof (Z.mod_pos_bound (get (forward q qInv psi (Z.of_nat L) L p) idx) q Hq). lia.
  - intros idx Hidx. unfold y. rewrite get_map by (rewrite length_forward; lia).
    rewrite Zdiv.Zmod_eqm. eqm_ring.
  - apply list_eq_get.
    + rewrite length_map, length_backward. lia.
    + intros idx Hidx. rewrite length_map, length_backward in Hidx.
      rewrite get_map by (rewrite length_backward; lia).
      set (x := get (backward q qInv psiInv (Z.of_nat L) L y) idx).
      assert (0 <= x <= 2 * q) as Hx by (apply Hb; rewrite length_backward; lia).
      destruct (MRed_spec q qInv Rinv Hq ltac:(lia) HqInv HRinv x nttNInv0) as [Hr Hcong];
        [nia|].
      specialize (Hcanon idx ltac:(lia)).
      rewrite <- (Z.mod_small (MRed x nttNInv0 q qInv) q) by done.
      rewrite <- (Z.mod_small (get p idx) q) by done.
      change (Zdiv.eqm q (MRed x nttNInv0 q qInv) (get p idx)).
      rewrite Hcong. unfold x. rewrite Hc by lia.
      transitivity (get p idx * (2 ^ Z.of_nat L * (nttNInv0 * Rinv))); [eqm_ring|].
      rewrite HN. eqm_ring.
Qed.

End RoundTrip.

(** ** NTT-friendly moduli *)

Section ModularExponent.

Import Ring.

Lemma ModExp_spec base e q :
  0 <= e -> ModExp base e q = base ^ e mod q.
Proof.
  intros He. unfold ModExp. destruct e as [|p|p]; [done| |lia].
  induction p as [|p IH] using Pos.peano_ind.
  - cbn [Pos.iter_op]. rewrite Z.pow_1_r. done.
  - rewrite Pos.iter_op_succ.
    + rewrite IH by lia. rewrite Pos2Z.inj_succ, Z.pow_succ_r by lia.
      rewrite <- Zmult_mod. done.
    + intros x y z. rewrite Zmult_mod_idemp_l, Zmult_mod_idemp_r. f_equal. ring.
Qed.

End ModularExponent.

Section NTTFriendly.

Import Ring.

(** A prime modulus below 2^62 that is 1 modulo [2N]. *)
Variables (q N0 : Z).
Hypothesis Hprime : Z.prime q.
Hypothesis HN : 1 <= N0.
Hypothesis Hcong : q mod (2 * N0) = 1.

Lemma friendly_odd : q mod 2 = 1.
Proof.
  pose proof (Z.div_mod q (2 * N0) ltac:(lia)) as Hdm. rewrite Hcong in Hdm.
  replace q with (1 + N0 * (q / (2 * N0)) * 2) by lia.
  rewrite Z.mod_add by lia. done.
Qed.

Lemma friendly_above : 2 * N0 < q.
Proof.
  pose proof (Z.div_mod q (2 * N0) ltac:(lia)) as Hdm. rewrite Hcong in Hdm.
  destruct Hprime as [Hq1 _].
  assert (0 < q / (2 * N0)); [|nia].
  apply Z.div_str_pos. split; [lia|].
  destruct (Z.le_gt_cases (2 * N0) q) as [|Hlt]; [done|].
  rewrite Z.mod_small in Hcong by lia. lia.
Qed.

Lemma prime_2 : Z.prime 2.
Proof. apply IsPrime_spec. reflexivity. Qed.

Lemma friendly_coprime : Z.coprime q U64.modulus.
Proof.
  apply Z.coprime_prime_l; [exact Hprime|]. intros Hdiv.
  pose proof friendly_odd as Hodd.
  assert (q = 2) as Heq.
  { apply (Z.divide_prime_pp q 2 64); [exact Hprime|exact prime_2|lia|exact Hdiv]. }
  rewrite Heq in Hodd. discriminate Hodd.
Qed.

Lemma friendly_mredParams : (MRedParams q * q) mod U64.modulus = 1.
Proof.
  unfold MRedParams. apply Z.invmod_coprime; [rewrite modulus_eq; lia|].
  exact friendly_coprime.
Qed.

Lemma friendly_Rinv : (U64.modulus * Z.invmod U64.modulus q) mod q = 1 mod q.
Proof.
  destruct Hprime as [Hq1 _].
  rewrite Z.mul_comm, Z.invmod_prime; [rewrite Z.mod_small by lia; done|exact Hprime|].
  intros Hz. apply Z.mod_divide in Hz; [|lia].
  pose proof friendly_coprime as Hc.
  apply Z.coprime_prime_l_iff in Hc; [|exact Hprime]. exact (Hc Hz).
Qed.

Hypothesis Hq62 : 4 * q < U64.modulus.

(** The parameter that [SetParameters] stores for such a modulus. *)
Lemma friendly_SetParameters_mred :
  (if negb (Z.land q (U64.sub q 1) =? 0) && negb (q =? 0) then MRedParams q else 0)
  = MRedParams q.
Proof.
  destruct Hprime as [Hq1 _]. pose proof friendly_odd as Hodd.
  destruct (Z.eqb_spec q 0); [lia|].
  destruct (Z.eqb_spec (Z.land q (U64.sub q 1)) 0) as [Hl|]; [|done]. exfalso.
  unfold U64.sub, U64.wrap in Hl.
  rewrite Z.mod_small in Hl by lia.
  apply land_pred_pow2 in Hl; [|lia].
  destruct (Z.eq_dec (Z.log2 q) 0) as [H0|H0].
  - rewrite H0 in Hl. change (2 ^ 0) with 1 in Hl. lia.
  - assert (0 < Z.log2 q) by (pose proof (Z.log2_nonneg q); lia).
    rewrite Hl in Hodd.
    replace (Z.log2 q) with (Z.log2 q - 1 + 1) in Hodd by lia.
    rewrite pow2_succ in Hodd by lia.
    rewrite Z.mul_comm, Z.mod_mul in Hodd by lia. discriminate.
Qed.

(** [nttNInv]: the inverse of [N] in Montgomery form. *)
Lemma friendly_nInv bred :
  N0 < U64.modulus ->
  0 <= MForm (ModExp N0 (U64.sub q 2) q) q bred < q /\
  Zdiv.eqm q (N0 * (MForm (ModExp N0 (U64.sub q 2) q) q bred
                    * Z.invmod U64.modulus q)) 1.
Proof.
  intros HNr. destruct Hprime as [Hq1 _]. pose proof friendly_above as Habove.
  unfold MForm. split; [apply Z.mod_pos_bound; lia|].
  unfold U64.sub. rewrite wrap_small by (unfold U64.inrange; lia).
  rewrite ModExp_spec by lia.
  rewrite Zdiv.Zmod_eqm. rewrite Zdiv.Zmod_eqm.
  transitivity (N0 * N0 ^ (q - 2) * (U64.modulus * Z.invmod U64.modulus q)); [eqm_ring|].
  assert (Zdiv.eqm q (U64.modulus * Z.invmod U64.modulus q) 1) as ->
    by exact friendly_Rinv.
  rewrite Z.mul_1_r, <- Z.pow_succ_r by lia.
  replace (Z.succ (q - 2)) with (q - 1) by lia.
  unfold Zdiv.eqm. rewrite Z.fermat_nz; [rewrite Z.mod_small by lia; done|exact Hprime|].
  rewrite Z.mod_small by lia. lia.
Qed.

End NTTFriendly.

(** ** The tables of powers *)

Section BitReversalOrder.

Import Ring.

Lemma bitReverse64_involutive x b :
  0 <= b <= 64 -> 0 <= x < 2 ^ b -> bitReverse64 (bitReverse64 x b) b = x.
Proof.
  intros Hb Hx. apply Z.bits_inj'. intros n Hn.
  rewrite bitReverse64_testbit by lia.
  destruct (Z.ltb_spec n b) as [Hlt|Hge]; cbn [andb].
  - rewrite bitReverse64_testbit by lia.
    destruct (Z.ltb_spec (b - 1 - n) b); [|lia]. cbn [andb]. f_equal. lia.
  - rewrite <- (Z.mod_small x (2 ^ b)) by lia.
    rewrite Z.mod_pow2_bits_high by lia. done.
Qed.

Lemma bitReverse64_0 b : 0 <= b <= 64 -> bitReverse64 0 b = 0.
Proof.
  intros Hb. apply Z.bits_inj'. intros n Hn.
  rewrite bitReverse64_testbit, !Z.bits_0 by lia. apply andb_false_r.
Qed.

End BitReversalOrder.

Section Tables.

Import Ring Transform.

Variable primitiveRoot : Z -> Z.

Variables (q : Z) (k : Z).
Hypothesis Hprime : Z.prime q.
Hypothesis Hk : 0 <= k <= 61.
Hypothesis Hcong : q mod (2 * 2 ^ k) = 1.
Hypothesis Hq62 : 4 * q < U64.modulus.
Hypothesis Hroot : primitiveRoot q mod q <> 0.

Lemma MForm_Rinv x bred :
  Zdiv.eqm q (MForm x q bred * Z.invmod U64.modulus q) x.
Proof.
  unfold MForm. rewrite Zdiv.Zmod_eqm.
  transitivity (x * (U64.modulus * Z.invmod U64.modulus q)); [eqm_ring|].
  assert (Zdiv.eqm q (U64.modulus * Z.invmod U64.modulus q) 1) as ->
    by (apply (friendly_Rinv q (2 ^ k)); [done|pose proof (pow2_pos k); lia|done]).
  eqm_ring.
Qed.

Lemma goodPair_one bred : goodPair q (MForm 1 q bred) (MForm 1 q bred).
Proof.
  destruct Hprime as [Hq1 _].
  split; [apply Z.mod_pos_bound; lia|]. split; [apply Z.mod_pos_bound; lia|].
  rewrite MForm_Rinv. eqm_ring.
Qed.

Lemma goodPair_roots bred :
  goodPair q
    (MForm (ModExp (primitiveRoot q) (U64.sub q 1 / (2 * 2 ^ k)) q) q bred)
    (MForm (ModExp (primitiveRoot q)
              (U64.sub (U64.sub q 1) (U64.sub q 1 / (2 * 2 ^ k))) q) q bred).
Proof.
  destruct Hprime as [Hq1 _].
  assert (0 < 2 ^ k) as Hpos by (apply pow2_pos; lia).
  split; [apply Z.mod_pos_bound; lia|]. split; [apply Z.mod_pos_bound; lia|].
  rewrite !MForm_Rinv.
  assert (U64.sub q 1 = q - 1) as -> by (apply wrap_small; unfold U64.inrange; lia).
  assert (0 <= (q - 1) / (2 * 2 ^ k) <= q - 1) as Hpow.
  { split; [apply Z.div_pos; lia|]. apply Z.div_le_upper_bound; nia. }
  assert (U64.sub (q - 1) ((q - 1) / (2 * 2 ^ k)) = q - 1 - (q - 1) / (2 * 2 ^ k)) as ->
    by (apply wrap_small; unfold U64.inrange; lia).
  rewrite !ModExp_spec by lia. rewrite !Zdiv.Zmod_eqm.
  rewrite <- Z.pow_add_r by lia.
  replace ((q - 1) / (2 * 2 ^ k) + (q - 1 - (q - 1) / (2 * 2 ^ k))) with (q - 1) by lia.
  unfold Zdiv.eqm. rewrite Z.fermat_nz; [rewrite Z.mod_small by lia; done|done|done].
Qed.

Lemma goodPair_step a b c d :
  goodPair q a b -> goodPair q c d ->
  goodPair q (MRed a c q (MRedParams q)) (MRed b d q (MRedParams q)).
Proof.
  intros (Ha & Hb & Hab) (Hc & Hd & Hcd).
  destruct Hprime as [Hq1 _].
  assert (0 < 2 ^ k) as Hpos by (apply pow2_pos; lia).
  pose proof (friendly_mredParams q (2 ^ k) Hprime ltac:(lia) Hcong) as HqInv.
  pose proof (friendly_Rinv q (2 ^ k) Hprime ltac:(lia) Hcong) as HRinv.
  destruct (MRed_spec q (MRedParams q) (Z.invmod U64.modulus q) ltac:(lia) ltac:(lia)
              HqInv HRinv a c) as [Hr1 Hc1]; [nia|].
  destruct (MRed_spec q (MRedParams q) (Z.invmod U64.modulus q) ltac:(lia) ltac:(lia)
              HqInv HRinv b d) as [Hr2 Hc2]; [nia|].
  split; [done|]. split; [done|]. rewrite Hc1, Hc2.
  set (Ri := Z.invmod U64.modulus q) in *.
  transitivity ((a * Ri * (b * Ri)) * (c * Ri * (d * Ri))); [eqm_ring|].
  rewrite Hab, Hcd. eqm_ring.
Qed.

End Tables.

Section TableLoop.

Import Ring Transform.

Variable primitiveRoot : Z -> Z.

Variables (q : Z) (k : Z).
Hypothesis Hprime : Z.prime q.
Hypothesis Hk : 0 <= k <= 61.
Hypothesis Hcong : q mod (2 * 2 ^ k) = 1.
Hypothesis Hq62 : 4 * q < U64.modulus.
Hypothesis Hroot : primitiveRoot q mod q <> 0.

(** The two tables that [GenNTTParams] fills for one modulus. *)
Lemma genRow_tables context (i : nat) bred :
  N context = 2 ^ k ->
  bredParams context !! i = Some bred ->
  mredParams context !! i = Some (MRedParams q) ->
  exists row,
    genRow primitiveRoot context k i q = Some row /\
    Z.of_nat (length (rowPsi row)) = 2 ^ k /\
    Z.of_nat (length (rowPsiInv row)) = 2 ^ k /\
    (forall j, 0 <= j < 2 ^ k -> goodPair q (get (rowPsi row) j) (get (rowPsiInv row) j)) /\
    rowNInv row = MForm (ModExp (2 ^ k) (U64.sub q 2) q) q bred.
Proof.
  intros HN Hbred Hmred. unfold genRow. rewrite Hbred, HN. cbn [mbind option_bind].
  assert (0 < 2 ^ k) as Hpos by (apply pow2_pos; lia).
  assert (2 ^ k <= 2 ^ 61) as Hle by (apply Z.pow_le_mono_r; lia).
  change (2 ^ 61) with 2305843009213693952 in Hle.
  assert (U64.shl (2 ^ k) 1 = 2 * 2 ^ k) as ->.
  { unfold U64.shl. change (64 <=? 1) with false. cbv iota.
    rewrite Z.shiftl_mul_pow2, Z.pow_1_r by lia.
    rewrite wrap_small by (unfold U64.inrange; rewrite modulus_eq; lia). lia. }
  destruct (Z.eqb_spec (2 * 2 ^ k) 0) as [|_]; [lia|].
  rewrite !set_Some by (rewrite length_replicate; lia). cbn [mbind option_bind].
  set (PsiMont := MForm (ModExp (primitiveRoot q) (U64.sub q 1 / (2 * 2 ^ k)) q) q bred).
  set (PsiInvMont := MForm (ModExp (primitiveRoot q)
                        (U64.sub (U64.sub q 1) (U64.sub q 1 / (2 * 2 ^ k))) q) q bred).
  pose proof (goodPair_roots primitiveRoot q k Hprime Hk Hcong Hq62 Hroot bred) as Hroots.
  fold PsiMont PsiInvMont in Hroots.
  set (one := MForm 1 q bred).
  match goal with
  | |- context [for_range ?lo ?hi ?body ?s] =>
      destruct (for_range_total
        (fun (j : Z) (tabs : list Z * list Z) =>
           Z.of_nat (length tabs.1) = 2 ^ k /\ Z.of_nat (length tabs.2) = 2 ^ k /\
           forall j', 0 <= j' < j ->
             goodPair q (get tabs.1 (bitReverse64 j' k)) (get tabs.2 (bitReverse64 j' k)))
        body lo hi s)
        as (tabs & Hrun & Hl1 & Hl2 & Hgood); [| | |rewrite Hrun]
  end.
  - lia.
  - cbn [fst snd]. rewrite !length_insert, length_replicate.
    split; [lia|]. split; [lia|]. intros j' Hj'.
    replace j' with 0 by lia. rewrite bitReverse64_0 by lia.
    rewrite get_insert by (rewrite ?length_replicate; lia).
    rewrite decide_True by done.
    apply (goodPair_one q k Hprime Hk Hcong).
  - intros j [t1 t2] Hj (Hl1 & Hl2 & Hgood). cbn [fst snd] in *. unfold psiStep.
    cbn [fst snd].
    assert (U64.sub j 1 = j - 1) as ->
      by (apply wrap_small; unfold U64.inrange; rewrite modulus_eq; lia).
    pose proof (bitReverse64_bound (j - 1) k ltac:(lia)) as Hprev.
    pose proof (bitReverse64_bound j k ltac:(lia)) as Hnext.
    rewrite !at_get by lia. rewrite Hmred. cbn [mbind option_bind].
    rewrite !set_Some by lia. cbn [mbind option_bind].
    eexists. split; [reflexivity|]. cbn [fst snd]. rewrite !length_insert.
    split; [done|]. split; [done|]. intros j' Hj'.
    pose proof (bitReverse64_bound j' k ltac:(lia)) as Hcur.
    rewrite !get_insert by lia.
    destruct (decide (bitReverse64 j' k = bitReverse64 j k)) as [Heq|Hne].
    + apply (goodPair_step q k Hprime Hk Hcong Hq62); [apply Hgood; lia|exact Hroots].
    + apply Hgood. destruct (decide (j' = j)) as [->|]; [done|lia].
  - cbn [mbind option_bind]. eexists. split; [reflexivity|]. cbn [rowPsi rowPsiInv rowNInv].
    split; [done|]. split; [done|]. split; [|done].
    intros j Hj.
    pose proof (bitReverse64_bound j k ltac:(lia)) as Hbr.
    rewrite <- (bitReverse64_involutive j k) by lia.
    apply Hgood. lia.
Qed.

End TableLoop.

(** ** The round trip over a context *)

Section ContextTransforms.

Import Ring Shape Transform.

Lemma forModuli_total context row (p : Poly) :
  (forall i q, moduli context !! i = Some q ->
     exists r r', p !! i = Some r /\ row i q r = Some r') ->
  exists p', forModuli context row p = Some p'.
Proof.
  intros Hrows.
  exists (imap (fun i r =>
                  match moduli context !! i with
                  | Some q => default r (row i q r)
                  | None => r
                  end) p).
  apply forModuli_spec. split; [apply length_imap|]. split.
  - intros i q Hq. destruct (Hrows i q Hq) as (r & r' & Hr & Hr').
    exists r, r'. split; [done|]. split; [done|].
    rewrite list_lookup_imap, Hr. cbn. rewrite Hq, Hr'. done.
  - intros i Hi. rewrite list_lookup_imap.
    rewrite (lookup_ge_None_2 (moduli context)) by done.
    destruct (p !! i); done.
Qed.

Lemma GenNTTParams_inv primitiveRoot c ctx :
  allowsNTT c = false ->
  GenNTTParams primitiveRoot c = Some (ctx, None) ->
  N c <> 0 /\ existsb (failsNTT (N c)) (moduli c) = false /\
  exists rows,
    mapM (fun iq => genRow primitiveRoot c (U64.wrap (U64.len64 (N c) - 1)) iq.1 iq.2)
      (imap pair (moduli c)) = Some rows /\
    N ctx = N c /\ Modulus ctx = Modulus c /\ allowsNTT ctx = true /\
    bredParams ctx = bredParams c /\ mredParams ctx = mredParams c /\
    nttPsi ctx = map rowPsi rows /\ nttPsiInv ctx = map rowPsiInv rows /\
    nttNInv ctx = map rowNInv rows.
Proof.
  intros Hntt. unfold GenNTTParams. rewrite Hntt.
  destruct (Z.eqb_spec (N c) 0) as [|HN]; [discriminate|].
  destruct (bool_decide (Modulus c = None)); [discriminate|]. cbn [orb].
  destruct (existsb (failsNTT (N c)) (moduli c)); [discriminate|].
  intros Hrun. apply bind_Some in Hrun as (rows & Hrows & Hctx).
  injection Hctx as <-. split; [done|]. split; [done|].
  exists rows. split; [exact Hrows|]. cbn. repeat split.
Qed.

Lemma SetParameters_fields c N0 Q c1 :
  SetParameters c N0 Q = (c1, None) ->
  N c1 = N0 /\ Modulus c1 = Some Q /\ allowsNTT c1 = false /\
  bredParams c1 = map BRedParams Q /\
  mredParams c1
  = map (fun qi => if negb (Z.land qi (U64.sub qi 1) =? 0) && negb (qi =? 0)
                   then MRedParams qi else 0) Q.
Proof.
  unfold SetParameters.
  destruct (negb (Z.land N0 (U64.sub N0 1) =? 0) && negb (N0 =? 0)); [done|].
  intros [= <-]. cbn. repeat split.
Qed.

End ContextTransforms.

Section ContextRoundTrip.

Import Ring Shape Transform.

Variable primitiveRoot : Z -> Z.

Variables (c0 c1 ctx : Context) (N0 : Z) (Q : list Z).
Hypothesis HN0 : 2 <= N0 < U64.modulus.
Hypothesis HQ62 : Forall (fun q => 4 * q < U64.modulus) Q.
Hypothesis Hroot : Forall (fun q => primitiveRoot q mod q <> 0) Q.
Hypothesis Hset : SetParameters c0 N0 Q = (c1, None).
Hypothesis Hgen : GenNTTParams primitiveRoot c1 = Some (ctx, None).

(** What the two calls establish for the row of one modulus. *)
Lemma context_row (i : nat) q :
  Q !! i = Some q ->
  exists (L : nat) psi psiInv nInv bred,
    (1 <= L <= 63)%nat /\ N ctx = 2 ^ Z.of_nat L /\ moduli ctx = Q /\
    nttPsi ctx !! i = Some psi /\ nttPsiInv ctx !! i = Some psiInv /\
    nttNInv ctx !! i = Some nInv /\ bredParams ctx !! i = Some bred /\
    mredParams ctx !! i = Some (MRedParams q) /\
    0 < q /\ 4 * q < U64.modulus /\
    (MRedParams q * q) mod U64.modulus = 1 /\
    (U64.modulus * Z.invmod U64.modulus q) mod q = 1 mod q /\
    Z.of_nat (length psi) = 2 ^ Z.of_nat L /\
    Z.of_nat (length psiInv) = 2 ^ Z.of_nat L /\
    (forall j, 1 <= j < 2 ^ Z.of_nat L -> goodPair q (get psi j) (get psiInv j)) /\
    0 <= nInv < q /\
    Zdiv.eqm q (2 ^ Z.of_nat L * (nInv * Z.invmod U64.modulus q)) 1.
Proof.
  intros Hq.
  pose proof (SetParameters_inv _ _ _ _ Hset) as (Hpow & _).
  apply SetParameters_check_pow2 in Hpow; [|unfold U64.inrange; lia].
  destruct Hpow as [?|(k & Hk & HNk)]; [lia|].
  destruct (SetParameters_fields _ _ _ _ Hset) as (HN1 & HM1 & Hntt1 & Hbred1 & Hmred1).
  destruct (GenNTTParams_inv _ _ _ Hntt1 Hgen)
    as (_ & Hex & rows & Hrows & HNc & HMc & _ & Hbred & Hmred & Hpsi & HpsiInv & HnInv).
  assert (moduli c1 = Q) as Hmod1 by (unfold moduli; rewrite HM1; done).
  assert (moduli ctx = Q) as Hmod by (unfold moduli; rewrite HMc, HM1; done).
  rewrite Hmod1, HN1 in Hex, Hrows. rewrite HN1 in HNc. subst N0.
  assert (q ∈ Q) as Hin by (eapply list_elem_of_lookup_2; exact Hq).
  assert (failsNTT (2 ^ k) q = false) as Hpass.
  { apply not_true_iff_false. intros Hf. apply not_true_iff_false in Hex.
    apply Hex, existsb_exists. exists q. split; [apply list_elem_of_In; exact Hin|exact Hf]. }
  assert (Z.prime q /\ q mod (2 * 2 ^ k) = 1) as [Hprime Hcong].
  { destruct (IsPrime q) eqn:Hp; unfold failsNTT in Hpass; rewrite Hp in Hpass; [|done].
    cbn [negb orb] in Hpass. apply negb_false_iff, Z.eqb_eq in Hpass.
    rewrite land_mask_mod in Hpass by done.
    split; [apply IsPrime_spec; exact Hp|exact Hpass]. }
  rewrite Forall_forall in HQ62, Hroot.
  pose proof (HQ62 _ Hin) as Hq62. pose proof (Hroot _ Hin) as Hrootq.
  assert (0 < 2 ^ k) as Hpos by (apply pow2_pos; lia).
  pose proof (friendly_above q (2 ^ k) Hprime ltac:(lia) Hcong) as Habove.
  assert (1 <= k <= 61) as Hk61.
  { split.
    - destruct (Z.eq_dec k 0) as [->|]; [|lia]. change (2 ^ 0) with 1 in HN0. lia.
    - destruct (Z.le_gt_cases k 61) as [|Hbig]; [done|].
      assert (2 ^ 62 <= 2 ^ k) as Hle by (apply Z.pow_le_mono_r; lia).
      change (2 ^ 62) with 4611686018427387904 in Hle. rewrite modulus_eq in Hq62. lia. }
  rewrite len64_pow2 in Hrows by lia.
  assert (bredParams c1 !! i = Some (BRedParams q)) as Hb1.
  { rewrite Hbred1, list_lookup_fmap, Hq. done. }
  assert (mredParams c1 !! i = Some (MRedParams q)) as Hm1.
  { rewrite Hmred1, list_lookup_fmap, Hq. cbn.
    rewrite (friendly_SetParameters_mred q (2 ^ k)) by (try done; lia). done. }
  destruct (genRow_tables primitiveRoot q k Hprime ltac:(lia) Hcong Hq62 Hrootq
              c1 i (BRedParams q) HN1 Hb1 Hm1)
    as (row & Hrow & Hl1 & Hl2 & Hgood & HrowN).
  apply mapM_Some in Hrows.
  assert (rows !! i = Some row) as Hrowi.
  { destruct (Forall2_lookup_l _ _ _ i (i, q) Hrows) as (row' & Hrow' & Hgen').
    - rewrite list_lookup_imap, Hq. done.
    - cbn [fst snd] in Hgen'. congruence. }
  exists (Z.to_nat k), (rowPsi row), (rowPsiInv row), (rowNInv row), (BRedParams q).
  rewrite Z2Nat.id by lia.
  split; [lia|]. split; [done|]. split; [done|].
  split; [rewrite Hpsi, list_lookup_fmap, Hrowi; done|].
  split; [rewrite HpsiInv, list_lookup_fmap, Hrowi; done|].
  split; [rewrite HnInv, list_lookup_fmap, Hrowi; done|].
  split; [rewrite Hbred; done|]. split; [rewrite Hmred; done|].
  destruct Hprime as [Hq1 Hdiv].
  split; [lia|]. split; [done|].
  split; [apply (friendly_mredParams q (2 ^ k)); try done; lia|].
  split; [apply (friendly_Rinv q (2 ^ k)); try done; lia|].
  split; [done|]. split; [done|].
  split; [intros j Hj; apply Hgood; lia|].
  rewrite HrowN.
  apply (friendly_nInv q (2 ^ k)); try done; lia.
Qed.

End ContextRoundTrip.

Section PolynomialRoundTrip.

Import Ring Shape Transform.

Variable primitiveRoot : Z -> Z.

Lemma context_row_roundtrip c0 c1 ctx N0 Q (i : nat) q r1 r2 r3 :
  2 <= N0 < U64.modulus ->
  Forall (fun q => 4 * q < U64.modulus) Q ->
  Forall (fun q => primitiveRoot q mod q <> 0) Q ->
  SetParameters c0 N0 Q = (c1, None) ->
  GenNTTParams primitiveRoot c1 = Some (ctx, None) ->
  Q !! i = Some q ->
  length r1 = Z.to_nat (N ctx) -> length r2 = Z.to_nat (N ctx) ->
  length r3 = Z.to_nat (N ctx) ->
  (forall j x, r1 !! j = Some x -> 0 <= x < q) ->
  exists psi psiInv nInv bred mred y,
    nttPsi ctx !! i = Some psi /\ nttPsiInv ctx !! i = Some psiInv /\
    nttNInv ctx !! i = Some nInv /\ bredParams ctx !! i = Some bred /\
    mredParams ctx !! i = Some mred /\
    NTT r1 r2 (N ctx) psi q mred bred = Some y /\
    InvNTT y r3 (N ctx) psiInv nInv q mred = Some r1.
Proof.
  intros HN0 HQ62 Hroot Hset Hgen Hq Hl1 Hl2 Hl3 Hcanon.
  destruct (context_row primitiveRoot c0 c1 ctx N0 Q HN0 HQ62 Hroot Hset Hgen i q Hq)
    as (L & psi & psiInv & nInv & bred & HL & HN & _ & Hpsi & HpsiInv & HnInv & Hbred
        & Hmred & Hq0 & Hq62 & HqInv & HRinv & Hlpsi & HlpsiInv & Hgood & HnInvr & HnInvc).
  assert (0 < 2 ^ Z.of_nat L) as Hpos by (apply pow2_pos; lia).
  rewrite HN in *.
  destruct (roundtrip_row q (MRedParams q) (Z.invmod U64.modulus q) Hq0 Hq62 HqInv HRinv
              psi psiInv L HL Hlpsi HlpsiInv Hgood r1 r2 r3 nInv bred)
    as (y & Hntt & Hinv); [lia|lia|lia| |done|done|].
  - intros idx Hidx. apply (Hcanon (Z.to_nat idx)).
    change (at_ r1 idx = Some (get r1 idx)). apply at_get. lia.
  - exists psi, psiInv, nInv, bred, (MRedParams q), y. done.
Qed.

(** C4 (amended). For a context that [SetParameters] and [GenNTTParams]
    have set without error, of degree at least 2 and with moduli below
    2^62 (the generators that [primitiveRoot] returns being nonzero modulo
    their modulus): the context allows the NTT, and for every polynomial
    [p] of the context with canonical residues, [NTT] into [p2] followed
    by [InvNTT] into [p3] returns, and leaves in [p3] the rows of [p], one
    for every modulus. *)
Theorem C4_InvNTT_NTT_round_trip c0 c1 ctx N0 Q p p2 p3 :
  2 <= N0 < U64.modulus ->
  Forall (fun q => 4 * q < U64.modulus) Q ->
  Forall (fun q => primitiveRoot q mod q <> 0) Q ->
  SetParameters c0 N0 Q = (c1, None) ->
  GenNTTParams primitiveRoot c1 = Some (ctx, None) ->
  Shaped ctx p -> Shaped ctx p2 -> Shaped ctx p3 -> Canonical ctx p ->
  AllowsNTT ctx = true /\
  exists p2',
Context_NTT ctx p p2 = Some p2' /\
Context_InvNTT ctx p2' p3 = Some (take (length Q) p ++ drop (length Q) p3).
Proof.
  intros HN0 HQ62 Hroot Hset Hgen [Hp Hprow] [Hp2 Hp2row] [Hp3 Hp3row] Hcanon.
  destruct (SetParameters_fields _ _ _ _ Hset) as (HN1 & HM1 & Hntt1 & _).
  destruct (GenNTTParams_inv _ _ _ Hntt1 Hgen) as (_ & _ & rows & _ & _ & HMc & Hallow & _).
  assert (moduli ctx = Q) as Hmod by (unfold moduli; rewrite HMc, HM1; done).
  rewrite Hmod in *.
  split; [exact Hallow|].
  assert (forall i q, Q !! i = Some q ->
    exists r1 r2 r3 psi psiInv nInv bred mred y,
      p !! i = Some r1 /\ p2 !! i = Some r2 /\ p3 !! i = Some r3 /\
      nttPsi ctx !! i = Some psi /\ nttPsiInv ctx !! i = Some psiInv /\
      nttNInv ctx !! i = Some nInv /\ bredParams ctx !! i = Some bred /\
      mredParams ctx !! i = Some mred /\
      NTT r1 r2 (N ctx) psi q mred bred = Some y /\
      InvNTT y r3 (N ctx) psiInv nInv q mred = Some r1) as Hrows.
  { intros i q Hq. pose proof (lookup_lt_Some _ _ _ Hq) as Hi.
    destruct (lookup_lt_is_Some_2 p i ltac:(lia)) as [r1 Hr1].
    destruct (lookup_lt_is_Some_2 p2 i ltac:(lia)) as [r2 Hr2].
    destruct (lookup_lt_is_Some_2 p3 i ltac:(lia)) as [r3 Hr3].
    destruct (context_row_roundtrip c0 c1 ctx N0 Q i q r1 r2 r3)
      as (psi & psiInv & nInv & bred & mred & y & H1 & H2 & H3 & H4 & H5 & H6 & H7);
      try done; eauto.
    - intros j x Hx. apply (Hcanon i q r1 j x); try done.
      + rewrite Hmod. done.
      + apply lookup_lt_Some in Hx. rewrite (Hprow i r1 Hi Hr1) in Hx. done.
    - exists r1, r2, r3, psi, psiInv, nInv, bred, mred, y. done. }
  destruct (forModuli_total ctx
    (fun x q r2 =>
       r1 ← p !! x; psi ← nttPsi ctx !! x; mred ← mredParams ctx !! x;
       bred ← bredParams ctx !! x; NTT r1 r2 (N ctx) psi q mred bred) p2)
    as [p2' Hp2'].
  { intros i q Hq. rewrite Hmod in Hq.
    destruct (Hrows i q Hq)
      as (r1 & r2 & r3 & psi & psiInv & nInv & bred & mred & y
          & H1 & H2 & H3 & H4 & H5 & H6 & H7 & H8 & H9 & H10).
    exists r2, y. split; [done|]. rewrite H1, H4, H8, H7. cbn [mbind option_bind]. done. }
  exists p2'. split; [exact Hp2'|].
  apply forModuli_spec in Hp2' as (Hlen2 & Hrows2 & _).
  apply forModuli_spec. rewrite Hmod.
  split; [rewrite length_app, length_take, length_drop; lia|]. split.
  - intros i q Hq. pose proof (lookup_lt_Some _ _ _ Hq) as Hi.
    destruct (Hrows i q Hq)
      as (r1 & r2 & r3 & psi & psiInv & nInv & bred & mred & y
          & H1 & H2 & H3 & H4 & H5 & H6 & H7 & H8 & H9 & H10).
    destruct (Hrows2 i q) as (r2' & y' & Hr2' & Hy' & Hp2i); [rewrite Hmod; done|].
    rewrite H1, H4, H8, H7 in Hy'. cbn [mbind option_bind] in Hy'.
    assert (r2' = r2) as -> by congruence.
    assert (y' = y) as -> by congruence.
    exists r3, r1. split; [done|]. split.
    + rewrite Hp2i, H5, H6, H8. cbn [mbind option_bind]. done.
    + rewrite lookup_app_l by (rewrite length_take; lia).
      rewrite lookup_take_lt by lia. done.
  - intros i Hi. rewrite lookup_app_r by (rewrite length_take; lia).
    rewrite length_take, lookup_drop. f_equal. lia.
Qed.

End PolynomialRoundTrip.

Section RoundTripExamples.

Import Ring Shape Examples.

Lemma Canonical_ring17 (x y : Z) :
  0 <= x < 17 -> 0 <= y < 17 -> Canonical ring17 [[x; y]].
Proof.
  intros Hx Hy i q r j z Hq Hr Hj Hz.
  destruct i as [|i]; [|vm_compute in Hq; discriminate Hq].
  vm_compute in Hq. injection Hq as <-. injection Hr as <-.
  destruct j as [|[|j]]; [injection Hz as <-; done|injection Hz as <-; done|].
  vm_compute in Hj. lia.
Qed.

(** The round trip of [[1, 2]] over the chain (17), into receivers that
    hold other coefficients. *)
Lemma C4_round_trip_witness :
  AllowsNTT ring17 = true /\
  exists p2',
Context_NTT ring17 [[1; 2]] [[0; 0]] = Some p2' /\
Context_InvNTT ring17 p2' [[5; 5]]
= Some (take (length [17]) [[1; 2]] ++ drop (length [17]) [[5; 5]]).
Proof.
  apply (C4_InvNTT_NTT_round_trip (fun _ => 3) NewContext
           (SetParameters NewContext 2 [17]).1 ring17 2 [17]).
  - rewrite modulus_eq. lia.
  - apply Forall_cons_2; [rewrite modulus_eq; lia|apply Forall_nil_2].
  - apply Forall_cons_2; [vm_compute; discriminate|apply Forall_nil_2].
  - reflexivity.
  - vm_compute. reflexivity.
  - apply Shaped_ring17.
  - apply Shaped_ring17.
  - apply Shaped_ring17.
  - apply Canonical_ring17; lia.
Defined.

(** C4, as stated, fails in degree 1: the context of degree 1 over the
    chain (3) allows the NTT, and the forward transform of a canonical
    polynomial panics, the table of powers having one entry only. *)
Lemma C4_degree_one_panics :
  exists ctx,
    GenNTTParams (fun _ => 2) (SetParameters NewContext 1 [3]).1 = Some (ctx, None) /\
    AllowsNTT ctx = true /\ Shaped ctx [[1]] /\ Canonical ctx [[1]] /\
Context_NTT ctx [[1]] [[1]] = None.
Proof.
  eexists. split; [vm_compute; reflexivity|].
  split; [reflexivity|]. split; [|split].
  - split; [vm_compute; lia|].
    intros [|i] r Hi Hr; [injection Hr as <-; reflexivity|].
    vm_compute in Hi. lia.
  - intros i q r j z Hq Hr Hj Hz.
    destruct i as [|i]; [|vm_compute in Hq; discriminate Hq].
    vm_compute in Hq. injection Hq as <-. injection Hr as <-.
    destruct j as [|j]; [injection Hz as <-; done|].
    vm_compute in Hj. lia.
  - vm_compute. reflexivity.
Qed.

End RoundTripExamples.


(** ** The key switching loop *)

Section Folds.

(** A loop over a slice whose body may panic, with an invariant that
    counts the elements done. *)
Lemma foldl_option_inv {A B} (f : A -> B -> option A) (Inv : nat -> A -> Prop)
    (l : list B) (a a' : A) :
  foldl (fun acc x => s ← acc; f s x) (Some a) l = Some a' ->
  Inv 0%nat a ->
  (forall i x s s', l !! i = Some x -> Inv i s -> f s x = Some s' -> Inv (S i) s') ->
  Inv (length l) a'.
Proof.
  revert a'. induction l as [|x l IH] using rev_ind; intros a' Hrun H0 Hstep.
  - injection Hrun as <-. exact H0.
  - rewrite foldl_app in Hrun. cbn [foldl] in Hrun.
    apply bind_Some in Hrun as (s & Hs & Hf).
    rewrite length_app. cbn [length]. rewrite Nat.add_1_r.
    apply (Hstep (length l) x s a'); [|apply IH|exact Hf].
    + rewrite lookup_app_r, Nat.sub_diag by lia. done.
    + exact Hs.
    + exact H0.
    + intros i y s0 s1 Hy. apply Hstep. rewrite lookup_app_l; [done|].
      eapply lookup_lt_Some; eauto.
Qed.

End Folds.

Section KeySwitchLoop.

Import Ring Mem Shape KeySwitch.

Context {E : Type} `{Element E}.

Variables (context : Context) (ctOut : loc).
Hypothesis Hpos : Forall (fun q => 0 < q) (moduli context).

Lemma apply1_Val_inv op l i (st st' : Store E) :
  apply1 op (Val l i) (Val l i) st = Some st' ->
  exists e a r,
    getEl st l = Some e /\ value e !! Z.to_nat i = Some a /\ op a a = Some r /\
    st' = setEl st l (withValue (<[Z.to_nat i := r]> (value e)) e).
Proof.
  unfold apply1. cbn [readPoly writePoly]. intros Hrun.
  apply bind_Some in Hrun as (a & Ha & Hrun).
  apply bind_Some in Ha as (e & He & Ha).
  apply bind_Some in Hrun as (d & Hd & Hrun).
  apply bind_Some in Hrun as (r & Hr & Hrun).
  rewrite He in Hd, Hrun. cbn [mbind option_bind] in Hd, Hrun.
  assert (d = a) as -> by congruence.
  apply bind_Some in Hrun as (v & Hv & [= <-]).
  apply set_inv in Hv as [_ ->].
  exists e, a, r. done.
Qed.

Lemma getEl_setEl (st : Store E) l e : getEl (setEl st l e) l = Some e.
Proof. unfold getEl, setEl. cbn [heap]. apply lookup_insert_eq. Qed.

(** The two [Reduce] calls leave canonical accumulators. *)
Lemma reduceBoth_canonical (st st' : Store E) :
  reduceBoth context ctOut st = Some st' -> OutCanonical context ctOut st'.
Proof.
  unfold reduceBoth. intros Hrun.
  apply bind_Some in Hrun as (st1 & H0 & H1).
  apply apply1_Val_inv in H0 as (e0 & a0 & r0 & He0 & Ha0 & Hr0 & ->).
  apply apply1_Val_inv in H1 as (e1 & a1 & r1 & He1 & Ha1 & Hr1 & ->).
  rewrite getEl_setEl in He1. injection He1 as <-.
  rewrite value_withValue in *.
  change (Z.to_nat 0) with 0%nat in *. change (Z.to_nat 1) with 1%nat in *.
  eexists _, r0, r1. split; [apply getEl_setEl|].
  rewrite value_withValue.
  apply lookup_lt_Some in Ha0. apply lookup_lt_Some in Ha1.
  rewrite length_insert in Ha1.
  split.
  { rewrite list_lookup_insert_ne by lia. apply list_lookup_insert_eq. done. }
  split.
  { apply list_lookup_insert_eq. rewrite length_insert. done. }
  split; eapply Reduce_Canonical; eauto.
Qed.

Lemma sub_add_one r : U64.inrange r -> U64.sub (U64.add r 1) 1 = r.
Proof.
  intros Hr. unfold U64.sub, U64.add, U64.wrap.
  rewrite Zminus_mod_idemp_l. replace (r + 1 - 1) with r by lia.
  apply Z.mod_small. exact Hr.
Qed.

(** One multiply-accumulate step: the counter goes up by one, and a step
    that is a reduction point leaves canonical accumulators. *)
Lemma switchKeysStep_stepped n c2 c2qiw key mask0 (i : nat) j (s s' : Store E * Z) :
  U64.inrange s.2 ->
  switchKeysStep context n c2 c2qiw key ctOut mask0 i j s = Some s' ->
  s'.2 = U64.add s.2 1 /\ stepped context ctOut s'.
Proof.
  intros Hr Hrun. unfold switchKeysStep in Hrun. cbv zeta in Hrun.
  do 14 (apply bind_Some in Hrun as (? & _ & Hrun)).
  apply bind_Some in Hrun as (st4 & Hif & [= <-]). cbn [fst snd].
  split; [done|]. split; [apply wrap_range|].
  unfold afterReduction. cbn [fst snd]. rewrite sub_add_one by done. intros Hland.
  rewrite Hland, Z.eqb_refl in Hif.
  eapply reduceBoth_canonical; eauto.
Qed.

(** The steps of one modulus. *)
Lemma switchKeysDigits_stepped n c2 c2qiw key mask0 (i : nat) bitLog
    (started : Prop) (s s' : Store E * Z) :
  0 <= bitLog ->
  U64.inrange s.2 -> (started -> stepped context ctOut s) ->
  for_range 0 bitLog (switchKeysStep context n c2 c2qiw key ctOut mask0 i) s = Some s' ->
  U64.inrange s'.2 /\ (0 < bitLog \/ started -> stepped context ctOut s').
Proof.
  intros Hb Hr Hs Hrun.
  apply (for_range_inv
    (fun j (s : Store E * Z) =>
       U64.inrange s.2 /\ (0 < j \/ started -> stepped context ctOut s))
    _ 0 bitLog s s' Hb Hrun).
  - split; [done|]. intros [?|?]; [lia|auto].
  - intros j s0 s1 Hj [Hr0 _] Hstep.
    apply switchKeysStep_stepped in Hstep as [Hc Hst]; [|done].
    split; [apply Hst|]. intros _. exact Hst.
Qed.

(** The key switching loop returns with canonical accumulators, as soon as
    it makes one step. *)
Lemma switchKeysLoop_canonical n c2 c2qiw key (st st' : Store E) :
  HasDigit context key ->
  switchKeysLoop context n c2 c2qiw key ctOut st = Some st' ->
  OutCanonical context ctOut st'.
Proof.
  intros (i0 & row0 & Hi0 & Hrow0 & Hne) Hrun. unfold switchKeysLoop in Hrun.
  cbv zeta in Hrun. apply bind_Some in Hrun as (s & Hfold & Hfin).
  assert (U64.inrange s.2 /\
          ((exists (i : nat) row, (i < length (imap pair (moduli context)))%nat /\
              evakey key !! i = Some row /\ row <> []) ->
           stepped context ctOut s)) as [Hr Hst].
  { apply (foldl_option_inv
      (fun (s : Store E * Z) (iq : nat * Z) =>
         row ← evakey key !! iq.1;
         for_range 0 (Z.of_nat (length row))
           (switchKeysStep context n c2 c2qiw key ctOut
              (U64.sub (U64.shl 1 (bitDecomp key)) 1) iq.1) s)
      (fun (k : nat) (s : Store E * Z) =>
         U64.inrange s.2 /\
         ((exists (i : nat) row, (i < k)%nat /\ evakey key !! i = Some row /\ row <> []) ->
          stepped context ctOut s))
      _ (st, 0) s Hfold).
    - cbn [snd]. split; [unfold U64.inrange; rewrite modulus_eq; lia|].
      intros (i & row & Hi & _). lia.
    - intros k [k' q] s0 s1 Hk [Hr0 Hst0] Hstep.
      rewrite list_lookup_imap in Hk.
      destruct (moduli context !! k) as [q'|]; [|discriminate]. injection Hk as <- <-.
      cbn [fst] in Hstep. apply bind_Some in Hstep as (row & Hrow & Hloop).
      apply (switchKeysDigits_stepped n c2 c2qiw key _ k (Z.of_nat (length row))
               (exists (i : nat) row, (i < k)%nat /\ evakey key !! i = Some row /\ row <> []))
        in Hloop as [Hr1 Hst1]; [|lia|done|done].
      split; [done|]. intros (i & row' & Hi & Hrow' & Hne').
      apply Hst1. destruct (decide (i = k)) as [->|].
      + left. assert (row' = row) as -> by congruence.
        destruct row; [done|]. cbn [length]. lia.
      + right. exists i, row'. split; [lia|]. done. }
  rewrite length_imap in Hst.
  destruct (Hst (ex_intro _ i0 (ex_intro _ row0 (conj Hi0 (conj Hrow0 Hne))))) as [_ Hcan].
  destruct (Z.eqb_spec (Z.land (U64.sub s.2 1) 7) 7) as [Hland|Hland].
  - cbn [negb] in Hfin. injection Hfin as <-. apply Hcan. exact Hland.
  - cbn [negb] in Hfin. eapply reduceBoth_canonical; eauto.
Qed.

End KeySwitchLoop.

Section KeySwitchRoutines.

Import Ring Mem Shape KeySwitch.


End KeySwitchRoutines.

Section KeySwitchExamples.

Import Ring Mem Shape KeySwitch Examples.


End KeySwitchExamples.


(** ** Rescaling *)

Section RowTransformsReturn.

Import Ring Transform.

Lemma NTT_total (L : nat) coeffsIn coeffsOut psi Q Qinv bred :
  (1 <= L <= 63)%nat ->
  Z.of_nat (length coeffsIn) = 2 ^ Z.of_nat L ->
  Z.of_nat (length coeffsOut) = 2 ^ Z.of_nat L ->
  Z.of_nat (length psi) = 2 ^ Z.of_nat L ->
  exists y, NTT coeffsIn coeffsOut (2 ^ Z.of_nat L) psi Q Qinv bred = Some y /\
            Z.of_nat (length y) = 2 ^ Z.of_nat L.
Proof.
  intros HL Hin Hout Hpsi. rewrite (NTT_spec psi Q Qinv L) by done.
  eexists. split; [reflexivity|]. rewrite length_map, length_forward. done.
Qed.

Lemma InvNTT_total (L : nat) coeffsIn coeffsOut psiInv nInv Q Qinv :
  (1 <= L <= 63)%nat ->
  Z.of_nat (length coeffsIn) = 2 ^ Z.of_nat L ->
  Z.of_nat (length coeffsOut) = 2 ^ Z.of_nat L ->
  Z.of_nat (length psiInv) = 2 ^ Z.of_nat L ->
  exists y, InvNTT coeffsIn coeffsOut (2 ^ Z.of_nat L) psiInv nInv Q Qinv = Some y /\
            Z.of_nat (length y) = 2 ^ Z.of_nat L.
Proof.
  intros HL Hin Hout Hpsi. rewrite (InvNTT_spec psiInv Q Qinv L) by done.
  eexists. split; [reflexivity|]. rewrite length_map, length_backward. done.
Qed.

Lemma rowZip_total f N0 a b dst :
  length a = Z.to_nat N0 -> length b = Z.to_nat N0 -> length dst = Z.to_nat N0 ->
  exists r, rowZip f N0 a b dst = Some r /\ length r = Z.to_nat N0.
Proof.
  intros Ha Hb Hd. unfold rowZip. rewrite decide_True by lia.
  eexists. split; [reflexivity|].
  rewrite length_app, length_zip_with, !length_take, length_drop. lia.
Qed.

End RowTransformsReturn.

Section RescaleRows.

Import Ring Mem Rescaling.

Variable CRed : Z -> Z -> Z.
Variable evaluator : Ckks.Evaluator.
Variables (L level : nat).

Hypothesis HL : (1 <= L <= 63)%nat.
Hypothesis Hn : Ckks.n (Ckks.ckkscontext evaluator) = 2 ^ Z.of_nat L.
Hypothesis Hlevel : Z.of_nat level + 1 < U64.modulus.
Hypothesis Hready : levelReady (Ckks.ckkscontext evaluator) L level.

Lemma rescaleRow_shape context params i s :
  Ckks.contextLevel (Ckks.ckkscontext evaluator) !! level = Some context ->
  Ckks.rescalParams (Ckks.ckkscontext evaluator) !! (level - 1)%nat = Some params ->
  0 <= i < Z.of_nat level -> rowsShape L level s ->
  exists s', Ckks.rescaleRow CRed evaluator context level i s = Some s' /\ rowsShape L level s'.
Proof.
  intros Hctx Hparams Hi ((Hlen & Hrows) & tmp0 & Htmp & Htmplen).
  destruct Hready as (context' & params' & Hctx' & HN & H1 & H2 & H3 & H4 & H5 & H6
                      & Hpsi & HpsiInv & Hmod & Hparams' & Hplen).
  assert (context' = context) as -> by congruence.
  assert (params' = params) as -> by congruence.
  destruct s as [p pTmp]. cbn [fst snd] in *. unfold Ckks.rescaleRow.
  destruct (lookup_lt_is_Some_2 p level ltac:(lia)) as [top Htop].
  rewrite Htop, Htmp. cbn [mbind option_bind].
  destruct (at_is_Some (nttPsi context) i ltac:(lia)) as [psi Hpsii].
  destruct (at_is_Some (moduli context) i ltac:(lia)) as [q Hq].
  destruct (at_is_Some (mredParams context) i ltac:(lia)) as [mred Hmred].
  destruct (at_is_Some (bredParams context) i ltac:(lia)) as [bred Hbred].
  destruct (at_is_Some (Ckks.moduli (Ckks.ckkscontext evaluator)) i ltac:(lia)) as [Qi HQi].
  destruct (at_is_Some params i ltac:(lia)) as [InvQl HInvQl].
  destruct (at_is_Some p i ltac:(lia)) as [row Hrow].
  rewrite Hpsii, Hq, Hmred, Hbred. cbn [mbind option_bind].
  rewrite Forall_forall in Hrows, Hpsi.
  assert (Z.of_nat (length top) = 2 ^ Z.of_nat L) as Htoplen
    by (apply Hrows; eapply list_elem_of_lookup_2; exact Htop).
  assert (Z.of_nat (length row) = 2 ^ Z.of_nat L) as Hrowlen
    by (apply Hrows; eapply list_elem_of_lookup_2; exact Hrow).
  assert (Z.of_nat (length psi) = 2 ^ Z.of_nat L) as Hpsilen
    by (apply Hpsi; eapply list_elem_of_lookup_2; exact Hpsii).
  rewrite HN.
  destruct (NTT_total L top tmp0 psi q mred bred HL Htoplen Htmplen Hpsilen)
    as (tmp0' & -> & Htmp'len).
  cbn [mbind option_bind]. rewrite HQi, Hparams. cbn [mbind option_bind].
  rewrite HInvQl, Hrow. cbn [mbind option_bind]. rewrite Hn.
  match goal with
  | |- context [rowZip ?f ?n row tmp0' row] =>
      destruct (rowZip_total f n row tmp0' row) as (row' & -> & Hrow'len); [lia..|]
  end.
  cbn [mbind option_bind]. rewrite set_Some by lia. cbn [mbind option_bind].
  eexists. split; [reflexivity|]. unfold rowsShape, polyOfLevel. cbn [fst snd].
  rewrite length_insert. split; [split; [done|]|].
  - apply Forall_insert; [apply Forall_forall; exact Hrows|lia].
  - exists tmp0'. split; [|done]. apply list_lookup_insert_eq.
    eapply lookup_lt_Some; exact Htmp.
Qed.

End RescaleRows.

Section RescalePolynomial.

Import Ring Mem Rescaling.

Variable CRed : Z -> Z -> Z.
Variable evaluator : Ckks.Evaluator.
Variables (L level : nat).

Hypothesis HL : (1 <= L <= 63)%nat.
Hypothesis Hn : Ckks.n (Ckks.ckkscontext evaluator) = 2 ^ Z.of_nat L.
Hypothesis Hlevel : Z.of_nat level + 1 < U64.modulus.
Hypothesis Hlevel1 : (1 <= level)%nat.
Hypothesis Hready : levelReady (Ckks.ckkscontext evaluator) L level.

(** [rescale] on a polynomial of the receiver: it returns, and the
    polynomial has lost its top row. *)
Lemma rescale_Val c1 i (st : Ckks.State) e p :
  getEl st c1 = Some e -> 0 <= i -> Ckks.value e !! Z.to_nat i = Some p ->
  polyOfLevel L level p ->
  poolReady L (pool st) ->
  exists st' p',
    Ckks.rescale CRed evaluator (Val c1 i) st = Some st' /\
    polyOfLevel L (level - 1) p' /\
    getEl st' c1 = Some (withValue (<[Z.to_nat i := p']> (Ckks.value e)) e) /\
    poolReady L (pool st').
Proof.
  intros He Hi Hp [Hplen Hprows] (pTmp & HpTmp & Hscratch).
  pose proof Hready as (context & params & Hctx & HN & H1 & H2 & H3 & H4 & H5 & H6
                        & Hpsi & HpsiInv & Hmod & Hparams & Hparamslen).
  unfold Ckks.rescale. cbn [readPoly]. rewrite He. cbn [mbind option_bind].
  unfold at_ at 1. change (Mem.value e) with (Ckks.value e). rewrite Hp.
  cbn [mbind option_bind]. rewrite Hplen, Hctx, HpTmp. cbn [mbind option_bind].
  destruct (lookup_lt_is_Some_2 p level ltac:(lia)) as [top Htop].
  destruct (lookup_lt_is_Some_2 (nttPsiInv context) level ltac:(lia)) as [psiInv HpsiInvl].
  destruct (lookup_lt_is_Some_2 (nttNInv context) level ltac:(lia)) as [nInv HnInv].
  destruct (lookup_lt_is_Some_2 (moduli context) level ltac:(lia)) as [q Hq].
  destruct (lookup_lt_is_Some_2 (mredParams context) level ltac:(lia)) as [mred Hmred].
  rewrite Htop, HpsiInvl, HnInv, Hq, Hmred. cbn [mbind option_bind].
  rewrite Forall_forall in Hprows, HpsiInv.
  assert (Z.of_nat (length top) = 2 ^ Z.of_nat L) as Htoplen
    by (apply Hprows; eapply list_elem_of_lookup_2; exact Htop).
  assert (Z.of_nat (length psiInv) = 2 ^ Z.of_nat L) as HpsiInvlen
    by (apply HpsiInv; eapply list_elem_of_lookup_2; exact HpsiInvl).
  rewrite HN.
  destruct (InvNTT_total L top top psiInv nInv q mred HL Htoplen Htoplen HpsiInvlen)
    as (top' & -> & Htop'len).
  cbn [mbind option_bind].
  destruct (for_range_total (fun (_ : Z) (s : Poly * Poly) => rowsShape L level s)
              (Ckks.rescaleRow CRed evaluator context level) 0 (Z.of_nat level)
              (<[level := top']> p, pTmp))
    as (s & -> & [[Hslen Hsrows] Hsscratch]).
  - lia.
  - split; [|exact Hscratch]. split; cbn [fst]; [rewrite length_insert; done|].
    apply Forall_insert; [apply Forall_forall; exact Hprows|done].
  - intros j s0 Hj Hs0.
    apply (rescaleRow_shape CRed evaluator L level HL Hn Hready context params j s0
             Hctx Hparams Hj Hs0).
  - cbn [mbind option_bind writePoly].
    apply lookup_lt_Some in HpTmp as Hpool.
    rewrite decide_True by done. cbn [mbind option_bind].
    unfold getEl at 1. cbn [heap]. fold (getEl st c1). rewrite He.
    cbn [mbind option_bind].
    apply lookup_lt_Some in Hp as Hvlen.
    change (Mem.value e) with (Ckks.value e).
    rewrite set_Some by lia. cbn [mbind option_bind].
    eexists _, (take level s.1). split; [reflexivity|]. split.
    + split; [rewrite length_take; lia|]. apply Forall_take. exact Hsrows.
    + split; [apply getEl_setEl|]. cbn [pool].
      exists s.2. split; [apply list_lookup_insert_eq; done|exact Hsscratch].
Qed.

End RescalePolynomial.

Section RescaleElement.

Import Ring Mem Rescaling.

Variable CRed : Z -> Z -> Z.
Variable evaluator : Ckks.Evaluator.
Variables (L : nat).

(** The loop [for i := range c1.value { rescale(c1.value[i]) }]. *)
Lemma rescale_all level c1 (st : Ckks.State) e :
  (1 <= L <= 63)%nat ->
  Ckks.n (Ckks.ckkscontext evaluator) = 2 ^ Z.of_nat L ->
  (1 <= level)%nat ->
  levelReady (Ckks.ckkscontext evaluator) L level ->
  getEl st c1 = Some e -> elementOfLevel L level e -> poolReady L (pool st) ->
  exists st' e',
    for_range 0 (Z.of_nat (length (Ckks.value e)))
      (fun i st => Ckks.rescale CRed evaluator (Val c1 i) st) st = Some st' /\
    getEl st' c1 = Some e' /\ elementOfLevel L (level - 1) e' /\
    Ckks.scale e' = Ckks.scale e /\ Ckks.isNTT e' = Ckks.isNTT e /\
    length (Ckks.value e') = length (Ckks.value e) /\
    poolReady L (pool st').
Proof.
  intros HL Hn Hlev1 Hready He [Hne Hpolys] Hpool.
  destruct (for_range_total
    (fun (i : Z) (st : Ckks.State) =>
       exists e', getEl st c1 = Some e' /\
         Ckks.scale e' = Ckks.scale e /\ Ckks.isNTT e' = Ckks.isNTT e /\
         length (Ckks.value e') = length (Ckks.value e) /\
         (forall (k : nat) p, Ckks.value e' !! k = Some p ->
            polyOfLevel L (if decide (Z.of_nat k < i) then level - 1 else level) p) /\
         poolReady L (pool st))
    (fun i st => Ckks.rescale CRed evaluator (Val c1 i) st)
    0 (Z.of_nat (length (Ckks.value e))) st)
    as (st' & Hrun & e' & He' & Hsc & Hntt & Hlen & Hall & Hpool').
  - lia.
  - exists e. split; [done|]. split; [done|]. split; [done|]. split; [done|].
    split; [|done]. intros k p Hk. rewrite decide_False by lia.
    rewrite Forall_forall in Hpolys. apply Hpolys. eapply list_elem_of_lookup_2; exact Hk.
  - intros i st0 Hi (e0 & He0 & Hsc0 & Hntt0 & Hlen0 & Hall0 & Hpool0).
    destruct (lookup_lt_is_Some_2 (Ckks.value e0) (Z.to_nat i) ltac:(lia)) as [p Hp].
    pose proof (Hall0 _ _ Hp) as Hpl. rewrite decide_False in Hpl by lia.
    destruct (rescale_Val CRed evaluator L level HL Hn Hlev1 Hready c1 i st0 e0 p
                He0 ltac:(lia) Hp Hpl Hpool0) as (st1 & p' & Hrun & Hp' & He1 & Hpool1).
    exists st1. split; [exact Hrun|].
    eexists. split; [exact He1|]. cbn [withValue Ckks.ckksElement_Element Ckks.scale
      Ckks.isNTT Ckks.value].
    split; [done|]. split; [done|]. split; [rewrite length_insert; done|].
    split; [|done]. intros k p0 Hk.
    destruct (decide (k = Z.to_nat i)) as [->|Hne'].
    + rewrite list_lookup_insert_eq in Hk by (eapply lookup_lt_Some; exact Hp).
      injection Hk as <-. rewrite decide_True by lia. exact Hp'.
    + rewrite list_lookup_insert_ne in Hk by done.
      pose proof (Hall0 _ _ Hk) as Hk0.
      destruct (decide (Z.of_nat k < i)); [rewrite decide_True by lia; done|].
      rewrite decide_False by lia. done.
  - exists st', e'. split; [exact Hrun|]. split; [exact He'|]. split.
    + split; [intros Hnil; rewrite Hnil in Hlen; destruct (Ckks.value e); done|].
      apply Forall_forall. intros p Hp.
      apply list_elem_of_lookup in Hp as [k Hk].
      pose proof (Hall _ _ Hk) as Hpl.
      apply lookup_lt_Some in Hk. rewrite decide_True in Hpl by lia. exact Hpl.
    + done.
Qed.

Lemma Level_elementOfLevel level e :
  Z.of_nat level + 1 < U64.modulus -> elementOfLevel L level e ->
  Ckks.Level e = Some (Z.of_nat level).
Proof.
  intros Hlev [Hne Hpolys]. unfold Ckks.Level.
  destruct (Ckks.value e) as [|p v] eqn:Hv; [done|]. cbn [lookup list_lookup].
  cbn [mbind option_bind]. apply Forall_cons in Hpolys as [[Hlen _] _].
  rewrite Hlen. f_equal. replace (Z.of_nat (S level) - 1) with (Z.of_nat level) by lia.
  apply wrap_small. unfold U64.inrange. lia.
Qed.

Lemma rescaleSchedule_S logScale0 scalechain0 level scale0 sc :
  scalechain0 !! S level = Some sc ->
  rescaleSchedule logScale0 scalechain0 (S level) scale0
  = if U64.add logScale0 sc <=? scale0
    then rescaleSchedule logScale0 scalechain0 level (U64.sub scale0 sc)
    else (scale0, S level).
Proof. intros Hsc. cbn [rescaleSchedule]. rewrite Hsc. done. Qed.

(** The loop of [Rescale]: it returns, at the scale and the level of the
    schedule. *)
Lemma rescaleLoop_schedule (level : nat) :
  forall fuel c1 (st : Ckks.State) e,
    (level <= fuel)%nat ->
    rescaleReady (Ckks.ckkscontext evaluator) L level ->
    getEl st c1 = Some e -> elementOfLevel L level e -> poolReady L (pool st) ->
    exists st' e',
      Ckks.rescaleLoop CRed evaluator fuel c1 st = Some st' /\
      getEl st' c1 = Some e' /\
      let final := rescaleSchedule (Ckks.logScale (Ckks.ckkscontext evaluator))
                     (Ckks.scalechain (Ckks.ckkscontext evaluator)) level (Ckks.scale e) in
      Ckks.scale e' = final.1 /\ elementOfLevel L final.2 e' /\
      Ckks.isNTT e' = Ckks.isNTT e /\
      length (Ckks.value e') = length (Ckks.value e).
Proof.
  induction level as [|level IH];
    intros fuel c1 st e Hfuel (HL & Hn & Hmod & Hchain & Hlevels) He Hel Hpool.
  - destruct (Hchain 0%nat ltac:(lia)) as [sc Hsc].
    exists st, e. split.
    + destruct fuel; cbn [Ckks.rescaleLoop]; rewrite He; cbn [mbind option_bind];
        rewrite (Level_elementOfLevel 0 e) by done; cbn [mbind option_bind];
        unfold at_; change (Z.to_nat (Z.of_nat 0)) with 0%nat; rewrite Hsc;
        cbn [mbind option_bind]; rewrite andb_false_r; done.
    + split; [done|]. cbn [rescaleSchedule fst snd]. done.
  - destruct (Hchain (S level) ltac:(lia)) as [sc Hsc].
    destruct (Hlevels (S level) ltac:(lia)) as [Hready [q Hq]].
    cbv zeta. rewrite (rescaleSchedule_S _ _ _ _ sc Hsc).
    assert (Ckks.rescaleLoop CRed evaluator fuel c1 st
            = if U64.add (Ckks.logScale (Ckks.ckkscontext evaluator)) sc <=? Ckks.scale e
              then match fuel with
                   | O => None
                   | S fuel' =>
                       st ← Ckks.SetScale c1 (U64.sub (Ckks.scale e) sc) st;
                       e ← getEl st c1;
                       q ← at_ (Ckks.moduli (Ckks.ckkscontext evaluator)) (Z.of_nat (S level));
                       st ← Ckks.SetCurrentModulus c1
                              (Ckks.DivRound (Ckks.currentModulus e) q) st;
                       st ← for_range 0 (Z.of_nat (length (Ckks.value e)))
                              (fun i st => Ckks.rescale CRed evaluator (Val c1 i) st) st;
                       Ckks.rescaleLoop CRed evaluator fuel' c1 st
                   end
              else Some st) as ->.
    { destruct fuel; cbn [Ckks.rescaleLoop]; rewrite He; cbn [mbind option_bind];
        rewrite (Level_elementOfLevel (S level) e) by done; cbn [mbind option_bind];
        unfold at_; rewrite !Nat2Z.id, Hsc; cbn [mbind option_bind];
        (replace (0 <? Z.of_nat (S level)) with true by (symmetry; apply Z.ltb_lt; lia));
        rewrite andb_true_r; done. }
    destruct (U64.add (Ckks.logScale (Ckks.ckkscontext evaluator)) sc <=? Ckks.scale e).
    + destruct fuel as [|fuel]; [lia|].
      unfold Ckks.SetScale. rewrite He. cbn [mbind option_bind].
      rewrite getEl_setEl. cbn [mbind option_bind].
      unfold at_ at 1. rewrite Nat2Z.id, Hq. cbn [mbind option_bind].
      unfold Ckks.SetCurrentModulus. rewrite getEl_setEl. cbn [mbind option_bind].
      cbn [Ckks.value Ckks.scale Ckks.currentModulus Ckks.isNTT].
      set (e2 := Ckks.mkElement (Ckks.value e) (U64.sub (Ckks.scale e) sc)
                   (Ckks.DivRound (Ckks.currentModulus e) q) (Ckks.isNTT e)).
      set (st2 := setEl (setEl st c1 _) c1 e2).
      destruct (rescale_all (S level) c1 st2 e2 HL Hn ltac:(lia) Hready)
        as (st3 & e3 & Hrun & He3 & Hel3 & Hsc3 & Hntt3 & Hlen3 & Hpool3).
      { apply getEl_setEl. }
      { exact Hel. }
      { exact Hpool. }
      change (Ckks.value e2) with (Ckks.value e) in Hrun. rewrite Hrun.
      cbn [mbind option_bind].
      replace (S level - 1)%nat with level in Hel3 by lia.
      destruct (IH fuel c1 st3 e3) as (st' & e' & Hloop & He' & Hfin); [lia| |done|done|done|].
      { split; [done|]. split; [done|]. split; [lia|].
        split; [intros l Hl; apply Hchain; lia|intros l Hl; apply Hlevels; lia]. }
      exists st', e'. split; [exact Hloop|]. split; [exact He'|].
      rewrite Hsc3 in Hfin. unfold e2 in Hfin, Hntt3, Hlen3.
      cbn [Ckks.scale Ckks.isNTT Ckks.value] in Hfin, Hntt3, Hlen3.
      destruct Hfin as (H1 & H2 & H3 & H4).
      split; [exact H1|]. split; [exact H2|]. split; [congruence|]. congruence.
    + exists st, e. split; [done|]. split; [done|]. cbn [fst snd]. done.
Qed.

End RescaleElement.

Section CopyElement.

Import Ring Mem Rescaling.

Lemma copy_rows (a d : Poly) (n : Z) :
  length a = length d ->
  Forall (fun r : list Z => Z.of_nat (length r) = n) a ->
  Forall (fun r : list Z => Z.of_nat (length r) = n) d ->
  mapM (fun ab : list Z * list Z =>
          if decide (length ab.1 <= length ab.2)%nat
          then Some (ab.1 ++ drop (length ab.1) ab.2) else None) (zip a d)
  = Some a.
Proof.
  revert d. induction a as [|r a IH]; intros [|r' d] Hlen Ha Hd; try done.
  apply Forall_cons in Ha as [Hr Ha]. apply Forall_cons in Hd as [Hr' Hd].
  cbn [zip zip_with mapM fst snd]. rewrite decide_True by lia.
  cbn [mbind option_bind]. rewrite IH by (try done; cbn in Hlen; lia).
  cbn [mbind option_bind mret option_ret]. rewrite drop_ge by lia.
  rewrite app_nil_r. done.
Qed.

Lemma Poly_Copy_same (L level : nat) (a d : Poly) :
  polyOfLevel L level a -> polyOfLevel L level d -> Poly_Copy d a = Some a.
Proof.
  intros [Hla Ha] [Hld Hd]. unfold Poly_Copy. rewrite decide_True by lia.
  rewrite (copy_rows a d (2 ^ Z.of_nat L)) by (try done; lia).
  cbn [mbind option_bind]. rewrite drop_ge by lia. rewrite app_nil_r. done.
Qed.

Lemma getEl_setEl_ne (st : Ckks.State) l l' e :
  l <> l' -> getEl (setEl st l e) l' = getEl st l'.
Proof. intros Hne. unfold getEl, setEl. cbn [heap]. apply lookup_insert_ne. done. Qed.

(** [c1.Copy(ct0)] on two elements of the same shape: the receiver becomes
    the input. *)
Lemma Copy_same_shape (L level : nat) c1 ct0 (st : Ckks.State) e0 e1 :
  getEl st ct0 = Some e0 -> getEl st c1 = Some e1 ->
  elementOfLevel L level e0 -> elementOfLevel L level e1 ->
  length (Ckks.value e1) = length (Ckks.value e0) ->
  exists st', Ckks.Copy c1 ct0 st = Some st' /\
    getEl st' c1 = Some e0 /\ pool st' = pool st.
Proof.
  intros He0 He1 [Hne0 Hp0] [Hne1 Hp1] Hlen. unfold Ckks.Copy.
  destruct (decide (c1 = ct0)) as [->|Hne].
  { rewrite bool_decide_false by (intros Hc; apply Hc; done).
    exists st. done. }
  rewrite bool_decide_true by done. rewrite He0. cbn [mbind option_bind].
  destruct (for_range_total
    (fun (i : Z) (st' : Ckks.State) =>
       getEl st' ct0 = Some e0 /\ pool st' = pool st /\
       exists e, getEl st' c1 = Some e /\
         length (Ckks.value e) = length (Ckks.value e0) /\
         forall k : nat, Ckks.value e !! k
           = if decide (Z.of_nat k < i) then Ckks.value e0 !! k else Ckks.value e1 !! k)
    (fun i st => apply1 (fun src dst => Poly_Copy dst src) (Val ct0 i) (Val c1 i) st)
    0 (Z.of_nat (length (Ckks.value e0))) st)
    as (st1 & Hrun & Hct0 & Hpool & e & He & Hlen' & Hval).
  - lia.
  - split; [done|]. split; [done|]. exists e1. split; [done|]. split; [done|].
    intros k. rewrite decide_False by lia. done.
  - intros i st0 Hi (Hct0 & Hpool & e & He & Hlen' & Hval).
    destruct (lookup_lt_is_Some_2 (Ckks.value e0) (Z.to_nat i) ltac:(lia)) as [a Ha].
    destruct (lookup_lt_is_Some_2 (Ckks.value e1) (Z.to_nat i) ltac:(lia)) as [d Hd].
    assert (Ckks.value e !! Z.to_nat i = Some d) as Hd'.
    { rewrite Hval, decide_False by lia. exact Hd. }
    rewrite Forall_forall in Hp0, Hp1.
    pose proof (Hp0 a ltac:(eapply list_elem_of_lookup_2; exact Ha)) as Hpa.
    pose proof (Hp1 d ltac:(eapply list_elem_of_lookup_2; exact Hd)) as Hpd.
    unfold apply1. cbn [readPoly writePoly]. rewrite Hct0, He. cbn [mbind option_bind].
    unfold at_. change (Mem.value e0) with (Ckks.value e0).
    change (Mem.value e) with (Ckks.value e). rewrite Ha, Hd'. cbn [mbind option_bind].
    rewrite (Poly_Copy_same L level a d Hpa Hpd). cbn [mbind option_bind].
    rewrite set_Some by lia. cbn [mbind option_bind].
    eexists. split; [reflexivity|].
    split; [rewrite getEl_setEl_ne by done; exact Hct0|]. split; [exact Hpool|].
    eexists. split; [apply getEl_setEl|].
    cbn [withValue Ckks.ckksElement_Element Ckks.value].
    split; [rewrite length_insert; exact Hlen'|]. intros k.
    destruct (decide (k = Z.to_nat i)) as [->|Hk].
    + rewrite list_lookup_insert_eq by lia. rewrite decide_True by lia. done.
    + rewrite list_lookup_insert_ne by done. rewrite Hval.
      destruct (decide (Z.of_nat k < i)); [rewrite decide_True by lia; done|].
      rewrite decide_False by lia. done.
  - match goal with
    | |- context [for_range ?a ?b ?f st] =>
        replace (for_range a b f st) with (Some st1) by (symmetry; exact Hrun)
    end.
    cbn [mbind option_bind].
    assert (Ckks.value e = Ckks.value e0) as Hv.
    { apply list_eq. intros k. rewrite Hval.
      destruct (decide (Z.of_nat k < Z.of_nat (length (Ckks.value e0)))); [done|].
      rewrite !lookup_ge_None_2 by lia. done. }
    unfold Ckks.CopyParams, Ckks.SetCurrentModulus, Ckks.SetScale, Ckks.SetIsNTT.
    rewrite Hct0, He. cbn [mbind option_bind].
    rewrite (getEl_setEl_ne _ c1 ct0) by done. rewrite Hct0. cbn [mbind option_bind].
    rewrite getEl_setEl. cbn [mbind option_bind].
    rewrite (getEl_setEl_ne _ c1 ct0) by done. rewrite (getEl_setEl_ne _ c1 ct0) by done.
    rewrite Hct0. cbn [mbind option_bind].
    rewrite getEl_setEl. cbn [mbind option_bind].
    eexists. split; [reflexivity|]. split; [|exact Hpool].
    rewrite getEl_setEl. f_equal.
    cbn [Ckks.value Ckks.scale Ckks.currentModulus Ckks.isNTT]. rewrite Hv.
    destruct e0; done.
Qed.

(** [Copy] writes to its receiver only. *)
Lemma Copy_other c1 ct0 (st st' : Ckks.State) l :
  Ckks.Copy c1 ct0 st = Some st' -> l <> c1 -> getEl st' l = getEl st l.
Proof.
  unfold Ckks.Copy. intros Hrun Hne.
  destruct (bool_decide (c1 <> ct0)); [|by injection Hrun as <-].
  apply bind_Some in Hrun as (src & _ & Hrun).
  apply bind_Some in Hrun as (s1 & Hloop & Hrun).
  assert (getEl s1 l = getEl st l) as H1.
  { unfold for_range in Hloop.
    apply (for_nat_inv (fun _ (s : Ckks.State) => getEl s l = getEl st l) _ _ _ _ _ Hloop);
      [done|].
    intros j s s' _ Hs Hbody. unfold apply1 in Hbody.
    apply bind_Some in Hbody as (a & _ & Hbody).
    apply bind_Some in Hbody as (d & _ & Hbody).
    apply bind_Some in Hbody as (r & _ & Hbody).
    cbn [writePoly] in Hbody.
    apply bind_Some in Hbody as (e & _ & Hbody).
    apply bind_Some in Hbody as (v & _ & [= <-]).
    rewrite getEl_setEl_ne by done. exact Hs. }
  unfold Ckks.CopyParams, Ckks.SetCurrentModulus, Ckks.SetScale, Ckks.SetIsNTT in Hrun.
  apply bind_Some in Hrun as (x1 & _ & Hrun).
  apply bind_Some in Hrun as (s2 & H2 & Hrun).
  apply bind_Some in H2 as (x2 & _ & [= <-]).
  apply bind_Some in Hrun as (x3 & _ & Hrun).
  apply bind_Some in Hrun as (s3 & H3 & Hrun).
  apply bind_Some in H3 as (x4 & _ & [= <-]).
  apply bind_Some in Hrun as (x5 & _ & Hrun).
  apply bind_Some in Hrun as (x6 & _ & [= <-]).
  rewrite !getEl_setEl_ne by done. exact H1.
Qed.

End CopyElement.

Section RescaleOutcomes.

Import Ring Mem Rescaling.

Variable CRed : Z -> Z -> Z.

Lemma add_comm_word a b : U64.add a b = U64.add b a.
Proof. unfold U64.add. f_equal. lia. Qed.


End RescaleOutcomes.

Section RescaleExamples.

Import Ring Mem Rescaling Examples.

Lemma ckksEvaluator_rescaleReady :
  rescaleReady (Ckks.ckkscontext ckksEvaluator) 1 1.
Proof.
  split; [lia|]. split; [reflexivity|]. split; [rewrite modulus_eq; lia|]. split.
  - intros [|[|l]] Hl; [eexists; reflexivity|eexists; reflexivity|lia].
  - intros l Hl. assert (l = 1%nat) as -> by lia. split; [|eexists; reflexivity].
    exists ring17_97, [6]. split; [reflexivity|]. split; [reflexivity|].
    do 6 (split; [vm_compute; lia|]).
    split; [vm_compute; repeat constructor|].
    split; [vm_compute; repeat constructor|].
    split; [vm_compute; lia|]. split; [reflexivity|]. cbn. lia.
Qed.

Lemma elementOfLevel_1 (a b c d a' b' c' d' s m : Z) (ntt : bool) :
  elementOfLevel 1 1 (Ckks.mkElement [ [[a; b]; [c; d]]; [[a'; b']; [c'; d']] ] s m ntt).
Proof.
  split; [done|]. cbn [Ckks.value].
  repeat (apply Forall_cons_2; [split; [reflexivity|repeat constructor]|]).
  apply Forall_nil_2.
Qed.



End RescaleExamples.

(** ** Writing coefficients into a polynomial *)

Section CoefficientLoops.

Import Ring Shape Coeffs.

Lemma insert_written (f : Z -> Z) (l : list Z) c (row : list Z) :
  (length l < length row)%nat ->
  <[length l := f c]> (map f l ++ drop (length l) row)
  = map f (l ++ [c]) ++ drop (S (length l)) row.
Proof.
  intros Hlen.
  destruct (lookup_lt_is_Some_2 row (length l) Hlen) as [x Hx].
  rewrite insert_app_r_alt by (rewrite length_map; lia).
  rewrite length_map, Nat.sub_diag, (drop_S _ _ _ Hx). cbn [insert list_insert].
  rewrite map_app, <- app_assoc. done.
Qed.

Lemma set_at {A} (l : list A) (n : nat) x :
  (n < length l)%nat -> set_ l (Z.of_nat n) x = Some (<[n := x]> l).
Proof.
  intros Hn. unfold set_. rewrite Nat2Z.id.
  destruct (decide (n < length l)%nat); [done|lia].
Qed.

(** The loop over the coefficients that fills row [i]. *)
Lemma setRow_spec q (i : nat) (coeffs : list Z) (p : Poly) row :
  q <> 0 -> p !! i = Some row -> (length coeffs <= length row)%nat ->
  foldl (fun acc (jc : nat * Z) =>
           p ← acc; v ← modWord jc.2 q; setCoeff p i (Z.of_nat jc.1) v)
        (Some p) (imap pair coeffs)
  = Some (<[i := map (fun c => c mod q) coeffs ++ drop (length coeffs) row]> p).
Proof.
  intros Hq Hrow. induction coeffs as [|c l IH] using rev_ind; intros Hlen.
  - cbn. rewrite drop_0, list_insert_id by done. done.
  - rewrite length_app in Hlen. cbn [length] in Hlen.
    rewrite imap_app, foldl_app, IH by lia. cbn.
    unfold modWord. destruct (Z.eqb_spec q 0) as [|_]; [done|]. cbn.
    unfold setCoeff. rewrite Nat.add_0_r.
    rewrite list_lookup_insert_eq by (eapply lookup_lt_Some; eauto). cbn.
    rewrite set_at by (rewrite length_app, length_map, length_drop; lia). cbn.
    pose proof (insert_written (fun c => c mod q) l c row) as Hw. cbn beta in Hw.
    rewrite list_insert_insert_eq, Hw by lia.
    rewrite length_app. cbn [length].
    replace (length l + 1)%nat with (S (length l)) by lia. done.
Qed.

(** The loop over the moduli that writes coefficient [j] of every row. *)
Lemma setColumn_spec c (j : nat) (Q : list Z) (p : Poly) :
  Forall (fun q => q <> 0) Q -> (length Q <= length p)%nat ->
  (forall i row, (i < length Q)%nat -> p !! i = Some row -> (j < length row)%nat) ->
  foldl (fun acc (iq : nat * Z) =>
           p ← acc; v ← modWord c iq.2; setCoeff p iq.1 (Z.of_nat j) v)
        (Some p) (imap pair Q)
  = Some (imap (fun i row => match Q !! i with
                             | Some q => <[j := c mod q]> row
                             | None => row
                             end) p).
Proof.
  induction Q as [|q l IH] using rev_ind; intros Hnz Hlen Hrows.
  - cbn. f_equal. apply list_eq. intros k. rewrite list_lookup_imap.
    destruct (p !! k); done.
  - apply Forall_app in Hnz as [Hl Hq]. apply Forall_inv in Hq.
    rewrite length_app in Hlen, Hrows. cbn [length] in Hlen, Hrows.
    rewrite imap_app, foldl_app.
    rewrite IH; [|exact Hl|lia|intros i0 row0 Hi0 Hrow0; apply (Hrows i0 row0); [lia|done]].
    cbn. unfold modWord. destruct (Z.eqb_spec q 0) as [|_]; [by destruct Hq|]. cbn.
    rewrite Nat.add_0_r. unfold setCoeff.
    destruct (lookup_lt_is_Some_2 p (length l)) as [row Hrow]; [lia|].
    rewrite list_lookup_imap, Hrow. cbn.
    rewrite (lookup_ge_None_2 l (length l)) by lia.
    rewrite set_at by (eapply Hrows; eauto; lia). cbn. f_equal.
    apply list_eq. intros k. destruct (decide (k = length l)) as [->|Hk].
    + rewrite list_lookup_insert_eq by (rewrite length_imap; lia).
      rewrite list_lookup_imap, Hrow. cbn.
      rewrite lookup_app_r, Nat.sub_diag by lia. done.
    + rewrite list_lookup_insert_ne by done. rewrite !list_lookup_imap.
      destruct (p !! k) as [r|]; [cbn|done].
      destruct (decide (k < length l)%nat).
      * rewrite lookup_app_l by done. done.
      * rewrite !lookup_ge_None_2; [done|rewrite length_app; cbn; lia|lia].
Qed.

End CoefficientLoops.
Section CoefficientSetters.

Import Ring Shape Coeffs Stored.

(** The two nested loops of [SetCoefficientsBigint], over a chain [Q]. *)
Lemma rowLoops_spec (Q : list Z) (coeffs : list Z) (p : Poly) :
  Forall (fun q => q <> 0) Q -> (length Q <= length p)%nat ->
  (forall i row, (i < length Q)%nat -> p !! i = Some row ->
     (length coeffs <= length row)%nat) ->
  foldl (fun acc (iq : nat * Z) =>
           p ← acc;
           foldl (fun acc (jc : nat * Z) =>
                    p ← acc; v ← modWord jc.2 iq.2;
                    setCoeff p iq.1 (Z.of_nat jc.1) v)
                 (Some p) (imap pair coeffs))
        (Some p) (imap pair Q)
  = Some (imap (fun i row =>
                  match Q !! i with
                  | Some q => map (fun c => c mod q) coeffs ++ drop (length coeffs) row
                  | None => row
                  end) p).
Proof.
  induction Q as [|q l IH] using rev_ind; intros Hnz Hlen Hrows.
  - cbn. f_equal. apply list_eq. intros k. rewrite list_lookup_imap.
    destruct (p !! k); done.
  - apply Forall_app in Hnz as [Hl Hq]. apply Forall_inv in Hq.
    rewrite length_app in Hlen, Hrows. cbn [length] in Hlen, Hrows.
    rewrite imap_app, foldl_app.
    rewrite IH; [|exact Hl|lia|intros i0 row0 Hi0 Hrow0; apply (Hrows i0 row0); [lia|done]].
    cbn. rewrite Nat.add_0_r.
    destruct (lookup_lt_is_Some_2 p (length l)) as [row Hrow]; [lia|].
    rewrite (setRow_spec q (length l) coeffs _ row);
      [|exact Hq| |apply (Hrows (length l)); [lia|done]].
    2:{ rewrite list_lookup_imap, Hrow. cbn.
        rewrite (lookup_ge_None_2 l (length l)) by lia. done. }
    f_equal. apply list_eq. intros k. destruct (decide (k = length l)) as [->|Hk].
    + rewrite list_lookup_insert_eq by (rewrite length_imap; lia).
      rewrite list_lookup_imap, Hrow. cbn.
      rewrite lookup_app_r, Nat.sub_diag by lia. done.
    + rewrite list_lookup_insert_ne by done. rewrite !list_lookup_imap.
      destruct (p !! k) as [r|]; [cbn|done].
      destruct (decide (k < length l)%nat).
      * rewrite lookup_app_l by done. done.
      * rewrite !lookup_ge_None_2; [done|rewrite length_app; cbn; lia|lia].
Qed.

(** The two nested loops of [SetCoefficientsUint64], over a chain [Q]. *)
Lemma columnLoops_spec (Q : list Z) (coeffs : list Z) (p : Poly) :
  Forall (fun q => q <> 0) Q -> (length Q <= length p)%nat ->
  (forall i row, (i < length Q)%nat -> p !! i = Some row ->
     (length coeffs <= length row)%nat) ->
  foldl (fun acc (ic : nat * Z) =>
           p ← acc;
           foldl (fun acc (jq : nat * Z) =>
                    p ← acc; v ← modWord ic.2 jq.2;
                    setCoeff p jq.1 (Z.of_nat ic.1) v)
                 (Some p) (imap pair Q))
        (Some p) (imap pair coeffs)
  = Some (imap (fun i row =>
                  match Q !! i with
                  | Some q => map (fun c => c mod q) coeffs ++ drop (length coeffs) row
                  | None => row
                  end) p).
Proof.
  intros Hnz Hlen.
  induction coeffs as [|c l IH] using rev_ind; intros Hrows.
  - cbn. f_equal. apply list_eq. intros k. rewrite list_lookup_imap.
    destruct (p !! k) as [r|]; [cbn|done]. rewrite drop_0. destruct (Q !! k); done.
  - rewrite imap_app, foldl_app.
    rewrite IH.
    2:{ intros i row Hi Hrow. specialize (Hrows i row Hi Hrow).
        rewrite length_app in Hrows. lia. }
    cbn. rewrite Nat.add_0_r.
    rewrite (setColumn_spec c (length l) Q); [|exact Hnz|by rewrite length_imap|].
    2:{ intros i row Hi. rewrite list_lookup_imap.
        destruct (p !! i) as [r|] eqn:Hr; [cbn|done].
        pose proof (Hrows i r Hi Hr) as Hlr. rewrite length_app in Hlr. cbn in Hlr.
        destruct (Q !! i); intros [= <-];
          [rewrite length_app, length_map, length_drop|]; lia. }
    f_equal. apply list_eq. intros k. rewrite !list_lookup_imap.
    destruct (p !! k) as [r|] eqn:Hr; [cbn|done].
    destruct (Q !! k) as [q|] eqn:Hq; [|done].
    pose proof (Hrows k r (lookup_lt_Some _ _ _ Hq) Hr) as Hlr.
    rewrite length_app in Hlr. cbn in Hlr.
    pose proof (insert_written (fun c => c mod q) l c r) as Hw. cbn beta in Hw.
    rewrite Hw by lia. rewrite length_app. cbn [length].
    replace (length l + 1)%nat with (S (length l)) by lia. done.
Qed.

Lemma residues_Canonical context coeffs (p : Poly) :
  Forall (fun q => 0 < q) (moduli context) ->
  Z.of_nat (length coeffs) = N context ->
  Canonical context (residues context coeffs p).
Proof.
  intros Hpos Hlen i q r j x Hq Hr Hj Hx. unfold residues in Hr.
  rewrite list_lookup_imap in Hr. destruct (p !! i) as [r0|]; [|done].
  cbn in Hr. rewrite Hq in Hr. injection Hr as <-.
  rewrite lookup_app_l in Hx by (rewrite length_map; lia).
  rewrite list_lookup_fmap in Hx. destruct (coeffs !! j) as [c|]; [|done].
  injection Hx as <-. apply Z.mod_pos_bound.
  rewrite Forall_forall in Hpos. apply Hpos.
  eapply list_elem_of_lookup_2. exact Hq.
Qed.

Lemma int_small n : 0 <= n < 2 ^ 63 -> I64.wrap n = n.
Proof.
  intros Hn. unfold I64.wrap. rewrite Z.mod_small; lia.
Qed.

Lemma SetCoefficientsUint64_run context coeffs (p1 : Poly) :
  Forall (fun q => 0 < q) (moduli context) ->
  0 <= N context < 2 ^ 63 ->
  Shaped context p1 ->
  Z.of_nat (length coeffs) = N context ->
  SetCoefficientsUint64 context coeffs p1 = Some (residues context coeffs p1, None).
Proof.
  intros Hpos HN [Hrows Hshape] Hlen. unfold SetCoefficientsUint64.
  rewrite int_small by done.
  rewrite bool_decide_eq_false_2 by (intros Hne; apply Hne; exact Hlen).
  rewrite columnLoops_spec; [done| |done|].
  - eapply Forall_impl; [exact Hpos|]. cbn. intros; lia.
  - intros i row Hi Hrow. rewrite (Hshape i row Hi Hrow). lia.
Qed.

Lemma SetCoefficientsBigint_run context coeffs (p1 : Poly) :
  Forall (fun q => 0 < q) (moduli context) ->
  0 <= N context < 2 ^ 63 ->
  Shaped context p1 ->
  Z.of_nat (length coeffs) = N context ->
  SetCoefficientsBigint context coeffs p1 = Some (residues context coeffs p1, None).
Proof.
  intros Hpos HN [Hrows Hshape] Hlen. unfold SetCoefficientsBigint.
  rewrite int_small by done.
  rewrite bool_decide_eq_false_2 by (intros Hne; apply Hne; exact Hlen).
  rewrite rowLoops_spec; [done| |done|].
  - eapply Forall_impl; [exact Hpos|]. cbn. intros; lia.
  - intros i row Hi Hrow. rewrite (Hshape i row Hi Hrow). lia.
Qed.

(** [SetCoefficientsUint64] checks the number of coefficients against the
    degree: on a mismatch it returns its error and leaves the polynomial as
    it was; otherwise every row of the context receives the coefficients
    reduced modulo its modulus, which are canonical residues. *)
Theorem SetCoefficientsUint64_outcome context coeffs (p1 : Poly) :
  Forall (fun q => 0 < q) (moduli context) ->
  0 <= N context < 2 ^ 63 ->
  Shaped context p1 ->
  (Z.of_nat (length coeffs) <> N context ->
   SetCoefficientsUint64 context coeffs p1 = Some (p1, Some errDegree)) /\
  (Z.of_nat (length coeffs) = N context ->
   SetCoefficientsUint64 context coeffs p1
   = Some (residues context coeffs p1, None) /\
   Canonical context (residues context coeffs p1)).
Proof.
  intros Hpos HN Hshape. split; intros Hlen.
  - unfold SetCoefficientsUint64. rewrite int_small by done.
    rewrite bool_decide_eq_true_2 by done. done.
  - split; [by apply SetCoefficientsUint64_run|by apply residues_Canonical].
Qed.

Lemma SetCoefficientsUint64_witness :
  SetCoefficientsUint64 Examples.ring17_97 [100; 3] [[0; 0]; [0; 0]]
  = Some ([[15; 3]; [3; 3]], None).
Proof.
  apply (SetCoefficientsUint64_outcome Examples.ring17_97 [100; 3] [[0; 0]; [0; 0]]).
  - repeat constructor.
  - vm_compute. split; [discriminate|reflexivity].
  - split; [vm_compute; lia|].
    intros [|[|i]] r Hi [= <-]; try reflexivity; vm_compute in Hi; lia.
  - reflexivity.
Defined.

(** [SetCoefficientsBigint] takes integers of either sign: each row of
    the context receives their non-negative residues modulo its modulus,
    the same polynomial as [SetCoefficientsUint64] writes for words. *)
Theorem SetCoefficientsBigint_outcome context coeffs (p1 : Poly) :
  Forall (fun q => 0 < q) (moduli context) ->
  0 <= N context < 2 ^ 63 ->
  Shaped context p1 ->
  (Z.of_nat (length coeffs) <> N context ->
   SetCoefficientsBigint context coeffs p1 = Some (p1, Some errDegree)) /\
  (Z.of_nat (length coeffs) = N context ->
   SetCoefficientsBigint context coeffs p1
   = Some (residues context coeffs p1, None) /\
   Canonical context (residues context coeffs p1)).
Proof.
  intros Hpos HN Hshape. split; intros Hlen.
  - unfold SetCoefficientsBigint. rewrite int_small by done.
    rewrite bool_decide_eq_true_2 by done. done.
  - split; [by apply SetCoefficientsBigint_run|by apply residues_Canonical].
Qed.

Lemma SetCoefficientsBigint_witness :
  SetCoefficientsBigint Examples.ring17_97 [-1; 1700] [[0; 0]; [0; 0]]
  = Some ([[16; 0]; [96; 51]], None).
Proof.
  apply (SetCoefficientsBigint_outcome Examples.ring17_97 [-1; 1700] [[0; 0]; [0; 0]]).
  - repeat constructor.
  - vm_compute. split; [discriminate|reflexivity].
  - split; [vm_compute; lia|].
    intros [|[|i]] r Hi [= <-]; try reflexivity; vm_compute in Hi; lia.
  - reflexivity.
Defined.

End CoefficientSetters.
(** ** The Chinese remainder theorem over a modulus chain *)

Section Products.

Import Crt.

Lemma product_from a (l : list Z) : fold_left Z.mul l a = a * product l.
Proof.
  unfold product. revert a. induction l as [|x l IH]; intros a; cbn [fold_left].
  - lia.
  - rewrite (IH (a * x)), (IH (1 * x)). lia.
Qed.

Lemma product_cons a (l : list Z) : product (a :: l) = a * product l.
Proof. unfold product at 1. cbn. rewrite product_from. lia. Qed.

Lemma product_app (l1 l2 : list Z) : product (l1 ++ l2) = product l1 * product l2.
Proof.
  induction l1 as [|a l1 IH]; [cbn [app]; change (product []) with 1; lia|].
  cbn [app]. rewrite !product_cons, IH. lia.
Qed.

Lemma product_pos (l : list Z) : Forall (fun q => 0 < q) l -> 0 < product l.
Proof.
  induction 1 as [|a l Ha _ IH]; [unfold product; cbn; lia|].
  rewrite product_cons. lia.
Qed.

Lemma product_lookup (l : list Z) (i : nat) q :
  l !! i = Some q -> product l = q * product (delete i l).
Proof.
  intros Hq. rewrite <- (take_drop_middle l i q Hq) at 1.
  rewrite product_app, product_cons, delete_take_drop, product_app. lia.
Qed.

Lemma divide_product (l : list Z) q : q ∈ l -> (q | product l).
Proof.
  intros Hq. apply list_elem_of_lookup_1 in Hq as [i Hi].
  rewrite (product_lookup l i q Hi). apply Z.divide_factor_l.
Qed.

Lemma coprime_product (l : list Z) q :
  Forall (fun a => Z.coprime a q) l -> Z.coprime (product l) q.
Proof.
  induction 1 as [|a l Ha _ IH].
  - unfold product, Z.coprime. cbn. apply Z.gcd_1_l.
  - rewrite product_cons. apply Z.coprime_mul_l; done.
Qed.

Lemma PairwiseCoprime_cons a (l : list Z) :
  PairwiseCoprime (a :: l) ->
  Forall (fun b => Z.coprime b a) l /\ PairwiseCoprime l.
Proof.
  intros Hco. split.
  - apply Forall_forall. intros b Hb.
    apply list_elem_of_lookup_1 in Hb as [i Hi].
    apply (Hco (S i) 0%nat); done.
  - intros i j x y Hij Hx Hy. apply (Hco (S i) (S j)); [lia|done|done].
Qed.

Lemma product_divide (l : list Z) d :
  PairwiseCoprime l -> Forall (fun q => (q | d)) l -> (product l | d).
Proof.
  induction l as [|a l IH]; intros Hco Hdiv.
  - unfold product. cbn. apply Z.divide_1_l.
  - apply PairwiseCoprime_cons in Hco as [Ha Hco].
    apply Forall_cons in Hdiv as [Had Hdiv].
    rewrite product_cons.
    destruct (IH Hco Hdiv) as [k Hk]. subst d.
    apply Z.mul_divide_mono_r.
    apply (Z.gauss a (product l) k).
    + rewrite Z.mul_comm. exact Had.
    + pose proof (coprime_product l a Ha) as Hc. unfold Z.coprime in Hc.
      rewrite Z.gcd_comm. exact Hc.
Qed.

Lemma delete_coprime (l : list Z) (i : nat) q :
  PairwiseCoprime l -> l !! i = Some q ->
  Forall (fun a => Z.coprime a q) (delete i l).
Proof.
  intros Hco Hq. apply Forall_lookup. intros k a Ha.
  destruct (decide (k < i)%nat).
  - rewrite list_lookup_delete_lt in Ha by done. apply (Hco k i); [lia|done|done].
  - rewrite list_lookup_delete_ge in Ha by lia. apply (Hco (S k) i); [lia|done|done].
Qed.

Lemma delete_elem (l : list Z) (i j : nat) q :
  i <> j -> l !! j = Some q -> q ∈ delete i l.
Proof.
  intros Hij Hq. destruct (decide (j < i)%nat).
  - apply (list_elem_of_lookup_2 _ j). rewrite list_lookup_delete_lt by done. done.
  - apply (list_elem_of_lookup_2 _ (j - 1)%nat).
    rewrite list_lookup_delete_ge by lia.
    replace (S (j - 1)) with j by lia. done.
Qed.

(** The reconstruction coefficient of a modulus is 1 modulo that modulus
    and 0 modulo every other modulus of the chain. *)
Lemma coefficient_mod (l : list Z) (i j : nat) qi qj :
  Forall (fun q => 1 < q) l -> PairwiseCoprime l ->
  l !! i = Some qi -> l !! j = Some qj ->
  coefficient (product l) qi mod qj = if decide (i = j) then 1 else 0.
Proof.
  intros Hbig Hco Hi Hj.
  assert (1 < qi) as Hqi.
  { rewrite Forall_forall in Hbig. apply Hbig. eapply list_elem_of_lookup_2. exact Hi. }
  assert (1 < qj) as Hqj.
  { rewrite Forall_forall in Hbig. apply Hbig. eapply list_elem_of_lookup_2. exact Hj. }
  unfold coefficient. cbv zeta.
  rewrite (product_lookup l i qi Hi), (Z.mul_comm qi), Z.div_mul by lia.
  destruct (decide (i = j)) as [->|Hij].
  - replace qj with qi in * by congruence.
    rewrite Z.mul_mod_idemp_r, Z.mul_comm by lia.
    apply Z.invmod_coprime; [lia|].
    apply coprime_product. eapply delete_coprime; eauto.
  - apply Z.mod_divide; [lia|]. apply Z.divide_mul_l.
    apply divide_product. eapply delete_elem; eauto.
Qed.

End Products.
Section Reconstruction.

Import Ring Shape Coeffs Stored Crt.

Lemma add_mul_mod a b K q :
  q <> 0 -> (a + b * K) mod q = (a mod q + (b mod q) * (K mod q)) mod q.
Proof.
  intros Hq. rewrite (Z.add_mod a), (Z.mul_mod b K) by done.
  rewrite Z.add_mod_idemp_r by done. done.
Qed.

Lemma Reconstructing_lookup context (i : nat) q :
  Reconstructing context -> moduli context !! i = Some q ->
  CrtReconstruction context !! i
  = Some (coefficient (product (moduli context)) q).
Proof.
  intros (_ & _ & Hbig & Hcrt) Hq.
  rewrite Hcrt, list_lookup_fmap, Hq, Hbig. done.
Qed.

(** The sum of the inner loop of [PolyToBigint] over the first [n] moduli. *)
Lemma reconstruct_prefix context (p : Poly) x c (n : nat) :
  Reconstructing context ->
  (forall i q, moduli context !! i = Some q ->
     exists row, p !! i = Some row /\ at_ row x = Some (c mod q)) ->
  (n <= length (moduli context))%nat ->
  exists a,
    foldl (fun acc i =>
             a ← acc; row ← p !! i; c ← at_ row x;
             crt ← CrtReconstruction context !! i; Some (a + c * crt))
          (Some 0) (seq 0 n) = Some a /\
    forall j qj, moduli context !! j = Some qj ->
      a mod qj = (if decide (j < n)%nat then c else 0) mod qj.
Proof.
  intros Hrec Hrows. induction n as [|n IH]; intros Hn.
  - exists 0. split; [done|]. intros j qj _. done.
  - destruct IH as (a & Ha & Hmod); [lia|].
    destruct (lookup_lt_is_Some_2 (moduli context) n) as [qn Hqn]; [lia|].
    destruct (Hrows n qn Hqn) as (row & Hrow & Hx).
    exists (a + c mod qn * coefficient (product (moduli context)) qn). split.
    + rewrite seq_S, foldl_app, Ha. cbn.
      rewrite Hrow. cbn. rewrite Hx. cbn.
      rewrite (Reconstructing_lookup context n qn Hrec Hqn). done.
    + intros j qj Hqj.
      destruct Hrec as (Hbig & Hco & _).
      assert (1 < qj) as Hj1.
      { rewrite Forall_forall in Hbig. apply Hbig.
        eapply list_elem_of_lookup_2. exact Hqj. }
      rewrite add_mul_mod by lia.
      rewrite (coefficient_mod (moduli context) n j qn qj Hbig Hco Hqn Hqj).
      rewrite (Hmod j qj Hqj).
      destruct (decide (n = j)) as [->|Hnj].
      * replace qn with qj by congruence.
        destruct (decide (j < j)%nat); [lia|].
        destruct (decide (j < S j)%nat); [|lia].
        rewrite Z.mod_0_l, Z.mod_mod, Z.mul_1_r, Z.add_0_l, Z.mod_mod by lia. done.
      * rewrite Z.mul_0_r, Z.add_0_r, Z.mod_mod by lia.
        destruct (decide (j < n)%nat), (decide (j < S n)%nat); try lia; done.
Qed.

Lemma reconstruct_spec context (p : Poly) x c :
  Reconstructing context ->
  (forall i q, moduli context !! i = Some q ->
     exists row, p !! i = Some row /\ at_ row x = Some (c mod q)) ->
  exists s, reconstruct context p x = Some s /\
    s mod ModulusBigint context = c mod ModulusBigint context.
Proof.
  intros Hrec Hrows.
  destruct (reconstruct_prefix context p x c (length (moduli context)) Hrec Hrows)
    as (s & Hs & Hmod); [lia|].
  exists s. split; [exact Hs|].
  destruct Hrec as (Hbig & Hco & -> & _).
  assert (product (moduli context) | s - c) as [k Hk].
  { apply product_divide; [exact Hco|]. apply Forall_lookup. intros j qj Hqj.
    assert (1 < qj) as Hj1.
    { rewrite Forall_forall in Hbig. apply Hbig.
      eapply list_elem_of_lookup_2. exact Hqj. }
    apply Z.mod_divide; [lia|].
    rewrite Zminus_mod, (Hmod j qj Hqj).
    destruct (decide (j < length (moduli context))%nat) as [|Hge].
    - rewrite Z.sub_diag. done.
    - apply lookup_lt_Some in Hqj. lia. }
  replace s with (c + k * product (moduli context)) by lia.
  apply Z_mod_plus_full.
Qed.

Lemma insert_written_at (f : Z -> Z) (l : list Z) c (row : list Z) (n : nat) :
  length l = n -> (n < length row)%nat ->
  <[n := f c]> (map f l ++ drop n row) = map f (l ++ [c]) ++ drop (S n) row.
Proof. intros <-. apply insert_written. Qed.

(** [PolyToBigint] on a polynomial that holds the residues of the
    coefficients. *)
Lemma PolyToBigint_spec context (p : Poly) (coeffs out : list Z) :
  Reconstructing context ->
  Z.of_nat (length coeffs) = N context ->
  length out = length coeffs ->
  (forall i q, moduli context !! i = Some q ->
     exists row, p !! i = Some row /\
       forall (x : nat) c, coeffs !! x = Some c -> row !! x = Some (c mod q)) ->
  PolyToBigint context p out
  = Some (map (fun c => c mod ModulusBigint context) coeffs).
Proof.
  intros Hrec Hlen Hout Hrows. unfold PolyToBigint.
  set (f := fun c => c mod ModulusBigint context).
  match goal with
  | |- for_range ?lo ?hi ?body ?s = _ =>
      destruct (for_range_total
                  (fun x (o : list Z) =>
                     o = map f (take (Z.to_nat x) coeffs) ++ drop (Z.to_nat x) out)
                  body lo hi s) as (o & Hrun & Ho)
  end.
  - lia.
  - cbn. rewrite drop_0. done.
  - intros x o Hx ->.
    destruct (lookup_lt_is_Some_2 coeffs (Z.to_nat x)) as [c Hc]; [lia|].
    assert (Z.to_nat x < length out)%nat as Hxo by lia.
    rewrite set_Some
      by (rewrite length_app, length_map, length_take, length_drop; lia).
    cbn.
    destruct (reconstruct_spec context p x c Hrec) as (s & Hs & Hmod).
    { intros i q Hq. destruct (Hrows i q Hq) as (row & Hrow & Hcells).
      exists row. split; [done|]. unfold at_. apply Hcells. exact Hc. }
    rewrite Hs. cbn. unfold modWord.
    destruct (Z.eqb_spec (ModulusBigint context) 0) as [Hz|_].
    { exfalso. destruct Hrec as (Hbig & _ & Hprod & _).
      assert (0 < product (moduli context)); [|lia].
      apply product_pos. eapply Forall_impl; [exact Hbig|]. cbn. intros; lia. }
    cbn. rewrite set_Some
      by (rewrite length_insert, length_app, length_map, length_take, length_drop; lia).
    eexists. split; [reflexivity|].
    rewrite list_insert_insert_eq, Hmod.
    pose proof (insert_written_at f (take (Z.to_nat x) coeffs) c out (Z.to_nat x)) as Hw.
    unfold f in Hw at 1. cbn beta in Hw. rewrite Hw; [|rewrite length_take; lia|lia].
    replace (Z.to_nat (x + 1)) with (S (Z.to_nat x)) by lia.
    rewrite (take_S_r _ _ _ Hc). done.
  - rewrite Hrun, Ho. f_equal.
    rewrite take_ge, drop_ge, app_nil_r by lia. done.
Qed.

End Reconstruction.
Section ContextReconstruction.

Import Ring Shape Coeffs Stored Crt.

Variable primitiveRoot : Z -> Z.

Lemma genRow_crt context k (i : nat) qi row :
  genRow primitiveRoot context k i qi = Some row ->
  rowCrt row = coefficient (ModulusBigint context) qi.
Proof.
  unfold genRow. intros Hrow.
  apply bind_Some in Hrow as (bred & _ & Hrow). cbv zeta in Hrow.
  destruct (U64.shl (N context) 1 =? 0); [done|].
  apply bind_Some in Hrow as (psi0 & _ & Hrow).
  apply bind_Some in Hrow as (psiInv0 & _ & Hrow).
  apply bind_Some in Hrow as (tabs & _ & Hrow).
  injection Hrow as <-. done.
Qed.

Lemma prime_coprime a b : Z.prime a -> Z.prime b -> a <> b -> Z.coprime a b.
Proof.
  intros Ha Hb Hab. apply Z.coprime_prime_l; [exact Ha|].
  intros Hdiv. apply Hab. apply Z.divide_prime_prime; done.
Qed.

Lemma GenNTTParams_Reconstructing c0 c1 ctx N0 (Q : list Z) :
  SetParameters c0 N0 Q = (c1, None) ->
  GenNTTParams primitiveRoot c1 = Some (ctx, None) ->
  NoDup Q ->
  Reconstructing ctx /\ moduli ctx = Q /\ N ctx = N0 /\
  ModulusBigint ctx = product Q /\ Forall Z.prime Q.
Proof.
  intros Hset Hgen Hnd.
  assert (ModulusBigint c1 = product Q /\ Modulus c1 = Some Q /\
          allowsNTT c1 = false /\ N c1 = N0) as (Hbig1 & Hmod1 & Hntt1 & HN1).
  { revert Hset. unfold SetParameters.
    destruct (negb (Z.land N0 (U64.sub N0 1) =? 0) && negb (N0 =? 0)); [done|].
    intros [= <-]. done. }
  revert Hgen. unfold GenNTTParams. rewrite Hntt1.
  destruct (Z.eqb_spec (N c1) 0) as [|HN]; [discriminate|].
  destruct (bool_decide (Modulus c1 = None)); [discriminate|]. cbn [orb].
  destruct (existsb (failsNTT (N c1)) (moduli c1)) eqn:Hfail; [discriminate|].
  intros Hrun. apply bind_Some in Hrun as (rows & Hrows & Hctx).
  injection Hctx as <-.
  assert (moduli c1 = Q) as HQ by (unfold moduli; rewrite Hmod1; done).
  assert (Forall Z.prime Q) as Hprime.
  { apply Forall_forall. intros q Hq. apply IsPrime_spec.
    destruct (IsPrime q) eqn:Hp; [done|]. exfalso.
    apply not_true_iff_false in Hfail. apply Hfail.
    apply existsb_exists. exists q. split; [rewrite HQ; apply list_elem_of_In; exact Hq|].
    unfold failsNTT. rewrite Hp. done. }
  unfold Reconstructing, moduli. cbn. rewrite Hmod1. cbn.
  repeat split; try done.
  - eapply Forall_impl; [exact Hprime|]. cbn. intros q [Hq _]. exact Hq.
  - intros i j a b Hij Ha Hb. apply prime_coprime.
    + rewrite Forall_forall in Hprime. apply Hprime. eapply list_elem_of_lookup_2; eauto.
    + rewrite Forall_forall in Hprime. apply Hprime. eapply list_elem_of_lookup_2; eauto.
    + intros ->. apply Hij. eapply NoDup_lookup; eauto.
  - apply mapM_Some in Hrows. rewrite HQ in Hrows.
    apply list_eq. intros k. rewrite !list_lookup_fmap.
    destruct (rows !! k) as [row|] eqn:Hrow.
    + destruct (Forall2_lookup_r _ _ _ _ _ Hrows Hrow) as (iq & Hiq & Hgen).
      rewrite list_lookup_imap in Hiq.
      destruct (Q !! k) as [q|]; [|done]. injection Hiq as <-. cbn in *.
      f_equal. eapply genRow_crt. exact Hgen.
    + apply Forall2_length in Hrows. rewrite length_imap in Hrows.
      apply lookup_ge_None in Hrow.
      rewrite (lookup_ge_None_2 Q k) by lia. done.
Qed.

(** After [SetParameters] and a successful [GenNTTParams] on a chain of
    distinct moduli, the context holds one reconstruction coefficient for
    each modulus: it is 1 modulo that modulus and 0 modulo every other
    modulus of the chain. *)
Theorem GenNTTParams_reconstruction c0 c1 ctx N0 (Q : list Z) :
  SetParameters c0 N0 Q = (c1, None) ->
  GenNTTParams primitiveRoot c1 = Some (ctx, None) ->
  NoDup Q ->
  length (CrtReconstruction ctx) = length Q /\
  forall (i j : nat) crt qj,
    CrtReconstruction ctx !! i = Some crt -> Q !! j = Some qj ->
    crt mod qj = if decide (i = j) then 1 else 0.
Proof.
  intros Hset Hgen Hnd.
  destruct (GenNTTParams_Reconstructing c0 c1 ctx N0 Q Hset Hgen Hnd)
    as (Hrec & HQ & _ & _ & _).
  pose proof Hrec as (Hbig & Hco & Hprod & Hcrt). rewrite HQ in *. split.
  - rewrite Hcrt, length_map. done.
  - intros i j crt qj Hi Hj.
    rewrite Hcrt, list_lookup_fmap in Hi.
    destruct (Q !! i) as [qi|] eqn:Hqi; [|done]. injection Hi as <-.
    rewrite Hprod. apply coefficient_mod; done.
Qed.

(** Encoding integers with [SetCoefficientsBigint] and reading them back
    with [PolyToBigint] returns each of them modulo the product of the
    chain, for a context that [GenNTTParams] has completed on distinct
    moduli. *)
Theorem PolyToBigint_SetCoefficientsBigint c0 c1 ctx N0 (Q : list Z)
    (coeffs out : list Z) (p1 : Poly) :
  SetParameters c0 N0 Q = (c1, None) ->
  GenNTTParams primitiveRoot c1 = Some (ctx, None) ->
  NoDup Q ->
  N0 < 2 ^ 63 ->
  Z.of_nat (length coeffs) = N0 ->
  length out = length coeffs ->
  Shaped ctx p1 ->
  exists p,
    SetCoefficientsBigint ctx coeffs p1 = Some (p, None) /\
    PolyToBigint ctx p out = Some (map (fun c => c mod product Q) coeffs).
Proof.
  intros Hset Hgen Hnd HN Hlen Hout Hshape.
  destruct (GenNTTParams_Reconstructing c0 c1 ctx N0 Q Hset Hgen Hnd)
    as (Hrec & HQ & HN0 & Hbig & _).
  pose proof Hrec as (Hgt & _).
  assert (Forall (fun q => 0 < q) (moduli ctx)) as Hpos.
  { eapply Forall_impl; [exact Hgt|]. cbn. intros; lia. }
  exists (residues ctx coeffs p1).
  split; [apply SetCoefficientsBigint_run; [exact Hpos|lia|exact Hshape|lia]|].
  rewrite <- Hbig. apply PolyToBigint_spec; [exact Hrec|lia|exact Hout|].
  intros i q Hq. destruct Hshape as [Hrows Hshape].
  destruct (lookup_lt_is_Some_2 p1 i) as [row Hrow].
  { apply lookup_lt_Some in Hq. lia. }
  exists (map (fun c => c mod q) coeffs ++ drop (length coeffs) row). split.
  - unfold residues. rewrite list_lookup_imap, Hrow. cbn. rewrite Hq. done.
  - intros x c Hc. rewrite lookup_app_l.
    + rewrite list_lookup_fmap, Hc. done.
    + rewrite length_map. eapply lookup_lt_Some. exact Hc.
Qed.

End ContextReconstruction.

Section ReconstructionExamples.

Import Ring Shape Coeffs Crt Examples.

Lemma GenNTTParams_reconstruction_witness :
  length (CrtReconstruction ring17_97) = 2%nat /\
  forall (i j : nat) crt qj,
    CrtReconstruction ring17_97 !! i = Some crt -> [17; 97] !! j = Some qj ->
    crt mod qj = if decide (i = j) then 1 else 0.
Proof.
  apply (GenNTTParams_reconstruction (fun _ => 5) NewContext
           (SetParameters NewContext 2 [17; 97]).1 ring17_97 2 [17; 97]).
  - reflexivity.
  - vm_compute. reflexivity.
  - apply (bool_decide_unpack _). vm_compute. exact I.
Defined.

Lemma PolyToBigint_SetCoefficientsBigint_witness :
  exists p,
    SetCoefficientsBigint ring17_97 [-1; 1700] [[0; 0]; [0; 0]] = Some (p, None) /\
    PolyToBigint ring17_97 p [0; 0]
    = Some (map (fun c => c mod product [17; 97]) [-1; 1700]).
Proof.
  apply (PolyToBigint_SetCoefficientsBigint (fun _ => 5) NewContext
           (SetParameters NewContext 2 [17; 97]).1 ring17_97 2 [17; 97]).
  - reflexivity.
  - vm_compute. reflexivity.
  - apply (bool_decide_unpack _). vm_compute. exact I.
  - lia.
  - reflexivity.
  - reflexivity.
  - split; [vm_compute; lia|].
    intros [|[|i]] r Hi [= <-]; try reflexivity; vm_compute in Hi; lia.
Defined.

End ReconstructionExamples.
(** ** Centred representatives *)

Section CenteredCoefficients.

Import Ring Shape Coeffs Stored Centered.

Lemma int_signed n : - 2 ^ 63 <= n < 2 ^ 63 -> I64.wrap n = n.
Proof.
  intros Hn. unfold I64.wrap. rewrite Z.mod_small; lia.
Qed.

Lemma center_spec q x :
  0 < q < 2 ^ 63 -> 0 <= x < q ->
  center q x mod q = x /\ - q < 2 * center q x <= q.
Proof.
  intros Hq Hx. unfold center, I64.sub, U64.shr.
  change (64 <=? 1) with false. cbv iota.
  rewrite Z.shiftr_div_pow2 by lia. change (2 ^ 1) with 2.
  assert (0 <= q / 2 < q) as Hhalf.
  { split; [apply Z.div_pos; lia|apply Z.div_lt; lia]. }
  rewrite (int_small (q / 2)), (int_small x), (int_small q) by lia.
  pose proof (Z_div_mod_eq_full q 2) as Hdm.
  pose proof (Z.mod_pos_bound q 2 ltac:(lia)) as Hmb.
  destruct (Z.ltb_spec (q / 2) x) as [Hhi|Hlo].
  - rewrite int_signed by lia. split; [|lia].
    replace (x - q) with (x + (-1) * q) by lia.
    rewrite Z_mod_plus_full. apply Z.mod_small. lia.
  - split; [apply Z.mod_small; lia|lia].
Qed.

Lemma center_mod q c :
  0 < q < 2 ^ 63 -> - q < 2 * c <= q -> center q (c mod q) = c.
Proof.
  intros Hq Hc.
  pose proof (Z.mod_pos_bound c q ltac:(lia)) as Hm.
  destruct (center_spec q (c mod q) Hq Hm) as [Hmod Hrange].
  assert (q | center q (c mod q) - c) as [k Hk].
  { apply Z.mod_divide; [lia|]. rewrite Zminus_mod, Hmod, Z.sub_diag. done. }
  assert (k = 0) by nia. lia.
Qed.

Lemma mapM_lookup {A B} (f : A -> option B) (l : list A) (k : list B) :
  length l = length k ->
  (forall i x, l !! i = Some x -> exists y, k !! i = Some y /\ f x = Some y) ->
  mapM f l = Some k.
Proof.
  intros Hlen Hall. apply mapM_Some. apply Forall2_same_length_lookup.
  split; [exact Hlen|]. intros i x y Hx Hy.
  destruct (Hall i x Hx) as (y' & Hy' & Hf). congruence.
Qed.

Lemma GetCenteredCoefficients_run context (p1 : Poly) :
  0 <= N context -> Shaped context p1 ->
  GetCenteredCoefficients context p1 = Some (centered context p1).
Proof.
  intros HN [Hrows Hshape]. unfold GetCenteredCoefficients, centered.
  apply mapM_lookup.
  - rewrite length_imap, length_zip_with. lia.
  - intros i [i' q] Hiq. rewrite list_lookup_imap in Hiq.
    destruct (moduli context !! i) as [q0|] eqn:Hq; [|done].
    injection Hiq as <- <-.
    destruct (lookup_lt_is_Some_2 p1 i) as [row Hrow].
    { apply lookup_lt_Some in Hq. lia. }
    exists (map (center q0) row). split.
    + rewrite lookup_zip_with, Hq. cbn. rewrite Hrow. done.
    + pose proof (Hshape i row (lookup_lt_Some _ _ _ Hq) Hrow) as Hlen.
      cbn. apply mapM_lookup.
      * rewrite length_seqZ, length_map. lia.
      * intros j x Hx. apply lookup_seqZ in Hx as [-> Hj].
        destruct (lookup_lt_is_Some_2 row j) as [v Hv]; [lia|].
        exists (center q0 v). split.
        -- rewrite list_lookup_fmap, Hv. done.
        -- rewrite Hrow. cbn. unfold at_. rewrite Z.add_0_l, Nat2Z.id, Hv. done.
Qed.

(** [GetCenteredCoefficients] on a polynomial with canonical residues
    returns, for each modulus [q] of the context, a row of [N]
    representatives of the residues that lie in (-q/2, q/2]. *)
Theorem GetCenteredCoefficients_centered context (p1 : Poly) :
  Forall (fun q => 0 < q < 2 ^ 63) (moduli context) ->
  0 <= N context ->
  Shaped context p1 -> Canonical context p1 ->
  exists coeffs,
    GetCenteredCoefficients context p1 = Some coeffs /\
    length coeffs = length (moduli context) /\
    forall i q row, moduli context !! i = Some q -> p1 !! i = Some row ->
      exists r, coeffs !! i = Some r /\ length r = Z.to_nat (N context) /\
        forall j x, row !! j = Some x ->
          exists v, r !! j = Some v /\ v mod q = x /\ - q < 2 * v <= q.
Proof.
  intros Hq HN Hshape Hcan. exists (centered context p1).
  split; [by apply GetCenteredCoefficients_run|].
  destruct Hshape as [Hrows Hshape]. split.
  - unfold centered. rewrite length_zip_with. lia.
  - intros i q row Hi Hrow. exists (map (center q) row). split; [|split].
    + unfold centered. rewrite lookup_zip_with, Hi. cbn. rewrite Hrow. done.
    + rewrite length_map. apply (Hshape i); [eapply lookup_lt_Some; eauto|done].
    + intros j x Hx. exists (center q x). split.
      * rewrite list_lookup_fmap, Hx. done.
      * apply center_spec.
        -- rewrite Forall_forall in Hq. apply Hq. eapply list_elem_of_lookup_2; eauto.
        -- apply (Hcan i q row j x Hi Hrow); [|done].
           rewrite <- (Hshape i row); [|eapply lookup_lt_Some; eauto|done].
           eapply lookup_lt_Some; eauto.
Qed.

(** Integers that are small enough for every modulus of the context (in
    (-q/2, q/2] for each [q]) are the centred coefficients of the polynomial
    that [SetCoefficientsBigint] makes of them: every returned row is the
    list of the integers. *)
Theorem GetCenteredCoefficients_SetCoefficientsBigint context coeffs (p1 : Poly) :
  Forall (fun q => 0 < q < 2 ^ 63) (moduli context) ->
  0 <= N context < 2 ^ 63 ->
  Shaped context p1 ->
  Z.of_nat (length coeffs) = N context ->
  Forall (fun c => Forall (fun q => - q < 2 * c <= q) (moduli context)) coeffs ->
  exists p,
    SetCoefficientsBigint context coeffs p1 = Some (p, None) /\
    GetCenteredCoefficients context p
    = Some (replicate (length (moduli context)) coeffs).
Proof.
  intros Hq HN Hshape Hlen Hsmall. exists (residues context coeffs p1). split.
  { apply SetCoefficientsBigint_run; try done.
    eapply Forall_impl; [exact Hq|]. cbn. intros; lia. }
  destruct Hshape as [Hrows Hshape].
  rewrite GetCenteredCoefficients_run; [|lia|].
  2:{ split; [unfold residues; rewrite length_imap; exact Hrows|].
      intros i r Hi Hr. unfold residues in Hr. rewrite list_lookup_imap in Hr.
      destruct (p1 !! i) as [row|] eqn:Hrow; [|done]. cbn in Hr.
      destruct (lookup_lt_is_Some_2 _ _ Hi) as [q Hqi]. rewrite Hqi in Hr.
      injection Hr as <-. rewrite length_app, length_map, length_drop.
      rewrite (Hshape i row Hi Hrow). lia. }
  f_equal. apply list_eq. intros i. unfold centered, residues.
  rewrite lookup_zip_with, list_lookup_imap.
  destruct (moduli context !! i) as [q|] eqn:Hqi; cbn.
  2:{ symmetry. apply lookup_replicate_None. apply lookup_ge_None in Hqi. lia. }
  destruct (lookup_lt_is_Some_2 p1 i) as [row Hrow].
  { apply lookup_lt_Some in Hqi. lia. }
  rewrite Hrow. cbn.
  rewrite lookup_replicate_2 by (eapply lookup_lt_Some; eauto). f_equal.
  rewrite drop_ge, app_nil_r.
  2:{ rewrite (Hshape i row); [lia|eapply lookup_lt_Some; eauto|done]. }
  apply list_eq. intros j. rewrite !list_lookup_fmap.
  destruct (coeffs !! j) as [c|] eqn:Hc; [cbn|done]. f_equal.
  apply center_mod.
  - rewrite Forall_forall in Hq. apply Hq. eapply list_elem_of_lookup_2; eauto.
  - pose proof (Forall_lookup_1 _ _ _ _ Hsmall Hc) as Hcq. cbn in Hcq.
    apply (Forall_lookup_1 _ _ _ _ Hcq Hqi).
Qed.

Lemma GetCenteredCoefficients_centered_witness :
  exists coeffs,
    GetCenteredCoefficients Examples.ring17_97 [[16; 3]; [49; 48]] = Some coeffs /\
    length coeffs = 2%nat /\
    forall i q row, [17; 97] !! i = Some q -> [[16; 3]; [49; 48]] !! i = Some row ->
      exists r, coeffs !! i = Some r /\ length r = 2%nat /\
        forall j x, row !! j = Some x ->
          exists v, r !! j = Some v /\ v mod q = x /\ - q < 2 * v <= q.
Proof.
  apply (GetCenteredCoefficients_centered Examples.ring17_97 [[16; 3]; [49; 48]]).
  - repeat constructor.
  - vm_compute. discriminate.
  - split; [vm_compute; lia|].
    intros [|[|i]] r Hi [= <-]; try reflexivity; vm_compute in Hi; lia.
  - intros [|[|i]] q r [|[|j]] x [= <-] [= <-] Hj [= <-]; lia.
Defined.

Lemma GetCenteredCoefficients_SetCoefficientsBigint_witness :
  exists p,
    SetCoefficientsBigint Examples.ring17_97 [-8; 5] [[0; 0]; [0; 0]] = Some (p, None) /\
    GetCenteredCoefficients Examples.ring17_97 p = Some [[-8; 5]; [-8; 5]].
Proof.
  apply (GetCenteredCoefficients_SetCoefficientsBigint
           Examples.ring17_97 [-8; 5] [[0; 0]; [0; 0]]).
  - repeat constructor.
  - vm_compute. split; [discriminate|reflexivity].
  - split; [vm_compute; lia|].
    intros [|[|i]] r Hi [= <-]; try reflexivity; vm_compute in Hi; lia.
  - reflexivity.
  - change (moduli Examples.ring17_97) with [17; 97].
    repeat constructor; lia.
Defined.

End CenteredCoefficients.
(** ** Merging two contexts *)

Section MergedContexts.

Import Ring Shape Crt Merging.

Variable primitiveRoot : Z -> Z.

Lemma foldl_bind_None {A B} (f : A -> B -> option A) (l : list B) :
  foldl (fun acc x => s ← acc; f s x) None l = None.
Proof. induction l as [|x l IH]; [done|exact IH]. Qed.

Lemma recompute_spec big (mods crt : list Z) :
  Forall (fun q => q <> 0) mods -> (length mods <= length crt)%nat ->
  recompute big mods crt
  = Some (map (coefficient big) mods ++ drop (length mods) crt).
Proof.
  unfold recompute.
  induction mods as [|q l IH] using rev_ind; intros Hnz Hlen.
  - cbn. rewrite drop_0. done.
  - apply Forall_app in Hnz as [Hl Hq]. apply Forall_inv in Hq.
    rewrite length_app in Hlen. cbn [length] in Hlen.
    rewrite imap_app, foldl_app, IH by (done || lia). cbn.
    destruct (Z.eqb_spec q 0) as [|_]; [done|].
    rewrite Nat.add_0_r.
    rewrite set_at by (rewrite length_app, length_map, length_drop; lia).
    rewrite insert_written by lia.
    rewrite length_app. cbn [length].
    replace (length l + 1)%nat with (S (length l)) by lia. done.
Qed.

Lemma recompute_short big (mods crt : list Z) :
  (length crt < length mods)%nat -> recompute big mods crt = None.
Proof.
  unfold recompute. revert crt.
  induction mods as [|q l IH] using rev_ind; intros crt Hlen; [cbn in Hlen; lia|].
  rewrite length_app in Hlen. cbn [length] in Hlen.
  rewrite imap_app, foldl_app. cbn.
  match goal with |- ?acc ≫= _ = None => destruct acc as [l'|] eqn:Hacc end; [|done].
  cbn. destruct (q =? 0); [done|]. rewrite Nat.add_0_r.
  assert (length l' = length crt) as Hl'.
  { revert Hacc. clear. revert l'.
    induction l as [|x l IH] using rev_ind; intros l' Hacc.
    - injection Hacc as <-. done.
    - rewrite imap_app, foldl_app in Hacc. cbn in Hacc.
      apply bind_Some in Hacc as (l0 & Hl0 & Hstep).
      destruct (x =? 0); [done|]. apply set_inv in Hstep as [_ ->].
      rewrite length_insert. apply IH. exact Hl0. }
  unfold set_. rewrite Nat2Z.id. destruct (decide (length l < length l')%nat); [lia|done].
Qed.

(** Two contexts that [SetParameters] has set up and for which
    [GenNTTParams] has not run hold no reconstruction coefficients:
    [Merge] panics on them as soon as there is a modulus, when it stores
    the first recomputed coefficient. *)
Theorem Merge_needs_reconstruction context N0 (Q P : list Z) cQ cP :
  SetParameters NewContext N0 Q = (cQ, None) ->
  SetParameters NewContext N0 P = (cP, None) ->
  Q ++ P <> [] ->
  Merge context cQ cP = None.
Proof.
  unfold SetParameters.
  destruct (negb (Z.land N0 (U64.sub N0 1) =? 0) && negb (N0 =? 0)); [done|].
  intros [= <-] [= <-] Hne. unfold Merge. cbn.
  rewrite Z.eqb_refl. cbn.
  rewrite recompute_short; [done|]. cbn. destruct (Q ++ P); [done|cbn; lia].
Qed.

(** Merging two contexts that [GenNTTParams] has completed, of the same
    degree and with moduli that are all distinct, succeeds: the receiver
    holds the concatenated chain and tables, allows the NTT, has the product
    of the two chains as its modulus, and its recomputed reconstruction
    coefficients are 1 modulo their own modulus and 0 modulo the others. *)
Theorem Merge_NTT_contexts context N0 (Q P : list Z) q0 q1 ctxQ p0 p1 ctxP :
  SetParameters q0 N0 Q = (q1, None) ->
  GenNTTParams primitiveRoot q1 = Some (ctxQ, None) ->
  SetParameters p0 N0 P = (p1, None) ->
  GenNTTParams primitiveRoot p1 = Some (ctxP, None) ->
  NoDup (Q ++ P) ->
  exists ctx,
    Merge context ctxQ ctxP = Some (ctx, None) /\
    N ctx = N0 /\ moduli ctx = Q ++ P /\ AllowsNTT ctx = true /\
    ModulusBigint ctx = product (Q ++ P) /\
    nttPsi ctx = nttPsi ctxQ ++ nttPsi ctxP /\
    nttPsiInv ctx = nttPsiInv ctxQ ++ nttPsiInv ctxP /\
    nttNInv ctx = nttNInv ctxQ ++ nttNInv ctxP /\
    length (CrtReconstruction ctx) = length (Q ++ P) /\
    forall (i j : nat) crt qj,
      CrtReconstruction ctx !! i = Some crt -> (Q ++ P) !! j = Some qj ->
      crt mod qj = if decide (i = j) then 1 else 0.
Proof.
  intros HsetQ HgenQ HsetP HgenP Hnd.
  pose proof Hnd as (HndQ & _ & HndP)%NoDup_app.
  destruct (GenNTTParams_Reconstructing primitiveRoot q0 q1 ctxQ N0 Q HsetQ HgenQ HndQ)
    as ((HbigQ & _ & _ & HcrtQ) & HQ & HNQ & HprodQ & HprimeQ).
  destruct (GenNTTParams_Reconstructing primitiveRoot p0 p1 ctxP N0 P HsetP HgenP HndP)
    as ((HbigP & _ & _ & HcrtP) & HP & HNP & HprodP & HprimeP).
  assert (Modulus ctxQ = Some Q /\ allowsNTT ctxQ = true) as [HmQ HnttQ].
  { destruct (SetParameters_inv _ _ _ _ HsetQ) as (_ & _ & Hm & Hntt & _).
    destruct (GenNTTParams_inv _ _ _ Hntt HgenQ) as (_ & _ & rows & _ & _ & Hm' & Ha & _).
    rewrite Hm', Hm. done. }
  assert (Modulus ctxP = Some P /\ allowsNTT ctxP = true) as [HmP HnttP].
  { destruct (SetParameters_inv _ _ _ _ HsetP) as (_ & _ & Hm & Hntt & _).
    destruct (GenNTTParams_inv _ _ _ Hntt HgenP) as (_ & _ & rows & _ & _ & Hm' & Ha & _).
    rewrite Hm', Hm. done. }
  rewrite HQ in HbigQ. rewrite HP in HbigP.
  assert (Forall (fun q => 1 < q) (Q ++ P)) as Hbig by (apply Forall_app; done).
  unfold Merge. rewrite HNQ, HNP, Z.eqb_refl, HmQ, HmP. cbn.
  rewrite recompute_spec.
  2:{ eapply Forall_impl; [exact Hbig|]. cbn. intros; lia. }
  2:{ rewrite HcrtQ, HcrtP, !length_app, !length_map, HQ, HP. lia. }
  rewrite HnttQ, HnttP. cbn. eexists. split; [reflexivity|]. cbn.
  rewrite drop_ge, app_nil_r
    by (rewrite HcrtQ, HcrtP, !length_app, !length_map, HQ, HP; lia).
  rewrite HprodQ, HprodP, <- product_app.
  repeat split; try done.
  - rewrite length_map. done.
  - intros i j crt qj Hi Hj. rewrite list_lookup_fmap in Hi.
    destruct ((Q ++ P) !! i) as [qi|] eqn:Hqi; [|done]. injection Hi as <-.
    apply coefficient_mod; try done.
    assert (Forall Z.prime (Q ++ P)) as Hprime by (apply Forall_app; done).
    intros a b x y Hab Hx Hy. apply prime_coprime.
    + apply (Forall_lookup_1 _ _ _ _ Hprime Hx).
    + apply (Forall_lookup_1 _ _ _ _ Hprime Hy).
    + intros ->. apply Hab. apply (NoDup_lookup (Q ++ P) a b y Hnd Hx Hy).
Qed.

End MergedContexts.

Section MergeExamples.

Import Ring Crt Merging.

Lemma Merge_needs_reconstruction_witness :
  Merge NewContext (SetParameters NewContext 2 [17]).1
    (SetParameters NewContext 2 [97]).1 = None.
Proof.
  apply (Merge_needs_reconstruction NewContext 2 [17] [97]); done.
Defined.

Lemma Merge_NTT_contexts_witness :
  exists ctx,
    Merge NewContext Examples.ring17
      (default NewContext
         (fst <$> GenNTTParams (fun _ => 3) (SetParameters NewContext 2 [97]).1))
    = Some (ctx, None) /\
    N ctx = 2 /\ moduli ctx = [17; 97] /\ AllowsNTT ctx = true /\
    ModulusBigint ctx = product [17; 97].
Proof.
  destruct (Merge_NTT_contexts (fun _ => 3) NewContext 2 [17] [97]
              NewContext (SetParameters NewContext 2 [17]).1 Examples.ring17
              NewContext (SetParameters NewContext 2 [97]).1
              (default NewContext
                 (fst <$> GenNTTParams (fun _ => 3) (SetParameters NewContext 2 [97]).1)))
    as (ctx & Hrun & HN & Hmod & Hntt & Hbig & _).
  - reflexivity.
  - vm_compute. reflexivity.
  - reflexivity.
  - vm_compute. reflexivity.
  - apply (bool_decide_unpack _). vm_compute. exact I.
  - exists ctx. done.
Defined.

End MergeExamples.
(** ** The degree check of [SetParameters] *)

Section DegreeCheck.

Import Ring Crt Coeffs.

Lemma land_pow2_pred k : 0 <= k -> Z.land (2 ^ k) (2 ^ k - 1) = 0.
Proof.
  intros Hk. replace (2 ^ k - 1) with (Z.ones k) by (rewrite Z.ones_equiv; lia).
  rewrite Z.land_ones by done. apply Z.mod_same. apply Z.pow_nonzero; lia.
Qed.

(** [SetParameters] accepts the degree 0 and every power of two, and then
    takes the degree and the chain, with the product of the chain as its
    modulus and without the NTT; it rejects every other degree with its
    error and leaves the context as it was. *)
Theorem SetParameters_degree c N0 (Q : list Z) :
  U64.inrange N0 ->
  (N0 = 0 \/ (exists k, 0 <= k /\ N0 = 2 ^ k) ->
   exists c1, SetParameters c N0 Q = (c1, None) /\
     N c1 = N0 /\ moduli c1 = Q /\ AllowsNTT c1 = false /\
     ModulusBigint c1 = product Q) /\
  (N0 <> 0 -> (forall k, 0 <= k -> N0 <> 2 ^ k) ->
   SetParameters c N0 Q
   = (c, Some "invalid ring degree (must be a power of 2)"%string)).
Proof.
  intros Hr. unfold SetParameters. split.
  - intros Hok.
    assert (negb (Z.land N0 (U64.sub N0 1) =? 0) && negb (N0 =? 0) = false) as ->.
    { destruct Hok as [->|(k & Hk & ->)]; [done|].
      assert (0 < 2 ^ k) by (apply Z.pow_pos_nonneg; lia).
      unfold U64.sub. rewrite wrap_small by (unfold U64.inrange in *; lia).
      rewrite land_pow2_pred by done. done. }
    eexists. split; [reflexivity|]. done.
  - intros Hnz Hnp.
    destruct (negb (Z.land N0 (U64.sub N0 1) =? 0) && negb (N0 =? 0)) eqn:Hc; [done|].
    exfalso. destruct (SetParameters_check_pow2 N0 Hr Hc) as [|(k & Hk & Hpow)]; [done|].
    apply (Hnp k); [lia|done].
Qed.

Lemma SetParameters_degree_witness :
  (exists c1, SetParameters NewContext 0 [17] = (c1, None) /\
     N c1 = 0 /\ moduli c1 = [17] /\ AllowsNTT c1 = false /\
     ModulusBigint c1 = product [17]) /\
  SetParameters NewContext 6 [17]
  = (NewContext, Some "invalid ring degree (must be a power of 2)"%string).
Proof.
  split.
  - apply (SetParameters_degree NewContext 0 [17]); [unfold U64.inrange; rewrite modulus_eq; lia|].
    left. reflexivity.
  - reflexivity.
Defined.

Lemma reconstruct_None context (p1 : Poly) x :
  CrtReconstruction context = [] -> moduli context <> [] ->
  reconstruct context p1 x = None.
Proof.
  intros Hcrt Hmod. unfold reconstruct. rewrite Hcrt.
  destruct (moduli context) as [|q Q']; [done|]. cbn.
  destruct (p1 !! 0%nat) as [row|]; cbn; [destruct (at_ row x); cbn|];
    apply foldl_bind_None.
Qed.

(** A context for which [GenNTTParams] has not run holds no
    reconstruction coefficient: on it [PolyToBigint] panics, for every
    polynomial, as soon as there is a coefficient and a modulus to read. *)
Theorem PolyToBigint_needs_reconstruction N0 (Q : list Z) c1 (p1 : Poly) out :
  SetParameters NewContext N0 Q = (c1, None) ->
  0 < N0 -> Q <> [] ->
  PolyToBigint c1 p1 out = None.
Proof.
  intros Hset HN HQ.
  assert (N c1 = N0 /\ moduli c1 = Q /\ CrtReconstruction c1 = []) as (HN1 & HQ1 & Hcrt).
  { revert Hset. unfold SetParameters.
    destruct (negb (Z.land N0 (U64.sub N0 1) =? 0) && negb (N0 =? 0)); [done|].
    intros [= <-]. done. }
  unfold PolyToBigint, for_range. rewrite HN1.
  destruct (Z.to_nat (N0 - 0)) as [|n] eqn:Hn; [lia|]. cbn [for_nat].
  destruct (set_ out 0 0) as [out'|]; [cbn|done].
  rewrite reconstruct_None; [done|exact Hcrt|rewrite HQ1; exact HQ].
Qed.

Lemma PolyToBigint_needs_reconstruction_witness :
  PolyToBigint (SetParameters NewContext 2 [17]).1 [[1; 2]] [0; 0] = None.
Proof.
  apply (PolyToBigint_needs_reconstruction 2 [17]); [reflexivity|lia|discriminate].
Defined.

End DegreeCheck.

(** ** The transforms in the other order *)

Section ForwardCancellation.

Import Ring Transform.

Variables (q qInv Rinv : Z).
Hypothesis Hq : 0 < q.
Hypothesis Hq62 : 4 * q < U64.modulus.
Hypothesis HqInv : (qInv * q) mod U64.modulus = 1.
Hypothesis HRinv : (U64.modulus * Rinv) mod q = 1 mod q.

Variables (psi psiInv : list Z) (N0 : Z).

Hypothesis Htab : forall k, 1 <= k < N0 ->
  0 <= get psi k < q /\ 0 <= get psiInv k < q /\
  Zdiv.eqm q (get psi k * Rinv * (get psiInv k * Rinv)) 1.

Lemma inverse_layer_bounded m t y :
  0 < t -> 0 < m -> Z.of_nat (length y) = 2 * t * m -> 2 * m <= N0 ->
  bounded (2 * q) y ->
  bounded (2 * q) (layer (fun U V F => InvButterfly U V F q qInv) psiInv m t y).
Proof.
  intros Ht Hm Hlen HN Hy idx Hidx. rewrite length_layer in Hidx.
  rewrite get_layer by lia.
  destruct (index_split m t idx) as (i & o & Hi & Ho & [->| ->]); [lia|lia| |].
  - rewrite layerVal_lo by lia.
    destruct (Htab (m + i)) as (_ & HF & _); [lia|].
    apply (InvButterfly_spec q qInv Rinv); try done; try lia; apply Hy; nia.
  - rewrite layerVal_hi by lia.
    destruct (Htab (m + i)) as (_ & HF & _); [lia|].
    apply (InvButterfly_spec q qInv Rinv); try done; try lia; apply Hy; nia.
Qed.

(** A forward round undoes the inverse round with the same blocks, up to
    a factor of 2. *)
Lemma forward_layer_cancels m t c w u :
  0 < t -> 0 < m -> Z.of_nat (length w) = 2 * t * m -> 2 * m <= N0 ->
  length u = length w ->
  bounded (2 * q) w -> bounded (4 * q) u ->
  (forall idx, 0 <= idx < 2 * t * m ->
     Zdiv.eqm q (get u idx)
       (c * get (layer (fun U V F => InvButterfly U V F q qInv) psiInv m t w) idx)) ->
  bounded (4 * q) (layer (fun U V F => Butterfly U V F q qInv) psi m t u) /\
  (forall idx, 0 <= idx < 2 * t * m ->
     Zdiv.eqm q (get (layer (fun U V F => Butterfly U V F q qInv) psi m t u) idx)
       (2 * c * get w idx)).
Proof.
  intros Ht Hm Hlen HN Hulen Hw Hu Hc.
  assert (forall i o, 0 <= i < m -> 0 <= o < t ->
    (0 <= get (layer (fun U V F => Butterfly U V F q qInv) psi m t u) (2 * t * i + o) <= 4 * q /\
     Zdiv.eqm q (get (layer (fun U V F => Butterfly U V F q qInv) psi m t u) (2 * t * i + o))
       (2 * c * get w (2 * t * i + o))) /\
    (0 <= get (layer (fun U V F => Butterfly U V F q qInv) psi m t u) (2 * t * i + o + t) <= 4 * q /\
     Zdiv.eqm q (get (layer (fun U V F => Butterfly U V F q qInv) psi m t u) (2 * t * i + o + t))
       (2 * c * get w (2 * t * i + o + t)))) as Hpair.
  { intros i o Hi Ho.
    assert (0 <= 2 * t * i + o /\ 2 * t * i + o + t < 2 * t * m) as Hrange by nia.
    destruct (Htab (m + i)) as (HF & HFi & Hinv); [lia|].
    pose proof (Hc (2 * t * i + o) ltac:(lia)) as Hlo.
    pose proof (Hc (2 * t * i + o + t) ltac:(lia)) as Hhi.
    rewrite get_layer in Hlo, Hhi by lia.
    rewrite layerVal_lo in Hlo by lia. rewrite layerVal_hi in Hhi by lia.
    destruct (InvButterfly_spec q qInv Rinv Hq ltac:(lia) HqInv HRinv Hq62
                (get w (2 * t * i + o)) (get w (2 * t * i + o + t)) (get psiInv (m + i)))
      as [[_ HX] [_ HY]]; [apply Hw; lia|apply Hw; lia|done|].
    cbv beta in Hlo, Hhi. rewrite HX in Hlo. rewrite HY in Hhi.
    assert (length u = length w) as Hul by exact Hulen.
    rewrite !get_layer by lia.
    rewrite layerVal_lo, layerVal_hi by lia. cbv beta.
    destruct (Butterfly_spec q qInv Rinv Hq ltac:(lia) HqInv HRinv Hq62
                (get u (2 * t * i + o)) (get u (2 * t * i + o + t)) (get psi (m + i)))
      as [[HbX HcX] [HbY HcY]]; [apply Hu; lia|apply Hu; lia|done|].
    split; (split; [done|]).
    - rewrite HcX, Hlo, Hhi.
      transitivity (c * (get w (2 * t * i + o) + get w (2 * t * i + o + t))
                    + c * (get w (2 * t * i + o) - get w (2 * t * i + o + t))
                      * (get psi (m + i) * Rinv * (get psiInv (m + i) * Rinv))); [eqm_ring|].
      rewrite Hinv. eqm_ring.
    - rewrite HcY, Hlo, Hhi.
      transitivity (c * (get w (2 * t * i + o) + get w (2 * t * i + o + t))
                    - c * (get w (2 * t * i + o) - get w (2 * t * i + o + t))
                      * (get psi (m + i) * Rinv * (get psiInv (m + i) * Rinv))); [eqm_ring|].
      rewrite Hinv. eqm_ring. }
  split.
  - intros idx Hidx. rewrite length_layer in Hidx.
    destruct (index_split m t idx) as (i & o & Hi & Ho & [->| ->]); [lia|lia| |];
      apply Hpair; lia.
  - intros idx Hidx.
    destruct (index_split m t idx) as (i & o & Hi & Ho & [->| ->]); [lia|lia| |];
      apply Hpair; lia.
Qed.

End ForwardCancellation.
Section ReverseRoundTrip.

Import Ring Transform.

Variables (q qInv Rinv : Z).
Hypothesis Hq : 0 < q.
Hypothesis Hq62 : 4 * q < U64.modulus.
Hypothesis HqInv : (qInv * q) mod U64.modulus = 1.
Hypothesis HRinv : (U64.modulus * Rinv) mod q = 1 mod q.

Variables (psi psiInv : list Z) (L : nat).
Hypothesis HL : (1 <= L <= 63)%nat.
Hypothesis Hpsi : Z.of_nat (length psi) = 2 ^ Z.of_nat L.
Hypothesis HpsiInv : Z.of_nat (length psiInv) = 2 ^ Z.of_nat L.
Hypothesis Htab : forall k, 1 <= k < 2 ^ Z.of_nat L ->
  0 <= get psi k < q /\ 0 <= get psiInv k < q /\
  Zdiv.eqm q (get psi k * Rinv * (get psiInv k * Rinv)) 1.

Lemma backward_bounded (k : nat) p :
  (k <= L)%nat -> Z.of_nat (length p) = 2 ^ Z.of_nat L ->
  bounded (2 * q) p -> bounded (2 * q) (backward q qInv psiInv (Z.of_nat L) k p).
Proof.
  revert p. induction k as [|k IH]; intros p Hk Hlen Hp; [exact Hp|].
  cbn [backward].
  pose proof (pow2_split psi psiInv L HL k ltac:(lia)) as Hsplit.
  assert (0 < 2 ^ Z.of_nat k) by (apply pow2_pos; lia).
  assert (0 < 2 ^ (Z.of_nat L - 1 - Z.of_nat k)) by (apply pow2_pos; lia).
  apply IH; [lia|rewrite length_layer; done|].
  apply (inverse_layer_bounded q qInv Rinv Hq Hq62 HqInv HRinv psi psiInv
           (2 ^ Z.of_nat L) Htab); [lia|lia|lia|nia|done].
Qed.

(** The first [k] rounds of the forward transform undo the last [k]
    rounds of the inverse transform, up to the factor [2^k]. *)
Lemma forward_backward (k : nat) u :
  (k <= L)%nat -> Z.of_nat (length u) = 2 ^ Z.of_nat L ->
  bounded (4 * q) u ->
  forall w c,
    Z.of_nat (length w) = 2 ^ Z.of_nat L -> bounded (2 * q) w ->
    (forall idx, 0 <= idx < 2 ^ Z.of_nat L ->
       Zdiv.eqm q (get u idx) (c * get (backward q qInv psiInv (Z.of_nat L) k w) idx)) ->
    bounded (4 * q) (forward q qInv psi (Z.of_nat L) k u) /\
    (forall idx, 0 <= idx < 2 ^ Z.of_nat L ->
       Zdiv.eqm q (get (forward q qInv psi (Z.of_nat L) k u) idx)
         (c * 2 ^ Z.of_nat k * get w idx)).
Proof.
  intros Hk Hlen Hu. induction k as [|k IH]; intros w c Hwlen Hw Hc.
  - cbn [backward forward] in *. split; [exact Hu|].
    intros idx Hidx. rewrite Hc by done. change (2 ^ Z.of_nat 0) with 1. eqm_ring.
  - cbn [forward]. cbn [backward] in Hc.
    pose proof (pow2_split psi psiInv L HL k ltac:(lia)) as Hsplit.
    assert (0 < 2 ^ Z.of_nat k) by (apply pow2_pos; lia).
    assert (0 < 2 ^ (Z.of_nat L - 1 - Z.of_nat k)) by (apply pow2_pos; lia).
    set (w' := layer (fun U V F => InvButterfly U V F q qInv) psiInv
                 (2 ^ Z.of_nat k) (2 ^ (Z.of_nat L - 1 - Z.of_nat k)) w) in *.
    assert (Z.of_nat (length w') = 2 ^ Z.of_nat L) as Hll
      by (unfold w'; rewrite length_layer; exact Hwlen).
    assert (bounded (2 * q) w') as Hw'.
    { apply (inverse_layer_bounded q qInv Rinv Hq Hq62 HqInv HRinv psi psiInv
               (2 ^ Z.of_nat L) Htab); [lia|lia|lia|nia|done]. }
    destruct (IH ltac:(lia) w' c Hll Hw' Hc) as [Hb Hcong].
    destruct (forward_layer_cancels q qInv Rinv Hq Hq62 HqInv HRinv psi psiInv
                (2 ^ Z.of_nat L) Htab
                (2 ^ Z.of_nat k) (2 ^ (Z.of_nat L - 1 - Z.of_nat k)) (c * 2 ^ Z.of_nat k)
                w (forward q qInv psi (Z.of_nat L) k u)) as [Hb' Hc'];
      [lia|lia|lia|nia|rewrite length_forward; lia|done|done| |].
    { intros idx Hidx. apply Hcong. lia. }
    split; [exact Hb'|]. intros idx Hidx. rewrite Hc' by lia.
    rewrite Nat2Z.inj_succ, <- Z.add_1_r, pow2_succ by lia. eqm_ring.
Qed.

(** The round trip on one row, the inverse transform first. *)
Lemma roundtrip_row_inverse_first p out1 out2 nttNInv0 bredParams0 :
  Z.of_nat (length p) = 2 ^ Z.of_nat L ->
  Z.of_nat (length out1) = 2 ^ Z.of_nat L ->
  Z.of_nat (length out2) = 2 ^ Z.of_nat L ->
  (forall idx, 0 <= idx < 2 ^ Z.of_nat L -> 0 <= get p idx < q) ->
  0 <= nttNInv0 < q ->
  Zdiv.eqm q (2 ^ Z.of_nat L * (nttNInv0 * Rinv)) 1 ->
  exists y,
    InvNTT p out1 (2 ^ Z.of_nat L) psiInv nttNInv0 q qInv = Some y /\
    NTT y out2 (2 ^ Z.of_nat L) psi q qInv bredParams0 = Some p.
Proof.
  intros Hp Ho1 Ho2 Hcanon HnInv HN.
  rewrite (InvNTT_spec psiInv q qInv L) by done.
  eexists. split; [reflexivity|].
  set (b := backward q qInv psiInv (Z.of_nat L) L p).
  assert (Z.of_nat (length b) = 2 ^ Z.of_nat L) as Hblen
    by (unfold b; rewrite length_backward; done).
  assert (bounded (2 * q) b) as Hb.
  { apply backward_bounded; [lia|done|].
    intros idx Hidx. specialize (Hcanon idx ltac:(lia)). lia. }
  set (y := map (fun x => MRed x nttNInv0 q qInv) b).
  assert (Z.of_nat (length y) = 2 ^ Z.of_nat L) as Hylen
    by (unfold y; rewrite length_map; done).
  assert (forall idx, 0 <= idx < 2 ^ Z.of_nat L ->
            0 <= get y idx < q /\
            Zdiv.eqm q (get y idx) (nttNInv0 * Rinv * get b idx)) as Hy.
  { intros idx Hidx. unfold y. rewrite (get_map psi psiInv L HL) by lia.
    assert (0 <= get b idx <= 2 * q) as Hx by (apply Hb; lia).
    destruct (MRed_spec q qInv Rinv Hq ltac:(lia) HqInv HRinv (get b idx) nttNInv0)
      as [Hr Hcong]; [nia|].
    split; [done|]. rewrite Hcong. eqm_ring. }
  rewrite (NTT_spec psi q qInv L) by done. f_equal.
  destruct (forward_backward L y ltac:(lia) Hylen) with (w := p) (c := nttNInv0 * Rinv)
    as [_ Hc].
  - intros idx Hidx. destruct (Hy idx) as [Hr _]; lia.
  - done.
  - intros idx Hidx. specialize (Hcanon idx ltac:(lia)). lia.
  - intros idx Hidx. apply Hy. done.
  - apply list_eq_get.
    + rewrite length_map, length_forward. lia.
    + intros idx Hidx. rewrite length_map, length_forward in Hidx.
      rewrite (get_map psi psiInv L HL) by (rewrite length_forward; lia).
      specialize (Hcanon idx ltac:(lia)).
      rewrite <- (Z.mod_small (get p idx) q) by done.
      change (Zdiv.eqm q (get (forward q qInv psi (Z.of_nat L) L y) idx) (get p idx)).
      rewrite Hc by lia.
      transitivity (get p idx * (2 ^ Z.of_nat L * (nttNInv0 * Rinv))); [eqm_ring|].
      rewrite HN. eqm_ring.
Qed.

End ReverseRoundTrip.
Section TransformOutputs.

Import Ring Shape Transform.

Variable primitiveRoot : Z -> Z.

Lemma InvButterfly_inrange U V F Q Qinv :
  U64.inrange (InvButterfly U V F Q Qinv).1 /\
  U64.inrange (InvButterfly U V F Q Qinv).2.
Proof.
  unfold InvButterfly. cbn [fst snd]. split.
  - destruct (_ <? _); apply wrap_range.
  - apply wrap_range.
Qed.

Lemma inverse_layer_inrange psiInv Q Qinv m t y idx :
  0 < t -> 0 <= idx < Z.of_nat (length y) ->
  U64.inrange (get (layer (fun U V F => InvButterfly U V F Q Qinv) psiInv m t y) idx).
Proof.
  intros Ht Hidx. rewrite get_layer by done. unfold layerVal.
  destruct (_ <? _); apply InvButterfly_inrange.
Qed.

Lemma backward_inrange psiInv Q Qinv (L : Z) (k : nat) p idx :
  (1 <= k)%nat -> Z.of_nat k <= L ->
  0 <= idx < Z.of_nat (length p) ->
  U64.inrange (get (backward Q Qinv psiInv L k p) idx).
Proof.
  revert p. induction k as [|k IH]; intros p Hk HL Hidx; [lia|].
  cbn [backward]. destruct k as [|k'].
  - cbn [backward]. apply inverse_layer_inrange; [apply pow2_pos; lia|done].
  - apply IH; [lia|lia|rewrite length_layer; done].
Qed.

(** The forward transform of a row of the context: it returns, its result
    holds canonical residues and does not depend on what the receiver held. *)
Lemma context_row_NTT c0 c1 ctx N0 Q (i : nat) q r1 r2 :
  2 <= N0 < U64.modulus ->
  Forall (fun q => 4 * q < U64.modulus) Q ->
  Forall (fun q => primitiveRoot q mod q <> 0) Q ->
  SetParameters c0 N0 Q = (c1, None) ->
  GenNTTParams primitiveRoot c1 = Some (ctx, None) ->
  Q !! i = Some q ->
  length r1 = Z.to_nat (N ctx) -> length r2 = Z.to_nat (N ctx) ->
  exists psi mred bred y,
    nttPsi ctx !! i = Some psi /\ mredParams ctx !! i = Some mred /\
    bredParams ctx !! i = Some bred /\
    NTT r1 r2 (N ctx) psi q mred bred = Some y /\
    length y = Z.to_nat (N ctx) /\
    (forall j x, y !! j = Some x -> 0 <= x < q) /\
    forall r2', length r2' = Z.to_nat (N ctx) ->
      NTT r1 r2' (N ctx) psi q mred bred = Some y.
Proof.
  intros HN0 HQ62 Hroot Hset Hgen Hq Hl1 Hl2.
  destruct (context_row primitiveRoot c0 c1 ctx N0 Q HN0 HQ62 Hroot Hset Hgen i q Hq)
    as (L & psi & psiInv & nInv & bred & HL & HN & _ & Hpsi & HpsiInv & HnInv & Hbred
        & Hmred & Hq0 & Hq62 & HqInv & HRinv & Hlpsi & HlpsiInv & Hgood & HnInvr & HnInvc).
  assert (0 < 2 ^ Z.of_nat L) as Hpos by (apply pow2_pos; lia).
  rewrite HN in *.
  exists psi, (MRedParams q), bred,
    (map (fun x => x mod q) (forward q (MRedParams q) psi (Z.of_nat L) L r1)).
  split; [done|]. split; [done|]. split; [done|].
  split; [apply NTT_spec; lia|].
  split; [rewrite length_map, length_forward; done|]. split.
  - intros j x Hx. rewrite list_lookup_fmap in Hx.
    destruct (_ !! j); [|done]. injection Hx as <-. apply Z.mod_pos_bound. done.
  - intros r2' Hl2'. apply NTT_spec; lia.
Qed.

Lemma context_row_InvNTT c0 c1 ctx N0 Q (i : nat) q r1 r2 :
  2 <= N0 < U64.modulus ->
  Forall (fun q => 4 * q < U64.modulus) Q ->
  Forall (fun q => primitiveRoot q mod q <> 0) Q ->
  SetParameters c0 N0 Q = (c1, None) ->
  GenNTTParams primitiveRoot c1 = Some (ctx, None) ->
  Q !! i = Some q ->
  length r1 = Z.to_nat (N ctx) -> length r2 = Z.to_nat (N ctx) ->
  exists psiInv nInv mred y,
    nttPsiInv ctx !! i = Some psiInv /\ nttNInv ctx !! i = Some nInv /\
    mredParams ctx !! i = Some mred /\
    InvNTT r1 r2 (N ctx) psiInv nInv q mred = Some y /\
    length y = Z.to_nat (N ctx) /\
    (forall j x, y !! j = Some x -> 0 <= x < q) /\
    forall r2', length r2' = Z.to_nat (N ctx) ->
      InvNTT r1 r2' (N ctx) psiInv nInv q mred = Some y.
Proof.
  intros HN0 HQ62 Hroot Hset Hgen Hq Hl1 Hl2.
  destruct (context_row primitiveRoot c0 c1 ctx N0 Q HN0 HQ62 Hroot Hset Hgen i q Hq)
    as (L & psi & psiInv & nInv & bred & HL & HN & _ & Hpsi & HpsiInv & HnInv & Hbred
        & Hmred & Hq0 & Hq62 & HqInv & HRinv & Hlpsi & HlpsiInv & Hgood & HnInvr & HnInvc).
  assert (0 < 2 ^ Z.of_nat L) as Hpos by (apply pow2_pos; lia).
  rewrite HN in *.
  exists psiInv, nInv, (MRedParams q),
    (map (fun x => MRed x nInv q (MRedParams q))
       (backward q (MRedParams q) psiInv (Z.of_nat L) L r1)).
  split; [done|]. split; [done|]. split; [done|].
  split; [apply InvNTT_spec; lia|].
  split; [rewrite length_map, length_backward; done|]. split.
  - intros j x Hx. rewrite list_lookup_fmap in Hx.
    destruct (backward q (MRedParams q) psiInv (Z.of_nat L) L r1 !! j) as [b|] eqn:Hb;
      [|done].
    injection Hx as <-.
    assert (U64.inrange b) as Hr.
    { pose proof (lookup_lt_Some _ _ _ Hb) as Hj. rewrite length_backward in Hj.
      replace b with (get (backward q (MRedParams q) psiInv (Z.of_nat L) L r1)
                        (Z.of_nat j)).
      - apply backward_inrange; lia.
      - apply get_lookup. unfold at_. rewrite Nat2Z.id. exact Hb. }
    unfold U64.inrange in Hr.
    apply (MRed_spec q (MRedParams q) (Z.invmod U64.modulus q)); try done; [lia|nia].
  - intros r2' Hl2'. apply InvNTT_spec; lia.
Qed.

Lemma context_row_roundtrip_inverse_first c0 c1 ctx N0 Q (i : nat) q r1 r2 r3 :
  2 <= N0 < U64.modulus ->
  Forall (fun q => 4 * q < U64.modulus) Q ->
  Forall (fun q => primitiveRoot q mod q <> 0) Q ->
  SetParameters c0 N0 Q = (c1, None) ->
  GenNTTParams primitiveRoot c1 = Some (ctx, None) ->
  Q !! i = Some q ->
  length r1 = Z.to_nat (N ctx) -> length r2 = Z.to_nat (N ctx) ->
  length r3 = Z.to_nat (N ctx) ->
  (forall j x, r1 !! j = Some x -> 0 <= x < q) ->
  exists psi psiInv nInv bred mred y,
    nttPsi ctx !! i = Some psi /\ nttPsiInv ctx !! i = Some psiInv /\
    nttNInv ctx !! i = Some nInv /\ bredParams ctx !! i = Some bred /\
    mredParams ctx !! i = Some mred /\
    InvNTT r1 r2 (N ctx) psiInv nInv q mred = Some y /\
    NTT y r3 (N ctx) psi q mred bred = Some r1.
Proof.
  intros HN0 HQ62 Hroot Hset Hgen Hq Hl1 Hl2 Hl3 Hcanon.
  destruct (context_row primitiveRoot c0 c1 ctx N0 Q HN0 HQ62 Hroot Hset Hgen i q Hq)
    as (L & psi & psiInv & nInv & bred & HL & HN & _ & Hpsi & HpsiInv & HnInv & Hbred
        & Hmred & Hq0 & Hq62 & HqInv & HRinv & Hlpsi & HlpsiInv & Hgood & HnInvr & HnInvc).
  assert (0 < 2 ^ Z.of_nat L) as Hpos by (apply pow2_pos; lia).
  rewrite HN in *.
  destruct (roundtrip_row_inverse_first q (MRedParams q) (Z.invmod U64.modulus q)
              Hq0 Hq62 HqInv HRinv
              psi psiInv L HL Hlpsi HlpsiInv Hgood r1 r2 r3 nInv bred)
    as (y & Hinv & Hntt); [lia|lia|lia| |done|done|].
  - intros idx Hidx. apply (Hcanon (Z.to_nat idx)).
    change (at_ r1 idx = Some (get r1 idx)). apply at_get. lia.
  - exists psi, psiInv, nInv, bred, (MRedParams q), y. done.
Qed.

End TransformOutputs.
Section ContextTransformOutputs.

Import Ring Shape Transform.

Variable primitiveRoot : Z -> Z.

(** A loop over the moduli whose rows do not depend on what the receiver
    held: it writes the same rows into every receiver. *)
Lemma forModuli_receiver context (row : nat -> Z -> list Z -> option (list Z))
    (P : nat -> Z -> list Z -> Prop) (p0 : Poly) :
  Shaped context p0 ->
  (forall i q, moduli context !! i = Some q ->
     exists y, P i q y /\
       forall r2, length r2 = Z.to_nat (N context) -> row i q r2 = Some y) ->
  exists rows : Poly,
    length rows = length (moduli context) /\
    (forall i q y, moduli context !! i = Some q -> rows !! i = Some y -> P i q y) /\
    forall p2, Shaped context p2 ->
      forModuli context row p2 = Some (rows ++ drop (length (moduli context)) p2).
Proof.
  intros [Hlen0 Hrow0] Hrows.
  destruct (forModuli_total context row p0) as [p' Hp'].
  { intros i q Hq. pose proof (lookup_lt_Some _ _ _ Hq) as Hi.
    destruct (lookup_lt_is_Some_2 p0 i ltac:(lia)) as [r Hr].
    destruct (Hrows i q Hq) as (y & _ & Hy).
    exists r, y. split; [done|]. apply Hy. eapply Hrow0; eauto. }
  apply forModuli_spec in Hp' as (Hlen' & Hrows' & _).
  exists (take (length (moduli context)) p'). split; [|split].
  - rewrite length_take. lia.
  - intros i q y Hq Hy. pose proof (lookup_lt_Some _ _ _ Hq) as Hi.
    rewrite lookup_take_lt in Hy by done.
    destruct (Hrows' i q Hq) as (r & r' & Hr & Hrun & Hp'i).
    destruct (Hrows i q Hq) as (y' & HP & Hy').
    rewrite Hy' in Hrun by (eapply Hrow0; eauto). congruence.
  - intros p2 [Hlen2 Hrow2]. apply forModuli_spec. split; [|split].
    + rewrite length_app, length_take, length_drop. lia.
    + intros i q Hq. pose proof (lookup_lt_Some _ _ _ Hq) as Hi.
      destruct (lookup_lt_is_Some_2 p2 i ltac:(lia)) as [r2 Hr2].
      destruct (Hrows' i q Hq) as (r & r' & Hr & Hrun & Hp'i).
      destruct (Hrows i q Hq) as (y' & HP & Hy').
      rewrite Hy' in Hrun by (eapply Hrow0; eauto). injection Hrun as <-.
      exists r2, y'. split; [done|]. split; [apply Hy'; eapply Hrow2; eauto|].
      rewrite lookup_app_l by (rewrite length_take; lia).
      rewrite lookup_take_lt by done. done.
    + intros i Hi. rewrite lookup_app_r by (rewrite length_take; lia).
      rewrite length_take, lookup_drop. f_equal. lia.
Qed.

Lemma context_moduli c0 c1 ctx N0 Q :
  SetParameters c0 N0 Q = (c1, None) ->
  GenNTTParams primitiveRoot c1 = Some (ctx, None) ->
  moduli ctx = Q.
Proof.
  intros Hset Hgen.
  destruct (SetParameters_fields _ _ _ _ Hset) as (HN1 & HM1 & Hntt1 & _).
  destruct (GenNTTParams_inv _ _ _ Hntt1 Hgen) as (_ & _ & rows & _ & _ & HMc & _).
  unfold moduli. rewrite HMc, HM1. done.
Qed.

(** On a context that [SetParameters] and [GenNTTParams] have set (degree
    at least 2, moduli below 2^62), [Context.NTT] returns for every
    polynomial of the context, whatever words it holds: the rows it writes
    hold canonical residues and are the same for every receiver, the rows
    of the receiver past the chain being kept. *)
Theorem Context_NTT_output c0 c1 ctx N0 Q (p : Poly) :
  2 <= N0 < U64.modulus ->
  Forall (fun q => 4 * q < U64.modulus) Q ->
  Forall (fun q => primitiveRoot q mod q <> 0) Q ->
  SetParameters c0 N0 Q = (c1, None) ->
  GenNTTParams primitiveRoot c1 = Some (ctx, None) ->
  Shaped ctx p ->
  exists rows : Poly,
    length rows = length Q /\ Shaped ctx rows /\ Canonical ctx rows /\
    forall p2, Shaped ctx p2 ->
      Context_NTT ctx p p2 = Some (rows ++ drop (length Q) p2).
Proof.
  intros HN0 HQ62 Hroot Hset Hgen Hp.
  pose proof (context_moduli c0 c1 ctx N0 Q Hset Hgen) as Hmod.
  destruct (forModuli_receiver ctx
    (fun x q r2 =>
       r1 ← p !! x; psi ← nttPsi ctx !! x; mred ← mredParams ctx !! x;
       bred ← bredParams ctx !! x; NTT r1 r2 (N ctx) psi q mred bred)
    (fun i q y => length y = Z.to_nat (N ctx) /\
                  forall j x, y !! j = Some x -> 0 <= x < q) p Hp)
    as (rows & Hlen & Hrows & Hrun).
  { intros i q Hq. rewrite Hmod in Hq. pose proof (lookup_lt_Some _ _ _ Hq) as Hi.
    destruct Hp as [Hplen Hprow]. rewrite Hmod in Hplen, Hprow.
    destruct (lookup_lt_is_Some_2 p i ltac:(lia)) as [r1 Hr1].
    destruct (context_row_NTT primitiveRoot c0 c1 ctx N0 Q i q r1 r1)
      as (psi & mred & bred & y & H1 & H2 & H3 & _ & H5 & H6 & H7);
      try done; try (eapply Hprow; eauto).
    exists y. split; [done|]. intros r2 Hr2.
    rewrite Hr1, H1, H2, H3. cbn [mbind option_bind]. apply H7. done. }
  rewrite Hmod in *. exists rows. split; [done|]. split; [|split].
  - split; [rewrite Hmod; lia|]. intros i r Hi Hr. rewrite Hmod in Hi.
    destruct (lookup_lt_is_Some_2 Q i Hi) as [q Hq].
    apply (Hrows i q r Hq Hr).
  - intros i q r j x Hq Hr Hj Hx. rewrite Hmod in Hq.
    destruct (Hrows i q r Hq Hr) as [_ Hcan]. eapply Hcan; eauto.
  - exact Hrun.
Qed.

(** The same for [Context.InvNTT]: its rows are canonical whatever words it
    is given. *)
Theorem Context_InvNTT_output c0 c1 ctx N0 Q (p : Poly) :
  2 <= N0 < U64.modulus ->
  Forall (fun q => 4 * q < U64.modulus) Q ->
  Forall (fun q => primitiveRoot q mod q <> 0) Q ->
  SetParameters c0 N0 Q = (c1, None) ->
  GenNTTParams primitiveRoot c1 = Some (ctx, None) ->
  Shaped ctx p ->
  exists rows : Poly,
    length rows = length Q /\ Shaped ctx rows /\ Canonical ctx rows /\
    forall p2, Shaped ctx p2 ->
      Context_InvNTT ctx p p2 = Some (rows ++ drop (length Q) p2).
Proof.
  intros HN0 HQ62 Hroot Hset Hgen Hp.
  pose proof (context_moduli c0 c1 ctx N0 Q Hset Hgen) as Hmod.
  destruct (forModuli_receiver ctx
    (fun x q r2 =>
       r1 ← p !! x; psiInv ← nttPsiInv ctx !! x; nInv ← nttNInv ctx !! x;
       mred ← mredParams ctx !! x; InvNTT r1 r2 (N ctx) psiInv nInv q mred)
    (fun i q y => length y = Z.to_nat (N ctx) /\
                  forall j x, y !! j = Some x -> 0 <= x < q) p Hp)
    as (rows & Hlen & Hrows & Hrun).
  { intros i q Hq. rewrite Hmod in Hq. pose proof (lookup_lt_Some _ _ _ Hq) as Hi.
    destruct Hp as [Hplen Hprow]. rewrite Hmod in Hplen, Hprow.
    destruct (lookup_lt_is_Some_2 p i ltac:(lia)) as [r1 Hr1].
    destruct (context_row_InvNTT primitiveRoot c0 c1 ctx N0 Q i q r1 r1)
      as (psiInv & nInv & mred & y & H1 & H2 & H3 & _ & H5 & H6 & H7);
      try done; try (eapply Hprow; eauto).
    exists y. split; [done|]. intros r2 Hr2.
    rewrite Hr1, H1, H2, H3. cbn [mbind option_bind]. apply H7. done. }
  rewrite Hmod in *. exists rows. split; [done|]. split; [|split].
  - split; [rewrite Hmod; lia|]. intros i r Hi Hr. rewrite Hmod in Hi.
    destruct (lookup_lt_is_Some_2 Q i Hi) as [q Hq].
    apply (Hrows i q r Hq Hr).
  - intros i q r j x Hq Hr Hj Hx. rewrite Hmod in Hq.
    destruct (Hrows i q r Hq Hr) as [_ Hcan]. eapply Hcan; eauto.
  - exact Hrun.
Qed.

(** Two loops over the moduli, the second of which undoes the first row
    by row. *)
Lemma forModuli_round_trip context
    (A B : nat -> Z -> list Z -> list Z -> option (list Z)) (p p2 p3 : Poly) :
  Shaped context p -> Shaped context p2 -> Shaped context p3 ->
  (forall i q r1 r2 r3, moduli context !! i = Some q -> p !! i = Some r1 ->
     length r2 = Z.to_nat (N context) -> length r3 = Z.to_nat (N context) ->
     exists y, A i q r1 r2 = Some y /\ B i q y r3 = Some r1) ->
  exists p2',
    forModuli context (fun x q r2 => r1 ← p !! x; A x q r1 r2) p2 = Some p2' /\
    forModuli context (fun x q r3 => y ← p2' !! x; B x q y r3) p3
    = Some (take (length (moduli context)) p ++ drop (length (moduli context)) p3).
Proof.
  intros [Hp Hprow] [Hp2 Hp2row] [Hp3 Hp3row] Hrows.
  destruct (forModuli_total context (fun x q r2 => r1 ← p !! x; A x q r1 r2) p2)
    as [p2' Hp2'].
  { intros i q Hq. pose proof (lookup_lt_Some _ _ _ Hq) as Hi.
    destruct (lookup_lt_is_Some_2 p i ltac:(lia)) as [r1 Hr1].
    destruct (lookup_lt_is_Some_2 p2 i ltac:(lia)) as [r2 Hr2].
    destruct (lookup_lt_is_Some_2 p3 i ltac:(lia)) as [r3 Hr3].
    destruct (Hrows i q r1 r2 r3 Hq Hr1) as (y & Hy & _);
      [eapply Hp2row; eauto|eapply Hp3row; eauto|].
    exists r2, y. split; [done|]. rewrite Hr1. cbn [mbind option_bind]. done. }
  exists p2'. split; [exact Hp2'|].
  apply forModuli_spec in Hp2' as (Hlen2 & Hrows2 & _).
  apply forModuli_spec.
  split; [rewrite length_app, length_take, length_drop; lia|]. split.
  - intros i q Hq. pose proof (lookup_lt_Some _ _ _ Hq) as Hi.
    destruct (lookup_lt_is_Some_2 p i ltac:(lia)) as [r1 Hr1].
    destruct (lookup_lt_is_Some_2 p3 i ltac:(lia)) as [r3 Hr3].
    destruct (Hrows2 i q Hq) as (r2 & y & Hr2 & Hy & Hp2i).
    rewrite Hr1 in Hy. cbn [mbind option_bind] in Hy.
    destruct (Hrows i q r1 r2 r3 Hq Hr1) as (y' & Hy' & Hback);
      [eapply Hp2row; eauto|eapply Hp3row; eauto|].
    assert (y' = y) as -> by congruence.
    exists r3, r1. split; [done|]. split.
    + rewrite Hp2i. cbn [mbind option_bind]. done.
    + rewrite lookup_app_l by (rewrite length_take; lia).
      rewrite lookup_take_lt by lia. done.
  - intros i Hi. rewrite lookup_app_r by (rewrite length_take; lia).
    rewrite length_take, lookup_drop. f_equal. lia.
Qed.

(** The round trip in the other order: on such a context, [InvNTT] into
    [p2] followed by [NTT] into [p3] returns, and leaves in [p3] the rows of
    a polynomial [p] with canonical residues. *)
Theorem NTT_InvNTT_round_trip c0 c1 ctx N0 Q (p p2 p3 : Poly) :
  2 <= N0 < U64.modulus ->
  Forall (fun q => 4 * q < U64.modulus) Q ->
  Forall (fun q => primitiveRoot q mod q <> 0) Q ->
  SetParameters c0 N0 Q = (c1, None) ->
  GenNTTParams primitiveRoot c1 = Some (ctx, None) ->
  Shaped ctx p -> Shaped ctx p2 -> Shaped ctx p3 -> Canonical ctx p ->
  exists p2',
    Context_InvNTT ctx p p2 = Some p2' /\
    Context_NTT ctx p2' p3 = Some (take (length Q) p ++ drop (length Q) p3).
Proof.
  intros HN0 HQ62 Hroot Hset Hgen Hp Hp2 Hp3 Hcanon.
  pose proof (context_moduli c0 c1 ctx N0 Q Hset Hgen) as Hmod.
  rewrite <- Hmod.
  apply (forModuli_round_trip ctx
    (fun x q r1 r2 =>
       psiInv ← nttPsiInv ctx !! x; nInv ← nttNInv ctx !! x;
       mred ← mredParams ctx !! x; InvNTT r1 r2 (N ctx) psiInv nInv q mred)
    (fun x q y r3 =>
       psi ← nttPsi ctx !! x; mred ← mredParams ctx !! x;
       bred ← bredParams ctx !! x; NTT y r3 (N ctx) psi q mred bred));
    try done.
  intros i q r1 r2 r3 Hq Hr1 Hl2 Hl3. rewrite Hmod in Hq.
  destruct Hp as [Hplen Hprow]. rewrite Hmod in Hprow.
  destruct (context_row_roundtrip_inverse_first primitiveRoot c0 c1 ctx N0 Q i q r1 r2 r3)
    as (psi & psiInv & nInv & bred & mred & y & H1 & H2 & H3 & H4 & H5 & H6 & H7);
    try done.
  - eapply Hprow; [eapply lookup_lt_Some|]; eauto.
  - intros j x Hx. apply (Hcanon i q r1 j x); try done.
    + rewrite Hmod. done.
    + apply lookup_lt_Some in Hx.
      rewrite (Hprow i r1) in Hx; [done|eapply lookup_lt_Some; eauto|done].
  - exists y. rewrite H1, H2, H3, H4, H5. cbn [mbind option_bind]. done.
Qed.

End ContextTransformOutputs.
Section TransformOutputExamples.

Import Ring Shape Examples.

Lemma Context_NTT_output_witness :
  exists rows : Poly,
    length rows = length [17] /\ Shaped ring17 rows /\ Canonical ring17 rows /\
    forall p2, Shaped ring17 p2 ->
      Context_NTT ring17 [[20; 3]] p2 = Some (rows ++ drop (length [17]) p2).
Proof.
  apply (Context_NTT_output (fun _ => 3) NewContext
           (SetParameters NewContext 2 [17]).1 ring17 2 [17]).
  - rewrite modulus_eq. lia.
  - apply Forall_cons_2; [rewrite modulus_eq; lia|apply Forall_nil_2].
  - apply Forall_cons_2; [vm_compute; discriminate|apply Forall_nil_2].
  - reflexivity.
  - vm_compute. reflexivity.
  - apply Shaped_ring17.
Defined.

Lemma Context_InvNTT_output_witness :
  exists rows : Poly,
    length rows = length [17] /\ Shaped ring17 rows /\ Canonical ring17 rows /\
    forall p2, Shaped ring17 p2 ->
      Context_InvNTT ring17 [[20; 3]] p2 = Some (rows ++ drop (length [17]) p2).
Proof.
  apply (Context_InvNTT_output (fun _ => 3) NewContext
           (SetParameters NewContext 2 [17]).1 ring17 2 [17]).
  - rewrite modulus_eq. lia.
  - apply Forall_cons_2; [rewrite modulus_eq; lia|apply Forall_nil_2].
  - apply Forall_cons_2; [vm_compute; discriminate|apply Forall_nil_2].
  - reflexivity.
  - vm_compute. reflexivity.
  - apply Shaped_ring17.
Defined.

Lemma NTT_InvNTT_round_trip_witness :
  exists p2',
    Context_InvNTT ring17 [[1; 2]] [[0; 0]] = Some p2' /\
    Context_NTT ring17 p2' [[5; 5]]
    = Some (take (length [17]) [[1; 2]] ++ drop (length [17]) [[5; 5]]).
Proof.
  apply (NTT_InvNTT_round_trip (fun _ => 3) NewContext
           (SetParameters NewContext 2 [17]).1 ring17 2 [17]).
  - rewrite modulus_eq. lia.
  - apply Forall_cons_2; [rewrite modulus_eq; lia|apply Forall_nil_2].
  - apply Forall_cons_2; [vm_compute; discriminate|apply Forall_nil_2].
  - reflexivity.
  - vm_compute. reflexivity.
  - apply Shaped_ring17.
  - apply Shaped_ring17.
  - apply Shaped_ring17.
  - apply Canonical_ring17; lia.
Defined.

End TransformOutputExamples.

(** ** Scheme-I plaintexts *)

Section PlaintextCoefficients.

Import Ring Shape Coeffs Plaintext.

Lemma residueInt64_spec c t0 :
  0 < t0 < 2 ^ 63 -> residueInt64 c t0 = Some (c mod t0).
Proof.
  intros Ht. unfold residueInt64. cbv zeta. rewrite int_small by lia.
  destruct (Z.eqb_spec t0 0) as [|_]; [lia|].
  pose proof (Z.rem_bound_abs c t0 ltac:(lia)) as Habs.
  assert (0 < Z.rem c t0 + t0 < 2 ^ 64) as Hr by lia.
  assert (U64.wrap (I64.wrap (Z.rem c t0 + t0)) = Z.rem c t0 + t0) as ->.
  { unfold U64.wrap, I64.wrap, U64.modulus.
    rewrite Zminus_mod, Z.mod_mod by lia.
    rewrite <- Zminus_mod.
    replace (Z.rem c t0 + t0 + 2 ^ 63 - 2 ^ 63) with (Z.rem c t0 + t0) by lia.
    apply Z.mod_small. lia. }
  unfold modWord. destruct (Z.eqb_spec t0 0) as [|_]; [lia|]. f_equal.
  pose proof (Z.quot_rem' c t0) as Hqr.
  replace (Z.rem c t0 + t0) with (c + (1 - Z.quot c t0) * t0) by lia.
  apply Z_mod_plus_full.
Qed.

(** The loop over the rows that writes the value [v] at entry [j]. *)
Lemma fillColumn (vo : option Z) v (j m : nat) (p : Poly) :
  vo = Some v -> (m <= length p)%nat ->
  (forall i row, (i < m)%nat -> p !! i = Some row -> (j < length row)%nat) ->
  foldl (fun acc i => p ← acc; x ← vo; setCoeff p i (Z.of_nat j) x)
        (Some p) (seq 0 m)
  = Some (imap (fun (i : nat) row => if decide (i < m)%nat then <[j := v]> row else row) p).
Proof.
  intros ->. induction m as [|m IH]; intros Hlen Hrows.
  - cbn. f_equal. apply list_eq. intros k. rewrite list_lookup_imap.
    destruct (p !! k); done.
  - rewrite seq_S, foldl_app, IH; [|lia|intros i row Hi; apply Hrows; lia].
    cbn. unfold setCoeff.
    destruct (lookup_lt_is_Some_2 p m) as [row Hrow]; [lia|].
    rewrite list_lookup_imap, Hrow. cbn.
    destruct (decide (m < m)%nat); [lia|].
    rewrite set_at by (eapply Hrows; eauto). cbn. f_equal.
    apply list_eq. intros k. destruct (decide (k = m)) as [->|Hk].
    + rewrite list_lookup_insert_eq by (rewrite length_imap; lia).
      rewrite list_lookup_imap, Hrow. cbn.
      destruct (decide (m < S m)%nat); [done|lia].
    + rewrite list_lookup_insert_ne by done. rewrite !list_lookup_imap.
      destruct (p !! k) as [r|]; [cbn|done].
      destruct (decide (k < m)%nat), (decide (k < S m)%nat); try lia; done.
Qed.

Lemma fillColumns (f : Z -> option Z) (g : Z -> Z) (m : nat) (coeffs : list Z)
    (p : Poly) :
  (forall c, f c = Some (g c)) -> (m <= length p)%nat ->
  (forall i row, (i < m)%nat -> p !! i = Some row ->
     (length coeffs <= length row)%nat) ->
  foldl (fun acc (ic : nat * Z) =>
           p ← acc;
           foldl (fun acc j => p ← acc; v ← f ic.2; setCoeff p j (Z.of_nat ic.1) v)
                 (Some p) (seq 0 m))
        (Some p) (imap pair coeffs)
  = Some (imap (fun (i : nat) row =>
                  if decide (i < m)%nat
                  then map g coeffs ++ drop (length coeffs) row else row) p).
Proof.
  intros Hf Hlen.
  induction coeffs as [|c l IH] using rev_ind; intros Hrows.
  - cbn. f_equal. apply list_eq. intros k. rewrite list_lookup_imap.
    destruct (p !! k) as [r|]; [cbn|done]. rewrite drop_0. destruct (decide _); done.
  - rewrite imap_app, foldl_app.
    rewrite IH.
    2:{ intros i row Hi Hrow. specialize (Hrows i row Hi Hrow).
        rewrite length_app in Hrows. lia. }
    cbn. rewrite Nat.add_0_r.
    rewrite (fillColumn (f c) (g c) (length l) m); [|apply Hf|by rewrite length_imap|].
    2:{ intros i row Hi. rewrite list_lookup_imap.
        destruct (p !! i) as [r|] eqn:Hr; [cbn|done].
        pose proof (Hrows i r Hi Hr) as Hlr. rewrite length_app in Hlr. cbn in Hlr.
        destruct (decide (i < m)%nat); [|lia]. intros [= <-].
        rewrite length_app, length_map, length_drop. lia. }
    f_equal. apply list_eq. intros k. rewrite !list_lookup_imap.
    destruct (p !! k) as [r|] eqn:Hr; [cbn|done].
    destruct (decide (k < m)%nat) as [Hk|]; [|done].
    pose proof (Hrows k r Hk Hr) as Hlr.
    rewrite length_app in Hlr. cbn in Hlr.
    pose proof (insert_written g l c r) as Hw.
    rewrite Hw by lia. rewrite length_app. cbn [length].
    replace (length l + 1)%nat with (S (length l)) by lia. done.
Qed.

(** [setCoefficientsUint64] and [setCoefficientsInt64] write, into every
    row of the chain, the coefficients reduced modulo the plaintext modulus
    [t]; the signed variant gives a negative coefficient its non-negative
    residue. Neither checks the number of coefficients: here the rows have
    room for them. *)
Theorem setCoefficients_encoded bfvcontext (coeffs : list Z) (value : Poly) :
  0 < t bfvcontext < 2 ^ 63 ->
  (length (moduli (contextQ bfvcontext)) <= length value)%nat ->
  Forall (fun row : list Z => (length coeffs <= length row)%nat) value ->
  setCoefficientsUint64 bfvcontext coeffs value
  = Some (encoded bfvcontext coeffs value) /\
  setCoefficientsInt64 bfvcontext coeffs value
  = Some (encoded bfvcontext coeffs value).
Proof.
  intros Ht Hlen Hrows.
  assert (forall (i : nat) row, (i < length (moduli (contextQ bfvcontext)))%nat ->
            value !! i = Some row -> (length coeffs <= length row)%nat) as Hrows'.
  { intros i row _ Hrow. apply (Forall_lookup_1 _ _ _ _ Hrows Hrow). }
  split.
  - unfold setCoefficientsUint64, encoded.
    apply (fillColumns (fun c => modWord c (t bfvcontext))
             (fun c => c mod t bfvcontext)); try done.
    intros c. unfold modWord. destruct (Z.eqb_spec (t bfvcontext) 0); [lia|done].
  - unfold setCoefficientsInt64, encoded.
    apply (fillColumns (fun c => residueInt64 c (t bfvcontext))
             (fun c => c mod t bfvcontext)); try done.
    intros c. apply residueInt64_spec. done.
Qed.

End PlaintextCoefficients.

Section PlaintextExamples.

Import Ring Plaintext.

Lemma setCoefficients_encoded_witness :
  setCoefficientsUint64 (mkContext 2 5 Examples.ring17_97 Examples.ring17 [])
    [7; 4] [[0; 0]; [0; 0]]
  = Some (encoded (mkContext 2 5 Examples.ring17_97 Examples.ring17 [])
            [7; 4] [[0; 0]; [0; 0]]) /\
  setCoefficientsInt64 (mkContext 2 5 Examples.ring17_97 Examples.ring17 [])
    [-1; 4] [[0; 0]; [0; 0]]
  = Some [[4; 4]; [4; 4]].
Proof.
  split.
  - apply (setCoefficients_encoded (mkContext 2 5 Examples.ring17_97 Examples.ring17 [])
             [7; 4] [[0; 0]; [0; 0]]).
    + cbn. lia.
    + vm_compute. lia.
    + repeat constructor.
  - apply (setCoefficients_encoded (mkContext 2 5 Examples.ring17_97 Examples.ring17 [])
             [-1; 4] [[0; 0]; [0; 0]]).
    + cbn. lia.
    + vm_compute. lia.
    + repeat constructor.
Defined.

End PlaintextExamples.
Section PlaintextLift.

Import Ring Shape Coeffs Plaintext.

Lemma odd_coprime q : q mod 2 = 1 -> Z.coprime q U64.modulus.
Proof.
  intros Hodd. unfold U64.modulus. apply Z.coprime_pow_r; [lia|].
  unfold Z.coprime. rewrite Z.gcd_comm. apply Z.coprime_prime_l; [exact prime_2|].
  intros Hdiv. apply Z.mod_divide in Hdiv; [|lia]. lia.
Qed.

Lemma odd_not_pow2 q :
  1 < q < U64.modulus -> q mod 2 = 1 ->
  negb (Z.land q (U64.sub q 1) =? 0) && negb (q =? 0) = true.
Proof.
  intros Hq Hodd.
  destruct (Z.eqb_spec q 0); [lia|].
  destruct (Z.eqb_spec (Z.land q (U64.sub q 1)) 0) as [Hl|]; [|done]. exfalso.
  unfold U64.sub, U64.wrap in Hl.
  rewrite Z.mod_small in Hl by lia.
  apply land_pred_pow2 in Hl; [|lia].
  destruct (Z.eq_dec (Z.log2 q) 0) as [H0|H0].
  - rewrite H0 in Hl. change (2 ^ 0) with 1 in Hl. lia.
  - assert (0 < Z.log2 q) by (pose proof (Z.log2_nonneg q); lia).
    rewrite Hl in Hodd.
    replace (Z.log2 q) with (Z.log2 q - 1 + 1) in Hodd by lia.
    rewrite pow2_succ in Hodd by lia.
    rewrite Z.mul_comm, Z.mod_mul in Hodd by lia. discriminate.
Qed.

(** A Montgomery product with a constant in Montgomery form is the
    product by the constant, reduced. *)
Lemma MRed_MForm q x delta bred :
  1 < q < 2 ^ 63 -> q mod 2 = 1 -> U64.inrange x ->
  MRed x (MForm delta q bred) q (MRedParams q) = (x * delta) mod q.
Proof.
  intros Hq Hodd Hx. unfold U64.inrange in Hx.
  pose proof (odd_coprime q Hodd) as Hco.
  assert (2 * q <= U64.modulus) as Hq63 by (rewrite modulus_eq; lia).
  assert ((MRedParams q * q) mod U64.modulus = 1) as HqInv.
  { unfold MRedParams. apply Z.invmod_coprime; [rewrite modulus_eq; lia|done]. }
  assert ((U64.modulus * Z.invmod U64.modulus q) mod q = 1 mod q) as HRinv.
  { rewrite Z.mul_comm. apply Z.invmod_coprime'.
    unfold Z.coprime in *. rewrite Z.gcd_comm. done. }
  assert (0 <= MForm delta q bred < q) as Hd by (apply Z.mod_pos_bound; lia).
  destruct (MRed_spec q (MRedParams q) (Z.invmod U64.modulus q) ltac:(lia) Hq63 HqInv HRinv
              x (MForm delta q bred)) as [Hr Hc]; [nia|].
  rewrite <- (Z.mod_small (MRed x (MForm delta q bred) q (MRedParams q)) q) by done.
  change (Zdiv.eqm q (MRed x (MForm delta q bred) q (MRedParams q)) (x * delta)).
  rewrite Hc. unfold MForm. rewrite Zdiv.Zmod_eqm.
  transitivity (x * delta * (U64.modulus * Z.invmod U64.modulus q)); [eqm_ring|].
  assert (Zdiv.eqm q (U64.modulus * Z.invmod U64.modulus q) 1) as -> by exact HRinv.
  eqm_ring.
Qed.

Lemma setCoeff_Some (p : Poly) (i j : nat) v row :
  p !! i = Some row -> (j < length row)%nat ->
  setCoeff p i (Z.of_nat j) v = Some (<[i := <[j := v]> row]> p).
Proof.
  intros Hrow Hj. unfold setCoeff. rewrite Hrow. cbn.
  rewrite set_at by done. done.
Qed.

Variables (D Q M : list Z) (F : nat -> Z -> Z).

Hypothesis Htab : forall i, (i < length Q)%nat ->
  exists d q mred, D !! i = Some d /\ Q !! i = Some q /\ M !! i = Some mred /\
    forall x, F i x = MRed x d q mred.

(** The loop of [Lift] over the rows, from the last one down, for the
    coefficient [j]: the first row is read before it is written. *)
Lemma liftColumn (j : nat) x (m : nat) (p : Poly) :
  (m <= length Q)%nat -> (m <= length p)%nat ->
  ((0 < m)%nat -> exists r0, p !! 0%nat = Some r0 /\ r0 !! j = Some x) ->
  (forall i row, (i < m)%nat -> p !! i = Some row -> (j < length row)%nat) ->
  foldl (fun acc i =>
           p ← acc; row0 ← p !! 0%nat; x ← at_ row0 (Z.of_nat j);
           d ← D !! i; q ← Q !! i; mred ← M !! i;
           setCoeff p i (Z.of_nat j) (MRed x d q mred))
        (Some p) (rev (seq 0 m))
  = Some (imap (fun (i : nat) row =>
                  if decide (i < m)%nat then <[j := F i x]> row else row) p).
Proof.
  revert p. induction m as [|m IH]; intros p HmQ Hmp H0 Hrows.
  - cbn. f_equal. apply list_eq. intros k. rewrite list_lookup_imap.
    destruct (p !! k); done.
  - rewrite seq_S, rev_app_distr. cbn [rev app foldl Nat.add].
    destruct H0 as (r0 & Hr0 & Hx); [lia|].
    destruct (Htab m ltac:(lia)) as (d & q & mred & Hd & Hq & Hm & HF).
    destruct (lookup_lt_is_Some_2 p m ltac:(lia)) as [row Hrow].
    cbn [mbind option_bind]. rewrite Hr0. cbn [mbind option_bind].
    assert (at_ r0 (Z.of_nat j) = Some x) as Hat
      by (unfold at_; rewrite Nat2Z.id; done).
    rewrite Hat. cbn [mbind option_bind].
    rewrite Hd, Hq, Hm. cbn [mbind option_bind].
    rewrite (setCoeff_Some p m j _ row Hrow) by (eapply Hrows; eauto).
    rewrite IH; [|lia|rewrite length_insert; lia| |].
    + f_equal. apply list_eq. intros k. rewrite !list_lookup_imap.
      destruct (decide (k = m)) as [->|Hk].
      * rewrite list_lookup_insert_eq by lia. rewrite Hrow. cbn.
        destruct (decide (m < m)%nat); [lia|].
        destruct (decide (m < S m)%nat); [|lia]. rewrite HF. done.
      * rewrite list_lookup_insert_ne by done.
        destruct (p !! k) as [r|]; [cbn|done].
        destruct (decide (k < m)%nat), (decide (k < S m)%nat); try lia; done.
    + intros Hm0. exists r0. split; [|done].
      rewrite list_lookup_insert_ne by lia. done.
    + intros i r Hi Hr. rewrite list_lookup_insert_ne in Hr by lia.
      eapply Hrows; [|exact Hr]. lia.
Qed.

End PlaintextLift.
Section PlaintextLiftLoop.

Import Ring Shape Coeffs Plaintext.

(** [Lift] multiplies the plaintext by [delta] in every row: on a context
    whose chain holds odd moduli below 2^63, with the constants
    [deltaMont] the Montgomery forms of [delta], each row of the chain
    receives the first row times [delta], reduced modulo its modulus. The
    rows are written from the last one down, so that the first row is read
    before it is replaced. *)
Theorem Lift_multiplies bfvcontext c0 N0 (Q : list Z) delta (value : Poly) :
  SetParameters c0 N0 Q = (contextQ bfvcontext, None) ->
  n bfvcontext = N0 -> 0 <= N0 ->
  Forall (fun q => 1 < q < 2 ^ 63 /\ q mod 2 = 1) Q ->
  deltaMont bfvcontext = map (fun q => MForm delta q (BRedParams q)) Q ->
  Shaped (contextQ bfvcontext) value ->
  Forall (Forall U64.inrange) value ->
  Lift bfvcontext value = Some (lifted bfvcontext delta value).
Proof.
  intros Hset Hn HN0 HQ HD [Hlen Hshape] Hwords.
  destruct (SetParameters_fields _ _ _ _ Hset) as (HN & HM & _ & _ & Hmred).
  assert (moduli (contextQ bfvcontext) = Q) as Hmod
    by (unfold moduli; rewrite HM; done).
  unfold Lift, lifted. cbv zeta. rewrite Hmod, Hn in *. rewrite HN in Hshape.
  set (D := deltaMont bfvcontext) in *.
  set (M := mredParams (contextQ bfvcontext)) in *.
  set (F := fun (i : nat) x =>
              MRed x (default 0 (D !! i)) (default 0 (Q !! i)) (default 0 (M !! i))).
  set (row0 := default [] (value !! 0%nat)).
  assert (forall i, (i < length Q)%nat ->
            exists d q mred, D !! i = Some d /\ Q !! i = Some q /\ M !! i = Some mred /\
              forall x, F i x = MRed x d q mred) as Htab.
  { intros i Hi. destruct (lookup_lt_is_Some_2 Q i Hi) as [q Hq].
    exists (MForm delta q (BRedParams q)), q,
      (if negb (Z.land q (U64.sub q 1) =? 0) && negb (q =? 0) then MRedParams q else 0).
    assert (D !! i = Some (MForm delta q (BRedParams q))) as Hd
      by (rewrite HD, list_lookup_fmap, Hq; done).
    assert (M !! i = Some (if negb (Z.land q (U64.sub q 1) =? 0) && negb (q =? 0)
                           then MRedParams q else 0)) as Hm
      by (rewrite Hmred, list_lookup_fmap, Hq; done).
    split; [done|]. split; [done|]. split; [done|].
    intros x. unfold F. rewrite Hd, Hq, Hm. done. }
  assert ((0 < length Q)%nat -> value !! 0%nat = Some row0 /\
            length row0 = Z.to_nat N0) as Hrow0.
  { intros Hm. destruct (lookup_lt_is_Some_2 value 0%nat ltac:(lia)) as [r Hr].
    unfold row0. rewrite Hr. split; [done|]. apply (Hshape 0%nat r Hm Hr). }
  match goal with
  | |- for_range ?lo ?hi ?body ?s = _ =>
      destruct (for_range_total
                  (fun j (p : Poly) =>
                     p = imap (fun (i : nat) row =>
                                 if decide (i < length Q)%nat
                                 then map (F i) (take (Z.to_nat j) row0)
                                        ++ drop (Z.to_nat j) row
                                 else row) value)
                  body lo hi s) as (o & Hrun & Ho)
  end.
  - lia.
  - apply list_eq. intros k. rewrite list_lookup_imap.
    destruct (value !! k) as [r|]; [cbn|done].
    destruct (decide _); [rewrite drop_0|]; done.
  - intros j p Hj ->.
    set (pj := imap _ value).
    assert (forall k, (k < length Q)%nat ->
              exists r, value !! k = Some r /\ length r = Z.to_nat N0 /\
                pj !! k = Some (map (F k) (take (Z.to_nat j) row0)
                                  ++ drop (Z.to_nat j) r)) as Hpj.
    { intros k Hk. destruct (lookup_lt_is_Some_2 value k ltac:(lia)) as [r Hr].
      exists r. split; [done|]. split; [apply (Hshape k r Hk Hr)|].
      unfold pj. rewrite list_lookup_imap, Hr. cbn.
      destruct (decide (k < length Q)%nat); [done|lia]. }
    destruct (decide (0 < length Q)%nat) as [Hm|Hm].
    + destruct (Hrow0 Hm) as [Hv0 Hl0].
      destruct (lookup_lt_is_Some_2 row0 (Z.to_nat j) ltac:(lia)) as [x Hx].
      pose proof (liftColumn D Q M F Htab (Z.to_nat j) x (length Q) pj) as Hcol.
      rewrite Z2Nat.id in Hcol by lia. cbv beta.
      rewrite Hcol; [|lia|unfold pj; rewrite length_imap; lia| |].
      * eexists. split; [reflexivity|].
        apply list_eq. intros k. unfold pj. rewrite !list_lookup_imap.
        destruct (value !! k) as [r|] eqn:Hr; [cbn|done].
        destruct (decide (k < length Q)%nat) as [Hk|]; [|done].
        pose proof (Hshape k r Hk Hr) as Hlr.
        pose proof (insert_written_at (F k) (take (Z.to_nat j) row0) x r (Z.to_nat j))
          as Hw.
        rewrite Hw; [|rewrite length_take; lia|lia].
        replace (Z.to_nat (j + 1)) with (S (Z.to_nat j)) by lia.
        rewrite (take_S_r _ _ _ Hx). done.
      * intros _. destruct (Hpj 0%nat Hm) as (r & Hr & Hlr & Hp0).
        assert (r = row0) as -> by congruence.
        eexists. split; [exact Hp0|].
        rewrite lookup_app_r by (rewrite length_map, length_take; lia).
        rewrite length_map, length_take, lookup_drop.
        replace (Z.to_nat j + (Z.to_nat j - Z.to_nat j `min` length row0))%nat
          with (Z.to_nat j) by lia.
        done.
      * intros i r Hi Hr. destruct (Hpj i Hi) as (r' & Hr' & Hlr' & Hpi).
        rewrite Hpi in Hr. injection Hr as <-.
        rewrite length_app, length_map, length_take, length_drop. lia.
    + assert (length Q = 0)%nat as HQ0 by lia. rewrite HQ0. cbn.
      eexists. split; [reflexivity|].
      apply list_eq. intros k. unfold pj. rewrite !list_lookup_imap.
      destruct (value !! k) as [r|]; [cbn|done].
      rewrite HQ0. destruct (decide (k < 0)%nat); [lia|done].
  - rewrite Hrun, Ho. f_equal.
    apply list_eq. intros k. rewrite !list_lookup_imap.
    destruct (value !! k) as [r|] eqn:Hr; [cbn|done].
    destruct (decide (k < length Q)%nat) as [Hk|Hk].
    + destruct (lookup_lt_is_Some_2 Q k Hk) as [q Hq]. rewrite Hq.
      destruct (Hrow0 ltac:(lia)) as [Hv0 Hl0].
      pose proof (Hshape k r Hk Hr) as Hlr.
      rewrite take_ge, drop_ge, app_nil_r by lia.
      fold row0. f_equal. apply list_eq. intros i. rewrite !list_lookup_fmap.
      destruct (row0 !! i) as [x|] eqn:Hx; [cbn|done]. f_equal.
      destruct (Htab k Hk) as (d & q' & mred & Hd & Hq' & Hm & HF).
      rewrite HF.
      assert (q' = q) as -> by congruence.
      pose proof (Forall_lookup_1 _ _ _ _ HQ Hq) as [Hqr Hodd].
      assert (d = MForm delta q (BRedParams q)) as ->.
      { rewrite HD, list_lookup_fmap, Hq in Hd. cbn in Hd. congruence. }
      assert (mred = MRedParams q) as ->.
      { rewrite Hmred, list_lookup_fmap, Hq in Hm. cbn in Hm.
        rewrite odd_not_pow2 in Hm; [congruence|rewrite modulus_eq; lia|done]. }
      apply MRed_MForm; [done|done|].
      pose proof (Forall_lookup_1 _ _ _ _ Hwords Hv0) as Hw0.
      apply (Forall_lookup_1 _ _ _ _ Hw0 Hx).
    + rewrite (lookup_ge_None_2 Q k) by lia. done.
Qed.

End PlaintextLiftLoop.
Section PlaintextEmbedding.

Import Ring Shape Coeffs Plaintext.

Variable primitiveRoot : Z -> Z.

(** Two loops over the moduli, in place, the second of which undoes the
    first row by row. *)
Lemma forModuli_round_trip_in_place context
    (A B : nat -> Z -> list Z -> list Z -> option (list Z)) (p : Poly) :
  Shaped context p ->
  (forall i q r1 r2 r3, moduli context !! i = Some q -> p !! i = Some r1 ->
     length r2 = Z.to_nat (N context) -> length r3 = Z.to_nat (N context) ->
     exists y, A i q r1 r2 = Some y /\ length y = Z.to_nat (N context) /\
               B i q y r3 = Some r1) ->
  exists v,
    forModuli context (fun x q r2 => r1 ← p !! x; A x q r1 r2) p = Some v /\
    forModuli context (fun x q r3 => y ← v !! x; B x q y r3) v = Some p.
Proof.
  intros Hp Hrows.
  assert (forall i q r1 r2 r3, moduli context !! i = Some q -> p !! i = Some r1 ->
     length r2 = Z.to_nat (N context) -> length r3 = Z.to_nat (N context) ->
     exists y, A i q r1 r2 = Some y /\ B i q y r3 = Some r1) as Hrows'.
  { intros i q r1 r2 r3 Hq Hr1 Hl2 Hl3.
    destruct (Hrows i q r1 r2 r3 Hq Hr1 Hl2 Hl3) as (y & Hy & _ & Hb). eauto. }
  destruct (forModuli_round_trip context A B p p p Hp Hp Hp Hrows') as (v & Hv & _).
  pose proof Hv as (Hlen & Hvrows & Hrest)%forModuli_spec.
  assert (Shaped context v) as Hshape.
  { destruct Hp as [Hplen Hprow]. split; [lia|]. intros i r' Hi Hr'.
    destruct (lookup_lt_is_Some_2 _ _ Hi) as [q Hq].
    destruct (Hvrows i q Hq) as (r & y & Hr & Hy & Hvi).
    rewrite Hr in Hy. cbn [mbind option_bind] in Hy.
    destruct (Hrows i q r r r Hq Hr) as (y' & Hy' & Hly & _);
      [eapply Hprow; eauto|eapply Hprow; eauto|].
    congruence. }
  destruct (forModuli_round_trip context A B p p v Hp Hp Hshape Hrows')
    as (v' & Hv' & Hback).
  assert (v' = v) as -> by congruence.
  exists v. split; [exact Hv|]. rewrite Hback. f_equal.
  apply list_eq. intros k.
  destruct (decide (k < length (moduli context))%nat).
  - rewrite lookup_app_l by (rewrite length_take; destruct Hp; lia).
    rewrite lookup_take_lt by done. done.
  - rewrite lookup_app_r by (rewrite length_take; lia).
    rewrite length_take, lookup_drop.
    destruct Hp as [Hplen _].
    replace (length (moduli context) + (k - length (moduli context) `min` length p))%nat
      with k by lia.
    apply Hrest. lia.
Qed.

(** [EMBInv] (the NTT of the plaintext context) and [EMB] (its inverse
    NTT) undo each other, in either order, on a plaintext with canonical
    residues, and return no error on a plaintext context that
    [GenNTTParams] has completed. *)
Theorem EMB_EMBInv_round_trips bfvcontext c0 c1 N0 (T : list Z) (value : Poly) :
  2 <= N0 < U64.modulus ->
  Forall (fun q => 4 * q < U64.modulus) T ->
  Forall (fun q => primitiveRoot q mod q <> 0) T ->
  SetParameters c0 N0 T = (c1, None) ->
  GenNTTParams primitiveRoot c1 = Some (contextT bfvcontext, None) ->
  Shaped (contextT bfvcontext) value -> Canonical (contextT bfvcontext) value ->
  (exists v, EMBInv bfvcontext value = Some (v, None) /\
             EMB bfvcontext v = Some (value, None)) /\
  (exists v, EMB bfvcontext value = Some (v, None) /\
             EMBInv bfvcontext v = Some (value, None)).
Proof.
  intros HN0 HT62 Hroot Hset Hgen Hp Hcanon.
  set (ctx := contextT bfvcontext) in *.
  pose proof (context_moduli primitiveRoot c0 c1 ctx N0 T Hset Hgen) as Hmod.
  assert (AllowsNTT ctx = true) as Hallow.
  { destruct (SetParameters_fields _ _ _ _ Hset) as (_ & _ & Hntt1 & _).
    destruct (GenNTTParams_inv _ _ _ Hntt1 Hgen) as (_ & _ & rows & _ & _ & _ & Ha & _).
    exact Ha. }
  assert (forall i q r1 j x, T !! i = Some q -> value !! i = Some r1 ->
            r1 !! j = Some x -> 0 <= x < q) as Hcan.
  { intros i q r1 j x Hq Hr1 Hx. apply (Hcanon i q r1 j x); try done.
    - rewrite Hmod. done.
    - destruct Hp as [_ Hprow]. apply lookup_lt_Some in Hx.
      rewrite (Hprow i r1) in Hx; [done| |done].
      rewrite Hmod. eapply lookup_lt_Some; eauto. }
  assert (forall i r1, (i < length T)%nat -> value !! i = Some r1 ->
            length r1 = Z.to_nat (N ctx)) as Hrowlen.
  { intros i r1 Hi Hr1. destruct Hp as [_ Hprow]. apply (Hprow i r1); [|done].
    rewrite Hmod. done. }
  unfold EMBInv, EMB. fold ctx. rewrite Hallow. cbn [negb].
  split.
  - destruct (forModuli_round_trip_in_place ctx
      (fun x q r1 r2 =>
         psi ← nttPsi ctx !! x; mred ← mredParams ctx !! x;
         bred ← bredParams ctx !! x; NTT r1 r2 (N ctx) psi q mred bred)
      (fun x q y r3 =>
         psiInv ← nttPsiInv ctx !! x; nInv ← nttNInv ctx !! x;
         mred ← mredParams ctx !! x; InvNTT y r3 (N ctx) psiInv nInv q mred)
      value Hp) as (v & Hv & Hback).
    { intros i q r1 r2 r3 Hq Hr1 Hl2 Hl3. rewrite Hmod in Hq.
      pose proof (Hrowlen i r1 (lookup_lt_Some _ _ _ Hq) Hr1) as Hl1.
      destruct (context_row_roundtrip primitiveRoot c0 c1 ctx N0 T i q r1 r2 r3)
        as (psi & psiInv & nInv & bred & mred & y & H1 & H2 & H3 & H4 & H5 & H6 & H7);
        try done; [intros j x Hx; apply (Hcan i q r1 j x); done|].
      destruct (context_row_NTT primitiveRoot c0 c1 ctx N0 T i q r1 r2)
        as (psi' & mred' & bred' & y' & G1 & G2 & G3 & G4 & G5 & _); try done.
      exists y. rewrite H1, H2, H3, H4, H5. cbn [mbind option_bind].
      split; [done|]. split; [congruence|done]. }
    exists v. unfold Context_NTT, Context_InvNTT.
    rewrite Hv. cbn [mbind option_bind]. rewrite Hback. done.
  - destruct (forModuli_round_trip_in_place ctx
      (fun x q r1 r2 =>
         psiInv ← nttPsiInv ctx !! x; nInv ← nttNInv ctx !! x;
         mred ← mredParams ctx !! x; InvNTT r1 r2 (N ctx) psiInv nInv q mred)
      (fun x q y r3 =>
         psi ← nttPsi ctx !! x; mred ← mredParams ctx !! x;
         bred ← bredParams ctx !! x; NTT y r3 (N ctx) psi q mred bred)
      value Hp) as (v & Hv & Hback).
    { intros i q r1 r2 r3 Hq Hr1 Hl2 Hl3. rewrite Hmod in Hq.
      pose proof (Hrowlen i r1 (lookup_lt_Some _ _ _ Hq) Hr1) as Hl1.
      destruct (context_row_roundtrip_inverse_first primitiveRoot c0 c1 ctx N0 T i q r1 r2 r3)
        as (psi & psiInv & nInv & bred & mred & y & H1 & H2 & H3 & H4 & H5 & H6 & H7);
        try done; [intros j x Hx; apply (Hcan i q r1 j x); done|].
      destruct (context_row_InvNTT primitiveRoot c0 c1 ctx N0 T i q r1 r2)
        as (psiInv' & nInv' & mred' & y' & G1 & G2 & G3 & G4 & G5 & _); try done.
      exists y. rewrite H1, H2, H3, H4, H5. cbn [mbind option_bind].
      split; [done|]. split; [congruence|done]. }
    exists v. unfold Context_NTT, Context_InvNTT.
    rewrite Hv. cbn [mbind option_bind]. rewrite Hback. done.
Qed.

End PlaintextEmbedding.

Section PlaintextLiftExamples.

Import Ring Shape Plaintext Examples.

Lemma Lift_multiplies_witness :
  Lift (mkContext 2 5 (SetParameters NewContext 2 [17; 97]).1 ring17
          (map (fun q => MForm 3 q (BRedParams q)) [17; 97]))
    [[1; 2]; [0; 0]]
  = Some [[3; 6]; [3; 6]].
Proof.
  apply (Lift_multiplies
           (mkContext 2 5 (SetParameters NewContext 2 [17; 97]).1 ring17
              (map (fun q => MForm 3 q (BRedParams q)) [17; 97]))
           NewContext 2 [17; 97] 3 [[1; 2]; [0; 0]]).
  - reflexivity.
  - reflexivity.
  - lia.
  - repeat constructor; lia.
  - reflexivity.
  - split; [vm_compute; lia|].
    intros [|[|i]] r Hi [= <-]; try reflexivity; vm_compute in Hi; lia.
  - repeat constructor; rewrite ?modulus_eq; lia.
Defined.

Lemma EMB_EMBInv_round_trips_witness :
  (exists v, EMBInv (mkContext 2 17 ring17_97 ring17 []) [[1; 2]; [7; 7]] = Some (v, None) /\
             EMB (mkContext 2 17 ring17_97 ring17 []) v = Some ([[1; 2]; [7; 7]], None)) /\
  (exists v, EMB (mkContext 2 17 ring17_97 ring17 []) [[1; 2]; [7; 7]] = Some (v, None) /\
             EMBInv (mkContext 2 17 ring17_97 ring17 []) v = Some ([[1; 2]; [7; 7]], None)).
Proof.
  apply (EMB_EMBInv_round_trips (fun _ => 3) (mkContext 2 17 ring17_97 ring17 [])
           NewContext (SetParameters NewContext 2 [17]).1 2 [17]).
  - rewrite modulus_eq. lia.
  - apply Forall_cons_2; [rewrite modulus_eq; lia|apply Forall_nil_2].
  - apply Forall_cons_2; [vm_compute; discriminate|apply Forall_nil_2].
  - reflexivity.
  - vm_compute. reflexivity.
  - split; [vm_compute; lia|].
    intros [|i] r Hi Hr; [injection Hr as <-; reflexivity|vm_compute in Hi; lia].
  - intros i q r j z Hq Hr Hj Hz.
    destruct i as [|i]; [|vm_compute in Hq; discriminate Hq].
    vm_compute in Hq. injection Hq as <-. injection Hr as <-.
    destruct j as [|[|j]]; [injection Hz as <-; done|injection Hz as <-; done|].
    vm_compute in Hj. lia.
Defined.

End PlaintextLiftExamples.

(** ** Scheme-I unary operations: properties *)

Section UnaryChecks.

Import Mem Unary.

Variable evaluator : Bfv.Evaluator.
Variable evaluate : Ring.Poly -> Ring.Poly -> option Ring.Poly.

Lemma unary_ptr l e ctOut (st : Bfv.State) :
  getEl st l = Some e ->
  unary evaluator evaluate (OpPtr (Some l)) ctOut st
  = (if Degree e =? 0 then Some (st, Some errPlaintext)
     else
       dOut ← opDegree st (OpPtr ctOut);
       if dOut <? Degree e then Some (st, Some errDegree)
       else
         elOut ← deref st (OpPtr ctOut);
         st' ← evaluateInPlaceUnary l elOut.1 evaluate st;
         Some (st', None)).
Proof.
  intros He. unfold unary, getElemAndCheckUnary, opDegree.
  cbn [deref isNil orb]. rewrite He. cbn [mbind option_bind snd fst].
  destruct (Degree e =? 0); [done|].
  destruct ctOut as [lOut|]; cbn [deref mbind option_bind]; [|done].
  destruct (getEl st lOut) as [eOut|]; cbn [mbind option_bind snd fst]; [|done].
  destruct (Degree eOut <? Degree e); done.
Qed.

(** The checks of the unary entry points [Neg] and [Reduce]: a nil
    operand panics, and the error of the nil check is never returned; a
    plaintext operand is rejected whatever the receiver is; a nil receiver
    panics for a ciphertext operand; a receiver of smaller degree is
    rejected. A rejection leaves the store as it was. *)
Theorem unary_checks :
  (forall ctOut st, unary evaluator evaluate OpNil ctOut st = None) /\
  (forall ctOut st, unary evaluator evaluate (OpPtr None) ctOut st = None) /\
  (forall op ctOut st st',
     unary evaluator evaluate op ctOut st <> Some (st', Some errNil)) /\
  (forall l e ctOut st, getEl st l = Some e -> Degree e = 0 ->
     unary evaluator evaluate (OpPtr (Some l)) ctOut st
     = Some (st, Some errPlaintext)) /\
  (forall l e st, getEl st l = Some e -> Degree e <> 0 ->
     unary evaluator evaluate (OpPtr (Some l)) None st = None) /\
  (forall l e lOut eOut st, getEl st l = Some e -> Degree e <> 0 ->
     getEl st lOut = Some eOut -> Degree eOut < Degree e ->
     unary evaluator evaluate (OpPtr (Some l)) (Some lOut) st
     = Some (st, Some errDegree)).
Proof.
  split; [done|]. split; [done|]. split; [|split; [|split]].
  - intros op ctOut st st'. destruct op as [|[l|]]; [discriminate| |discriminate].
    destruct (getEl st l) as [e|] eqn:He.
    + rewrite (unary_ptr l e ctOut st He).
      destruct (Degree e =? 0); [done|].
      unfold opDegree. destruct ctOut as [lOut|]; cbn [deref]; [|done].
      destruct (getEl st lOut) as [eOut|]; cbn [mbind option_bind fst snd]; [|done].
      destruct (Degree eOut <? Degree e); [done|].
      destruct (evaluateInPlaceUnary l lOut evaluate st); cbn; done.
    + unfold unary, opDegree. cbn [deref]. rewrite He. done.
  - intros l e ctOut st He Hd. rewrite (unary_ptr l e ctOut st He).
    rewrite Hd. done.
  - intros l e st He Hd. rewrite (unary_ptr l e None st He).
    destruct (Z.eqb_spec (Degree e) 0); [done|]. done.
  - intros l e lOut eOut st He Hd HeOut Hlt. rewrite (unary_ptr l e (Some lOut) st He).
    destruct (Z.eqb_spec (Degree e) 0); [done|].
    unfold opDegree. cbn [deref]. rewrite HeOut. cbn.
    destruct (Z.ltb_spec (Degree eOut) (Degree e)); [done|lia].
Qed.

End UnaryChecks.

Section UnaryRun.

Import Mem Unary.

Variable evaluator : Bfv.Evaluator.
Variable evaluate : Ring.Poly -> Ring.Poly -> option Ring.Poly.

Lemma setEl_setEl (st : Bfv.State) l a b : setEl (setEl st l a) l b = setEl st l b.
Proof. unfold setEl. cbn [heap pool]. f_equal. apply insert_insert_eq. Qed.

Lemma setEl_same (st : Bfv.State) l e : getEl st l = Some e -> setEl st l e = st.
Proof.
  intros He. destruct st as [h p]. unfold setEl, getEl in *. cbn [heap pool] in *.
  f_equal. apply insert_id. done.
Qed.

Lemma getEl_setEl_other (st : Bfv.State) l l' e :
  l <> l' -> getEl (setEl st l e) l' = getEl st l'.
Proof. intros Hne. unfold getEl, setEl. cbn [heap]. apply lookup_insert_ne. done. Qed.

(** The loop of [evaluateInPlaceUnary]: the receiver takes the results on
    the components that the operand has, in order, and keeps the others. *)
Lemma evaluateInPlaceUnary_run l e lOut eOut (st : Bfv.State) :
  getEl st l = Some e -> getEl st lOut = Some eOut ->
  (length (Bfv.value e) <= length (Bfv.value eOut))%nat ->
  (forall (k : nat) p q, Bfv.value e !! k = Some p -> Bfv.value eOut !! k = Some q ->
     is_Some (evaluate p q)) ->
  exists out,
    evaluateInPlaceUnary l lOut evaluate st
    = Some (setEl st lOut (Bfv.mkElement out (Bfv.isNTT eOut))) /\
    length out = length (Bfv.value eOut) /\
    (forall (k : nat) p q, Bfv.value e !! k = Some p -> Bfv.value eOut !! k = Some q ->
       exists r, evaluate p q = Some r /\ out !! k = Some r) /\
    (forall k : nat, (length (Bfv.value e) <= k)%nat -> out !! k = Bfv.value eOut !! k).
Proof.
  intros He HeOut Hlen Hev. unfold evaluateInPlaceUnary. rewrite He.
  cbn [mbind option_bind].
  set (Inv := fun (j : Z) (s : Bfv.State) =>
    exists out, s = setEl st lOut (Bfv.mkElement out (Bfv.isNTT eOut)) /\
      length out = length (Bfv.value eOut) /\
      (forall (k : nat) p q, Z.of_nat k < j ->
         Bfv.value e !! k = Some p -> Bfv.value eOut !! k = Some q ->
         exists r, evaluate p q = Some r /\ out !! k = Some r) /\
      (forall k : nat, j <= Z.of_nat k -> out !! k = Bfv.value eOut !! k)).
  destruct (for_range_total Inv
              (fun i st => apply1 evaluate (Val l i) (Val lOut i) st)
              0 (Z.of_nat (length (Bfv.value e))) st) as (s' & Hrun & Hinv).
  - lia.
  - exists (Bfv.value eOut). split.
    { symmetry. apply setEl_same. rewrite HeOut. by destruct eOut. }
    split; [done|]. split; [intros; lia|done].
  - intros j s Hj (out & -> & Hout & Hdone & Hrest).
    assert (exists p, Bfv.value e !! Z.to_nat j = Some p) as [p Hp].
    { apply lookup_lt_is_Some. lia. }
    assert (exists q, Bfv.value eOut !! Z.to_nat j = Some q) as [q Hq].
    { apply lookup_lt_is_Some. lia. }
    destruct (Hev _ _ _ Hp Hq) as [r Hr].
    assert (out !! Z.to_nat j = Some q) as Hoj.
    { rewrite Hrest by lia. done. }
    assert (readPoly (setEl st lOut (Bfv.mkElement out (Bfv.isNTT eOut))) (Val l j)
            = Some p) as Hsrc.
    { cbn [readPoly]. destruct (decide (lOut = l)) as [->|Hne].
      - rewrite getEl_setEl. cbn [mbind option_bind]. unfold at_. cbn [value Bfv.bfvElement_Element Bfv.value].
        rewrite Hrest by lia. congruence.
      - rewrite getEl_setEl_other by done. rewrite He. done. }
    unfold apply1. rewrite Hsrc. cbn [mbind option_bind readPoly writePoly].
    rewrite getEl_setEl. cbn [mbind option_bind].
    unfold at_. cbn [value Bfv.bfvElement_Element Bfv.value]. rewrite Hoj.
    cbn [mbind option_bind]. rewrite Hr. cbn [mbind option_bind].
    unfold set_. rewrite decide_True by (apply lookup_lt_is_Some; eauto).
    cbn [mbind option_bind]. eexists. split; [done|].
    exists (<[Z.to_nat j := r]> out). split.
    { rewrite setEl_setEl. done. }
    split; [rewrite length_insert; done|]. split.
    + intros k p' q' Hk Hp' Hq'.
      destruct (decide (k = Z.to_nat j)) as [->|Hne].
      * exists r. rewrite list_lookup_insert_eq by (apply lookup_lt_is_Some; eauto).
        split; [congruence|done].
      * rewrite list_lookup_insert_ne by done. apply (Hdone k p' q'); [lia|done|done].
    + intros k Hk. rewrite list_lookup_insert_ne by lia. apply Hrest. lia.
  - destruct Hinv as (out & -> & Hout & Hdone & Hrest).
    exists out. split; [done|]. split; [done|]. split.
    + intros k p q Hp Hq. apply (Hdone k p q); [|done|done].
      apply lookup_lt_Some in Hp. lia.
    + intros k Hk. apply Hrest. lia.
Qed.

(** A unary operation on a ciphertext and a receiver with at least as many
    components: when the ring operation returns on every pair of
    components, the call returns no error; the receiver holds the results
    on the components that the operand has and keeps its other components
    and its NTT flag, and nothing else in the store changes. The operand
    and the receiver may be the same ciphertext. *)
Theorem unary_accepted l e lOut eOut (st : Bfv.State) :
  getEl st l = Some e -> getEl st lOut = Some eOut ->
  (2 <= length (Bfv.value e) <= length (Bfv.value eOut))%nat ->
  Z.of_nat (length (Bfv.value eOut)) < 2 ^ 64 ->
  (forall (k : nat) p q, Bfv.value e !! k = Some p -> Bfv.value eOut !! k = Some q ->
     is_Some (evaluate p q)) ->
  exists out,
    unary evaluator evaluate (OpPtr (Some l)) (Some lOut) st
    = Some (setEl st lOut (Bfv.mkElement out (Bfv.isNTT eOut)), None) /\
    length out = length (Bfv.value eOut) /\
    (forall (k : nat) p q, Bfv.value e !! k = Some p -> Bfv.value eOut !! k = Some q ->
       exists r, evaluate p q = Some r /\ out !! k = Some r) /\
    (forall k : nat, (length (Bfv.value e) <= k)%nat -> out !! k = Bfv.value eOut !! k).
Proof.
  intros He HeOut Hlen Hbound Hev.
  destruct (evaluateInPlaceUnary_run l e lOut eOut st He HeOut) as (out & Hrun & Hout);
    [lia|done|].
  exists out. split; [|done].
  unfold unary, getElemAndCheckUnary, opDegree. cbn [deref isNil orb].
  rewrite He, HeOut. cbn [mbind option_bind snd fst].
  assert (Degree e = Z.of_nat (length (Bfv.value e)) - 1) as ->.
  { unfold Degree, U64.wrap. cbn [value Bfv.bfvElement_Element].
    apply Z.mod_small. unfold U64.modulus. lia. }
  assert (Degree eOut = Z.of_nat (length (Bfv.value eOut)) - 1) as ->.
  { unfold Degree, U64.wrap. cbn [value Bfv.bfvElement_Element].
    apply Z.mod_small. unfold U64.modulus. lia. }
  destruct (Z.eqb_spec (Z.of_nat (length (Bfv.value e)) - 1) 0); [lia|].
  destruct (Z.ltb_spec (Z.of_nat (length (Bfv.value eOut)) - 1)
              (Z.of_nat (length (Bfv.value e)) - 1)); [lia|].
  cbn [mbind option_bind fst snd]. rewrite Hrun. done.
Qed.

End UnaryRun.

Section UnaryExamples.

Import Mem Unary Examples.

Lemma unary_checks_witness :
  Neg bfvEvaluator (OpPtr (Some 0%nat)) None bfvState
  = Some (bfvState, Some errPlaintext) /\
  Neg bfvEvaluator (OpPtr (Some 1%nat)) None bfvState = None /\
  Neg bfvEvaluator (OpPtr (Some 1%nat)) (Some 0%nat) bfvState
  = Some (bfvState, Some errDegree).
Proof.
  destruct (unary_checks bfvEvaluator (Ring.Neg ring17)) as (_ & _ & _ & Hp & Hn & Hd).
  split; [|split].
  - apply (Hp 0%nat bfvPlain); reflexivity.
  - apply (Hn 1%nat bfvCipher); [reflexivity|vm_compute; discriminate].
  - apply (Hd 1%nat bfvCipher 0%nat bfvPlain);
      [reflexivity|vm_compute; discriminate|reflexivity|vm_compute; reflexivity].
Defined.

Lemma unary_accepted_witness :
  exists out,
    Neg bfvEvaluator (OpPtr (Some 1%nat)) (Some 2%nat) bfvState
    = Some (setEl bfvState 2%nat (Bfv.mkElement out false), None) /\
    length out = 2%nat /\
    (forall (k : nat) p q,
       Bfv.value bfvCipher !! k = Some p -> Bfv.value bfvReceiver !! k = Some q ->
       exists r, Ring.Neg ring17 p q = Some r /\ out !! k = Some r) /\
    (forall k : nat, (2 <= k)%nat -> out !! k = Bfv.value bfvReceiver !! k).
Proof.
  apply (unary_accepted bfvEvaluator (Ring.Neg ring17) 1%nat bfvCipher 2%nat bfvReceiver).
  - reflexivity.
  - reflexivity.
  - cbn. lia.
  - cbn. lia.
  - intros [|[|k]] p q Hp Hq; [| |discriminate].
    + injection Hp as <-. injection Hq as <-. vm_compute. eexists. reflexivity.
    + injection Hp as <-. injection Hq as <-. vm_compute. eexists. reflexivity.
Defined.

End UnaryExamples.


(** ** Scheme-A: the operands of a binary operation and their scales *)

Section ScaleAlignment.

Import Mem Ckks.

Variable evaluator : Evaluator.

(** [Resize] and [DropLevel] touch the element they are called on only. *)
Lemma Resize_other el degree (st st' : State) l :
  Resize evaluator el degree st = Some st' -> l <> el -> getEl st' l = getEl st l.
Proof.
  unfold Resize. intros Hrun Hne.
  apply bind_Some in Hrun as (e & He & Hrun).
  destruct (degree <? Degree e).
  - destruct (decide _); [|discriminate]. injection Hrun as <-.
    unfold getEl, setEl. cbn [heap]. apply lookup_insert_ne. done.
  - destruct (Degree e <? degree) eqn:Hlt; [|by injection Hrun as <-].
    apply Z.ltb_lt in Hlt.
    apply (for_range_inv (fun _ s => getEl s l = getEl st l) _ _ _ _ _
             (Z.lt_le_incl _ _ Hlt) Hrun); [done|].
    intros j s s1 _ Hs Hbody.
    apply bind_Some in Hbody as (e' & _ & Hbody).
    apply bind_Some in Hbody as (l' & _ & Hbody).
    apply bind_Some in Hbody as (c & _ & [= <-]).
    rewrite <- Hs. unfold getEl, setEl. cbn [heap]. apply lookup_insert_ne. done.
Qed.

Lemma DropLevel_other ct0 levels0 (st st' : State) err l :
  DropLevel evaluator ct0 levels0 st = Some (st', err) -> l <> ct0 ->
  getEl st' l = getEl st l.
Proof.
  unfold DropLevel. intros Hrun Hne.
  apply bind_Some in Hrun as (e & He & Hrun).
  apply bind_Some in Hrun as (lv & Hlv & Hrun).
  destruct (lv =? 0); [by injection Hrun as <- _|].
  apply bind_Some in Hrun as (v & Hv & Hrun).
  apply bind_Some in Hrun as (s2 & Hloop & [= <- _]).
  destruct (Z.le_gt_cases 0 levels0) as [Hle|Hgt].
  - apply (for_range_inv (fun _ s => getEl s l = getEl st l) _ _ _ _ _ Hle Hloop).
    + unfold getEl, setEl. cbn [heap]. apply lookup_insert_ne. done.
    + intros j s s1 _ Hs Hbody.
      apply bind_Some in Hbody as (e' & _ & Hbody).
      apply bind_Some in Hbody as (q & _ & Hbody).
      unfold SetCurrentModulus in Hbody.
      apply bind_Some in Hbody as (e2 & _ & [= <-]).
      rewrite <- Hs. unfold getEl, setEl. cbn [heap]. apply lookup_insert_ne. done.
  - rewrite for_range_empty in Hloop by lia. injection Hloop as <-.
    unfold getEl, setEl. cbn [heap]. apply lookup_insert_ne. done.
Qed.

(** The checks on three pointers, the first two of which hold elements:
    a panic, a rejection, or the three elements. *)
Lemma getElemAndCheckBinary_pointers c0 c1 ctOut (st : State) e0 e1 :
  getEl st c0 = Some e0 -> getEl st c1 = Some e1 ->
  forall d,
    Ckks.getElemAndCheckBinary st (OpPtr (Some c0)) (OpPtr (Some c1))
      (OpPtr (Some ctOut)) d = None \/
    (exists err, Ckks.getElemAndCheckBinary st (OpPtr (Some c0)) (OpPtr (Some c1))
       (OpPtr (Some ctOut)) d = Some (Rejected err)) \/
    Ckks.getElemAndCheckBinary st (OpPtr (Some c0)) (OpPtr (Some c1))
      (OpPtr (Some ctOut)) d = Some (Accepted (c0, c1, ctOut)).
Proof.
  intros H0 H1 d.
  unfold Ckks.getElemAndCheckBinary, Mem.getElemAndCheckBinary, opDegree.
  cbn [isNil orb deref]. rewrite H0, H1. cbn [mbind option_bind fst snd].
  destruct (_ =? 0); [right; left; eauto|].
  destruct (getEl st ctOut) as [eOut|]; [|by left].
  cbn [mbind option_bind fst snd].
  destruct (_ <? d); [right; left; eauto|]. by right; right.
Qed.

(** The alignment itself, with a receiver that is neither input and a
    first input of larger scale: [MulByPow2] is called with the receiver
    [tmp1], which is still nil, and panics when it asks for its level. *)
Lemma alignScales_nil_receiver c0 c1 ctOut (st : State) e0 e1 :
  getEl st c0 = Some e0 -> getEl st c1 = Some e1 ->
  ctOut <> c0 -> ctOut <> c1 -> scale e1 < scale e0 ->
  alignScales evaluator c0 c1 ctOut st = None.
Proof.
  intros H0 H1 Hn0 Hn1 Hlt. unfold alignScales. rewrite H0, H1.
  cbn [mbind option_bind].
  rewrite (bool_decide_eq_false_2 _ Hn0), (bool_decide_eq_false_2 _ Hn1).
  destruct (Z.ltb_spec (scale e0) (scale e1)); [lia|].
  destruct (Z.ltb_spec (scale e1) (scale e0)); [|lia].
  unfold MulByPow2. rewrite H1. cbn [mbind option_bind].
  destruct (Level e1); done.
Qed.

(** [Add], [AddNoMod], [Sub] and [SubNoMod] of two operands into a
    receiver that is neither of them never complete when the first operand
    has the larger scale: [evaluateInPlace] panics (the temporary [tmp1]
    is nil when [MulByPow2] is to write into it), and the entry points
    return an error of the checks or panic. *)
Theorem binary_third_receiver_panics c0 c1 ctOut (st : State) e0 e1 :
  getEl st c0 = Some e0 -> getEl st c1 = Some e1 ->
  ctOut <> c0 -> ctOut <> c1 -> scale e1 < scale e0 ->
  (forall evaluate, evaluateInPlace evaluator c0 c1 ctOut evaluate st = None) /\
  (forall evaluate st',
     additive evaluator evaluate (OpPtr (Some c0)) (OpPtr (Some c1)) (Some ctOut) st
     <> Some (st', None)) /\
  (forall evaluate st',
     subtractive evaluator evaluate (OpPtr (Some c0)) (OpPtr (Some c1)) (Some ctOut) st
     <> Some (st', None)).
Proof.
  intros H0 H1 Hn0 Hn1 Hlt.
  assert (forall evaluate, evaluateInPlace evaluator c0 c1 ctOut evaluate st = None) as Hpanic.
  { intros evaluate. unfold evaluateInPlace. rewrite H0, H1. cbn [mbind option_bind].
    destruct (Resize evaluator ctOut _ st) as [s1|] eqn:Hres; [|done].
    cbn [mbind option_bind].
    assert (getEl s1 c0 = Some e0) as H0'.
    { rewrite (Resize_other _ _ _ _ c0 Hres) by done. exact H0. }
    assert (getEl s1 c1 = Some e1) as H1'.
    { rewrite (Resize_other _ _ _ _ c1 Hres) by done. exact H1. }
    destruct (Ciphertext ctOut s1) as [ct|] eqn:Hct; [|done].
    cbn [mbind option_bind].
    assert (ct = ctOut) as ->.
    { unfold Ciphertext in Hct. apply bind_Some in Hct as (e & _ & Hct).
      destruct (decide _); [discriminate|]. by injection Hct as <-. }
    destruct (getEl s1 ctOut) as [eOut|]; [|done].
    rewrite H0', H1'. cbn [mbind option_bind].
    destruct (Level eOut) as [lOut|]; [|done]. cbn [mbind option_bind].
    destruct (Level e0) as [l0|]; [|done]. cbn [mbind option_bind].
    destruct (Level e1) as [l1|]; [|done]. cbn [mbind option_bind].
    destruct (DropLevel evaluator ctOut _ s1) as [[s2 err]|] eqn:Hdrop; [|done].
    cbn [mbind option_bind fst].
    rewrite (alignScales_nil_receiver c0 c1 ctOut s2 e0 e1); [done| | |done|done|done].
    - rewrite (DropLevel_other _ _ _ _ _ c0 Hdrop) by done. exact H0'.
    - rewrite (DropLevel_other _ _ _ _ _ c1 Hdrop) by done. exact H1'. }
  split; [exact Hpanic|].
  pose proof (getElemAndCheckBinary_pointers c0 c1 ctOut st e0 e1 H0 H1) as Hchk.
  split.
  - intros evaluate st'. unfold additive, opDegree. cbn [deref].
    rewrite H0, H1. cbn [mbind option_bind fst snd].
    destruct (Hchk (Z.max (Degree e0) (Degree e1))) as [->|[[err ->]| ->]];
      cbn [mbind option_bind]; [done|congruence|].
    destruct (minLevel3 c0 c1 ctOut st) as [m|]; [|done]. cbn [mbind option_bind].
    destruct (at_ _ m) as [context|]; [|done]. cbn [mbind option_bind].
    rewrite Hpanic. done.
  - intros evaluate st'. unfold subtractive, opDegree. cbn [deref].
    rewrite H0, H1. cbn [mbind option_bind fst snd].
    destruct (Hchk (Z.max (Degree e0) (Degree e1))) as [->|[[err ->]| ->]];
      cbn [mbind option_bind]; [done|congruence|].
    destruct (minLevel3 c0 c1 ctOut st) as [m|]; [|done]. cbn [mbind option_bind].
    destruct (at_ _ m) as [context|]; [|done]. cbn [mbind option_bind].
    rewrite Hpanic. done.
Qed.

End ScaleAlignment.

Section ScaleAlignmentExamples.

Import Mem Ckks Examples.

Lemma binary_third_receiver_panics_witness :
  (forall evaluate,
     evaluateInPlace ckksEvaluator 0%nat 1%nat 2%nat evaluate rescaleState = None) /\
  (forall evaluate st',
     additive ckksEvaluator evaluate (OpPtr (Some 0%nat)) (OpPtr (Some 1%nat))
       (Some 2%nat) rescaleState <> Some (st', None)) /\
  (forall evaluate st',
     subtractive ckksEvaluator evaluate (OpPtr (Some 0%nat)) (OpPtr (Some 1%nat))
       (Some 2%nat) rescaleState <> Some (st', None)).
Proof.
  apply (binary_third_receiver_panics ckksEvaluator 0%nat 1%nat 2%nat rescaleState
           ckksLevel1 ckksLevel1Coeff);
    [reflexivity|reflexivity|lia|lia|cbn; lia].
Defined.

End ScaleAlignmentExamples.

(** ** Scheme-A: dropping levels *)

Section DropLevels.

Import Mem Ckks.

Variable evaluator : Evaluator.

Lemma DivRound_exact c q : 0 < q -> DivRound (c * q) q = c.
Proof.
  intros Hq. unfold DivRound.
  replace (2 * (c * q) + q) with (q + c * (2 * q)) by lia.
  rewrite Z.div_add by lia. rewrite Z.div_small by lia. lia.
Qed.

Lemma mapM_map {A B} (f : A -> option B) (g : A -> B) (l : list A) :
  Forall (fun x => f x = Some (g x)) l -> mapM f l = Some (map g l).
Proof.
  induction 1 as [|x l Hx _ IH]; [done|].
  cbn [mapM map]. rewrite Hx. cbn [mbind option_bind]. rewrite IH. done.
Qed.

Lemma Level_rows (e : ckksElement) (L : nat) :
  value e <> [] -> Forall (fun p : Ring.Poly => length p = S L) (value e) ->
  Z.of_nat L < 2 ^ 64 - 1 -> Level e = Some (Z.of_nat L).
Proof.
  intros Hne Hrows HL. unfold Level. destruct (value e) as [|p v]; [done|].
  apply Forall_inv in Hrows. cbn [lookup list_lookup mbind option_bind].
  rewrite Hrows. f_equal. unfold U64.wrap, U64.modulus.
  rewrite Z.mod_small by lia. lia.
Qed.

(** [DropLevel] on a ciphertext whose polynomials have the L+1 rows of
    level L and whose current modulus is the product of the first L+1
    moduli of the context. At level 0 it returns its error, also when it
    is asked to drop no level, and changes nothing. At a level L > 0,
    dropping up to L+1 levels returns nil: every polynomial keeps its
    first L+1-levels rows, the current modulus becomes the product of the
    moduli that are left, and the scale, the NTT flag and the rest of the
    store are as they were. Nothing stops the call from dropping L+1
    levels, which leaves polynomials without rows. *)
Theorem DropLevel_outcome ct0 (st : State) e (L : nat) levels0 :
  getEl st ct0 = Some e ->
  value e <> [] ->
  Forall (fun p : Ring.Poly => length p = S L) (value e) ->
  (S L <= length (moduli (ckkscontext evaluator)))%nat ->
  Forall (fun q => 0 < q) (moduli (ckkscontext evaluator)) ->
  currentModulus e = Crt.product (take (S L) (moduli (ckkscontext evaluator))) ->
  Z.of_nat L < 2 ^ 64 - 1 ->
  0 <= levels0 <= Z.of_nat L + 1 ->
  (L = 0%nat ->
   DropLevel evaluator ct0 levels0 st
   = Some (st, Some "cannot drop level -> ciphertext already at level 0"%string)) /\
  (L <> 0%nat ->
   DropLevel evaluator ct0 levels0 st
   = Some (setEl st ct0
             (mkElement (map (take (S L - Z.to_nat levels0)) (value e)) (scale e)
                (Crt.product (take (S L - Z.to_nat levels0)
                                (moduli (ckkscontext evaluator))))
                (isNTT e)), None)).
Proof.
  intros He Hne Hrows Hmod Hpos Hcur HL Hlev.
  pose proof (Level_rows e L Hne Hrows HL) as Hlevel.
  unfold DropLevel. rewrite He. cbn [mbind option_bind]. rewrite Hlevel.
  cbn [mbind option_bind]. split.
  - intros ->. done.
  - intros HL0. destruct (Z.eqb_spec (Z.of_nat L) 0) as [|_]; [lia|].
    assert (Z.to_nat (U64.sub (U64.add (Z.of_nat L) 1) levels0)
            = (S L - Z.to_nat levels0)%nat) as ->.
    { unfold U64.sub, U64.add, U64.wrap, U64.modulus.
      rewrite (Z.mod_small (Z.of_nat L + 1)) by lia.
      rewrite Z.mod_small by lia. lia. }
    set (k := (S L - Z.to_nat levels0)%nat).
    rewrite (mapM_map _ (take k)).
    2:{ eapply Forall_impl; [exact Hrows|]. intros p Hp. cbv beta in Hp |- *.
        rewrite decide_True by (unfold k; lia). done. }
    cbn [mbind option_bind].
    set (v := map (take k) (value e)).
    set (Inv := fun (j : Z) (s : State) =>
      s = setEl st ct0
            (mkElement v (scale e)
               (Crt.product (take (S L - Z.to_nat j) (moduli (ckkscontext evaluator))))
               (isNTT e))).
    destruct (for_range_total Inv
      (fun i st =>
         e ← getEl st ct0;
         q ← at_ (moduli (ckkscontext evaluator)) (U64.sub (Z.of_nat L) i);
         SetCurrentModulus ct0 (DivRound (currentModulus e) q) st)
      0 levels0
      (setEl st ct0 (withValue v e))) as (s' & Hrun & Hinv).
    + lia.
    + unfold Inv. cbn [withValue ckksElement_Element]. rewrite Hcur.
      replace (S L - Z.to_nat 0)%nat with (S L) by lia. done.
    + intros j s Hj ->. rewrite getEl_setEl. cbn [mbind option_bind].
      assert (U64.sub (Z.of_nat L) j = Z.of_nat (L - Z.to_nat j)) as ->.
      { unfold U64.sub, U64.wrap, U64.modulus. rewrite Z.mod_small by lia. lia. }
      unfold at_. rewrite Nat2Z.id.
      destruct (lookup_lt_is_Some_2 (moduli (ckkscontext evaluator)) (L - Z.to_nat j))
        as [q Hq]; [lia|].
      rewrite Hq. cbn [mbind option_bind currentModulus].
      unfold SetCurrentModulus. rewrite getEl_setEl. cbn [mbind option_bind].
      eexists. split; [done|]. unfold Inv.
      unfold setEl. cbn [heap pool value scale isNTT currentModulus].
      rewrite insert_insert_eq. do 3 f_equal.
      replace (S L - Z.to_nat j)%nat with (S (L - Z.to_nat j)) by lia.
      replace (S L - Z.to_nat (j + 1))%nat with (L - Z.to_nat j)%nat by lia.
      rewrite (take_S_r _ _ q Hq). rewrite product_app.
      change (Crt.product [q]) with (1 * q). rewrite Z.mul_1_l.
      apply DivRound_exact.
      rewrite Forall_lookup in Hpos. apply (Hpos _ _ Hq).
    + rewrite Hrun. cbn [mbind option_bind]. rewrite Hinv. done.
Qed.

End DropLevels.

Section DropLevelsExamples.

Import Mem Ckks Examples.

Lemma DropLevel_outcome_witness :
  DropLevel ckksEvaluator 2%nat 1 ckksState
  = Some (setEl ckksState 2%nat (mkElement [ [[0; 0]]; [[0; 0]] ] 4 17 true), None).
Proof.
  destruct (DropLevel_outcome ckksEvaluator 2%nat ckksState ckksReceiver 1%nat 1)
    as [_ Hdrop].
  - reflexivity.
  - discriminate.
  - repeat constructor.
  - cbn. lia.
  - repeat constructor.
  - reflexivity.
  - lia.
  - lia.
  - rewrite Hdrop by lia. reflexivity.
Defined.

End DropLevelsExamples.

(** ** Scheme-A: degree and scale of a sum *)

Section DegreeAndScale.

Import Mem Ckks Outline.

Variable evaluator : Evaluator.

Lemma for_range_kept {A} (f : State -> A) (body : Z -> State -> option State)
    lo hi (st st' : State) :
  for_range lo hi body st = Some st' ->
  (forall j s s1, body j s = Some s1 -> f s1 = f s) ->
  f st' = f st.
Proof.
  intros Hrun Hbody. unfold for_range in Hrun.
  apply (for_nat_inv (fun _ s => f s = f st) body _ lo st st' Hrun); [done|].
  intros j s s1 _ Hs H1. rewrite (Hbody j s s1 H1). exact Hs.
Qed.

Lemma outline_setEl (st : State) l e e' l' :
  getEl st l = Some e -> Degree e' = Degree e -> scale e' = scale e ->
  outline (setEl st l e') l' = outline st l'.
Proof.
  intros He Hd Hs. unfold outline. destruct (decide (l' = l)) as [->|Hne].
  - rewrite getEl_setEl, He. cbn [mbind option_bind]. rewrite Hd, Hs. done.
  - rewrite getEl_setEl_ne by done. done.
Qed.

Lemma writePoly_outline (st st' : State) r p l :
  writePoly st r p = Some st' -> outline st' l = outline st l.
Proof.
  destruct r as [el i|i]; cbn [writePoly]; intros Hrun.
  - apply bind_Some in Hrun as (e & He & Hrun).
    apply bind_Some in Hrun as (v & Hv & [= <-]).
    apply set_inv in Hv as [Hi ->].
    apply (outline_setEl st el e); [done| |done].
    unfold Degree. cbn [Mem.value ckksElement_Element value]. rewrite length_insert. done.
  - destruct (decide _); [|discriminate]. injection Hrun as <-. done.
Qed.

Lemma apply1_outline op src dst (st st' : State) l :
  apply1 op src dst st = Some st' -> outline st' l = outline st l.
Proof.
  unfold apply1. intros Hrun.
  apply bind_Some in Hrun as (a & _ & Hrun).
  apply bind_Some in Hrun as (d & _ & Hrun).
  apply bind_Some in Hrun as (r & _ & Hrun).
  eapply writePoly_outline; eauto.
Qed.

Lemma apply2_outline op a b dst (st st' : State) l :
  apply2 op a b dst st = Some st' -> outline st' l = outline st l.
Proof.
  unfold apply2. intros Hrun.
  apply bind_Some in Hrun as (x & _ & Hrun).
  apply bind_Some in Hrun as (y & _ & Hrun).
  apply bind_Some in Hrun as (d & _ & Hrun).
  apply bind_Some in Hrun as (r & _ & Hrun).
  eapply writePoly_outline; eauto.
Qed.

Lemma SetCurrentModulus_outline el m (st st' : State) l :
  SetCurrentModulus el m st = Some st' -> outline st' l = outline st l.
Proof.
  unfold SetCurrentModulus. intros Hrun.
  apply bind_Some in Hrun as (e & He & [= <-]).
  apply (outline_setEl st el e); done.
Qed.

Lemma SetScale_outline el m (st st' : State) :
  SetScale el m st = Some st' ->
  (exists e, getEl st el = Some e /\ outline st' el = Some (Degree e, m)) /\
  (forall l, l <> el -> outline st' l = outline st l) /\
  (forall l, degreeAt st' l = degreeAt st l).
Proof.
  unfold SetScale. intros Hrun.
  apply bind_Some in Hrun as (e & He & [= <-]). split; [|split].
  - exists e. split; [done|]. unfold outline. rewrite getEl_setEl. done.
  - intros l Hne. unfold outline. rewrite getEl_setEl_ne by done. done.
  - intros l. unfold degreeAt. destruct (decide (l = el)) as [->|Hne].
    + rewrite getEl_setEl, He. done.
    + rewrite getEl_setEl_ne by done. done.
Qed.

Lemma outline_degreeAt (st st' : State) l :
  outline st' l = outline st l -> degreeAt st' l = degreeAt st l.
Proof.
  unfold outline, degreeAt.
  destruct (getEl st' l), (getEl st l); cbn; congruence.
Qed.

Lemma MulByPow2_outline ct0 pow2 ctOut (st st' : State) err l :
  MulByPow2 evaluator ct0 pow2 ctOut st = Some (st', err) ->
  outline st' l = outline st l.
Proof.
  unfold MulByPow2. intros Hrun.
  apply bind_Some in Hrun as (e0 & _ & Hrun).
  apply bind_Some in Hrun as (l0 & _ & Hrun).
  apply bind_Some in Hrun as (out & _ & Hrun).
  apply bind_Some in Hrun as (eOut & _ & Hrun).
  apply bind_Some in Hrun as (lOut & _ & Hrun).
  apply bind_Some in Hrun as (s & Hloop & [= <- _]).
  apply (for_range_kept (fun s => outline s l) _ _ _ _ _ Hloop).
  intros j s0 s1 Hbody. apply bind_Some in Hbody as (c & _ & Hbody).
  eapply apply1_outline; eauto.
Qed.

Lemma DropLevel_outline ct0 levels0 (st st' : State) err l :
  DropLevel evaluator ct0 levels0 st = Some (st', err) ->
  outline st' l = outline st l.
Proof.
  unfold DropLevel. intros Hrun.
  apply bind_Some in Hrun as (e & He & Hrun).
  apply bind_Some in Hrun as (lv & Hlv & Hrun).
  destruct (lv =? 0); [by injection Hrun as <- _|].
  apply bind_Some in Hrun as (v & Hv & Hrun).
  apply bind_Some in Hrun as (s2 & Hloop & [= <- _]).
  rewrite (for_range_kept (fun s => outline s l) _ _ _ _ _ Hloop).
  - apply (outline_setEl st ct0 e); [done| |done].
    unfold Degree. cbn [Mem.value ckksElement_Element value withValue].
    apply mapM_Some in Hv. apply Forall2_length in Hv. rewrite <- Hv. done.
  - intros j s0 s1 Hbody.
    apply bind_Some in Hbody as (e' & _ & Hbody).
    apply bind_Some in Hbody as (q & _ & Hbody).
    eapply SetCurrentModulus_outline; eauto.
Qed.

Lemma Resize_outline el degree (st st' : State) :
  0 <= degree < U64.modulus ->
  Resize evaluator el degree st = Some st' ->
  (forall l, l <> el -> outline st' l = outline st l) /\
  exists e, getEl st el = Some e /\ outline st' el = Some (degree, scale e).
Proof.
  intros Hdeg Hrun. unfold Resize in Hrun.
  apply bind_Some in Hrun as (e & He & Hrun).
  assert (0 <= Degree e < U64.modulus) as Hde.
  { unfold Degree, U64.wrap. apply Z.mod_pos_bound. unfold U64.modulus. lia. }
  destruct (Z.ltb_spec degree (Degree e)) as [Hlt|Hge].
  - destruct (decide _) as [Hn|]; [|discriminate]. injection Hrun as <-.
    split.
    + intros l Hne. unfold outline. rewrite getEl_setEl_ne by done. done.
    + exists e. split; [done|]. unfold outline. rewrite getEl_setEl.
      cbn [mbind option_bind]. do 2 f_equal.
      unfold Degree. cbn [Mem.value ckksElement_Element value withValue].
      rewrite length_take. unfold U64.add, U64.wrap in *.
      rewrite (Z.mod_small (degree + 1)) in * by lia.
      rewrite Nat.min_l by lia. rewrite Z.mod_small by lia. lia.
  - destruct (Z.ltb_spec (Degree e) degree) as [Hlt|Hge'].
    + apply (for_range_inv
        (fun j s => (forall l, l <> el -> outline s l = outline st l) /\
                    outline s el = Some (j, scale e))
        _ _ _ _ _ (Z.lt_le_incl _ _ Hlt)) in Hrun.
      * destruct Hrun as [Hother Hel]. split; [done|]. exists e. done.
      * split; [done|]. unfold outline. rewrite He. done.
      * intros j s s1 Hj [Hother Hel] Hbody.
        apply bind_Some in Hbody as (e' & He' & Hbody).
        apply bind_Some in Hbody as (l' & _ & Hbody).
        apply bind_Some in Hbody as (c & _ & [= <-]).
        unfold outline in Hel. rewrite He' in Hel. cbn [mbind option_bind] in Hel.
        injection Hel as Hd Hs. split.
        -- intros l Hne. rewrite <- (Hother l Hne). unfold outline.
           rewrite getEl_setEl_ne by done. done.
        -- unfold outline. rewrite getEl_setEl. cbn [mbind option_bind].
           cbn [scale withValue ckksElement_Element]. rewrite Hs. do 2 f_equal.
           unfold Degree in *. cbn [Mem.value ckksElement_Element value withValue] in *.
           rewrite length_app. cbn [length]. unfold U64.wrap in *.
           replace (Z.of_nat (length (value e') + 1) - 1)
             with ((Z.of_nat (length (value e')) - 1) + 1) by lia.
           rewrite <- Zplus_mod_idemp_l. rewrite Hd. apply Z.mod_small. lia.
    + injection Hrun as <-. split; [done|]. exists e. split; [done|].
      unfold outline. rewrite He. cbn [mbind option_bind]. do 2 f_equal. lia.
Qed.

Lemma alignScales_outline c0 c1 ctOut (st st' : State) tmp0 tmp1 e0 e1 :
  getEl st c0 = Some e0 -> getEl st c1 = Some e1 ->
  alignScales evaluator c0 c1 ctOut st = Some (st', tmp0, tmp1) ->
  (forall l, degreeAt st' l = degreeAt st l) /\
  exists a b d0 d1, outline st' c0 = Some (d0, a) /\ outline st' c1 = Some (d1, b) /\
    Z.max a b = Z.max (scale e0) (scale e1).
Proof.
  intros H0 H1 Hrun.
  assert (outline st c0 = Some (Degree e0, scale e0)) as Ho0.
  { unfold outline. rewrite H0. done. }
  assert (outline st c1 = Some (Degree e1, scale e1)) as Ho1.
  { unfold outline. rewrite H1. done. }
  assert (forall s : State, (forall l, outline s l = outline st l) ->
    (forall l, degreeAt s l = degreeAt st l) /\
    exists a b d0 d1, outline s c0 = Some (d0, a) /\ outline s c1 = Some (d1, b) /\
      Z.max a b = Z.max (scale e0) (scale e1)) as Hkept.
  { intros s Hs. split; [intros l; apply outline_degreeAt, Hs|].
    exists (scale e0), (scale e1), (Degree e0), (Degree e1).
    rewrite !Hs. done. }
  unfold alignScales in Hrun. rewrite H0, H1 in Hrun. cbn [mbind option_bind] in Hrun.
  assert (forall src pow2 rcv other (s2 : State) eo,
    (r ← MulByPow2 evaluator src pow2 (Some rcv) st;
     e ← getEl r.1 other;
     s ← SetScale rcv (scale e) r.1; Some (s, Some c0, Some c1))
    = Some (s2, tmp0, tmp1) ->
    getEl st other = Some eo ->
    (forall l, degreeAt s2 l = degreeAt st l) /\
    (exists d, outline s2 rcv = Some (d, scale eo)) /\
    (forall l, l <> rcv -> outline s2 l = outline st l)) as Hset.
  { intros src pow2 rcv other s2 eo Hr Hother.
    apply bind_Some in Hr as ([s1 err] & Hmul & Hr). cbn [fst] in Hr.
    apply bind_Some in Hr as (e & He & Hr).
    apply bind_Some in Hr as (s & Hs & [= <- _ _]).
    pose proof (fun l => MulByPow2_outline _ _ _ _ _ _ l Hmul) as Hm.
    assert (scale e = scale eo) as Hse.
    { pose proof (Hm other) as Hx. unfold outline in Hx.
      rewrite He, Hother in Hx. cbn in Hx. congruence. }
    rewrite Hse in Hs.
    destruct (SetScale_outline _ _ _ _ Hs) as ((e' & _ & Hrcv) & Hrest & Hdeg).
    split; [|split].
    - intros l. rewrite Hdeg. apply outline_degreeAt, Hm.
    - eauto.
    - intros l Hne. rewrite (Hrest l Hne). apply Hm. }
  destruct (bool_decide (ctOut = c0)) eqn:Hc0.
  - apply bool_decide_eq_true in Hc0. subst ctOut.
    destruct (Z.ltb_spec (scale e1) (scale e0)) as [Hlt|Hge].
    + apply bind_Some in Hrun as ([s1 err] & Hmul & [= <- _ _]).
      apply Hkept. intros l. eapply MulByPow2_outline; eauto.
    + destruct (Z.ltb_spec (scale e0) (scale e1)) as [Hlt|Hge'].
      * destruct (Hset _ _ _ _ _ _ Hrun H1) as (Hdeg & [d Hrcv] & Hrest).
        split; [done|].
        destruct (decide (c1 = c0)) as [->|Hne].
        -- exists (scale e1), (scale e1), d, d. rewrite Hrcv. split; [done|]. split; [done|]. lia.
        -- exists (scale e1), (scale e1), d, (Degree e1). rewrite Hrcv, (Hrest c1 Hne), Ho1.
           split; [done|]. split; [done|]. lia.
      * injection Hrun as <- _ _. apply Hkept. done.
  - destruct (bool_decide (ctOut = c1)) eqn:Hc1.
    + apply bool_decide_eq_true in Hc1. subst ctOut.
      apply bool_decide_eq_false in Hc0.
      destruct (Z.ltb_spec (scale e0) (scale e1)) as [Hlt|Hge].
      * apply bind_Some in Hrun as ([s1 err] & Hmul & [= <- _ _]).
        apply Hkept. intros l. eapply MulByPow2_outline; eauto.
      * destruct (Z.ltb_spec (scale e1) (scale e0)) as [Hlt|Hge'].
        -- destruct (Hset _ _ _ _ _ _ Hrun H0) as (Hdeg & [d Hrcv] & Hrest).
           split; [done|].
           exists (scale e0), (scale e0), (Degree e0), d.
           rewrite Hrcv, (Hrest c0) by congruence. rewrite Ho0.
           split; [done|]. split; [done|]. lia.
        -- injection Hrun as <- _ _. apply Hkept. done.
    + destruct (Z.ltb_spec (scale e0) (scale e1)) as [Hlt|Hge].
      * apply bind_Some in Hrun as ([s1 err] & Hmul & [= <- _ _]).
        apply Hkept. intros l. eapply MulByPow2_outline; eauto.
      * destruct (Z.ltb_spec (scale e1) (scale e0)) as [Hlt|Hge'].
        -- apply bind_Some in Hrun as ([s1 err] & Hmul & _).
           unfold MulByPow2 in Hmul. rewrite H1 in Hmul. cbn [mbind option_bind] in Hmul.
           destruct (Level e1); discriminate.
        -- injection Hrun as <- _ _. apply Hkept. done.
Qed.

Lemma outline_Some (st : State) l d a :
  outline st l = Some (d, a) <->
  exists e, getEl st l = Some e /\ Degree e = d /\ scale e = a.
Proof.
  unfold outline. split.
  - intros H. apply bind_Some in H as (e & He & [= <- <-]). eauto.
  - intros (e & -> & <- & <-). done.
Qed.

(** [evaluateInPlace], when it returns: the receiver has the larger of the
    degrees and the larger of the scales of the two inputs. *)
Lemma evaluateInPlace_outline c0 c1 ctOut evaluate (st st' : State) err e0 e1 :
  getEl st c0 = Some e0 -> getEl st c1 = Some e1 ->
  evaluateInPlace evaluator c0 c1 ctOut evaluate st = Some (st', err) ->
  err = None /\
  outline st' ctOut
  = Some (Z.max (Degree e0) (Degree e1), Z.max (scale e0) (scale e1)).
Proof.
  intros H0 H1 Hrun. unfold evaluateInPlace in Hrun.
  rewrite H0, H1 in Hrun. cbn [mbind option_bind] in Hrun.
  apply bind_Some in Hrun as (s1 & Hres & Hrun).
  apply bind_Some in Hrun as (ct & Hct & Hrun).
  assert (ct = ctOut) as ->.
  { unfold Ciphertext in Hct. apply bind_Some in Hct as (e & _ & Hct).
    destruct (decide _); [discriminate|]. by injection Hct as <-. }
  apply bind_Some in Hrun as (eOut1 & HeOut1 & Hrun).
  apply bind_Some in Hrun as (e0a & H0a & Hrun).
  apply bind_Some in Hrun as (e1a & H1a & Hrun).
  apply bind_Some in Hrun as (lOut & _ & Hrun).
  apply bind_Some in Hrun as (l0 & _ & Hrun).
  apply bind_Some in Hrun as (l1 & _ & Hrun).
  apply bind_Some in Hrun as ([s2 err2] & Hdrop & Hrun). cbn [fst] in Hrun.
  apply bind_Some in Hrun as ([[s3 tmp0] tmp1] & Halign & Hrun).
  apply bind_Some in Hrun as (s4 & Hloop & Hrun).
  apply bind_Some in Hrun as (e0b & H0b & Hrun).
  apply bind_Some in Hrun as (e1b & H1b & Hrun).
  apply bind_Some in Hrun as (s5 & Hscale & Hrun).
  apply bind_Some in Hrun as (eOut5 & HeOut5 & Hrun).
  apply bind_Some in Hrun as (lOut5 & _ & Hrun).
  apply bind_Some in Hrun as (context & _ & Hrun).
  apply bind_Some in Hrun as (e0c & _ & Hrun).
  apply bind_Some in Hrun as (e1c & _ & Hrun).
  apply bind_Some in Hrun as (s6 & Hcopy & [= <- <-]).
  split; [done|].
  assert (0 <= Z.max (Degree e0) (Degree e1) < U64.modulus) as Hmax.
  { assert (forall e : ckksElement, 0 <= Degree e < U64.modulus) as Hd.
    { intros e. unfold Degree, U64.wrap. apply Z.mod_pos_bound. unfold U64.modulus. lia. }
    pose proof (Hd e0). pose proof (Hd e1). lia. }
  set (dmax := Z.max (Degree e0) (Degree e1)) in *.
  (* after [Resize] and [DropLevel] *)
  destruct (Resize_outline _ _ _ _ Hmax Hres) as (Hother & eOut & HeOut & Hout1).
  assert (forall l e, getEl st l = Some e ->
            exists d, outline s2 l = Some (d, scale e)) as Hsc2.
  { intros l e He. rewrite (DropLevel_outline _ _ _ _ _ l Hdrop).
    destruct (decide (l = ctOut)) as [->|Hne].
    - exists dmax. rewrite Hout1. congruence.
    - exists (Degree e). rewrite (Hother l Hne). unfold outline. rewrite He. done. }
  assert (degreeAt s2 ctOut = Some dmax) as Hdeg2.
  {     rewrite (outline_degreeAt _ _ _ (DropLevel_outline _ _ _ _ _ ctOut Hdrop)).
    apply outline_Some in Hout1 as (e & He & Hd & _).
    unfold degreeAt. rewrite He. cbn. congruence. }
  (* the alignment of the scales *)
  destruct (Hsc2 c0 e0 H0) as [d0 (e0' & H0' & _ & Hs0)%outline_Some].
  destruct (Hsc2 c1 e1 H1) as [d1 (e1' & H1' & _ & Hs1)%outline_Some].
  destruct (alignScales_outline _ _ _ _ _ _ _ _ _ H0' H1' Halign)
    as (Hdeg3 & a & b & d0' & d1' & Ha & Hb & Hab).
  rewrite Hs0, Hs1 in Hab.
  (* the loop of the operation *)
  assert (forall l, outline s4 l = outline s3 l) as H43.
  { intros l. apply (for_range_kept (fun s => outline s l) _ _ _ _ _ Hloop).
    intros j s s' Hbody.
    apply bind_Some in Hbody as (t0 & _ & Hbody).
    apply bind_Some in Hbody as (t1 & _ & Hbody).
    eapply apply2_outline; eauto. }
  assert (scale e0b = a) as Hsa.
  { rewrite <- H43 in Ha. apply outline_Some in Ha as (e & He & _ & Hs). congruence. }
  assert (scale e1b = b) as Hsb.
  { rewrite <- H43 in Hb. apply outline_Some in Hb as (e & He & _ & Hs). congruence. }
  rewrite Hsa, Hsb, Hab in Hscale.
  destruct (SetScale_outline _ _ _ _ Hscale) as ((e4 & He4 & Hout5) & _ & _).
  assert (Degree e4 = dmax) as Hd4.
  { pose proof (outline_degreeAt _ _ ctOut (H43 ctOut)) as Hd.
    rewrite Hdeg3, Hdeg2 in Hd. unfold degreeAt in Hd. rewrite He4 in Hd.
    cbn in Hd. congruence. }
  rewrite Hd4 in Hout5. rewrite <- Hout5.
  (* the copy of the remaining components *)
  destruct (_ && _).
  - apply (for_range_kept (fun s => outline s ctOut) _ _ _ _ _ Hcopy).
    intros j s s' Hbody. apply bind_Some in Hbody as (t0 & _ & Hbody).
    eapply apply1_outline; eauto.
  - destruct (_ && _).
    + apply (for_range_kept (fun s => outline s ctOut) _ _ _ _ _ Hcopy).
      intros j s s' Hbody. apply bind_Some in Hbody as (t1 & _ & Hbody).
      eapply apply1_outline; eauto.
    + by injection Hcopy as <-.
Qed.

(** A successful [Add], [AddNoMod], [Sub] or [SubNoMod] leaves a receiver
    whose degree is the larger of the degrees of the two operands and
    whose scale is the larger of their scales. *)
Theorem Add_Sub_degree_and_scale c0 c1 ctOut evaluate (st st' : State) e0 e1 :
  getEl st c0 = Some e0 -> getEl st c1 = Some e1 ->
  additive evaluator evaluate (OpPtr (Some c0)) (OpPtr (Some c1)) (Some ctOut) st
  = Some (st', None) \/
  subtractive evaluator evaluate (OpPtr (Some c0)) (OpPtr (Some c1)) (Some ctOut) st
  = Some (st', None) ->
  exists eOut, getEl st' ctOut = Some eOut /\
    Degree eOut = Z.max (Degree e0) (Degree e1) /\
    scale eOut = Z.max (scale e0) (scale e1).
Proof.
  intros H0 H1 Hrun. apply outline_Some.
  pose proof (getElemAndCheckBinary_pointers c0 c1 ctOut st e0 e1 H0 H1
                (Z.max (Degree e0) (Degree e1))) as Hchk.
  destruct Hrun as [Hrun|Hrun].
  - unfold additive, opDegree in Hrun. cbn [deref] in Hrun.
    rewrite H0, H1 in Hrun. cbn [mbind option_bind fst snd] in Hrun.
    destruct Hchk as [Hc|[[err Hc]|Hc]]; rewrite Hc in Hrun;
      cbn [mbind option_bind] in Hrun; [discriminate|discriminate|].
    apply bind_Some in Hrun as (m & _ & Hrun).
    apply bind_Some in Hrun as (context & _ & Hrun).
    apply (evaluateInPlace_outline _ _ _ _ _ _ _ _ _ H0 H1 Hrun).
  - unfold subtractive, opDegree in Hrun. cbn [deref] in Hrun.
    rewrite H0, H1 in Hrun. cbn [mbind option_bind fst snd] in Hrun.
    destruct Hchk as [Hc|[[err Hc]|Hc]]; rewrite Hc in Hrun;
      cbn [mbind option_bind] in Hrun; [discriminate|discriminate|].
    apply bind_Some in Hrun as (m & _ & Hrun).
    apply bind_Some in Hrun as (context & _ & Hrun).
    apply bind_Some in Hrun as ([s1 err1] & Heval & Hrun).
    destruct (evaluateInPlace_outline _ _ _ _ _ _ _ _ _ H0 H1 Heval) as [-> Hout].
    cbn [fst snd] in Hrun.
    apply bind_Some in Hrun as (e0' & _ & Hrun).
    apply bind_Some in Hrun as (e1' & _ & Hrun).
    apply bind_Some in Hrun as (s2 & Hneg & [= <-]).
    rewrite <- Hout. destruct (_ <? _).
    + apply (for_range_kept (fun s => outline s ctOut) _ _ _ _ _ Hneg).
      intros j s s' Hbody. apply bind_Some in Hbody as (c & _ & Hbody).
      eapply apply1_outline; eauto.
    + by injection Hneg as <-.
Qed.

End DegreeAndScale.

Section DegreeAndScaleExamples.

Import Mem Ckks Examples.

Lemma Add_Sub_degree_and_scale_witness :
  exists st' eOut,
    Add ckksEvaluator (OpPtr (Some 1%nat)) (OpPtr (Some 0%nat)) (Some 1%nat) rescaleState
    = Some (st', None) /\
    getEl st' 1%nat = Some eOut /\
    Degree eOut = Z.max (Degree ckksLevel1Coeff) (Degree ckksLevel1) /\
    scale eOut = Z.max (scale ckksLevel1Coeff) (scale ckksLevel1).
Proof.
  destruct (Add ckksEvaluator (OpPtr (Some 1%nat)) (OpPtr (Some 0%nat)) (Some 1%nat)
              rescaleState) as [[st' [err|]]|] eqn:Hrun;
    [vm_compute in Hrun; discriminate| |vm_compute in Hrun; discriminate].
  exists st'.
  destruct (Add_Sub_degree_and_scale ckksEvaluator 1%nat 0%nat 1%nat Ring.Add
              rescaleState st' ckksLevel1Coeff ckksLevel1) as (eOut & He & Hd & Hs);
    [reflexivity|reflexivity|left; exact Hrun|].
  exists eOut. done.
Defined.

End DegreeAndScaleExamples.


(** ** Rotations: the scan of the rotation keys *)

Section RotationKeyScan.

Import Mem Rotation.

Variable evakey0 : RotationKeys.

Lemma shl_pow2 (j : nat) : (j < 63)%nat -> U64.shl (2 ^ Z.of_nat j) 1 = 2 ^ Z.of_nat (S j).
Proof.
  intros Hj. unfold U64.shl. cbn [Z.leb Z.compare Pos.compare Pos.compare_cont].
  rewrite Z.shiftl_mul_pow2 by lia. unfold U64.wrap, U64.modulus.
  rewrite Nat2Z.inj_succ, Z.pow_succ_r by lia.
  rewrite Z.mod_small; [lia|].
  assert (2 ^ Z.of_nat j <= 2 ^ 62) by (apply Z.pow_le_mono_r; lia).
  lia.
Qed.

(** The loop [for i := 1; i < n>>1; i <<= 1] from a power of two on: it
    ends before [i] can wrap, and says whether a key is missing. *)
Lemma hasPow2Rotations_from half (fuel j : nat) :
  0 <= half < 2 ^ 63 -> (j <= 63)%nat -> (64 - j <= fuel)%nat ->
  exists b, hasPow2Rotations half fuel (2 ^ Z.of_nat j) evakey0 = Some b /\
    (b = true <->
     forall j' : nat, (j <= j')%nat -> 2 ^ Z.of_nat j' < half -> present evakey0 (2 ^ Z.of_nat j')).
Proof.
  intros Hhalf. revert j. induction fuel as [|fuel IH]; intros j Hj Hfuel; [lia|].
  cbn [hasPow2Rotations].
  destruct (Z.ltb_spec (2 ^ Z.of_nat j) half) as [Hlt|Hge].
  - assert (j < 63)%nat as Hj'.
    { destruct (decide (j = 63%nat)) as [->|]; [|lia]. change (Z.of_nat 63) with 63 in Hlt. lia. }
    destruct (evakeyRotColLeft evakey0 !! (2 ^ Z.of_nat j)) as [kl|] eqn:Hl.
    + destruct (evakeyRotColRight evakey0 !! (2 ^ Z.of_nat j)) as [kr|] eqn:Hr.
      * rewrite !bool_decide_eq_false_2 by done. cbn [orb].
        rewrite (shl_pow2 j Hj').
        destruct (IH (S j)) as (b & Hb & Hiff); [lia|lia|].
        exists b. split; [done|]. rewrite Hiff. split.
        -- intros Hall j' Hjj' Hlt'. destruct (decide (j' = j)) as [->|Hne].
           ++ split; [rewrite Hl|rewrite Hr]; eauto.
           ++ apply Hall; [lia|done].
        -- intros Hall j' Hjj'. apply Hall. lia.
      * rewrite (bool_decide_eq_true_2 (None = None)) by done. rewrite orb_true_r.
        exists false. split; [done|]. split; [done|].
        intros Hall. destruct (Hall j) as [_ [x Hx]]; [lia|done|]. congruence.
    + rewrite (bool_decide_eq_true_2 (None = None)) by done. cbn [orb].
      exists false. split; [done|]. split; [done|].
      intros Hall. destruct (Hall j) as [[x Hx] _]; [lia|done|]. congruence.
  - exists true. split; [done|]. split; [|done]. intros _ j' Hjj' Hlt.
    assert (2 ^ Z.of_nat j <= 2 ^ Z.of_nat j') by (apply Z.pow_le_mono_r; lia). lia.
Qed.

Lemma hasPow2Rotations_scan half :
  0 <= half < 2 ^ 63 ->
  exists b, hasPow2Rotations half 65 1 evakey0 = Some b /\
    (b = true <-> forall j : nat, 2 ^ Z.of_nat j < half -> present evakey0 (2 ^ Z.of_nat j)).
Proof.
  intros Hhalf.
  destruct (hasPow2Rotations_from half 65 0 Hhalf) as (b & Hb & Hiff); [lia|lia|].
  exists b. split; [exact Hb|]. rewrite Hiff. split.
  - intros Hall j. apply Hall. lia.
  - intros Hall j _. apply Hall.
Qed.

Variable PermuteNTT : Ring.Poly -> Z -> Ring.Poly -> option Ring.Poly.
Variable Permute : Ring.Context -> Ring.Poly -> Z -> Ring.Poly -> option Ring.Poly.

(** [RotateColumns] of the two schemes, on ciphertexts of degree 1, for a
    rotation that is not a multiple of n/2 and has no key of its own. The
    scan of the power of two keys ends, and finds whether the left and the
    right key of every power of two below n/2 are there. When one is
    missing, the call returns the error of the missing keys and leaves the
    store as it was. When all are there, the call is the rotation by powers
    of two, to the left by k when the Hamming weight of k is at most that
    of n/2 - k and to the right by n/2 - k otherwise, and its error is nil:
    it returns when that rotation returns. *)
Theorem RotateColumns_without_key (bfv : Bfv.Evaluator) (ckks : Ckks.Evaluator)
    (stI : Bfv.State) (stA : Ckks.State) ct0 ctOut k eI0 eIOut eA0 eAOut :
  let halfI := U64.shr (Bfv.n (Bfv.bfvcontext bfv)) 1 in
  let halfA := U64.shr (Ckks.n (Ckks.ckkscontext ckks)) 1 in
  let kI := Z.land k (U64.sub halfI 1) in
  let kA := Z.land k (U64.sub halfA 1) in
  0 <= Bfv.n (Bfv.bfvcontext bfv) < U64.modulus ->
  0 <= Ckks.n (Ckks.ckkscontext ckks) < U64.modulus ->
  getEl stI ct0 = Some eI0 -> getEl stI ctOut = Some eIOut ->
  Degree eI0 = 1 -> Degree eIOut = 1 ->
  getEl stA ct0 = Some eA0 -> getEl stA ctOut = Some eAOut ->
  Degree eA0 = 1 -> Degree eAOut = 1 ->
  kI <> 0 -> evakeyRotColLeft evakey0 !! kI = None ->
  kA <> 0 -> evakeyRotColLeft evakey0 !! kA = None ->
  ((exists b, hasPow2Rotations halfI 65 1 evakey0 = Some b /\
      (b = true <->
       forall j : nat, 2 ^ Z.of_nat j < halfI -> present evakey0 (2 ^ Z.of_nat j))) /\
   ((exists j : nat, 2 ^ Z.of_nat j < halfI /\ ~ present evakey0 (2 ^ Z.of_nat j)) ->
    Bfv.RotateColumns PermuteNTT Permute bfv ct0 k evakey0 ctOut stI
    = Some (stI, Some errKeys)) /\
   ((forall j : nat, 2 ^ Z.of_nat j < halfI -> present evakey0 (2 ^ Z.of_nat j)) ->
    Bfv.RotateColumns PermuteNTT Permute bfv ct0 k evakey0 ctOut stI
    = (st' ← (if hammingWeight64 kI <=? hammingWeight64 (U64.sub halfI kI)
              then Bfv.rotateColumnsLPow2 PermuteNTT Permute bfv ct0 kI evakey0 ctOut stI
              else Bfv.rotateColumnsRPow2 PermuteNTT Permute bfv ct0 (U64.sub halfI kI)
                     evakey0 ctOut stI);
       Some (st', None)))) /\
  ((exists b, hasPow2Rotations halfA 65 1 evakey0 = Some b /\
      (b = true <->
       forall j : nat, 2 ^ Z.of_nat j < halfA -> present evakey0 (2 ^ Z.of_nat j))) /\
   ((exists j : nat, 2 ^ Z.of_nat j < halfA /\ ~ present evakey0 (2 ^ Z.of_nat j)) ->
    Ckks.RotateColumns PermuteNTT ckks ct0 k evakey0 ctOut stA
    = Some (stA, Some errKeys)) /\
   ((forall j : nat, 2 ^ Z.of_nat j < halfA -> present evakey0 (2 ^ Z.of_nat j)) ->
    Ckks.RotateColumns PermuteNTT ckks ct0 k evakey0 ctOut stA
    = (st' ← (if hammingWeight64 kA <=? hammingWeight64 (U64.sub halfA kA)
              then Ckks.rotateColumnsLPow2 PermuteNTT ckks ct0 kA evakey0 ctOut stA
              else Ckks.rotateColumnsRPow2 PermuteNTT ckks ct0 (U64.sub halfA kA)
                     evakey0 ctOut stA);
       Some (st', None)))).
Proof.
  intros halfI halfA kI kA HnI HnA HI0 HIOut HdI0 HdIOut HA0 HAOut HdA0 HdAOut
    HkI HkeyI HkA HkeyA.
  assert (forall n, 0 <= n < U64.modulus -> 0 <= U64.shr n 1 < 2 ^ 63) as Hhalf.
  { intros n Hn. unfold U64.shr. cbn [Z.leb Z.compare Pos.compare Pos.compare_cont].
    rewrite Z.shiftr_div_pow2 by lia. unfold U64.modulus in Hn.
    change (2 ^ 1) with 2. split; [apply Z.div_pos; lia|].
    apply Z.div_lt_upper_bound; lia. }
  destruct (hasPow2Rotations_scan halfI (Hhalf _ HnI)) as (bI & HbI & HiffI).
  destruct (hasPow2Rotations_scan halfA (Hhalf _ HnA)) as (bA & HbA & HiffA).
  unfold Bfv.RotateColumns, Ckks.RotateColumns. fold halfI halfA. fold kI kA.
  rewrite HI0, HIOut, HA0, HAOut. cbn [mbind option_bind].
  rewrite HdI0, HdIOut, HdA0, HdAOut. cbn [Z.eqb Pos.eqb negb orb].
  destruct (Z.eqb_spec kI 0) as [|_]; [done|].
  destruct (Z.eqb_spec kA 0) as [|_]; [done|].
  rewrite HkeyI, HkeyA, HbI, HbA. cbn [mbind option_bind].
  split; (split; [eauto|split]).
  - intros (j & Hj & Hmiss). destruct bI; [|done].
    exfalso. apply Hmiss. apply HiffI; done.
  - intros Hall. rewrite (proj2 HiffI Hall). done.
  - intros (j & Hj & Hmiss). destruct bA; [|done].
    exfalso. apply Hmiss. apply HiffA; done.
  - intros Hall. rewrite (proj2 HiffA Hall). done.
Qed.

End RotationKeyScan.

Section RotationKeyScanExamples.

Import Mem Rotation RotationExamples.

(** The rotation by 3 with the evaluators of degree 8, whose keys are those
    of the rotations by 1 and 2: with the keys, the two calls return nil;
    without them, they return the error and change nothing. *)
Lemma RotateColumns_without_key_witness :
  (exists st',
     Bfv.RotateColumns keep (fun _ => keep) bfvRotEvaluator 1%nat 3 rotKeys 2%nat bfvRotState
     = Some (st', None)) /\
  (exists st',
     Ckks.RotateColumns keep ckksRotEvaluator 1%nat 3 rotKeys 2%nat ckksRotState
     = Some (st', None)) /\
  Bfv.RotateColumns keep (fun _ => keep) bfvRotEvaluator 1%nat 3 noKeys 2%nat bfvRotState
  = Some (bfvRotState, Some errKeys) /\
  Ckks.RotateColumns keep ckksRotEvaluator 1%nat 3 noKeys 2%nat ckksRotState
  = Some (ckksRotState, Some errKeys).
Proof.
  assert (forall j : nat, 2 ^ Z.of_nat j < 4 -> present rotKeys (2 ^ Z.of_nat j)) as Hall.
  { intros [|[|j]] Hj.
    - split; eexists; reflexivity.
    - split; eexists; reflexivity.
    - exfalso.
      assert (2 ^ 2 <= 2 ^ Z.of_nat (S (S j))) by (apply Z.pow_le_mono_r; lia). lia. }
  destruct (RotateColumns_without_key rotKeys keep (fun _ => keep)
              bfvRotEvaluator ckksRotEvaluator bfvRotState ckksRotState 1%nat 2%nat 3
              bfvRotCipher bfvRotReceiver ckksRotCipher ckksRotReceiver)
    as ((_ & _ & HI) & (_ & _ & HA)).
  1-2: vm_compute; split; [discriminate|reflexivity].
  1-8: vm_compute; reflexivity.
  1-4: vm_compute; first [reflexivity|discriminate].
  destruct (RotateColumns_without_key noKeys keep (fun _ => keep)
              bfvRotEvaluator ckksRotEvaluator bfvRotState ckksRotState 1%nat 2%nat 3
              bfvRotCipher bfvRotReceiver ckksRotCipher ckksRotReceiver)
    as ((_ & HI' & _) & (_ & HA' & _)).
  1-2: vm_compute; split; [discriminate|reflexivity].
  1-8: vm_compute; reflexivity.
  1-4: vm_compute; first [reflexivity|discriminate].
  split; [|split; [|split]].
  - pose proof (HI Hall) as HrunI. vm_compute in HrunI. eexists. exact HrunI.
  - pose proof (HA Hall) as HrunA. vm_compute in HrunA. eexists. exact HrunA.
  - apply HI'. exists 0%nat. split; [reflexivity|].
    intros [[x Hx] _]. discriminate.
  - apply HA'. exists 0%nat. split; [reflexivity|].
    intros [[x Hx] _]. discriminate.
Defined.

End RotationKeyScanExamples.


(** ** Scheme-I binary operations: the components of the result *)

Section BinaryRun.

Import Mem.

Variable evaluator : Bfv.Evaluator.
Variable evaluate : Ring.Poly -> Ring.Poly -> Ring.Poly -> option Ring.Poly.

Lemma bfvElement_eta (e : Bfv.bfvElement) : Bfv.mkElement (Bfv.value e) (Bfv.isNTT e) = e.
Proof. by destruct e. Qed.

(** Reading a component through a pointer that may be the receiver, when
    the receiver still holds that component. *)
Lemma read_receiver (st : Bfv.State) elOut eOut out flag l e (j : nat) :
  getEl st elOut = Some eOut -> getEl st l = Some e ->
  out !! j = Bfv.value eOut !! j ->
  readPoly (setEl st elOut (Bfv.mkElement out flag)) (Val l (Z.of_nat j))
  = Bfv.value e !! j.
Proof.
  intros HeOut He Hout. cbn [readPoly]. unfold at_. rewrite Nat2Z.id.
  destruct (decide (l = elOut)) as [->|Hne].
  - rewrite getEl_setEl. cbn [mbind option_bind]. cbn [value Bfv.bfvElement_Element Bfv.value].
    rewrite Hout. congruence.
  - rewrite getEl_setEl_other by done. rewrite He. done.
Qed.

Lemma write_receiver (st : Bfv.State) elOut out flag (j : nat) r :
  (j < length out)%nat ->
  writePoly (setEl st elOut (Bfv.mkElement out flag)) (Val elOut (Z.of_nat j)) r
  = Some (setEl st elOut (Bfv.mkElement (<[j := r]> out) flag)).
Proof.
  intros Hj. cbn [writePoly]. rewrite getEl_setEl. cbn [mbind option_bind].
  unfold set_. rewrite Nat2Z.id. cbn [value Bfv.bfvElement_Element Bfv.value].
  rewrite decide_True by done. cbn [mbind option_bind withValue Bfv.isNTT].
  rewrite setEl_setEl. done.
Qed.

(** A loop that rewrites the components lo..hi-1 of the receiver, each
    from its own old content. *)
Lemma receiver_loop (st : Bfv.State) elOut flag (F : nat -> Ring.Poly -> option Ring.Poly)
    (body : Z -> Bfv.State -> option Bfv.State) (lo hi : nat) (v : list Ring.Poly) :
  (lo <= hi <= length v)%nat ->
  (forall (j : nat) out o, (lo <= j < hi)%nat -> length out = length v ->
     (forall k : nat, (j <= k)%nat -> out !! k = v !! k) -> v !! j = Some o ->
     exists r, F j o = Some r /\
       body (Z.of_nat j) (setEl st elOut (Bfv.mkElement out flag))
       = Some (setEl st elOut (Bfv.mkElement (<[j := r]> out) flag))) ->
  exists out,
    for_range (Z.of_nat lo) (Z.of_nat hi) body (setEl st elOut (Bfv.mkElement v flag))
    = Some (setEl st elOut (Bfv.mkElement out flag)) /\
    length out = length v /\
    (forall (k : nat) o, (lo <= k < hi)%nat -> v !! k = Some o ->
       exists r, F k o = Some r /\ out !! k = Some r) /\
    (forall k : nat, ~ (lo <= k < hi)%nat -> out !! k = v !! k).
Proof.
  intros Hb Hbody.
  set (Inv := fun (j : Z) (s : Bfv.State) =>
    exists out, s = setEl st elOut (Bfv.mkElement out flag) /\
      length out = length v /\
      (forall (k : nat) o, (lo <= k)%nat -> Z.of_nat k < j -> v !! k = Some o ->
         exists r, F k o = Some r /\ out !! k = Some r) /\
      (forall k : nat, ~ ((lo <= k)%nat /\ Z.of_nat k < j) -> out !! k = v !! k)).
  destruct (for_range_total Inv body (Z.of_nat lo) (Z.of_nat hi)
              (setEl st elOut (Bfv.mkElement v flag))) as (s' & Hrun & Hinv).
  - lia.
  - exists v. split; [done|]. split; [done|]. split; [intros; lia|done].
  - intros j s Hj (out & -> & Hlen & Hdone & Hrest).
    destruct (lookup_lt_is_Some_2 v (Z.to_nat j)) as [o Ho]; [lia|].
    destruct (Hbody (Z.to_nat j) out o) as (r & Hr & Hstep); [lia|done| |done|].
    { intros k Hk. apply Hrest. lia. }
    rewrite Z2Nat.id in Hstep by lia. rewrite Hstep. eexists. split; [done|].
    exists (<[Z.to_nat j := r]> out). split; [done|].
    split; [rewrite length_insert; done|]. split.
    + intros k o' Hlo Hk Ho'. destruct (decide (k = Z.to_nat j)) as [->|Hne].
      * exists r. rewrite list_lookup_insert_eq by lia. split; [congruence|done].
      * rewrite list_lookup_insert_ne by done. apply Hdone; [done|lia|done].
    + intros k Hk. rewrite list_lookup_insert_ne by lia. apply Hrest. lia.
  - destruct Hinv as (out & -> & Hlen & Hdone & Hrest).
    exists out. split; [done|]. split; [done|]. split.
    + intros k o Hk Ho. apply Hdone; [lia|lia|done].
    + intros k Hk. apply Hrest. lia.
Qed.

(** The first loop of [evaluateInPlaceBinary]. *)
Lemma binary_head el0 el1 elOut e0 e1 eOut (st : Bfv.State) (hi : nat) :
  getEl st el0 = Some e0 -> getEl st el1 = Some e1 -> getEl st elOut = Some eOut ->
  (hi <= length (Bfv.value e0))%nat -> (hi <= length (Bfv.value e1))%nat ->
  (hi <= length (Bfv.value eOut))%nat ->
  (forall (k : nat) a b o, Bfv.value e0 !! k = Some a -> Bfv.value e1 !! k = Some b ->
     Bfv.value eOut !! k = Some o -> is_Some (evaluate a b o)) ->
  exists out,
    for_range 0 (Z.of_nat hi)
      (fun i st => apply2 evaluate (Val el0 i) (Val el1 i) (Val elOut i) st) st
    = Some (setEl st elOut (Bfv.mkElement out (Bfv.isNTT eOut))) /\
    length out = length (Bfv.value eOut) /\
    (forall (k : nat) a b o, (k < hi)%nat ->
       Bfv.value e0 !! k = Some a -> Bfv.value e1 !! k = Some b ->
       Bfv.value eOut !! k = Some o ->
       exists r, evaluate a b o = Some r /\ out !! k = Some r) /\
    (forall k : nat, (hi <= k)%nat -> out !! k = Bfv.value eOut !! k).
Proof.
  intros H0 H1 HOut Hh0 Hh1 HhOut Hev.
  destruct (receiver_loop st elOut (Bfv.isNTT eOut)
    (fun k o => a ← Bfv.value e0 !! k; b ← Bfv.value e1 !! k; evaluate a b o)
    (fun i st => apply2 evaluate (Val el0 i) (Val el1 i) (Val elOut i) st)
    0 hi (Bfv.value eOut)) as (out & Hrun & Hlen & Hdone & Hrest).
  - lia.
  - intros j out o Hj Hlen Hagree Ho.
    destruct (lookup_lt_is_Some_2 (Bfv.value e0) j) as [a Ha]; [lia|].
    destruct (lookup_lt_is_Some_2 (Bfv.value e1) j) as [b Hb]; [lia|].
    destruct (Hev j a b o Ha Hb Ho) as [r Hr].
    exists r. rewrite Ha, Hb. cbn [mbind option_bind]. split; [done|].
    unfold apply2.
    rewrite (read_receiver st elOut eOut out _ el0 e0 j HOut H0) by (apply Hagree; lia).
    rewrite (read_receiver st elOut eOut out _ el1 e1 j HOut H1) by (apply Hagree; lia).
    rewrite (read_receiver st elOut eOut out _ elOut eOut j HOut HOut) by (apply Hagree; lia).
    rewrite Ha, Hb, Ho. cbn [mbind option_bind]. rewrite Hr. cbn [mbind option_bind].
    apply write_receiver. rewrite Hlen. eapply lookup_lt_Some; eauto.
  - rewrite bfvElement_eta, (setEl_same st elOut eOut HOut) in Hrun.
    exists out. split; [exact Hrun|]. split; [done|]. split.
    + intros k a b o Hk Ha Hb Ho. destruct (Hdone k o) as (r & Hr & Hout); [lia|done|].
      rewrite Ha, Hb in Hr. cbn [mbind option_bind] in Hr. eauto.
    + intros k Hk. apply Hrest. lia.
Qed.

(** The second loop of [evaluateInPlaceBinary], from an operand that is
    not the receiver. *)
Lemma binary_tail lg elg elOut flag (st : Bfv.State) (lo hi : nat) (v : list Ring.Poly) :
  getEl st lg = Some elg -> lg <> elOut ->
  (lo <= hi <= length v)%nat -> (hi <= length (Bfv.value elg))%nat ->
  (forall (k : nat) p o, (lo <= k < hi)%nat -> Bfv.value elg !! k = Some p ->
     v !! k = Some o -> is_Some (Ring.Poly_Copy o p)) ->
  exists out,
    for_range (Z.of_nat lo) (Z.of_nat hi)
      (fun i st => apply1 (fun src dst => Ring.Poly_Copy dst src) (Val lg i) (Val elOut i) st)
      (setEl st elOut (Bfv.mkElement v flag))
    = Some (setEl st elOut (Bfv.mkElement out flag)) /\
    length out = length v /\
    (forall (k : nat) p o, (lo <= k < hi)%nat -> Bfv.value elg !! k = Some p ->
       v !! k = Some o -> exists r, Ring.Poly_Copy o p = Some r /\ out !! k = Some r) /\
    (forall k : nat, ~ (lo <= k < hi)%nat -> out !! k = v !! k).
Proof.
  intros Hlg Hne Hb Hhi Hcopy.
  destruct (receiver_loop st elOut flag
    (fun k o => p ← Bfv.value elg !! k; Ring.Poly_Copy o p)
    (fun i st => apply1 (fun src dst => Ring.Poly_Copy dst src) (Val lg i) (Val elOut i) st)
    lo hi v) as (out & Hrun & Hlen & Hdone & Hrest).
  - done.
  - intros j out o Hj Hlen Hagree Ho.
    destruct (lookup_lt_is_Some_2 (Bfv.value elg) j) as [p Hp]; [lia|].
    destruct (Hcopy j p o Hj Hp Ho) as [r Hr].
    exists r. rewrite Hp. cbn [mbind option_bind]. split; [done|].
    unfold apply1. cbn [readPoly]. rewrite (getEl_setEl_other _ elOut lg) by congruence.
    rewrite Hlg, getEl_setEl. cbn [mbind option_bind]. unfold at_. rewrite Nat2Z.id.
    cbn [value Bfv.bfvElement_Element Bfv.value].
    rewrite Hp, (Hagree j) by lia. rewrite Ho. cbn [mbind option_bind].
    rewrite Hr. cbn [mbind option_bind].
    apply write_receiver. rewrite Hlen. eapply lookup_lt_Some; eauto.
  - exists out. split; [exact Hrun|]. split; [done|]. split; [|done].
    intros k p o Hk Hp Ho. destruct (Hdone k o Hk Ho) as (r & Hr & Hout).
    rewrite Hp in Hr. cbn [mbind option_bind] in Hr. eauto.
Qed.

Lemma Degree_length (e : Bfv.bfvElement) :
  (1 <= length (Bfv.value e))%nat -> Z.of_nat (length (Bfv.value e)) < 2 ^ 63 ->
  Degree e = Z.of_nat (length (Bfv.value e)) - 1.
Proof.
  intros H1 H2. unfold Degree, U64.wrap, U64.modulus.
  cbn [value Bfv.bfvElement_Element]. apply Z.mod_small. lia.
Qed.

(** A binary operation of the first scheme on two operands that are not
    both plaintexts and a receiver with at least as many components as
    the larger one: when the ring operation returns on the components that
    both operands have, the call returns nil. The receiver then holds the
    results of the ring operation on these components; the further
    components of the larger operand are copied into it as they are (or
    are already there, when the larger operand is the receiver); its
    other components, its NTT flag and the rest of the store are as they
    were. Operands and receiver may be the same ciphertexts. *)
Theorem binary_accepted el0 el1 elOut e0 e1 eOut (st : Bfv.State) :
  getEl st el0 = Some e0 -> getEl st el1 = Some e1 -> getEl st elOut = Some eOut ->
  (1 <= length (Bfv.value e0))%nat -> (1 <= length (Bfv.value e1))%nat ->
  (3 <= length (Bfv.value e0) + length (Bfv.value e1))%nat ->
  (length (Bfv.value e0) `max` length (Bfv.value e1) <= length (Bfv.value eOut))%nat ->
  Z.of_nat (length (Bfv.value eOut)) < 2 ^ 63 ->
  (forall (k : nat) a b o, Bfv.value e0 !! k = Some a -> Bfv.value e1 !! k = Some b ->
     Bfv.value eOut !! k = Some o -> is_Some (evaluate a b o)) ->
  (el0 <> elOut -> forall (k : nat) p o, (length (Bfv.value e1) <= k)%nat ->
     Bfv.value e0 !! k = Some p -> Bfv.value eOut !! k = Some o ->
     is_Some (Ring.Poly_Copy o p)) ->
  (el1 <> elOut -> forall (k : nat) p o, (length (Bfv.value e0) <= k)%nat ->
     Bfv.value e1 !! k = Some p -> Bfv.value eOut !! k = Some o ->
     is_Some (Ring.Poly_Copy o p)) ->
  exists out,
    Bfv.binary evaluator evaluate (OpPtr (Some el0)) (OpPtr (Some el1)) (Some elOut) st
    = Some (setEl st elOut (Bfv.mkElement out (Bfv.isNTT eOut)), None) /\
    length out = length (Bfv.value eOut) /\
    (forall (k : nat) a b o, Bfv.value e0 !! k = Some a -> Bfv.value e1 !! k = Some b ->
       Bfv.value eOut !! k = Some o ->
       exists r, evaluate a b o = Some r /\ out !! k = Some r) /\
    (forall (k : nat) p o, (length (Bfv.value e1) <= k)%nat ->
       Bfv.value e0 !! k = Some p -> Bfv.value eOut !! k = Some o ->
       if decide (el0 = elOut) then out !! k = Some o
       else exists r, Ring.Poly_Copy o p = Some r /\ out !! k = Some r) /\
    (forall (k : nat) p o, (length (Bfv.value e0) <= k)%nat ->
       Bfv.value e1 !! k = Some p -> Bfv.value eOut !! k = Some o ->
       if decide (el1 = elOut) then out !! k = Some o
       else exists r, Ring.Poly_Copy o p = Some r /\ out !! k = Some r) /\
    (forall k : nat,
       (length (Bfv.value e0) `max` length (Bfv.value e1) <= k)%nat ->
       out !! k = Bfv.value eOut !! k).
Proof.
  intros H0 H1 HOut Hn0 Hn1 Hsum Hmax Hbound Hev Hcopy0 Hcopy1.
  set (n0 := length (Bfv.value e0)) in *. set (n1 := length (Bfv.value e1)) in *.
  pose proof (Degree_length e0 Hn0 ltac:(lia)) as Hd0. fold n0 in Hd0.
  pose proof (Degree_length e1 Hn1 ltac:(lia)) as Hd1. fold n1 in Hd1.
  pose proof (Degree_length eOut ltac:(lia) Hbound) as HdOut.
  (* the first loop *)
  destruct (binary_head el0 el1 elOut e0 e1 eOut st (n0 `min` n1) H0 H1 HOut)
    as (out1 & Hrun1 & Hlen1 & Hdone1 & Hrest1); [lia|lia|lia|done|].
  set (s1 := setEl st elOut (Bfv.mkElement out1 (Bfv.isNTT eOut))) in *.
  assert (forall l e, getEl st l = Some e ->
            exists e', getEl s1 l = Some e' /\ Degree e' = Degree e) as Hkept.
  { intros l e He. destruct (decide (l = elOut)) as [->|Hne].
    - eexists. split; [apply getEl_setEl|].
      assert (e = eOut) as -> by congruence.
      unfold Degree. cbn [value Bfv.bfvElement_Element Bfv.value]. rewrite Hlen1. done.
    - exists e. split; [|done]. unfold s1. rewrite getEl_setEl_other by congruence. done. }
  destruct (Hkept el0 e0 H0) as (e0' & H0' & Hd0').
  destruct (Hkept el1 e1 H1) as (e1' & H1' & Hd1').
  (* the run, up to the second loop *)
  assert (exists out,
    (if Degree e1' <? Degree e0' then
       if bool_decide (el0 <> elOut)
       then for_range (U64.add (Z.min (Degree e0) (Degree e1)) 1)
              (U64.add (Z.max (Degree e0) (Degree e1)) 1)
              (fun i st => apply1 (fun src dst => Ring.Poly_Copy dst src)
                             (Val el0 i) (Val elOut i) st) s1
       else Some s1
     else if Degree e0' <? Degree e1' then
       if bool_decide (el1 <> elOut)
       then for_range (U64.add (Z.min (Degree e0) (Degree e1)) 1)
              (U64.add (Z.max (Degree e0) (Degree e1)) 1)
              (fun i st => apply1 (fun src dst => Ring.Poly_Copy dst src)
                             (Val el1 i) (Val elOut i) st) s1
       else Some s1
     else Some s1)
    = Some (setEl st elOut (Bfv.mkElement out (Bfv.isNTT eOut))) /\
    length out = length out1 /\
    (forall k : nat, (k < n0 `min` n1)%nat -> out !! k = out1 !! k) /\
    (forall (k : nat) p o, (n1 <= k)%nat ->
       Bfv.value e0 !! k = Some p -> Bfv.value eOut !! k = Some o ->
       if decide (el0 = elOut) then out !! k = Some o
       else exists r, Ring.Poly_Copy o p = Some r /\ out !! k = Some r) /\
    (forall (k : nat) p o, (n0 <= k)%nat ->
       Bfv.value e1 !! k = Some p -> Bfv.value eOut !! k = Some o ->
       if decide (el1 = elOut) then out !! k = Some o
       else exists r, Ring.Poly_Copy o p = Some r /\ out !! k = Some r) /\
    (forall k : nat, (n0 `max` n1 <= k)%nat -> out !! k = Bfv.value eOut !! k))
    as (out & Hrun2 & Hlen2 & Hhead & Htail0 & Htail1 & Hrest2).
  { assert (U64.add (Z.min (Degree e0) (Degree e1)) 1 = Z.of_nat (n0 `min` n1)) as ->.
    { unfold U64.add, U64.wrap, U64.modulus. rewrite Hd0, Hd1.
      rewrite Z.mod_small by lia. lia. }
    assert (U64.add (Z.max (Degree e0) (Degree e1)) 1 = Z.of_nat (n0 `max` n1)) as ->.
    { unfold U64.add, U64.wrap, U64.modulus. rewrite Hd0, Hd1.
      rewrite Z.mod_small by lia. lia. }
    rewrite Hd0', Hd1', Hd0, Hd1.
    assert (forall l e, getEl st l = Some e -> l = elOut -> e = eOut) as Hsame.
    { intros l e He ->. congruence. }
    destruct (Z.ltb_spec (Z.of_nat n1 - 1) (Z.of_nat n0 - 1)) as [Hlt|Hge].
    - (* the first operand is the larger one *)
      destruct (decide (el0 = elOut)) as [Heq|Hne].
      + rewrite bool_decide_eq_false_2 by (intros Hc; apply Hc; exact Heq).
        exists out1. split; [done|]. split; [done|]. split; [done|].
        pose proof (Hsame el0 e0 H0 Heq) as ->.
        split; [|split].
        * intros k p o Hk Hp Ho. rewrite Hrest1 by lia. done.
        * intros k p o Hk Hp Ho. apply lookup_lt_Some in Hp. fold n1 in Hp. lia.
        * intros k Hk. apply Hrest1. lia.
      + rewrite bool_decide_eq_true_2 by done.
        destruct (binary_tail el0 e0 elOut (Bfv.isNTT eOut) st (n0 `min` n1) (n0 `max` n1)
                    out1 H0 Hne) as (out & Hrun & Hlen & Hdone & Hrest);
          [lia|fold n0; lia| |].
        { intros k p o Hk Hp Ho. rewrite Hrest1 in Ho by lia.
          apply (Hcopy0 Hne k p o); [lia|done|done]. }
        exists out. split; [exact Hrun|]. split; [done|]. split; [|split; [|split]].
        * intros k Hk. apply Hrest. lia.
        * intros k p o Hk Hp Ho. apply lookup_lt_Some in Hp as Hk'. fold n0 in Hk'.
          apply (Hdone k p o); [lia|done|]. rewrite Hrest1 by lia. done.
        * intros k p o Hk Hp Ho. apply lookup_lt_Some in Hp. fold n1 in Hp. lia.
        * intros k Hk. rewrite Hrest by lia. apply Hrest1. lia.
    - destruct (Z.ltb_spec (Z.of_nat n0 - 1) (Z.of_nat n1 - 1)) as [Hlt|Hge'].
      + (* the second operand is the larger one *)
        destruct (decide (el1 = elOut)) as [Heq|Hne].
        * rewrite bool_decide_eq_false_2 by (intros Hc; apply Hc; exact Heq).
          exists out1. split; [done|]. split; [done|]. split; [done|].
          pose proof (Hsame el1 e1 H1 Heq) as ->.
          split; [|split].
          -- intros k p o Hk Hp Ho. apply lookup_lt_Some in Hp. fold n0 in Hp. lia.
          -- intros k p o Hk Hp Ho. rewrite Hrest1 by lia. done.
          -- intros k Hk. apply Hrest1. lia.
        * rewrite bool_decide_eq_true_2 by done.
          destruct (binary_tail el1 e1 elOut (Bfv.isNTT eOut) st (n0 `min` n1) (n0 `max` n1)
                      out1 H1 Hne) as (out & Hrun & Hlen & Hdone & Hrest);
            [lia|fold n1; lia| |].
          { intros k p o Hk Hp Ho. rewrite Hrest1 in Ho by lia.
            apply (Hcopy1 Hne k p o); [lia|done|done]. }
          exists out. split; [exact Hrun|]. split; [done|]. split; [|split; [|split]].
          -- intros k Hk. apply Hrest. lia.
          -- intros k p o Hk Hp Ho. apply lookup_lt_Some in Hp. fold n0 in Hp. lia.
          -- intros k p o Hk Hp Ho. apply lookup_lt_Some in Hp as Hk'. fold n1 in Hk'.
             apply (Hdone k p o); [lia|done|]. rewrite Hrest1 by lia. done.
          -- intros k Hk. rewrite Hrest by lia. apply Hrest1. lia.
      + (* the operands have the same degree *)
        exists out1. split; [done|]. split; [done|]. split; [done|].
        split; [|split].
        * intros k p o Hk Hp Ho. apply lookup_lt_Some in Hp. fold n0 in Hp. lia.
        * intros k p o Hk Hp Ho. apply lookup_lt_Some in Hp. fold n1 in Hp. lia.
        * intros k Hk. apply Hrest1. lia. }
  exists out. split; [|split; [lia|split; [|done]]].
  - unfold Bfv.binary, Bfv.getElemAndCheckBinary, Mem.getElemAndCheckBinary, opDegree.
    cbn [isNil orb deref]. rewrite H0, H1, HOut. cbn [mbind option_bind fst snd].
    rewrite Hd0, Hd1, HdOut.
    assert ((U64.add (Z.of_nat n0 - 1) (Z.of_nat n1 - 1) =? 0) = false) as ->.
    { apply Z.eqb_neq. unfold U64.add, U64.wrap, U64.modulus.
      rewrite Z.mod_small by lia. lia. }
    destruct (Z.ltb_spec (Z.of_nat (length (Bfv.value eOut)) - 1)
                (Z.max (Z.of_nat n0 - 1) (Z.of_nat n1 - 1))); [lia|].
    cbn [mbind option_bind fst snd].
    unfold Bfv.evaluateInPlaceBinary. rewrite H0, H1. cbn [mbind option_bind].
    replace (Z.of_nat (n0 `min` n1))
      with (U64.add (Z.min (Degree e0) (Degree e1)) 1) in Hrun1.
    2:{ unfold U64.add, U64.wrap, U64.modulus. rewrite Hd0, Hd1.
        rewrite Z.mod_small by lia. lia. }
    rewrite Hrun1. cbn [mbind option_bind]. fold s1. rewrite H0', H1'.
    cbn [mbind option_bind].
    destruct (Degree e1' <? Degree e0').
    + destruct (bool_decide (el0 <> elOut)); rewrite Hrun2; done.
    + destruct (Degree e0' <? Degree e1').
      * destruct (bool_decide (el1 <> elOut)); rewrite Hrun2; done.
      * rewrite Hrun2. done.
  - intros k a b o Ha Hb Ho.
    assert (k < n0 `min` n1)%nat as Hk.
    { apply lookup_lt_Some in Ha. apply lookup_lt_Some in Hb. fold n0 in Ha. fold n1 in Hb. lia. }
    rewrite Hhead by done. apply (Hdone1 k a b o); done.
Qed.

End BinaryRun.

Section BinaryRunExamples.

Import Mem Examples.

Lemma binary_accepted_witness :
  exists out,
    Bfv.Add bfvEvaluator (OpPtr (Some 0%nat)) (OpPtr (Some 1%nat)) (Some 2%nat) bfvState
    = Some (setEl bfvState 2%nat (Bfv.mkElement out false), None) /\
    out !! 0%nat = Some [[6; 8]] /\ out !! 1%nat = Some [[3; 4]].
Proof.
  destruct (binary_accepted bfvEvaluator (Ring.Add ring17) 0%nat 1%nat 2%nat
              bfvPlain bfvCipher bfvReceiver bfvState)
    as (out & Hrun & _ & Hhead & _ & Htail & _).
  - reflexivity.
  - reflexivity.
  - reflexivity.
  - cbn. lia.
  - cbn. lia.
  - cbn. lia.
  - cbn. lia.
  - cbn. lia.
  - intros [|k] a b o Ha Hb Ho; [|discriminate].
    injection Ha as <-. injection Hb as <-. injection Ho as <-.
    vm_compute. eexists. reflexivity.
  - intros _ [|k] p o Hk Hp Ho; [cbn in Hk; lia|discriminate].
  - intros _ [|[|k]] p o Hk Hp Ho; [cbn in Hk; lia| |discriminate].
    injection Hp as <-. injection Ho as <-. vm_compute. eexists. reflexivity.
  - exists out. split; [exact Hrun|]. split.
    + destruct (Hhead 0%nat [[5; 6]] [[1; 2]] [[0; 0]]) as (r & Hr & ->); try reflexivity.
      vm_compute in Hr. symmetry. exact Hr.
    + pose proof (Htail 1%nat [[3; 4]] [[0; 0]]) as H1.
      rewrite decide_False in H1 by lia.
      destruct H1 as (r & Hr & ->); try reflexivity.
      vm_compute in Hr. symmetry. exact Hr.
Defined.

End BinaryRunExamples.


(** ** Scheme-A elements: into the NTT domain and back *)

Section ElementTransforms.

Import Ring Mem Shape.

Variable primitiveRoot : Z -> Z.

(** [Context.NTT] in place, then [Context.InvNTT] in place. *)
Lemma Context_NTT_InvNTT_in_place c0 c1 ctx N0 (Q : list Z) (p : Poly) :
  2 <= N0 < U64.modulus ->
  Forall (fun q => 4 * q < U64.modulus) Q ->
  Forall (fun q => primitiveRoot q mod q <> 0) Q ->
  SetParameters c0 N0 Q = (c1, None) ->
  GenNTTParams primitiveRoot c1 = Some (ctx, None) ->
  Shaped ctx p -> Canonical ctx p ->
  exists v, Context_NTT ctx p p = Some v /\ Context_InvNTT ctx v v = Some p /\
            length v = length p.
Proof.
  intros HN0 HQ62 Hroot Hset Hgen Hp Hcanon.
  pose proof (context_moduli primitiveRoot c0 c1 ctx N0 Q Hset Hgen) as Hmod.
  assert (forall i q r1 j x, Q !! i = Some q -> p !! i = Some r1 ->
            r1 !! j = Some x -> 0 <= x < q) as Hcan.
  { intros i q r1 j x Hq Hr1 Hx. apply (Hcanon i q r1 j x); try done.
    - rewrite Hmod. done.
    - destruct Hp as [_ Hprow]. apply lookup_lt_Some in Hx.
      rewrite (Hprow i r1) in Hx; [done| |done].
      rewrite Hmod. eapply lookup_lt_Some; eauto. }
  assert (forall i r1, (i < length Q)%nat -> p !! i = Some r1 ->
            length r1 = Z.to_nat (N ctx)) as Hrowlen.
  { intros i r1 Hi Hr1. destruct Hp as [_ Hprow]. apply (Hprow i r1); [|done].
    rewrite Hmod. done. }
  destruct (forModuli_round_trip_in_place ctx
    (fun x q r1 r2 =>
       psi ← nttPsi ctx !! x; mred ← mredParams ctx !! x;
       bred ← bredParams ctx !! x; NTT r1 r2 (N ctx) psi q mred bred)
    (fun x q y r3 =>
       psiInv ← nttPsiInv ctx !! x; nInv ← nttNInv ctx !! x;
       mred ← mredParams ctx !! x; InvNTT y r3 (N ctx) psiInv nInv q mred)
    p Hp) as (v & Hv & Hback).
  { intros i q r1 r2 r3 Hq Hr1 Hl2 Hl3. rewrite Hmod in Hq.
    pose proof (Hrowlen i r1 (lookup_lt_Some _ _ _ Hq) Hr1) as Hl1.
    destruct (context_row_roundtrip primitiveRoot c0 c1 ctx N0 Q i q r1 r2 r3)
      as (psi & psiInv & nInv & bred & mred & y & H1 & H2 & H3 & H4 & H5 & H6 & H7);
      try done; [intros j x Hx; apply (Hcan i q r1 j x); done|].
    destruct (context_row_NTT primitiveRoot c0 c1 ctx N0 Q i q r1 r2)
      as (psi' & mred' & bred' & y' & G1 & G2 & G3 & G4 & G5 & _); try done.
    exists y. rewrite H1, H2, H3, H4, H5. cbn [mbind option_bind].
    split; [done|]. split; [congruence|done]. }
  exists v. unfold Context_NTT, Context_InvNTT. split; [exact Hv|]. split; [exact Hback|].
  apply forModuli_spec in Hv as (Hlen & _). exact Hlen.
Qed.

Lemma setEl_twice {E} `{Element E} (st : Store E) l a b :
  setEl (setEl st l a) l b = setEl st l b.
Proof. unfold setEl. cbn [heap pool]. f_equal. apply insert_insert_eq. Qed.

Lemma setEl_id {E} `{Element E} (st : Store E) l e :
  getEl st l = Some e -> setEl st l e = st.
Proof.
  intros He. destruct st as [h p]. unfold setEl, getEl in *. cbn [heap pool] in *.
  f_equal. apply insert_id. done.
Qed.

Lemma insert_take_drop {A} (ps vs : list A) (j : nat) p v :
  length vs = length ps -> ps !! j = Some p -> vs !! j = Some v ->
  <[j := v]> (take j vs ++ drop j ps) = take (S j) vs ++ drop (S j) ps.
Proof.
  intros Hlen Hp Hv. pose proof (lookup_lt_Some _ _ _ Hp) as Hj.
  rewrite insert_app_r_alt by (rewrite length_take; lia).
  rewrite length_take, Nat.min_l by lia. replace (j - j)%nat with 0%nat by lia.
  rewrite (drop_S ps p j Hp). cbn [insert list_insert].
  rewrite (take_S_r vs j v Hv). rewrite <- app_assoc. done.
Qed.

(** The loop of [ckksElement.NTT] and [ckksElement.InvNTT], in place: the
    level of the element, read at every round, does not change. *)
Lemma element_loop ckkscontext (F : Context -> Poly -> Poly -> option Poly)
    el (e : Ckks.ckksElement) (st : Ckks.State) L ctxL (vs : list Poly) :
  getEl st el = Some e ->
  Ckks.Level e = Some L -> at_ (Ckks.contextLevel ckkscontext) L = Some ctxL ->
  Forall2 (fun p v => F ctxL p p = Some v /\ length v = length p) (Ckks.value e) vs ->
  for_range 0 (Z.of_nat (length (Ckks.value e)))
    (fun i st =>
       e ← getEl st el; l ← Ckks.Level e;
       context ← at_ (Ckks.contextLevel ckkscontext) l;
       apply1 (F context) (Val el i) (Val el i) st) st
  = Some (setEl st el (withValue vs e)).
Proof.
  intros He HL Hctx Hvs.
  pose proof (Forall2_length _ _ _ Hvs) as Hlen.
  set (ps := Ckks.value e) in *.
  set (Inv := fun (j : Z) (s : Ckks.State) =>
    s = setEl st el (withValue (take (Z.to_nat j) vs ++ drop (Z.to_nat j) ps) e)).
  destruct (for_range_total Inv
    (fun i st =>
       e ← getEl st el; l ← Ckks.Level e;
       context ← at_ (Ckks.contextLevel ckkscontext) l;
       apply1 (F context) (Val el i) (Val el i) st)
    0 (Z.of_nat (length ps)) st) as (s' & Hrun & Hinv).
  - lia.
  - unfold Inv. cbn [Z.to_nat take drop app]. symmetry. apply setEl_id.
    rewrite He. f_equal. by destruct e.
  - intros j s Hj ->. rewrite getEl_setEl. cbn [mbind option_bind].
    destruct (lookup_lt_is_Some_2 ps (Z.to_nat j)) as [p Hp]; [lia|].
    destruct (lookup_lt_is_Some_2 vs (Z.to_nat j)) as [v Hv]; [lia|].
    destruct (Forall2_lookup_lr _ _ _ _ _ _ Hvs Hp Hv) as [HF Hlv].
    assert (Ckks.Level (withValue (take (Z.to_nat j) vs ++ drop (Z.to_nat j) ps) e)
            = Some L) as ->.
    { unfold Ckks.Level in *. cbn [withValue Ckks.ckksElement_Element Ckks.value].
      fold ps in HL. destruct (Z.to_nat j) as [|n] eqn:Hn.
      - cbn [take drop app]. exact HL.
      - destruct vs as [|v0 vs']; [cbn in Hlen; lia|].
        destruct ps as [|p0 ps']; [cbn in Hlen; lia|].
        cbn [take app lookup list_lookup mbind option_bind] in HL |- *.
        apply Forall2_cons in Hvs as [[_ Hl0] _]. rewrite Hl0. exact HL. }
    cbn [mbind option_bind]. rewrite Hctx. cbn [mbind option_bind].
    unfold apply1. cbn [readPoly writePoly]. rewrite getEl_setEl.
    cbn [mbind option_bind]. unfold at_.
    cbn [value withValue Ckks.ckksElement_Element Ckks.value].
    assert ((take (Z.to_nat j) vs ++ drop (Z.to_nat j) ps) !! Z.to_nat j = Some p) as Hread.
    { rewrite lookup_app_r by (rewrite length_take; lia).
      rewrite length_take, Nat.min_l by lia. rewrite lookup_drop.
      replace (Z.to_nat j + (Z.to_nat j - Z.to_nat j))%nat with (Z.to_nat j) by lia. done. }
    rewrite Hread. cbn [mbind option_bind]. rewrite HF. cbn [mbind option_bind].
    unfold set_. rewrite decide_True by (eapply lookup_lt_Some; eauto).
    cbn [mbind option_bind]. eexists. split; [done|]. unfold Inv.
    rewrite setEl_twice.
    cbn [withValue Ckks.ckksElement_Element Ckks.scale Ckks.currentModulus Ckks.isNTT].
    rewrite (insert_take_drop ps vs (Z.to_nat j) p v) by done.
    replace (Z.to_nat (j + 1)) with (S (Z.to_nat j)) by lia. done.
  - etransitivity; [exact Hrun|]. rewrite Hinv. rewrite Nat2Z.id.
    rewrite take_ge, drop_ge by lia. rewrite app_nil_r. done.
Qed.

Lemma Forall_exists_Forall2 {A B} (R : A -> B -> Prop) (l : list A) :
  Forall (fun x => exists y, R x y) l -> exists k, Forall2 R l k.
Proof.
  induction 1 as [|x l [y Hy] _ [k Hk]]; [exists []; constructor|].
  exists (y :: k). constructor; done.
Qed.

(** [ckksElement.NTT] and [ckksElement.InvNTT] on an element that is out
    of the NTT domain, whose polynomials hold canonical residues of the
    context of its level: a receiver of another degree is refused, and
    nothing changes; [InvNTT] has nothing to do and leaves every receiver
    of the same degree untouched; [NTT] in place transforms every
    polynomial and sets the flag, all else staying the same, and [InvNTT]
    in place then brings the store back to what it was. *)
Theorem NTT_InvNTT_element ckkscontext c0 c1 ctxL N0 (Q : list Z) el e
    (st : Ckks.State) L :
  2 <= N0 < U64.modulus ->
  Forall (fun q => 4 * q < U64.modulus) Q ->
  Forall (fun q => primitiveRoot q mod q <> 0) Q ->
  SetParameters c0 N0 Q = (c1, None) ->
  GenNTTParams primitiveRoot c1 = Some (ctxL, None) ->
  getEl st el = Some e -> Ckks.isNTT e = false ->
  Ckks.Level e = Some L -> at_ (Ckks.contextLevel ckkscontext) L = Some ctxL ->
  Forall (fun p => Shaped ctxL p /\ Canonical ctxL p) (Ckks.value e) ->
  (forall c ec, getEl st c = Some ec -> Degree ec <> Degree e ->
     CkksElement.NTT ckkscontext el c st = Some (st, Some CkksElement.errDegree) /\
     CkksElement.InvNTT ckkscontext el c st = Some (st, Some CkksElement.errDegree)) /\
  (forall c ec, getEl st c = Some ec -> Degree ec = Degree e ->
     CkksElement.InvNTT ckkscontext el c st = Some (st, None)) /\
  exists vs,
    CkksElement.NTT ckkscontext el el st
    = Some (setEl st el
              (Ckks.mkElement vs (Ckks.scale e) (Ckks.currentModulus e) true), None) /\
    length vs = length (Ckks.value e) /\
    CkksElement.InvNTT ckkscontext el el
      (setEl st el (Ckks.mkElement vs (Ckks.scale e) (Ckks.currentModulus e) true))
    = Some (st, None).
Proof.
  intros HN0 HQ62 Hroot Hset Hgen He Hflag HL Hctx Hpolys.
  split; [|split].
  - intros c ec Hc Hd. unfold CkksElement.NTT, CkksElement.InvNTT.
    rewrite He, Hc. cbn [mbind option_bind].
    destruct (Z.eqb_spec (Degree e) (Degree ec)) as [Heq|_]; [congruence|]. done.
  - intros c ec Hc Hd. unfold CkksElement.InvNTT.
    rewrite He, Hc. cbn [mbind option_bind].
    destruct (Z.eqb_spec (Degree e) (Degree ec)) as [_|Hne]; [|congruence].
    rewrite Hflag. done.
  - destruct (Forall_exists_Forall2
      (fun p v => (Context_NTT ctxL p p = Some v /\ length v = length p) /\
                  Context_InvNTT ctxL v v = Some p) (Ckks.value e)) as [vs Hvs].
    { eapply Forall_impl; [exact Hpolys|]. intros p [Hp Hcan].
      destruct (Context_NTT_InvNTT_in_place c0 c1 ctxL N0 Q p HN0 HQ62 Hroot Hset Hgen
                  Hp Hcan) as (v & H1 & H2 & H3).
      exists v. done. }
    pose proof (Forall2_length _ _ _ Hvs) as Hlen.
    exists vs. split; [|split; [done|]].
    + unfold CkksElement.NTT. rewrite He. cbn [mbind option_bind].
      rewrite Z.eqb_refl, Hflag. cbn [negb eqb].
      rewrite (element_loop ckkscontext Context_NTT el e st L ctxL vs He HL Hctx).
      2:{ eapply Forall2_impl; [exact Hvs|]. intros p v [H1 _]. exact H1. }
      cbn [mbind option_bind]. unfold Ckks.SetIsNTT. rewrite getEl_setEl.
      cbn [mbind option_bind]. rewrite setEl_twice. done.
    + set (e1 := Ckks.mkElement vs (Ckks.scale e) (Ckks.currentModulus e) true).
      set (st1 := setEl st el e1).
      assert (getEl st1 el = Some e1) as He1 by apply getEl_setEl.
      assert (Ckks.Level e1 = Some L) as HL1.
      { unfold Ckks.Level in *. cbn [e1 Ckks.value].
        destruct (Ckks.value e) as [|p0 ps]; [done|].
        destruct vs as [|v0 vs']; [cbn in Hlen; lia|].
        apply Forall2_cons in Hvs as [[[_ Hl0] _] _].
        cbn [lookup list_lookup mbind option_bind] in HL |- *. rewrite Hl0. exact HL. }
      unfold CkksElement.InvNTT. rewrite He1. cbn [mbind option_bind].
      rewrite Z.eqb_refl. cbn [negb eqb e1 Ckks.isNTT].
      rewrite (element_loop ckkscontext Context_InvNTT el e1 st1 L ctxL (Ckks.value e)
                 He1 HL1 Hctx).
      2:{ cbn [e1 Ckks.value]. apply Forall2_flip.
          eapply Forall2_impl; [exact Hvs|]. intros p v [[_ H1] H2]. done. }
      cbn [mbind option_bind]. unfold Ckks.SetIsNTT. rewrite getEl_setEl.
      cbn [mbind option_bind]. unfold st1. rewrite !setEl_twice.
      cbn [withValue Ckks.ckksElement_Element Ckks.value Ckks.scale Ckks.currentModulus
           Ckks.isNTT e1].
      rewrite <- Hflag. rewrite setEl_id; [done|]. rewrite He. by destruct e.
Qed.

End ElementTransforms.

Section ElementTransformsExamples.

Import Ring Mem Shape Examples.

Lemma NTT_InvNTT_element_witness :
  exists vs,
    CkksElement.NTT (Ckks.ckkscontext ckksEvaluator) 0%nat 0%nat ckksState
    = Some (setEl ckksState 0%nat (Ckks.mkElement vs 4 17 true), None) /\
    length vs = 2%nat /\
    CkksElement.InvNTT (Ckks.ckkscontext ckksEvaluator) 0%nat 0%nat
      (setEl ckksState 0%nat (Ckks.mkElement vs 4 17 true))
    = Some (ckksState, None).
Proof.
  destruct (NTT_InvNTT_element (fun _ => 3) (Ckks.ckkscontext ckksEvaluator)
              NewContext (SetParameters NewContext 2 [17]).1 ring17 2 [17]
              0%nat ckksCoeff ckksState 0) as (_ & _ & Hround).
  - rewrite modulus_eq. lia.
  - apply Forall_cons_2; [rewrite modulus_eq; lia|apply Forall_nil_2].
  - apply Forall_cons_2; [vm_compute; discriminate|apply Forall_nil_2].
  - reflexivity.
  - vm_compute. reflexivity.
  - reflexivity.
  - reflexivity.
  - reflexivity.
  - reflexivity.
  - assert (forall a b : Z, 0 <= a < 17 -> 0 <= b < 17 ->
              Shaped ring17 [[a; b]] /\ Canonical ring17 [[a; b]]) as Hpoly.
    { intros a b Ha Hb. split.
      - split; [vm_compute; lia|].
        intros [|i] r Hi Hr; [injection Hr as <-; reflexivity|vm_compute in Hi; lia].
      - intros i q r j z Hq Hr Hj Hz.
        destruct i as [|i]; [|vm_compute in Hq; discriminate Hq].
        vm_compute in Hq. injection Hq as <-. injection Hr as <-.
        destruct j as [|[|j]]; [injection Hz as <-; done|injection Hz as <-; done|].
        vm_compute in Hj. lia. }
    unfold ckksCoeff. cbn [Ckks.value].
    apply Forall_cons_2; [apply Hpoly; lia|].
    apply Forall_cons_2; [apply Hpoly; lia|apply Forall_nil_2].
  - exact Hround.
Defined.

End ElementTransformsExamples.


(** ** Scheme-A: scaling an operand into the pool ciphertext *)

Section PoolAlignment.

Import Mem Ckks Outline.

Variable evaluator : Evaluator.

Lemma writePoly_size (st st' : State) r p l (n : nat) :
  writePoly st r p = Some st' ->
  (exists e, getEl st l = Some e /\ length (value e) = n) ->
  exists e, getEl st' l = Some e /\ length (value e) = n.
Proof.
  destruct r as [el i|i]; cbn [writePoly]; intros Hrun (e & He & Hn).
  - apply bind_Some in Hrun as (e' & He' & Hrun).
    apply bind_Some in Hrun as (v & Hv & [= <-]).
    apply set_inv in Hv as [Hi ->].
    destruct (decide (l = el)) as [->|Hne].
    + rewrite getEl_setEl. eexists. split; [done|].
      cbn [withValue ckksElement_Element value]. rewrite length_insert.
      assert (e' = e) as -> by congruence. exact Hn.
    + rewrite getEl_setEl_ne by done. eauto.
  - destruct (decide _); [|discriminate]. injection Hrun as <-. eauto.
Qed.

(** [MulByPow2] runs over the components of its receiver: it panics on a
    receiver with more components than the element to multiply. *)
Lemma MulByPow2_short ct0 pow2 out (st : State) e0 eOut :
  getEl st ct0 = Some e0 -> getEl st out = Some eOut ->
  (length (value e0) < length (value eOut))%nat ->
  MulByPow2 evaluator ct0 pow2 (Some out) st = None.
Proof.
  intros H0 HOut Hlt. unfold MulByPow2. rewrite H0. cbn [mbind option_bind].
  destruct (Level e0) as [l0|]; [|done]. cbn [mbind option_bind].
  rewrite HOut. cbn [mbind option_bind].
  destruct (Level eOut) as [lOut|]; [|done]. cbn [mbind option_bind].
  match goal with
  | |- context [for_range ?lo ?hi ?body st] =>
      destruct (for_range lo hi body st) as [s|] eqn:Hloop; [|done]
  end.
  exfalso.
  apply (for_range_inv
    (fun j (s : State) =>
       j <= Z.of_nat (length (value e0)) /\
       exists e, getEl s ct0 = Some e /\ length (value e) = length (value e0))
    _ _ _ _ _ (Nat2Z.is_nonneg _)) in Hloop.
  - lia.
  - split; [lia|]. eauto.
  - intros j s0 s1 Hj [Hle (e & He & Hn)] Hbody.
    apply bind_Some in Hbody as (c & _ & Hbody).
    unfold apply1 in Hbody.
    apply bind_Some in Hbody as (a & Ha & Hbody).
    apply bind_Some in Hbody as (d & _ & Hbody).
    apply bind_Some in Hbody as (r & _ & Hbody).
    split.
    + cbn [readPoly] in Ha. rewrite He in Ha. cbn [mbind option_bind] in Ha.
      unfold at_ in Ha. apply lookup_lt_Some in Ha.
      change (Mem.value e) with (value e) in Ha. lia.
    + eapply writePoly_size; eauto.
Qed.

(** [Add], [AddNoMod], [Sub] and [SubNoMod] with an operand of smaller
    scale that has fewer components than the pool ciphertext of the
    evaluator (a plaintext: the pool ciphertext has degree 1), when that
    operand is not the receiver: it is to be multiplied by a power of two
    into the pool ciphertext, [MulByPow2] runs over the components of the
    pool ciphertext, and the call panics. *)
Theorem binary_smaller_plaintext_panics c0 c1 ctOut (st : State) e0 e1 ep :
  getEl st c0 = Some e0 -> getEl st c1 = Some e1 ->
  getEl st (ctxpool evaluator) = Some ep -> ctxpool evaluator <> ctOut ->
  (scale e0 < scale e1 /\ ctOut <> c0 /\
   (length (value e0) < length (value ep))%nat) \/
  (scale e1 < scale e0 /\ ctOut = c0 /\
   (length (value e1) < length (value ep))%nat) ->
  (forall evaluate, evaluateInPlace evaluator c0 c1 ctOut evaluate st = None) /\
  (forall evaluate st',
     additive evaluator evaluate (OpPtr (Some c0)) (OpPtr (Some c1)) (Some ctOut) st
     <> Some (st', None)) /\
  (forall evaluate st',
     subtractive evaluator evaluate (OpPtr (Some c0)) (OpPtr (Some c1)) (Some ctOut) st
     <> Some (st', None)).
Proof.
  intros H0 H1 Hp Hpool Hcase.
  assert (forall evaluate, evaluateInPlace evaluator c0 c1 ctOut evaluate st = None) as Hpanic.
  { intros evaluate. unfold evaluateInPlace. rewrite H0, H1. cbn [mbind option_bind].
    destruct (Resize evaluator ctOut _ st) as [s1|] eqn:Hres; [|done].
    cbn [mbind option_bind].
    destruct (Ciphertext ctOut s1) as [ct|] eqn:Hct; [|done].
    cbn [mbind option_bind].
    assert (ct = ctOut) as ->.
    { unfold Ciphertext in Hct. apply bind_Some in Hct as (e & _ & Hct).
      destruct (decide _); [discriminate|]. by injection Hct as <-. }
    destruct (getEl s1 ctOut) as [eOut|]; [|done]. cbn [mbind option_bind].
    destruct (getEl s1 c0) as [e0a|]; [|done]. cbn [mbind option_bind].
    destruct (getEl s1 c1) as [e1a|]; [|done]. cbn [mbind option_bind].
    destruct (Level eOut) as [lOut|]; [|done]. cbn [mbind option_bind].
    destruct (Level e0a) as [l0|]; [|done]. cbn [mbind option_bind].
    destruct (Level e1a) as [l1|]; [|done]. cbn [mbind option_bind].
    destruct (DropLevel evaluator ctOut _ s1) as [[s2 err]|] eqn:Hdrop; [|done].
    cbn [mbind option_bind fst].
    assert (forall l, l <> ctOut -> getEl s2 l = getEl st l) as Hother.
    { intros l Hne. rewrite (DropLevel_other _ _ _ _ _ _ l Hdrop) by done.
      apply (Resize_other _ _ _ _ _ l Hres). done. }
    assert (forall l e, getEl st l = Some e ->
              exists e', getEl s2 l = Some e' /\ scale e' = scale e) as Hscale.
    { intros l e He.
      assert (0 <= Z.max (Degree e0) (Degree e1) < U64.modulus) as Hmax.
      { assert (forall e : ckksElement, 0 <= Degree e < U64.modulus) as Hd.
        { intros x. unfold Degree, U64.wrap. apply Z.mod_pos_bound. unfold U64.modulus. lia. }
        pose proof (Hd e0). pose proof (Hd e1). lia. }
      destruct (Resize_outline _ _ _ _ _ Hmax Hres) as (Hoth & eO & HeO & Hout1).
      destruct (decide (l = ctOut)) as [->|Hne].
      - rewrite <- (DropLevel_outline _ _ _ _ _ _ ctOut Hdrop) in Hout1.
        apply outline_Some in Hout1 as (e' & He' & _ & Hs).
        exists e'. split; [done|]. congruence.
      - exists e. rewrite Hother by done. done. }
    enough (alignScales evaluator c0 c1 ctOut s2 = None) as -> by done.
    unfold alignScales.
    destruct (Hscale c0 e0 H0) as (e0' & H0' & Hs0).
    destruct (Hscale c1 e1 H1) as (e1' & H1' & Hs1).
    rewrite H0', H1'. cbn [mbind option_bind]. rewrite Hs0, Hs1.
    pose proof (Hother _ Hpool) as Hp2. rewrite Hp in Hp2.
    destruct Hcase as [(Hlt & Hne & Hlen)|(Hlt & -> & Hlen)].
    - (* the first operand goes to the pool *)
      rewrite (bool_decide_eq_false_2 _ Hne).
      assert (getEl s2 c0 = Some e0) as H0''.
      { rewrite Hother by congruence. done. }
      destruct (Z.ltb_spec (scale e0) (scale e1)); [|lia].
      rewrite (MulByPow2_short c0 _ (ctxpool evaluator) s2 e0 ep H0'' Hp2 Hlen).
      destruct (bool_decide (ctOut = c1)); done.
    - (* the second operand goes to the pool *)
      rewrite bool_decide_eq_true_2 by done.
      assert (c1 <> c0) as Hne.
      { intros ->. assert (e1 = e0) by congruence. subst. lia. }
      assert (getEl s2 c1 = Some e1) as H1''.
      { rewrite Hother by done. done. }
      destruct (Z.ltb_spec (scale e1) (scale e0)); [|lia].
      rewrite (MulByPow2_short c1 _ (ctxpool evaluator) s2 e1 ep H1'' Hp2 Hlen).
      done. }
  split; [exact Hpanic|].
  pose proof (getElemAndCheckBinary_pointers c0 c1 ctOut st e0 e1 H0 H1) as Hchk.
  split.
  - intros evaluate st'. unfold additive, opDegree. cbn [deref].
    rewrite H0, H1. cbn [mbind option_bind fst snd].
    destruct (Hchk (Z.max (Degree e0) (Degree e1))) as [->|[[err ->]| ->]];
      cbn [mbind option_bind]; [done|congruence|].
    destruct (minLevel3 c0 c1 ctOut st) as [m|]; [|done]. cbn [mbind option_bind].
    destruct (at_ _ m) as [context|]; [|done]. cbn [mbind option_bind].
    rewrite Hpanic. done.
  - intros evaluate st'. unfold subtractive, opDegree. cbn [deref].
    rewrite H0, H1. cbn [mbind option_bind fst snd].
    destruct (Hchk (Z.max (Degree e0) (Degree e1))) as [->|[[err ->]| ->]];
      cbn [mbind option_bind]; [done|congruence|].
    destruct (minLevel3 c0 c1 ctOut st) as [m|]; [|done]. cbn [mbind option_bind].
    destruct (at_ _ m) as [context|]; [|done]. cbn [mbind option_bind].
    rewrite Hpanic. done.
Qed.

End PoolAlignment.

Section PoolAlignmentExamples.

Import Mem Ckks Examples.

Lemma binary_smaller_plaintext_panics_witness :
  (forall evaluate,
     evaluateInPlace ckksEvaluator 0%nat 1%nat 0%nat evaluate
       (mkStore {[ 0%nat := ckksLevel1;
                   1%nat := mkElement [ [[1; 2]; [3; 4]] ] 4 (17 * 97) true;
                   9%nat := ckksReceiver ]} [])
     = None) /\
  (forall evaluate st',
     additive ckksEvaluator evaluate (OpPtr (Some 0%nat)) (OpPtr (Some 1%nat)) (Some 0%nat)
       (mkStore {[ 0%nat := ckksLevel1;
                   1%nat := mkElement [ [[1; 2]; [3; 4]] ] 4 (17 * 97) true;
                   9%nat := ckksReceiver ]} [])
     <> Some (st', None)).
Proof.
  destruct (binary_smaller_plaintext_panics ckksEvaluator 0%nat 1%nat 0%nat
              (mkStore {[ 0%nat := ckksLevel1;
                          1%nat := mkElement [ [[1; 2]; [3; 4]] ] 4 (17 * 97) true;
                          9%nat := ckksReceiver ]} [])
              ckksLevel1 (mkElement [ [[1; 2]; [3; 4]] ] 4 (17 * 97) true) ckksReceiver)
    as (Hpanic & Hadd & _).
  - reflexivity.
  - reflexivity.
  - reflexivity.
  - cbn. lia.
  - right. split; [cbn; lia|]. split; [reflexivity|cbn; lia].
  - split; [exact Hpanic|exact Hadd].
Defined.

End PoolAlignmentExamples.
